(** * geomageddon: classification, colour resolution and scale-driven culling

    A shallow embedding of the pure core of [src/code/geomageddon.py]:
    the colour helpers ([_hex_to_rgb], [_rgb_to_hex], [mix_two], [mix_many],
    [jitter], [mix_weighted]), the unit-code parser of [GeoSiglaStyler]
    ([_extract_idade_code], [_tokenize_rest], [_norm_greek], [_letters_stem],
    [_parse_sigla], [_macro_from_idade_code_simple]), the domino part of
    [classify], the scale calculator ([width_to_scale] with its helpers
    [_to_mm] and [_round_nice]), the CRS guard and threshold of
    [cull_small_parts_by_scale], and the collision passes of
    [_build_color_map_for_coarse].

    Conventions.
    - Python [str] values are [string]s; the embedding is exact on ASCII text
      (one byte per character).  A byte above 127 is never a letter, a digit
      or white space here.
    - Python [None] is [None]; a raised exception is [Err].
    - Python [float] values are exact rationals ([Q]) except in module [B64],
      which re-states [mix_weighted] on IEEE-754 binary64 numbers, and in
      module [Pow2], which holds what the proofs about [B64] need.  With the
      weights 0, 1/2 and 1 the products and sums of [mix_two] are exact in
      binary64, and so are the candidates of [_round_nice] for denominators
      between 1 and 10^15, so both readings agree there; [math.log10] is
      read as the exact logarithm. *)

From Stdlib Require Import Bool Arith ZArith QArith Qround Qabs Qpower Lia Lqa List Ascii String.
From Stdlib Require Import PrimFloat FloatOps SpecFloat FloatAxioms.
From Stdlib Require Import Permutation.
Import ListNotations.

Open Scope string_scope.

(** ** Python string primitives *)

Module Py.

Definition code (c : ascii) : nat := nat_of_ascii c.

Definition is_upper (c : ascii) : bool := (65 <=? code c)%nat && (code c <=? 90)%nat.
Definition is_lower (c : ascii) : bool := (97 <=? code c)%nat && (code c <=? 122)%nat.
Definition is_digit (c : ascii) : bool := (48 <=? code c)%nat && (code c <=? 57)%nat.
Definition is_alpha (c : ascii) : bool := is_upper c || is_lower c.

(** White space as [str.strip] and [int] see it, on ASCII. *)
Definition is_space (c : ascii) : bool :=
  ((9 <=? code c)%nat && (code c <=? 13)%nat)
  || ((28 <=? code c)%nat && (code c <=? 32)%nat).

Definition to_upper (c : ascii) : ascii :=
  if is_lower c then ascii_of_nat (code c - 32) else c.
Definition to_lower (c : ascii) : ascii :=
  if is_upper c then ascii_of_nat (code c + 32) else c.

Fixpoint map_str (f : ascii -> ascii) (s : string) : string :=
  match s with
  | EmptyString => EmptyString
  | String c t => String (f c) (map_str f t)
  end.

(** [s.upper()] and [s.lower()] *)
Definition upper : string -> string := map_str to_upper.
Definition lower : string -> string := map_str to_lower.

Fixpoint filter_str (p : ascii -> bool) (s : string) : string :=
  match s with
  | EmptyString => EmptyString
  | String c t => if p c then String c (filter_str p t) else filter_str p t
  end.

Fixpoint all_str (p : ascii -> bool) (s : string) : bool :=
  match s with
  | EmptyString => true
  | String c t => p c && all_str p t
  end.

(** The longest leading run of characters satisfying [p], and what follows. *)
Fixpoint take_while (p : ascii -> bool) (s : string) : string :=
  match s with
  | EmptyString => EmptyString
  | String c t => if p c then String c (take_while p t) else EmptyString
  end.

Fixpoint drop_while (p : ascii -> bool) (s : string) : string :=
  match s with
  | EmptyString => EmptyString
  | String c t => if p c then drop_while p t else s
  end.

(** [s[n:]] and [s[:n]] for [n >= 0] *)
Fixpoint drop (n : nat) (s : string) : string :=
  match n, s with
  | O, _ => s
  | S n', String _ t => drop n' t
  | S _, EmptyString => EmptyString
  end.

Fixpoint take (n : nat) (s : string) : string :=
  match n, s with
  | O, _ => EmptyString
  | S n', String c t => String c (take n' t)
  | S _, EmptyString => EmptyString
  end.

(** [s[:n]] for any integer [n]: a negative bound counts from the end. *)
Definition slice_to (n : Z) (s : string) : string :=
  if (n <? 0)%Z
  then take (Z.to_nat (Z.of_nat (String.length s) + n)) s
  else take (Z.to_nat n) s.

(** [s[a:b]] for [0 <= a <= b] *)
Definition slice (a b : nat) (s : string) : string := take (b - a) (drop a s).

Definition startswith (s p : string) : bool := String.prefix p s.

Definition endswith (s p : string) : bool :=
  (String.length p <=? String.length s)%nat
  && String.eqb (drop (String.length s - String.length p) s) p.

(** [p in s] *)
Fixpoint contains (p s : string) : bool :=
  String.prefix p s
  || match s with
     | EmptyString => false
     | String _ t => contains p t
     end.

Definition rev_str (s : string) : string :=
  string_of_list_ascii (List.rev (list_ascii_of_string s)).

Definition lstrip (p : ascii -> bool) (s : string) : string := drop_while p s.
Definition rstrip (p : ascii -> bool) (s : string) : string :=
  rev_str (drop_while p (rev_str s)).
Definition strip (p : ascii -> bool) (s : string) : string := rstrip p (lstrip p s).

Definition is_char (c : ascii) : ascii -> bool := fun d => Ascii.eqb d c.

(** A string is truthy when it is not empty. *)
Definition truthy (s : string) : bool := negb (String.eqb s "").

(** [a or b] on strings *)
Definition or_else (a b : string) : string := if truthy a then a else b.

Definition mem (s : string) (l : list string) : bool := existsb (String.eqb s) l.

(** [[t for t in re.split(r"_+", s) if t]]: the maximal runs without "_". *)
Fixpoint split_runs (cur : string) (s : string) : list string :=
  match s with
  | EmptyString => if truthy cur then [cur] else []
  | String c t =>
      if Ascii.eqb c "_"
      then (if truthy cur then cur :: split_runs "" t else split_runs "" t)
      else split_runs (cur ++ String c "") t
  end.

End Py.

(** ** CodeParser: the unit-code (sigla) parser *)

Module Sigla.

Record Config := {
  stem_len : Z;
  ignore_allcaps : list string
}.

(** The defaults of [GeoSiglaStyler.__init__]. *)
Definition default_config : Config :=
  {| stem_len := 2; ignore_allcaps := ["C"; "D"; "E"; "A"; "B"] |}.

(** The character class [[A-Z0-9_]] *)
Definition is_code_char (c : ascii) : bool :=
  Py.is_upper c || Py.is_digit c || Ascii.eqb c "_".

(** [m = re.match(r"^([A-Z0-9_]+)", s); base = m.group(1) if m else ""] *)
Definition leading_code (s : string) : string := Py.take_while is_code_char s.

Definition _extract_idade_code (sigla : string) : string :=
  let s := sigla in
  let base := leading_code s in
  let rest := Py.drop (String.length base) s in
  if Py.endswith base "C_" && Py.startswith (Py.lower rest) "cortado_"
  then base ++ "CORTADO_"
  else base.

Definition _tokenize_rest (sigla idade_code : string) : list string :=
  let rest := Py.lstrip (Py.is_char "_") (Py.drop (String.length idade_code) sigla) in
  if Py.truthy rest then Py.split_runs "" rest else [].

Definition GREEK : list (string * string) :=
  [("ALFA", "alfa"); ("ALPHA", "alfa"); ("BETA", "beta"); ("GAMMA", "gamma");
   ("GAMA", "gamma"); ("DELTA", "delta"); ("LAMBDA", "lambda"); ("MU", "mu")].

Fixpoint dict_get (k : string) (d : list (string * string)) : option string :=
  match d with
  | [] => None
  | (k', v) :: d' => if String.eqb k k' then Some v else dict_get k d'
  end.

Definition _norm_greek (tok : string) : option string :=
  let t := Py.upper (Py.filter_str Py.is_alpha tok) in
  dict_get t GREEK.

Definition _letters_stem (cfg : Config) (tok : string) : option string :=
  let tok := Py.strip (Py.is_char "_") tok in
  let tok := Py.drop_while Py.is_digit tok in
  let run := Py.take_while Py.is_lower tok in
  if Py.truthy run then Some (Py.slice_to (stem_len cfg) run) else None.

(** [re.fullmatch(r"[A-Z0-9]+", t)] *)
Definition is_allcaps (t : string) : bool :=
  Py.truthy t && Py.all_str (fun c => Py.is_upper c || Py.is_digit c) t.

Definition opt_truthy (o : option string) : bool :=
  match o with Some s => Py.truthy s | None => false end.

(** The [for t in toks] loop of [_parse_sigla], with its [continue]s and its
    [break]; the state is the pair [(greek, stem)]. *)
Fixpoint scan_tokens (cfg : Config) (toks : list string)
         (greek stem : option string) : option string * option string :=
  match toks with
  | [] => (greek, stem)
  | t :: ts =>
      if is_allcaps t && Py.mem t (ignore_allcaps cfg)
      then scan_tokens cfg ts greek stem
      else
        let g := match greek with None => _norm_greek t | Some _ => None end in
        if opt_truthy g
        then scan_tokens cfg ts g stem
        else
          let stem' :=
            match stem with
            | None => let st := _letters_stem cfg t in
                      if opt_truthy st then st else None
            | Some _ => stem
            end in
          if opt_truthy greek && opt_truthy stem'
          then (greek, stem')
          else scan_tokens cfg ts greek stem'
  end.

Definition opt_str (o : option string) : string :=
  match o with Some s => s | None => "" end.

Record Parsed := {
  idade_code : string;
  greek : string;
  stem : string;
  coarse_grp : string
}.

Definition _parse_sigla (cfg : Config) (s : string) : Parsed :=
  let idade := _extract_idade_code s in
  let toks := _tokenize_rest s idade in
  let '(greek, stem) := scan_tokens cfg toks None None in
  let coarse :=
    if opt_truthy greek then idade ++ "|" ++ opt_str greek
    else if opt_truthy stem then idade ++ "|" ++ opt_str stem
    else idade in
  {| idade_code := idade; greek := opt_str greek; stem := opt_str stem;
     coarse_grp := coarse |}.

(** The four macro-era labels. *)
Definition PRE_CAMBRIANO : string := "Pre-cambriano".
Definition PALEOZOICO : string := "Paleozóico".
Definition MESOZOICO : string := "Mesozóico".
Definition CENOZOICO : string := "Cenozóico".

Definition starts_any (s : string) (ps : list string) : bool :=
  existsb (Py.startswith s) ps.

(** [P(?!P)]: the letter, not followed by itself. *)
Definition starts_not_doubled (s : string) (c : ascii) : bool :=
  match s with
  | String c1 t =>
      Ascii.eqb c1 c
      && match t with String c2 _ => negb (Ascii.eqb c2 c) | EmptyString => true end
  | EmptyString => false
  end.

Definition _macro_from_idade_code_simple (idade_code : string) : string :=
  let ic := Py.upper idade_code in
  if Py.contains "C_CORTADO" ic then PALEOZOICO
  else if starts_any ic ["A"; "PP"; "MP"; "NP"] then PRE_CAMBRIANO
  else if starts_any ic ["J"; "K"; "T"; "JK"] then MESOZOICO
  else if starts_any ic ["Q"; "N"; "PG"; "PL"; "PE"; "E"] then CENOZOICO
  else if starts_not_doubled ic "P" || Py.startswith ic "D"
          || starts_not_doubled ic "C" || Py.startswith ic "S"
          || Py.startswith ic "O" || Py.startswith ic "CM" then PALEOZOICO
  else "".

(** A run that "ends in a single trailing letter followed by an underscore",
    as the specification words the special case. *)
Definition ends_in_letter_underscore (base : string) : bool :=
  match Py.rev_str base with
  | String u (String l _) => Ascii.eqb u "_" && Py.is_alpha l
  | _ => false
  end.

End Sigla.

(** ** Results and exceptions *)

(** A Python call either returns a value or raises. *)
Inductive exn : Type := ValueError | OverflowError | KeyError.

Inductive result (A : Type) : Type :=
  | Ok (a : A)
  | Err (e : exn).
Arguments Ok {A} a.
Arguments Err {A} e.

Definition bind {A B : Type} (r : result A) (k : A -> result B) : result B :=
  match r with
  | Ok a => k a
  | Err e => Err e
  end.

Notation "x <- r ;; k" := (bind r (fun x => k))
  (at level 61, r at next level, right associativity).
Notation "' p <- r ;; k" := (bind r (fun p => k))
  (at level 61, p pattern, r at next level, right associativity).

Fixpoint map_result {A B : Type} (f : A -> result B) (l : list A) : result (list B) :=
  match l with
  | [] => Ok []
  | a :: l' => b <- f a ;; bs <- map_result f l' ;; Ok (b :: bs)
  end.

(** ** Colour helpers *)

Module Color.

Definition rgb : Type := (Z * Z * Z)%type.

Definition hex_value (c : ascii) : option Z :=
  let n := Z.of_nat (Py.code c) in
  if Py.is_digit c then Some (n - 48)%Z
  else if ((65 <=? n) && (n <=? 70))%Z then Some (n - 55)%Z
  else if ((97 <=? n) && (n <=? 102))%Z then Some (n - 87)%Z
  else None.

(** The digits of an integer literal: hexadecimal digits, single
    underscores allowed between two digits ([after_digit] tells whether the
    previous character was a digit). *)
Fixpoint digits_value (acc : Z) (after_digit : bool) (s : string) : option Z :=
  match s with
  | EmptyString => if after_digit then Some acc else None
  | String c t =>
      if Ascii.eqb c "_"
      then (if after_digit then digits_value acc false t else None)
      else match hex_value c with
           | Some d => digits_value (acc * 16 + d)%Z true t
           | None => None
           end
  end.

(** [int(s, 16)]: white space around, an optional sign, an optional
    [0x] prefix, then the digits. *)
Definition int16 (s : string) : result Z :=
  let s := Py.strip Py.is_space s in
  let '(neg, body) :=
    match s with
    | String "-" t => (true, t)
    | String "+" t => (false, t)
    | _ => (false, s)
    end in
  let digits :=
    match body with
    | String "0" (String "x" t) | String "0" (String "X" t) =>
        match t with
        | String "_" t' => digits_value 0 false t'
        | _ => digits_value 0 false t
        end
    | _ => digits_value 0 false body
    end in
  match digits with
  | Some v => Ok (if neg then (- v)%Z else v)
  | None => Err ValueError
  end.

Definition _hex_to_rgb (hex_str : string) : result rgb :=
  let h := Py.lstrip (Py.is_char "#") hex_str in
  r <- int16 (Py.slice 0 2 h) ;;
  g <- int16 (Py.slice 2 4 h) ;;
  b <- int16 (Py.slice 4 6 h) ;;
  Ok (r, g, b).

Definition clamp255 (v : Z) : Z := Z.max 0 (Z.min 255 v).

Definition hex_digit (d : Z) : ascii :=
  if (d <? 10)%Z then ascii_of_nat (Z.to_nat (d + 48))
  else ascii_of_nat (Z.to_nat (d + 55)).

(** ["{:02X}".format(v)] for [0 <= v <= 255] *)
Definition hex2 (v : Z) : string :=
  String (hex_digit (v / 16)) (String (hex_digit (v mod 16)) "").

Definition _rgb_to_hex (c : rgb) : string :=
  let '(r, g, b) := c in
  "#" ++ hex2 (clamp255 r) ++ hex2 (clamp255 g) ++ hex2 (clamp255 b).

(** [int(x)] on a float: truncation towards zero. *)
Definition trunc (q : Q) : Z := Z.quot (Qnum q) (Zpos (Qden q)).

(** [round(x)] on a float: the nearest integer, ties to the even one. *)
Definition round_half_even (q : Q) : Z :=
  let f := Qfloor q in
  let d := (q - inject_Z f)%Q in
  match (d ?= 1 # 2)%Q with
  | Lt => f
  | Gt => (f + 1)%Z
  | Eq => if Z.even f then f else (f + 1)%Z
  end.

Definition mix_two (c1 c2 : string) (a : Q) : result string :=
  if negb (Py.truthy c1) && negb (Py.truthy c2) then Ok ""
  else if negb (Py.truthy c1) then Ok c2
  else if negb (Py.truthy c2) then Ok c1
  else
    '(r1, g1, b1) <- _hex_to_rgb c1 ;;
    '(r2, g2, b2) <- _hex_to_rgb c2 ;;
    let mix (x y : Z) : Z :=
      trunc ((1 - a) * inject_Z x + a * inject_Z y)%Q in
    Ok (_rgb_to_hex (mix r1 r2, mix g1 g2, mix b1 b2)).

Definition sumZ (l : list Z) : Z := fold_left Z.add l 0%Z.

Definition mix_many (colors : list string) : result string :=
  let cols := filter Py.truthy colors in
  match cols with
  | [] => Ok ""
  | _ =>
      cs <- map_result _hex_to_rgb cols ;;
      let n := Z.of_nat (List.length cs) in
      let mean (f : rgb -> Z) : Z :=
        trunc (inject_Z (sumZ (map f cs)) / inject_Z n)%Q in
      Ok (_rgb_to_hex (mean (fun c => fst (fst c)),
                       mean (fun c => snd (fst c)),
                       mean (fun c => snd c)))
  end.

(** [colorsys] is Python's standard library, not this repository: [jitter]
    takes its two conversions as they are. *)
Section Jitter.

Variable rgb_to_hls : Q * Q * Q -> Q * Q * Q.
Variable hls_to_rgb : Q * Q * Q -> Q * Q * Q.

Definition phi : Q := 61803398875 # 100000000000.

(** [x % 1.0] *)
Definition mod1 (x : Q) : Q := (x - inject_Z (Qfloor x))%Q.

Definition qmax (x y : Q) : Q := if Qle_bool x y then y else x.
Definition qmin (x y : Q) : Q := if Qle_bool x y then x else y.

(** [(-1)**k] *)
Definition sign_pow (k : nat) : Q := if Nat.even k then 1 else (- (1))%Q.

Definition jitter (hex_color : string) (k : nat) (dh dl : Q) : result string :=
  if negb (Py.truthy hex_color) then Ok ""
  else
    '(r, g, b) <- _hex_to_rgb hex_color ;;
    let r := (inject_Z r / 255)%Q in
    let g := (inject_Z g / 255)%Q in
    let b := (inject_Z b / 255)%Q in
    let '(h, l, s) := rgb_to_hls (r, g, b) in
    let h := mod1 (h + (inject_Z (Z.of_nat k) + 1) * phi * dh)%Q in
    let l := qmax 0 (qmin 1 (l + sign_pow k * dl)%Q) in
    let '(r, g, b) := hls_to_rgb (h, l, s) in
    Ok (_rgb_to_hex (trunc (r * 255)%Q, trunc (g * 255)%Q, trunc (b * 255)%Q)).

End Jitter.

Fixpoint zip {A B : Type} (l1 : list A) (l2 : list B) : list (A * B) :=
  match l1, l2 with
  | a :: l1', b :: l2' => (a, b) :: zip l1' l2'
  | _, _ => []
  end.

Definition sumQ (l : list Q) : Q := fold_left Qplus l 0%Q.

(** [[(c, float(w)) for c, w in zip(colors, weights) if c and float(w) > 0]] *)
Definition weighted_pairs (colors : list string) (weights : list Q) : list (string * Q) :=
  filter (fun cw => Py.truthy (fst cw) && negb (Qle_bool (snd cw) 0)) (zip colors weights).

(** One term [_hex_to_rgb(c)[i] * w] of a channel sum; [f] selects the
    channel. *)
Definition channel_term (f : rgb -> Z) (cw : string * Q) : result Q :=
  c <- _hex_to_rgb (fst cw) ;; Ok (inject_Z (f c) * snd cw)%Q.

(** [int(round(sum(_hex_to_rgb(c)[i] * w for c, w in pairs) / sw))] *)
Definition channel_mean (pairs : list (string * Q)) (sw : Q) (f : rgb -> Z) : result Z :=
  terms <- map_result (channel_term f) pairs ;;
  Ok (round_half_even (sumQ terms / sw)%Q).

(** The body of [mix_weighted] after its [if not pairs] guard. *)
Definition mix_pairs (pairs : list (string * Q)) : result string :=
  let sw := sumQ (map snd pairs) in
  if Qle_bool sw 0 then Ok ""
  else
    R <- channel_mean pairs sw (fun c => fst (fst c)) ;;
    G <- channel_mean pairs sw (fun c => snd (fst c)) ;;
    B <- channel_mean pairs sw (fun c => snd c) ;;
    Ok (_rgb_to_hex (R, G, B)).

(** [mix_weighted] in exact arithmetic. *)
Definition mix_weighted (colors : list string) (weights : list Q) : result string :=
  let pairs := weighted_pairs colors weights in
  match pairs with
  | [] => Ok ""
  | _ => mix_pairs pairs
  end.

(** The canonical form of a colour: "#" and six upper-case hexadecimal
    digits, so that each channel reads as a number from 0 to 255. *)
Definition is_hex_upper (c : ascii) : bool :=
  Py.is_digit c || ((65 <=? Py.code c)%nat && (Py.code c <=? 70)%nat).

Definition is_canonical (s : string) : bool :=
  match s with
  | String h t =>
      Ascii.eqb h "#" && (String.length t =? 6)%nat && Py.all_str is_hex_upper t
  | EmptyString => false
  end.

End Color.

(** ** AgeDominoResolver: the domino part of [classify] *)

Module Domino.

Import Sigla.

Definition FANEROZOICO_LABEL : string := "Fanerozóico".
Definition PRE_PALEO : string := "Pre-cambriano|Paleozóico".
Definition PALEO_MESO : string := "Paleozóico|Mesozóico".
Definition MESO_CENO : string := "Mesozóico|Cenozóico".

Definition EON : list string := ["ARQUEANO"; "PROTEROZOICO"; "FANEROZOICO"].
Definition ERA : list string := ["PALEOZOICO"; "MESOZOICO"; "CENOZOICO"].

(** One input row: the unit code and the four free-text range fields
    ([None] is a missing value). *)
Record Row := {
  sigla : string;
  eon_min : option string;
  eon_max : option string;
  era_min : option string;
  era_max : option string
}.

Section Classify.

(** [''.join(c for c in unicodedata.normalize('NFD', s) if
    unicodedata.category(c) != 'Mn')]: Unicode's decomposition tables are
    not part of the repository; the identity on ASCII text. *)
Variable strip_marks : string -> string.

(** The inner [norm] of [_choose_minmax]. *)
Definition norm (domain : list string) (x : option string) : option string :=
  match x with
  | None => None
  | Some x =>
      let s := Py.strip Py.is_space x in
      if negb (Py.truthy s) then None
      else
        let s := Py.upper (strip_marks s) in
        if Py.mem s domain then Some s else None
  end.

Definition _choose_minmax (vmin vmax : option string) (domain : list string)
  : option string * option string :=
  let m := norm domain vmin in
  let M := norm domain vmax in
  match m, M with
  | None, None => (None, None)
  | None, Some _ => (M, M)
  | Some _, None => (m, m)
  | Some _, Some _ => (m, M)
  end.

Definition is_opt (o : option string) (v : string) : bool :=
  match o with Some s => String.eqb s v | None => false end.

Definition in_opt (o : option string) (l : list string) : bool :=
  match o with Some s => Py.mem s l | None => false end.

Definition eon_dom (a b : option string) : string :=
  let pre := ["ARQUEANO"; "PROTEROZOICO"] in
  match a, b with
  | None, None => FANEROZOICO_LABEL
  | _, _ =>
      if in_opt a pre && in_opt b pre then PRE_CAMBRIANO
      else if in_opt a pre && is_opt b "FANEROZOICO" then PRE_PALEO
      else if is_opt a "FANEROZOICO" && is_opt b "FANEROZOICO" then FANEROZOICO_LABEL
      else if is_opt a "FANEROZOICO" || is_opt b "FANEROZOICO"
           then FANEROZOICO_LABEL else PRE_CAMBRIANO
  end.

Definition opt_eqb (a b : option string) : bool :=
  match a, b with
  | Some x, Some y => String.eqb x y
  | None, None => true
  | _, _ => false
  end.

Definition era_label (m M : option string) : string :=
  match m, M with
  | None, None => ""
  | _, _ =>
      if is_opt m "PALEOZOICO" && is_opt M "PALEOZOICO" then PALEOZOICO
      else if is_opt m "PALEOZOICO" && is_opt M "MESOZOICO" then PALEO_MESO
      else if is_opt m "MESOZOICO" && is_opt M "MESOZOICO" then MESOZOICO
      else if is_opt m "MESOZOICO" && is_opt M "CENOZOICO" then MESO_CENO
      else if is_opt m "CENOZOICO" && is_opt M "CENOZOICO" then CENOZOICO
      else if opt_eqb m M then
        (if is_opt m "PALEOZOICO" then PALEOZOICO
         else if is_opt m "MESOZOICO" then MESOZOICO
         else if is_opt m "CENOZOICO" then CENOZOICO
         else "")
      else ""
  end.

Definition has_np (ic : string) : bool := Py.contains "NP" ic.

(** [re.search(r"(^|[^A-Z])P(?![A-Z])", ic) or
    re.search(r"(^|[^A-Z])P[0-9]", ic)]; [prev_upper] tells whether the
    character before the current one is in [[A-Z]]. *)
Fixpoint perm_scan (prev_upper : bool) (s : string) : bool :=
  match s with
  | EmptyString => false
  | String c t =>
      (negb prev_upper && Ascii.eqb c "P"
       && (match t with
           | EmptyString => true
           | String d _ => negb (Py.is_upper d)
           end
           || match t with
              | EmptyString => false
              | String d _ => Py.is_digit d
              end))
      || perm_scan (Py.is_upper c) t
  end.

Definition has_perm (ic : string) : bool := perm_scan false ic.

Definition has_k (ic : string) : bool := Py.contains "K" ic || Py.contains "JK" ic.

Definition MACROS : list string := [PRE_CAMBRIANO; PALEOZOICO; MESOZOICO; CENOZOICO].

(** The branch of the [macro] loop for one row. *)
Definition macro_of (ed er ic : string) : string :=
  if String.eqb ed PRE_CAMBRIANO then PRE_CAMBRIANO
  else if String.eqb ed PRE_PALEO then
    (if has_np ic then PRE_CAMBRIANO else PALEOZOICO)
  else if String.eqb ed FANEROZOICO_LABEL then
    (if Py.mem er [PALEOZOICO; MESOZOICO; CENOZOICO; ""] then er
     else if String.eqb er PALEO_MESO then
       (if has_perm ic then PALEOZOICO else MESOZOICO)
     else if String.eqb er MESO_CENO then
       (if has_k ic then MESOZOICO else CENOZOICO)
     else "")
  else "".

Definition allowed_set (macro_era : string) : list string :=
  if Py.mem macro_era MACROS then [macro_era] else MACROS.

Definition domino_flag (ic me : string) : Z :=
  let se := _macro_from_idade_code_simple ic in
  if Py.mem se (allowed_set me) || String.eqb se "" then 1 else 0.

Record Classified := {
  c_sigla : string;
  c_idade_code : string;
  c_greek : string;
  c_stem : string;
  c_coarse_grp : string;
  sigla_era : string;
  eon_domino : string;
  macro_era : string;
  domino_ok : Z
}.

(** [classify] on one row, up to and including the ["mask"] enforcement.
    The later steps (merging by name, collapsing the Cenozoic) rewrite
    [coarse_grp] only. *)
Definition classify_row (cfg : Config) (enforce_mode : string) (r : Row) : Classified :=
  let p := _parse_sigla cfg (sigla r) in
  let se := _macro_from_idade_code_simple (idade_code p) in
  let '(eon_m, eon_M) := _choose_minmax (eon_min r) (eon_max r) EON in
  let ed := eon_dom eon_m eon_M in
  let '(era_m, era_M) := _choose_minmax (era_min r) (era_max r) ERA in
  let er := era_label era_m era_M in
  let me := macro_of ed er (Py.upper (idade_code p)) in
  let ok := domino_flag (idade_code p) me in
  {| c_sigla := sigla r;
     c_idade_code := idade_code p;
     c_greek := greek p;
     c_stem := stem p;
     c_coarse_grp :=
       if String.eqb enforce_mode "mask" && (ok =? 0)%Z then "" else coarse_grp p;
     sigla_era := se;
     eon_domino := ed;
     macro_era := me;
     domino_ok := ok |}.

Definition classify (cfg : Config) (enforce_mode : string) (rows : list Row)
  : list Classified :=
  map (classify_row cfg enforce_mode) rows.

End Classify.

End Domino.

(** ** ScaleCalculator and the threshold of the SpatialConsolidator *)

Module Scale.

(** *** Nice numbers *)

(** [10 ** k] for any integer [k] *)
Definition pow10 (k : Z) : Q := (10 ^ k)%Q.

(** The number of times [m] can be divided by ten before it drops below
    ten: [floor(log10(m))] for an integer [m >= 1]. *)
Fixpoint ilog10 (fuel : nat) (m : Z) : Z :=
  match fuel with
  | O => 0
  | S fuel' => if (m <? 10)%Z then 0 else (1 + ilog10 fuel' (m / 10))%Z
  end.

Definition log10_floor_Z (m : Z) : Z := ilog10 (S (Z.to_nat (Z.log2 m))) m.

(** [math.floor(math.log10(n))] for [n > 0]: the decade [k] with
    [10^k <= n < 10^(k+1)]. *)
Definition decade (n : Q) : Z :=
  if Qle_bool 1 n then log10_floor_Z (Qfloor n)
  else (- (log10_floor_Z (Qceiling (/ n) - 1) + 1))%Z.

Inductive round_mode : Type := Ceil | Nearest.

Definition steps : list Q := [1; 2; 5 # 2; 5; 10]%Q.

(** The [for s in steps] loop of the ["ceil"] branch. *)
Fixpoint first_geq (k : Z) (n : Q) (ss : list Q) : option Q :=
  match ss with
  | [] => None
  | s :: ss' =>
      let val := (s * pow10 k)%Q in
      if Qle_bool n val then Some val else first_geq k n ss'
  end.

(** The loop of the ["nearest"] branch; [best] is [(best_val, best_err)],
    [None] standing for the initial infinite error. *)
Fixpoint nearest_of (k : Z) (n : Q) (ss : list Q) (best : option (Q * Q)) : option (Q * Q) :=
  match ss with
  | [] => best
  | s :: ss' =>
      let val := (s * pow10 k)%Q in
      let err := Qabs (val - n) in
      let better :=
        match best with
        | None => true
        | Some (_, best_err) => negb (Qle_bool best_err err)
        end in
      nearest_of k n ss' (if better then Some (val, err) else best)
  end.

Definition _round_nice (n : Q) (mode : round_mode) : Z :=
  if Qle_bool n 0 then 1%Z
  else
    let k := decade n in
    match mode with
    | Ceil =>
        match first_geq k n steps with
        | Some val => Qceiling val
        | None => Qfloor (pow10 (k + 1))
        end
    | Nearest =>
        match nearest_of k n (steps ++ [10%Q]) None with
        | Some (best_val, _) => Color.round_half_even best_val
        | None => 0%Z
        end
    end.

(** The nice numbers: 1, 2, 2.5 or 5 times a power of ten. *)
Definition nice (v : Q) : Prop :=
  exists (s : Q) (k : Z), In s [1; 2; 5 # 2; 5]%Q /\ v == s * pow10 k.

Definition least_nice_geq (n v : Q) : Prop :=
  nice v /\ n <= v /\ forall w : Q, nice w -> n <= w -> v <= w.

(** The value the ["ceil"] branch settles on, before [int(math.ceil(val))]. *)
Definition nice_ceiling (n : Q) : Q :=
  match first_geq (decade n) n steps with
  | Some val => val
  | None => pow10 (decade n + 1)
  end.

(** *** Paper units *)

Definition _to_mm (dpi : option Z) (value : Q) (unit : string) : result Q :=
  let u := Py.lower unit in
  if Py.mem u ["mm"; "millimeter"; "millimeters"] then Ok value
  else if Py.mem u ["cm"; "centimeter"; "centimeters"] then Ok (value * 10)%Q
  else if Py.mem u ["in"; "inch"; "inches"] then Ok (value * (254 # 10))%Q
  else if Py.mem u ["px"; "pixel"; "pixels"] then
    match dpi with
    | Some d => if (d <=? 0)%Z then Err ValueError
                else Ok (value * (254 # 10) / inject_Z d)%Q
    | None => Err ValueError
    end
  else Err ValueError.

(** *** Reference frames

    The geometry library is outside the repository.  A frame of features is
    what the code reads off it: its CRS, the width of its bounding box and
    the areas of its features in its own coordinates, and what re-projecting
    it gives ([Err] when [to_crs] raises). *)

Record Crs := {
  crs_name : string;
  is_geographic : bool;
  is_projected : bool
}.

(** [maxx - minx] of [total_bounds]; a float may be infinite or NaN. *)
Inductive extent : Type := Finite (w : Q) | NonFinite.

Record Measured := {
  width : extent;
  areas : list Q
}.

Record GeoFrame := {
  has_rows : bool;          (* [not gdf.empty] *)
  has_geometry : bool;      (* some geometry is neither null nor empty *)
  crs : option Crs;
  native : Measured;
  to_crs_user : string -> result Measured;  (* [g.to_crs(self.area_crs)] *)
  to_crs_laea : result Measured             (* centroid, then [g.to_crs(laea)] *)
}.

(** The attributes of [GeoSiglaStyler] that the two methods read. *)
Record Styler := {
  area_crs : option string;
  fig_width : Q;
  width_unit : string;
  dpi : option Z;
  margin : Q;
  margin_unit : string;
  scale_round_to : option string;
  scale_round_mode : round_mode
}.

Definition exn_name (e : exn) : string :=
  match e with
  | ValueError => "ValueError"
  | OverflowError => "OverflowError"
  | KeyError => "KeyError"
  end.

Definition area_crs_set (self : Styler) : option string :=
  match area_crs self with
  | Some c => if Py.truthy c then Some c else None
  | None => None
  end.

Record ScaleMeta := {
  scale_exact : Q;
  scale_nice : Z;
  strategy : string;
  proj_used : string
}.

Definition crs_str (c : option Crs) : string :=
  match c with Some c => crs_name c | None => "None" end.

(** The azimuthal equal-area frame centred on the data (its parameters are
    left out of the name). *)
Definition LAEA : string := "+proj=laea".

(** The metric branch of [width_to_scale]: the frame measured, the
    projection used and the strategy; the [except] clause keeps the frame as
    it is. *)
Definition metric_path (self : Styler) (prefer_area_crs : bool) (g : GeoFrame)
  : Measured * string * string :=
  let attempt : result (Measured * string * string) :=
    match (if prefer_area_crs then area_crs_set self else None) with
    | Some c => m <- to_crs_user g c ;; Ok (m, c, "user_crs")
    | None =>
        match crs g with
        | Some c =>
            if is_projected c then Ok (native g, crs_name c, "projected_native")
            else m <- to_crs_laea g ;; Ok (m, LAEA, "auto_laea")
        | None => m <- to_crs_laea g ;; Ok (m, LAEA, "auto_laea")
        end
    end in
  match attempt with
  | Ok r => r
  | Err e => (native g, crs_str (crs g), "fallback:" ++ exn_name e)
  end.

Definition qmax (x y : Q) : Q := if Qle_bool x y then y else x.

(** [gdf] is the frame the method works on, after the default
    ([self.g_clipped], else [self.g_base]) has been taken; [None] when there
    is none.  The result is [(N, meta)]. *)
Definition width_to_scale (self : Styler) (gdf : option GeoFrame)
           (fig_width : Q) (width_unit : string) (dpi : option Z)
           (margin : Q) (margin_unit : string)
           (prefer_area_crs : bool) (round_to : option string) (mode : round_mode)
  : result (Z * ScaleMeta) :=
  match gdf with
  | None => Err ValueError
  | Some g =>
      if negb (has_rows g) then Err ValueError
      else if negb (has_geometry g) then Err ValueError
      else
        paper_w_mm <- _to_mm dpi fig_width width_unit ;;
        margin_mm <- (if Qeq_bool margin 0 then Ok 0%Q
                      else _to_mm dpi margin margin_unit) ;;
        let content_w_mm := qmax (paper_w_mm - 2 * margin_mm)%Q (1 # 1000000) in
        let content_w_m := (content_w_mm / 1000)%Q in
        let geographic :=
          match crs g with Some c => is_geographic c | None => false end in
        let '(map_w, proj, strat) :=
          if negb prefer_area_crs && geographic
          then
            let degree_per_meter := (1 / (3600 * 30))%Q in
            (match width (native g) with
             | Finite w => Finite (w / degree_per_meter)%Q
             | NonFinite => NonFinite
             end,
             "geographic (deg)", "geographic_constant_1deg≈108000m")
          else
            let '(m, proj, strat) := metric_path self prefer_area_crs g in
            (width m, proj, strat) in
        match map_w with
        | NonFinite => Err ValueError
        | Finite map_w_m =>
            if Qle_bool map_w_m 0 then Err ValueError
            else
              let exact := (map_w_m / content_w_m)%Q in
              let N :=
                match round_to with
                | Some "nice" => _round_nice exact mode
                | _ => Color.trunc exact
                end in
              Ok (N, {| scale_exact := exact; scale_nice := N;
                        strategy := strat; proj_used := proj |})
        end
  end.

(** *** Areas *)

Record AreaMeta := {
  a_strategy : string;
  crs_used : string
}.

Definition ones (g : GeoFrame) : list Q := map (fun _ => 1%Q) (areas (native g)).

Definition _area_series (self : Styler) (g : GeoFrame) : list Q * AreaMeta :=
  let attempt : result (list Q * AreaMeta) :=
    match area_crs_set self with
    | Some c =>
        m <- to_crs_user g c ;;
        Ok (areas m, {| a_strategy := "user_crs"; crs_used := c |})
    | None =>
        match crs g with
        | Some c =>
            if is_projected c
            then Ok (areas (native g),
                     {| a_strategy := "projected_native"; crs_used := crs_name c |})
            else
              m <- to_crs_laea g ;;
              Ok (areas m, {| a_strategy := "auto_laea"; crs_used := LAEA |})
        | None =>
            Ok (ones g, {| a_strategy := "no_crs_equal_weights"; crs_used := "" |})
        end
    end in
  match attempt with
  | Ok r => r
  | Err _ => (ones g, {| a_strategy := "fallback_equal_weights"; crs_used := "" |})
  end.

(** *** The head of [cull_small_parts_by_scale] *)

(** What the method has decided when the spatial search starts: nothing to
    merge, or the threshold with the small and the large features (by
    position). *)
Inductive CullStep : Type :=
  | Unchanged
  | Partition (area_thresh_m2 : Q) (small_idx big_idx : list nat) (frame : string).

Fixpoint indices_where (p : Q -> bool) (i : nat) (l : list Q) : list nat :=
  match l with
  | [] => []
  | a :: l' => if p a then i :: indices_where p (S i) l' else indices_where p (S i) l'
  end.

(** [(N * 1e-3) ** 2 * float(min_area_mm2)] *)
Definition area_threshold (N : Z) (min_area_mm2 : Q) : Q :=
  ((inject_Z N * (1 # 1000)) ^ 2 * min_area_mm2)%Q.

(** The method up to the split into small and large features; the spatial
    search and the unions that follow need the geometries themselves. *)
Definition cull_small_parts_by_scale (self : Styler) (gdf : option GeoFrame)
           (min_area_mm2 : Q) : result CullStep :=
  '(N, _) <- width_to_scale self gdf (fig_width self) (width_unit self) (dpi self)
               (margin self) (margin_unit self) true
               (scale_round_to self) (scale_round_mode self) ;;
  match gdf with
  | None => Err ValueError
  | Some g =>
      if negb (has_rows g) then Err ValueError
      else if negb (has_geometry g) then Ok Unchanged
      else
        let area_thresh_m2 := area_threshold N min_area_mm2 in
        let '(area_s, meta) := _area_series self g in
        let strat := a_strategy meta in
        if Py.startswith strat "no_crs" || Py.startswith strat "fallback"
        then Err ValueError
        else
          let small_idx := indices_where (fun a => negb (Qle_bool area_thresh_m2 a)) 0 area_s in
          match small_idx with
          | [] => Ok Unchanged
          | _ =>
              let big_idx := indices_where (fun a => Qle_bool area_thresh_m2 a) 0 area_s in
              Ok (Partition area_thresh_m2 small_idx big_idx (crs_used meta))
          end
  end.

Definition is_err {A : Type} (r : result A) : bool :=
  match r with Ok _ => false | Err _ => true end.

(** No metric reference frame can be established: the route the code takes
    (the caller's equal-area frame if one is set, else the native frame if it
    is projected, else an azimuthal equal-area frame built on the data) ends
    in an exception. *)
Definition no_metric_frame (self : Styler) (g : GeoFrame) : bool :=
  match area_crs_set self with
  | Some c => is_err (to_crs_user g c)
  | None =>
      match crs g with
      | Some c => negb (is_projected c) && is_err (to_crs_laea g)
      | None => is_err (to_crs_laea g)
      end
  end.

(** The styler of the scale scenario: a figure 180 mm wide with 10 mm
    margins, nice rounding upwards, no equal-area frame of its own. *)
Definition scenario_styler : Styler :=
  {| area_crs := None; fig_width := 180; width_unit := "mm"; dpi := Some 300%Z;
     margin := 10; margin_unit := "mm"; scale_round_to := Some "nice";
     scale_round_mode := Ceil |}.

(** Two features in longitude and latitude, a quarter of a degree wide, in a
    frame that carries no CRS: every re-projection raises. *)
Definition naive_frame : GeoFrame :=
  {| has_rows := true; has_geometry := true; crs := None;
     native := {| width := Finite (1 # 4); areas := [1 # 100; 1 # 50] |};
     to_crs_user := fun _ => Err ValueError;
     to_crs_laea := Err ValueError |}.

(** Two features in a projected frame, 27 km wide. *)
Definition utm_frame : GeoFrame :=
  {| has_rows := true; has_geometry := true;
     crs := Some {| crs_name := "EPSG:31983"; is_geographic := false;
                    is_projected := true |};
     native := {| width := Finite 27000; areas := [100; 50000] |};
     to_crs_user := fun _ => Err ValueError;
     to_crs_laea := Err ValueError |}.

End Scale.

(** ** ColorResolver: the collision passes of [_build_color_map_for_coarse] *)

Module Resolve.

(** The value of [cmap[grp]]. *)
Record Entry := {
  grp_color : string;
  idade_color : string;
  roc_colors : string;
  r1_colors : string;
  qml_colors : string
}.

(** [cmap]: a dict in insertion order; its keys are distinct. *)
Definition cmap : Type := list (string * Entry).

Definition keys (m : cmap) : list string := map fst m.

Definition color_of (ke : string * Entry) : string := grp_color (snd ke).

Fixpoint get (m : cmap) (grp : string) : option Entry :=
  match m with
  | [] => None
  | (k, e) :: m' => if String.eqb k grp then Some e else get m' grp
  end.

Definition with_color (e : Entry) (c : string) : Entry :=
  {| grp_color := c; idade_color := idade_color e; roc_colors := roc_colors e;
     r1_colors := r1_colors e; qml_colors := qml_colors e |}.

(** [cmap[grp]["grp_color"] = c] *)
Definition set_color (m : cmap) (grp c : string) : cmap :=
  map (fun ke => if String.eqb (fst ke) grp then (fst ke, with_color (snd ke) c) else ke) m.

(** [inv.setdefault(c, []).append(gk)] *)
Fixpoint setdefault_append (inv : list (string * list string)) (c gk : string)
  : list (string * list string) :=
  match inv with
  | [] => [(c, [gk])]
  | (c', l) :: inv' =>
      if String.eqb c' c then (c', (l ++ [gk])%list) :: inv'
      else (c', l) :: setdefault_append inv' c gk
  end.

Definition inv_of (m : cmap) : list (string * list string) :=
  fold_left (fun inv ke => setdefault_append inv (color_of ke) (fst ke)) m [].

Definition dup_sets (m : cmap) : list (list string) :=
  filter (fun v => (1 <? List.length v)%nat) (map snd (inv_of m)).

(** The number of groups that share their colour with another group. *)
Definition collision_size (m : cmap) : nat := List.length (List.concat (dup_sets m)).

(** The body of a pass for one group: its rank in its set and its entry
    give the new colour, or [None] when nothing is assigned. *)
Definition recolor : Type := nat -> Entry -> result (option string).

(** [for i, grp in enumerate(group_list)] *)
Fixpoint recolor_set (f : recolor) (i : nat) (group_list : list string) (m : cmap)
  : result cmap :=
  match group_list with
  | [] => Ok m
  | grp :: rest =>
      match get m grp with
      | None => Err KeyError
      | Some e =>
          c <- f i e ;;
          recolor_set f (S i) rest
            (match c with Some c => set_color m grp c | None => m end)
      end
  end.

(** [for group_list in dups] *)
Fixpoint recolor_sets (f : recolor) (dups : list (list string)) (m : cmap) : result cmap :=
  match dups with
  | [] => Ok m
  | group_list :: rest => m' <- recolor_set f 0 group_list m ;; recolor_sets f rest m'
  end.

Definition DEFAULT_GRAY : string := "#DDDDDD".

(** Round A: age and lithology class. *)
Definition body_A : recolor := fun _ e =>
  let roc := roc_colors e in
  let ida := idade_color e in
  if Py.truthy roc
  then c <- Color.mix_two (Py.or_else ida roc) roc (1 # 2) ;; Ok (Some c)
  else Ok None.

Definition pass_A (m : cmap) : result cmap := recolor_sets body_A (dup_sets m) m.

(** Round B: plus the rock type. *)
Definition body_B : recolor := fun _ e =>
  let roc := roc_colors e in
  let r1 := r1_colors e in
  let ida := idade_color e in
  base <- (if Py.truthy roc then Color.mix_two ida roc (1 # 2)
           else Ok (Py.or_else ida (Py.or_else r1 DEFAULT_GRAY))) ;;
  c <- (if Py.truthy r1 then Color.mix_two base r1 (1 # 2) else Ok base) ;;
  Ok (Some c).

Definition pass_B (m : cmap) : result cmap := recolor_sets body_B (dup_sets m) m.

(** [sorted(group_list)] *)
Fixpoint insert_sorted (x : string) (l : list string) : list string :=
  match l with
  | [] => [x]
  | y :: l' => if String.leb x y then x :: l else y :: insert_sorted x l'
  end.

Definition sorted (l : list string) : list string := fold_right insert_sorted [] l.

Section Rounds.

Variable rgb_to_hls : Q * Q * Q -> Q * Q * Q.
Variable hls_to_rgb : Q * Q * Q -> Q * Q * Q.

(** Round C, one turn of the [while] loop. *)
Definition body_C (tries : nat) : recolor := fun i e =>
  let base := Py.or_else (grp_color e) DEFAULT_GRAY in
  c <- Color.jitter rgb_to_hls hls_to_rgb base i (5 # 100)
         (if (0 <? tries)%nat then 2 # 100 else 15 # 1000) ;;
  Ok (Some c).

Definition jitter_round (tries : nat) (m : cmap) : result cmap :=
  recolor_sets (body_C tries) (map sorted (dup_sets m)) m.

(** [while dups and tries < 3]; [left] counts the turns still allowed. *)
Fixpoint pass_C (left tries : nat) (m : cmap) : result cmap :=
  match left with
  | O => Ok m
  | S left' =>
      match dup_sets m with
      | [] => Ok m
      | _ => m' <- jitter_round tries m ;; pass_C left' (S tries) m'
      end
  end.

(** The three rounds with the snapshots the audit keeps:
    [after_A], [after_B] and the final colours. *)
Definition resolve (m : cmap) : result (cmap * cmap * cmap) :=
  mA <- pass_A m ;;
  mB <- pass_B mA ;;
  mC <- pass_C 3 0 mB ;;
  Ok (mA, mB, mC).

End Rounds.

Definition in_keys (k : string) (l : list string) : bool := Py.mem k l.

(** What [inv[c]] holds (nothing when [c] is not a key). *)
Fixpoint inv_get (inv : list (string * list string)) (c : string) : list string :=
  match inv with
  | [] => []
  | (c', l) :: inv' => if String.eqb c' c then l else inv_get inv' c
  end.

(** The number of groups whose colour is [c]. *)
Definition count_color (c : string) (m : cmap) : nat :=
  List.length (filter (fun ke => String.eqb (color_of ke) c) m).

(** A group collides when another group has its colour. *)
Definition collides (m : cmap) (ke : string * Entry) : bool :=
  (1 <? count_color (color_of ke) m)%nat.

(** The number of keys in the sets that [dup_sets] keeps. *)
Definition big_total (inv : list (string * list string)) : nat :=
  List.length (List.concat (filter (fun v => (1 <? List.length v)%nat) (map snd inv))).

(** An entry after the preliminary choice: the colour chosen (here the
    style-derived one), the age colour and the lithology mix. *)
Definition entry (c ida roc : string) : Entry :=
  {| grp_color := c; idade_color := ida; roc_colors := roc; r1_colors := "";
     qml_colors := c |}.

(** Three groups: two Neoproterozoic groups that took the same colour from
    the style table, with the same age colour and the same lithology mix, and
    a Cretaceous group whose style colour happens to be the blend of those
    two. *)
Definition three_groups : cmap :=
  [("NP1|al", entry "#112233" "#CD5C5C" "#FFCC66");
   ("NP2|be", entry "#112233" "#CD5C5C" "#FFCC66");
   ("K", entry "#E69461" "#FFFF99" "")].

Definition three_groups_after_A : cmap :=
  [("NP1|al", with_color (entry "#112233" "#CD5C5C" "#FFCC66") "#E69461");
   ("NP2|be", with_color (entry "#112233" "#CD5C5C" "#FFCC66") "#E69461");
   ("K", entry "#E69461" "#FFFF99" "")].

(** Two groups with the same preliminary colour and different lithology. *)
Definition two_groups : cmap :=
  [("NP1|al", entry "#112233" "#CD5C5C" "#FFCC66");
   ("NP2|be", entry "#112233" "#CD5C5C" "#CC99FF")].

Definition two_groups_after_A : cmap :=
  [("NP1|al", with_color (entry "#112233" "#CD5C5C" "#FFCC66") "#E69461");
   ("NP2|be", with_color (entry "#112233" "#CD5C5C" "#CC99FF") "#CC7AAD")].

End Resolve.

(** ** [mix_weighted] on binary64 numbers *)

Module B64.

Definition of_int (v : Z) : float :=
  if (v <? 0)%Z then PrimFloat.opp (PrimFloat.of_uint63 (Uint63Axioms.of_Z (- v)))
  else PrimFloat.of_uint63 (Uint63Axioms.of_Z v).

(** [round(x)] of a float: ties to even; NaN and the infinities raise. *)
Definition round_half_even (x : float) : result Z :=
  match Prim2SF x with
  | S754_zero _ => Ok 0%Z
  | S754_infinity _ => Err OverflowError
  | S754_nan => Err ValueError
  | S754_finite neg m e =>
      let mag :=
        if (0 <=? e)%Z then (Zpos m * 2 ^ e)%Z
        else
          let d := (2 ^ (- e))%Z in
          let q := (Zpos m / d)%Z in
          let r := (2 * (Zpos m mod d))%Z in
          match (r ?= d)%Z with
          | Lt => q
          | Gt => (q + 1)%Z
          | Eq => if Z.even q then q else (q + 1)%Z
          end in
      Ok (if neg then (- mag)%Z else mag)
  end.

(** [sum(...)] of floats from the integer 0, left to right.  (From Python
    3.12 on, [sum] also carries a compensation term; on one or two items
    the result is the same.) *)
Definition sum (l : list float) : float := fold_left PrimFloat.add l PrimFloat.zero.

Definition weighted_pairs (colors : list string) (weights : list float)
  : list (string * float) :=
  filter (fun cw => Py.truthy (fst cw) && PrimFloat.ltb PrimFloat.zero (snd cw))
       (Color.zip colors weights).

Definition channel_term (f : Color.rgb -> Z) (cw : string * float) : result float :=
  c <- Color._hex_to_rgb (fst cw) ;; Ok (PrimFloat.mul (of_int (f c)) (snd cw)).

Definition channel_mean (pairs : list (string * float)) (sw : float)
           (f : Color.rgb -> Z) : result Z :=
  terms <- map_result (channel_term f) pairs ;;
  round_half_even (PrimFloat.div (sum terms) sw).

Definition mix_pairs (pairs : list (string * float)) : result string :=
  let sw := sum (map snd pairs) in
  if PrimFloat.leb sw PrimFloat.zero then Ok ""
  else
    R <- channel_mean pairs sw (fun c => fst (fst c)) ;;
    G <- channel_mean pairs sw (fun c => snd (fst c)) ;;
    B <- channel_mean pairs sw (fun c => snd c) ;;
    Ok (Color._rgb_to_hex (R, G, B)).

Definition mix_weighted (colors : list string) (weights : list float) : result string :=
  let pairs := weighted_pairs colors weights in
  match pairs with
  | [] => Ok ""
  | _ => mix_pairs pairs
  end.

Definition scale_weights (k : float) (weights : list float) : list float :=
  map (PrimFloat.mul k) weights.

End B64.

(** ** ColorResolver: what a pass assigns *)

Module Pass.

(** The three loops over the collision sets: round A, round B and one turn
    of the jitter loop. *)
Inductive kind : Type := A | B | Jitter (tries : nat).

Section Kinds.

Variable rgb_to_hls : Q * Q * Q -> Q * Q * Q.
Variable hls_to_rgb : Q * Q * Q -> Q * Q * Q.

(** One pass over the map as it stands. *)
Definition run (p : kind) (m : Resolve.cmap) : result Resolve.cmap :=
  match p with
  | A => Resolve.pass_A m
  | B => Resolve.pass_B m
  | Jitter tries => Resolve.jitter_round rgb_to_hls hls_to_rgb tries m
  end.

(** The body of the loop ... *)
Definition body (p : kind) : Resolve.recolor :=
  match p with
  | A => Resolve.body_A
  | B => Resolve.body_B
  | Jitter tries => Resolve.body_C rgb_to_hls hls_to_rgb tries
  end.

(** ... and the sets it walks through (the jitter loop sorts each set). *)
Definition sets (p : kind) (m : Resolve.cmap) : list (list string) :=
  match p with
  | Jitter _ => map Resolve.sorted (Resolve.dup_sets m)
  | _ => Resolve.dup_sets m
  end.

(** The colours that walking through [group_list] assigns when every group
    is read as it stands in [m]: the group and its new colour, in order (a
    group for which the body assigns nothing, or raises, has none). *)
Fixpoint planned_set (f : Resolve.recolor) (i : nat) (group_list : list string)
         (m : Resolve.cmap) : list (string * string) :=
  match group_list with
  | [] => []
  | grp :: rest =>
      match Resolve.get m grp with
      | Some e =>
          match f i e with
          | Ok (Some c) => (grp, c) :: planned_set f (S i) rest m
          | _ => planned_set f (S i) rest m
          end
      | None => planned_set f (S i) rest m
      end
  end.

(** The assignments of a pass, computed from the map it starts from. *)
Definition planned (p : kind) (m : Resolve.cmap) : list (string * string) :=
  List.concat (map (fun l => planned_set (body p) 0 l m) (sets p m)).

(** The groups outside every collision set whose colour the pass assigns to
    some group. *)
Definition hit (p : kind) (m : Resolve.cmap) : list (string * Resolve.Entry) :=
  filter (fun ke =>
            negb (Resolve.in_keys (fst ke) (List.concat (Resolve.dup_sets m)))
            && existsb (fun kc => String.eqb (snd kc) (Resolve.color_of ke))
                       (planned p m))
         m.

End Kinds.

(** An entry of the map before and after a pass: the same group, left as it
    was or given one of the colours [P] lists for it, nothing else
    changed. *)
Definition as_planned (P : list (string * string)) (x y : string * Resolve.Entry) : Prop :=
  fst y = fst x
  /\ (y = x \/ exists c, In (fst x, c) P /\ snd y = Resolve.with_color (snd x) c).

End Pass.

(** ** Binary64: scaling the weights by a power of two *)

Module Pow2.

(** [2.0 ** n] for [-1022 <= n <= 1023]: mantissa [2^52], exponent
    [n - 52]. *)
Definition pow2 (n : Z) : float :=
  SF2Prim (S754_finite false 4503599627370496 (n - 52)).

(** A weight between [2^-256] and [2^256]. *)
Definition moderate (w : float) : bool :=
  PrimFloat.leb 0x1p-256%float w && PrimFloat.leb w 0x1p256%float.

(** No channel of the colour reads as a negative number (a colour that does
    not parse has no channel). *)
Definition no_negative_channel (c : string) : bool :=
  match Color._hex_to_rgb c with
  | Ok (r, g, b) => (0 <=? r)%Z && (0 <=? g)%Z && (0 <=? b)%Z
  | Err _ => true
  end.

(** The same number with its exponent moved by [n]: the number times
    [2^n]. *)
Definition shift (n : Z) (x : spec_float) : spec_float :=
  match x with
  | S754_finite s m e => S754_finite s m (e + n)
  | _ => x
  end.

(** Zero, or a positive normal number with its exponent between [lo] and
    [hi]. *)
Definition ranged (lo hi : Z) (x : spec_float) : Prop :=
  x = S754_zero false
  \/ exists m e, x = S754_finite false m e
                 /\ Zpos (digits2_pos m) = 53%Z /\ (lo <= e <= hi)%Z.

(** What [binary_round_aux] makes of the mantissa [m] with the location
    [l], where neither underflow nor overflow interferes: the mantissa kept
    and the number of binary places dropped. *)
Definition rnd (m : Z) (l : location) : Z * Z :=
  let d := Zdigits2 m in
  let mrs' := fst (shr (shr_record_of_loc m l) 0 (d - 53)) in
  let m2 := round_nearest_even (shr_m mrs') (loc_of_shr_record mrs') in
  let mrs'' := fst (shr (shr_record_of_loc m2 loc_Exact) 0 (Zdigits2 m2 - 53)) in
  (shr_m mrs'', Z.max (d - 53) 0 + Z.max (Zdigits2 m2 - 53) 0)%Z.

(** A colour channel as a float is zero or a positive normal number with
    its exponent between -52 and -45. *)
Definition channel_float_ok (v : Z) : bool :=
  match Prim2SF (B64.of_int v) with
  | S754_zero false => true
  | S754_finite false m e =>
      (Zpos (digits2_pos m) =? 53)%Z && (-52 <=? e)%Z && (e <=? -45)%Z
  | _ => false
  end.

(** Two runs of the same computation, the second on weights multiplied by
    [2^n]: [x'] is [x] with its exponent moved by [n], and [x] is zero or a
    positive normal number with its exponent between [lo] and [hi]. *)
Definition scaled (n lo hi : Z) (x x' : float) : Prop :=
  Prim2SF x' = shift n (Prim2SF x) /\ ranged lo hi (Prim2SF x).

(** The pairs that [mix_weighted] keeps when every weight is multiplied by
    [k]. *)
Definition scale_pair (k : float) (cw : string * float) : string * float :=
  (fst cw, PrimFloat.mul k (snd cw)).

End Pow2.

(** * Further parts of the code

    The age colours ([_flatten_idade_code_map], [_get_idade_code_from_grp],
    [_find_idade_color]), the colours of style files ([_hex_to_rgba],
    [_rgba_to_hex], [load_sigla_qml], [_lookup_sigla_color]), the grid step
    of [src/code/plotagem.py] ([_nice_step]), the blocks of the simplified
    legend ([_submacro_from_idade_code]) and, in
    [cull_small_parts_by_scale], the choice of the feature into which a small
    feature is merged. *)

From Stdlib Require Import Sorted.

(** ** Well-formed colour maps *)

Module Palette.

Import Resolve.

(** A colour field as the resolver expects it: empty, or canonical. *)
Definition canon_or_empty (s : string) : bool :=
  negb (Py.truthy s) || Color.is_canonical s.

(** Every colour of an entry that the three rounds read is empty or
    canonical. *)
Definition well_colored (e : Entry) : bool :=
  canon_or_empty (grp_color e) && canon_or_empty (idade_color e)
  && canon_or_empty (roc_colors e) && canon_or_empty (r1_colors e).

Definition well_formed (m : cmap) : Prop :=
  Forall (fun ke => well_colored (snd ke) = true) m.

(** Two entries of the map before and after the rounds: the same group with
    the same source colours; only [grp_color] may differ. *)
Definition same_sources (x y : string * Entry) : Prop :=
  fst y = fst x
  /\ idade_color (snd y) = idade_color (snd x)
  /\ roc_colors (snd y) = roc_colors (snd x)
  /\ r1_colors (snd y) = r1_colors (snd x)
  /\ qml_colors (snd y) = qml_colors (snd x).

End Palette.

(** ** Age colours: from a group name to the colour of its age *)

Module AgeColor.

(** The character class [[^|]] *)
Definition not_bar (c : ascii) : bool := negb (Ascii.eqb c "|").

(** [grp] is [None] for Python's [None].  [str(grp).split("|", 1)[0]] is
    the text before the first "|". *)
Definition _get_idade_code_from_grp (grp : option string) : string :=
  match grp with
  | None => ""
  | Some g =>
      let s := Py.take_while not_bar g in
      let run := Sigla.leading_code s in
      Py.upper (if Py.truthy run then run else s)
  end.

(** One entry of the rich age table: [{"code": ..., "color": ...}]; a
    missing key reads as the empty string ([cfg.get(k, "")]). *)
Record Cfg := {
  cfg_code : string;
  cfg_color : string
}.

(** [d[k] = v] on a dict in insertion order: an existing key keeps its
    place. *)
Fixpoint dict_set (d : list (string * string)) (k v : string) : list (string * string) :=
  match d with
  | [] => [(k, v)]
  | (k', v') :: d' =>
      if String.eqb k' k then (k', v) :: d' else (k', v') :: dict_set d' k v
  end.

(** The body of the inner loop of [_flatten_idade_code_map]. *)
Definition flatten_cfg (flat : list (string * string)) (cfg : Cfg) : list (string * string) :=
  let code := Py.upper (cfg_code cfg) in
  let color := cfg_color cfg in
  if negb (Py.truthy code) then flat
  else
    let code :=
      if String.eqb (Py.lower code) "c_cortado" || String.eqb code "C_CORTADO"
      then "C_CORTADO" else code in
    dict_set flat code color.

(** The rich table: eras, and in each era the named periods. *)
Definition _flatten_idade_code_map (rich : list (string * list (string * Cfg)))
  : list (string * string) :=
  fold_left
    (fun flat sub => fold_left (fun flat nc => flatten_cfg flat (snd nc)) (snd sub) flat)
    rich [].

(** [sorted(keys, key=len, reverse=True)]: a stable sort, longest first. *)
Fixpoint insert_by_len (x : string) (l : list string) : list string :=
  match l with
  | [] => [x]
  | y :: l' =>
      if (String.length y <=? String.length x)%nat then x :: l
      else y :: insert_by_len x l'
  end.

Definition sorted_by_len (l : list string) : list string := fold_right insert_by_len [] l.

(** The test of the first loop of [_find_idade_color] for one token. *)
Definition token_matches (code t : string) : bool :=
  if String.eqb t "P" then Domino.has_perm code
  else if String.eqb t "C_CORTADO" then Py.contains "C_CORTADO" code
  else Py.startswith code t || Py.contains t code.

(** [flat_map[t]] *)
Definition dict_item (flat : list (string * string)) (t : string) : result string :=
  match Sigla.dict_get t flat with
  | Some c => Ok c
  | None => Err KeyError
  end.

Fixpoint first_match (code : string) (tokens : list string) (flat : list (string * string))
  : option (result string) :=
  match tokens with
  | [] => None
  | t :: ts =>
      if token_matches code t then Some (dict_item flat t)
      else first_match code ts flat
  end.

Definition FALLBACK : list string :=
  ["NP"; "MP"; "PP"; "A"; "K"; "J"; "T"; "Q"; "N"; "PG"; "D"; "S"; "O"; "C"].

(** The second loop: [if t in flat_map and (code.startswith(t) or t in code)] *)
Fixpoint fallback_match (code : string) (ts : list string) (flat : list (string * string))
  : option (result string) :=
  match ts with
  | [] => None
  | t :: ts' =>
      match Sigla.dict_get t flat with
      | Some _ =>
          if Py.startswith code t || Py.contains t code then Some (dict_item flat t)
          else fallback_match code ts' flat
      | None => fallback_match code ts' flat
      end
  end.

Definition _find_idade_color (idade_code : string) (flat_map : list (string * string))
  : result string :=
  let code := Py.upper idade_code in
  let tokens := sorted_by_len (map fst flat_map) in
  match first_match code tokens flat_map with
  | Some r => r
  | None =>
      match fallback_match code FALLBACK flat_map with
      | Some r => r
      | None => Ok ""
      end
  end.

(** The default age table of [GeoSiglaStyler.__init__]. *)
Definition default_idade_code_map : list (string * list (string * Cfg)) :=
  [("Pre-cambriano",
    [("Arqueano", {| cfg_code := "A"; cfg_color := "#F4A460" |});
     ("Paleoproterozóico", {| cfg_code := "PP"; cfg_color := "#FFDAB9" |});
     ("Mesoproterozóico", {| cfg_code := "MP"; cfg_color := "#FFA07A" |});
     ("Neoproterozóico", {| cfg_code := "NP"; cfg_color := "#CD5C5C" |})]);
   ("Paleozóico",
    [("Permiano", {| cfg_code := "P"; cfg_color := "#E6E6E6" |});
     ("Carbonífero", {| cfg_code := "C"; cfg_color := "#99CC99" |});
     ("Devoniano", {| cfg_code := "D"; cfg_color := "#FFCC99" |});
     ("Siluriano", {| cfg_code := "S"; cfg_color := "#FF9999" |});
     ("Ordoviciano", {| cfg_code := "O"; cfg_color := "#66CCFF" |});
     ("Cambriano", {| cfg_code := "C_cortado"; cfg_color := "#33CCCC" |})]);
   ("Mesozóico",
    [("Cretáceo", {| cfg_code := "K"; cfg_color := "#FFFF99" |});
     ("Jurássico", {| cfg_code := "J"; cfg_color := "#66FF66" |});
     ("Triássico", {| cfg_code := "Tr"; cfg_color := "#FF6666" |})]);
   ("Cenozóico",
    [("Quaternário", {| cfg_code := "Q"; cfg_color := "#FFCCFF" |});
     ("Neógeno", {| cfg_code := "N"; cfg_color := "#FF9900" |});
     ("Paleógeno", {| cfg_code := "Pg"; cfg_color := "#FFFF66" |})])].

End AgeColor.

(** ** QML colours: "r,g,b,a" strings *)

Module Qml.

(** The decimal digits of a non-negative integer, most significant first. *)
Fixpoint dec_digits (fuel : nat) (n : Z) (acc : string) : string :=
  match fuel with
  | O => acc
  | S fuel' =>
      let acc' := String (ascii_of_nat (Z.to_nat (48 + n mod 10))) acc in
      if (n <? 10)%Z then acc' else dec_digits fuel' (n / 10) acc'
  end.

(** [f"{n}"] for an integer *)
Definition str_of_Z (n : Z) : string :=
  if (n <? 0)%Z then "-" ++ dec_digits (S (Z.to_nat (Z.log2 (- n)))) (- n) ""
  else dec_digits (S (Z.to_nat (Z.log2 n))) n "".

Definition _hex_to_rgba (hex_str : string) (a : Z) : result string :=
  let h := Py.lstrip (Py.is_char "#") hex_str in
  r <- Color.int16 (Py.slice 0 2 h) ;;
  g <- Color.int16 (Py.slice 2 4 h) ;;
  b <- Color.int16 (Py.slice 4 6 h) ;;
  Ok (str_of_Z r ++ "," ++ str_of_Z g ++ "," ++ str_of_Z b ++ "," ++ str_of_Z a).

(** [re.findall(r'\d+', s)]: the maximal runs of digits; [cur] is the run
    being read. *)
Fixpoint findall_digits (cur : string) (s : string) : list string :=
  match s with
  | EmptyString => if Py.truthy cur then [cur] else []
  | String c t =>
      if Py.is_digit c then findall_digits (cur ++ String c "") t
      else if Py.truthy cur then cur :: findall_digits "" t
      else findall_digits "" t
  end.

(** [int(run)] on a run of digits *)
Definition int10 (run : string) : Z :=
  fold_left (fun acc c => (acc * 10 + (Z.of_nat (Py.code c) - 48))%Z)
            (list_ascii_of_string run) 0%Z.

Definition _rgba_to_hex (rgba_str : string) : string :=
  match findall_digits "" rgba_str with
  | r :: g :: b :: _ => Color._rgb_to_hex (int10 r, int10 g, int10 b)
  | _ => ""
  end.

(** What the round trip needs of the decimal form of a channel. *)
Definition channel_prints (v : Z) : bool :=
  let d := str_of_Z v in
  Py.truthy d && Py.all_str Py.is_digit d && (int10 d =? v)%Z.

(** The palette of one style file and the stylers map from unit code to
    colour are dicts in insertion order. *)
Definition palette : Type := list (string * string).

(** The [normalize_case] branch of [load_sigla_qml]: every key is entered
    as it is, in upper case and in lower case. *)
Definition normalize_palette (mp : palette) : palette :=
  fold_left
    (fun norm_mp kv =>
       let '(k, v) := kv in
       AgeColor.dict_set
         (AgeColor.dict_set (AgeColor.dict_set norm_mp k v) (Py.upper k) v)
         (Py.lower k) v)
    mp [].

(** One turn of the loop of [load_sigla_qml]: the palette [mp] read from a
    file is merged into [sigla_color_map]. *)
Definition load_palette (normalize_case : bool) (sigla_color_map mp : palette) : palette :=
  match mp with
  | [] => sigla_color_map
  | _ =>
      let mp := if normalize_case then normalize_palette mp else mp in
      fold_left (fun m kv => AgeColor.dict_set m (fst kv) (snd kv)) mp sigla_color_map
  end.

Definition _lookup_sigla_color (sigla_color_map : palette) (sigla : string) : string :=
  match sigla_color_map with
  | [] => ""
  | _ =>
      match Sigla.dict_get sigla sigla_color_map with
      | Some c => c
      | None =>
          match Sigla.dict_get (Py.upper sigla) sigla_color_map with
          | Some c => c
          | None =>
              match Sigla.dict_get (Py.lower sigla) sigla_color_map with
              | Some c => c
              | None => ""
              end
          end
      end
  end.

End Qml.

(** ** plotagem.py: grid steps *)

Module Plot.

(** [span] is [NonFinite] for an infinite or NaN float. *)
Definition _nice_step (span : Scale.extent) (target : Q) : Q :=
  match span with
  | Scale.NonFinite => 1
  | Scale.Finite span =>
      if Qle_bool span 0 then 1
      else
        let raw := (span / Scale.qmax target 1)%Q in
        let exp := Scale.decade raw in
        let frac := (raw / Scale.pow10 exp)%Q in
        let step : Q :=
          if negb (Qle_bool (3 # 2) frac) then 1
          else if negb (Qle_bool 3 frac) then 2
          else if negb (Qle_bool 7 frac) then 5
          else 10 in
        (step * Scale.pow10 exp)%Q
  end.

End Plot.

(** ** The blocks of the simplified legend *)

Module Legend.

Import Sigla.

Definition PRE : string := "Pré-cambriano".
Definition FANERO : string := "Fanerozoico".

(** The pair [(None, None)] is [None]. *)
Definition _submacro_from_idade_code (idade_code : string) : option (string * string) :=
  let ic := Py.upper idade_code in
  if Py.startswith ic "A" then Some (PRE, "Arqueano")
  else if starts_any ic ["PP"; "MP"; "NP"] then Some (PRE, "Proterozoico")
  else if starts_not_doubled ic "P" || Py.startswith ic "D"
          || starts_not_doubled ic "C" || Py.startswith ic "S"
          || Py.startswith ic "O" || Py.startswith ic "CM"
       then Some (FANERO, "Paleozoico")
  else if starts_any ic ["J"; "K"; "T"; "JK"] then Some (FANERO, "Mesozóico")
  else if starts_any ic ["Q"; "N"; "PG"; "PL"; "PE"; "E"] then Some (FANERO, "Cenozoico")
  else
    let macro := _macro_from_idade_code_simple ic in
    if Py.mem macro ["Pre-cambriano"; "Pré-cambriano"] then Some (PRE, "Proterozoico")
    else if String.eqb macro "Paleozóico" then Some (FANERO, "Paleozoico")
    else if String.eqb macro "Mesozóico" then Some (FANERO, "Mesozóico")
    else if String.eqb macro "Cenozóico" then Some (FANERO, "Cenozoico")
    else None.

(** The macro-era of [classify] that a block of the legend stands for. *)
Definition macro_of_block (b : option (string * string)) : string :=
  match b with
  | None => ""
  | Some (_, sub) =>
      if Py.mem sub ["Arqueano"; "Proterozoico"] then PRE_CAMBRIANO
      else if String.eqb sub "Paleozoico" then PALEOZOICO
      else if String.eqb sub "Mesozóico" then MESOZOICO
      else if String.eqb sub "Cenozoico" then CENOZOICO
      else ""
  end.

End Legend.

(** ** Consolidation: the target of a small feature *)

Module Consolidate.

(** [np.isclose(a, b)] on finite floats: [|a - b| <= atol + rtol * |b|] *)
Definition isclose (a b : Q) : bool :=
  Qle_bool (Qabs (a - b)) ((1 # 100000000) + (1 # 100000) * Qabs b).

Section Select.

(** The geometry library is outside the repository: what the loops read of
    it is whether the small feature intersects a candidate and how far it is
    from it ([Err] when the call raises), and the area of a candidate
    ([big_area.get(t, 0.0)]). *)
Variable intersects : nat -> result bool.
Variable distance : nat -> result Q.
Variable big_area : nat -> Q.
Variable s_idx : nat.

(** The state of the first loop: [(best_t, best_area, found_touch)]. *)
Definition touch_step (st : option nat * Q * bool) (t_abs : nat)
  : option nat * Q * bool :=
  let '(best_t, best_area, found_touch) := st in
  if Nat.eqb s_idx t_abs then st
  else
    match intersects t_abs with
    | Ok true =>
        let a := big_area t_abs in
        if negb (Qle_bool a best_area) then (Some t_abs, a, true)
        else (best_t, best_area, true)
    | Ok false => st
    | Err _ => st
    end.

(** The state of the second loop: [(best_t, best_area, best_d)], [None]
    standing for the initial infinite distance. *)
Definition near_step (st : option nat * Q * option Q) (t_abs : nat)
  : option nat * Q * option Q :=
  let '(best_t, best_area, best_d) := st in
  if Nat.eqb s_idx t_abs then st
  else
    match distance t_abs with
    | Err _ => st
    | Ok d =>
        let a := big_area t_abs in
        let closer :=
          match best_d with
          | None => true
          | Some bd => negb (Qle_bool bd d)
          end in
        let tie :=
          match best_d with
          | None => false
          | Some bd => isclose d bd && negb (Qle_bool a best_area)
          end in
        if closer || tie then (Some t_abs, a, Some d) else st
    end.

(** The target chosen for the small feature among its candidates
    ([best_t] after the two loops). *)
Definition pick_target (cand_big_abs : list nat) : option nat :=
  let '(best_t, _, found_touch) :=
    fold_left touch_step cand_big_abs (None, - (1), false) in
  if found_touch then best_t
  else
    let '(best_t, _, _) := fold_left near_step cand_big_abs (None, - (1), None) in
    best_t.

(** What the loops keep, stated for the candidates seen so far. *)

(** A candidate that counts in the first loop. *)
Definition touching (t : nat) : Prop := t <> s_idx /\ intersects t = Ok true.

Definition touch_inv (seen : list nat) (st : option nat * Q * bool) : Prop :=
  let '(bt, ba, found) := st in
  if found
  then exists t, bt = Some t /\ In t seen /\ touching t /\ ba = big_area t
                 /\ forall t', In t' seen -> touching t' -> big_area t' <= ba
  else bt = None /\ ba = - (1) /\ forall t', In t' seen -> ~ touching t'.

(** A candidate that counts in the second loop, with its distance. *)
Definition measured (t : nat) (d : Q) : Prop := t <> s_idx /\ distance t = Ok d.

Definition near_inv (seen : list nat) (st : option nat * Q * option Q) : Prop :=
  let '(bt, ba, bd) := st in
  match bd with
  | None => bt = None /\ forall t' d', In t' seen -> ~ measured t' d'
  | Some d =>
      exists t, bt = Some t /\ In t seen /\ measured t d /\ ba = big_area t
                /\ forall t' d', In t' seen -> measured t' d' ->
                                 d <= d' /\ (d' == d -> big_area t' <= ba)
  end.

End Select.

(** [area_s.idxmax()]: the first position of the largest area; [best] is
    the position and the area kept so far. *)
Fixpoint idxmax_from (i : nat) (best : nat * Q) (l : list Q) : nat :=
  match l with
  | [] => fst best
  | a :: l' =>
      idxmax_from (S i) (if Qle_bool a (snd best) then best else (i, a)) l'
  end.

(** An empty series raises [ValueError]. *)
Definition idxmax (l : list Q) : result nat :=
  match l with
  | [] => Err ValueError
  | a :: l' => Ok (idxmax_from 1 (0%nat, a) l')
  end.

(** Step 5, when every feature is small: the small features that are
    merged into the largest one (and dropped). *)
Definition all_small_plan (area_s : list Q) (small_idx : list nat)
  : result (nat * list nat) :=
  tgt <- idxmax area_s ;;
  Ok (tgt, filter (fun s => negb (Nat.eqb s tgt)) small_idx).

End Consolidate.

(** ** ScaleCalculator: the two widths that [width_to_scale] divides *)

Module Width.

(** The usable width of the figure, in metres: the paper width less the two
    margins, at least a millionth of a millimetre. *)
Definition content_w_m (dpi : option Z) (fig_width : Q) (width_unit : string)
           (margin : Q) (margin_unit : string) : result Q :=
  paper_w_mm <- Scale._to_mm dpi fig_width width_unit ;;
  margin_mm <- (if Qeq_bool margin 0 then Ok 0%Q
                else Scale._to_mm dpi margin margin_unit) ;;
  Ok (Scale.qmax (paper_w_mm - 2 * margin_mm)%Q (1 # 1000000) / 1000)%Q.

(** The width of the data, in metres: the width of the bounding box in
    degrees times 108000 when the frame is geographic and no equal-area
    frame is asked for, else the width of the bounding box in the frame that
    the metric branch ends up in. *)
Definition map_w_m (self : Scale.Styler) (prefer_area_crs : bool) (g : Scale.GeoFrame)
  : Scale.extent :=
  let geographic :=
    match Scale.crs g with Some c => Scale.is_geographic c | None => false end in
  if negb prefer_area_crs && geographic
  then
    let degree_per_meter := (1 / (3600 * 30))%Q in
    match Scale.width (Scale.native g) with
    | Scale.Finite w => Scale.Finite (w / degree_per_meter)%Q
    | Scale.NonFinite => Scale.NonFinite
    end
  else Scale.width (fst (fst (Scale.metric_path self prefer_area_crs g))).

End Width.

(** * Properties *)

(** ** CodeParser *)

(** C9. Parsing the code "C_cortado_1" gives the age code "C_CORTADO_" and the
    coarse group "C_CORTADO_", with neither a Greek token nor a stem: after the
    absorbed interface marker only the token "1" is left, which is neither.
    This holds whatever the stem length and the ignore set are. *)
Theorem parse_c_cortado_1 (cfg : Sigla.Config) :
  Sigla._parse_sigla cfg "C_cortado_1"
  = {| Sigla.idade_code := "C_CORTADO_"; Sigla.greek := ""; Sigla.stem := "";
       Sigla.coarse_grp := "C_CORTADO_" |}.
Proof.
  destruct cfg as [n ign].
  unfold Sigla._parse_sigla.
  replace (Sigla._extract_idade_code "C_cortado_1") with "C_CORTADO_" by reflexivity.
  replace (Sigla._tokenize_rest "C_cortado_1" "C_CORTADO_") with ["1"] by reflexivity.
  cbn [Sigla.scan_tokens Sigla.ignore_allcaps].
  replace (Sigla.is_allcaps "1") with true by reflexivity.
  destruct (Py.mem "1" ign); reflexivity.
Qed.

(** The scenario with a Greek token and an ignored bare capital. *)
Example parse_np3_alfa :
  Sigla._parse_sigla {| Sigla.stem_len := 2; Sigla.ignore_allcaps := ["X"] |} "NP3alfa_X_"
  = {| Sigla.idade_code := "NP3"; Sigla.greek := "alfa"; Sigla.stem := "";
       Sigla.coarse_grp := "NP3|alfa" |}.
Proof. vm_compute. reflexivity. Qed.

Lemma to_upper_lower (c : ascii) : Py.to_upper (Py.to_lower c) = Py.to_upper c.
Proof.
  destruct c as [[] [] [] [] [] [] [] []]; vm_compute; reflexivity.
Qed.

Lemma upper_lower (s : string) : Py.upper (Py.lower s) = Py.upper s.
Proof.
  induction s as [|c s IH]; simpl.
  - reflexivity.
  - unfold Py.upper, Py.lower in *. simpl. rewrite IH, to_upper_lower. reflexivity.
Qed.

Lemma take_map_str (f : ascii -> ascii) (n : nat) (s : string) :
  Py.take n (Py.map_str f s) = Py.map_str f (Py.take n s).
Proof.
  revert s; induction n as [|n IH]; intros [|c s]; simpl; try reflexivity.
  rewrite IH. reflexivity.
Qed.

Lemma prefix_take (p s : string) :
  String.prefix p s = true -> Py.take (String.length p) s = p.
Proof.
  revert s; induction p as [|a p IH]; intros s H; simpl.
  - reflexivity.
  - destruct s as [|b s]; simpl in H; [discriminate|].
    destruct (Ascii.ascii_dec a b) as [->|n]; [|discriminate].
    rewrite (IH s H). reflexivity.
Qed.

(** The part of the suffix that the parser absorbs is its first eight
    characters, and "CORTADO_" is their upper-case form. *)
Lemma absorbed_marker_upper (rest : string) :
  Py.startswith (Py.lower rest) "cortado_" = true ->
  Py.upper (Py.take 8 rest) = "CORTADO_".
Proof.
  intros H. unfold Py.startswith in H.
  apply prefix_take in H. change (String.length "cortado_") with 8%nat in H.
  unfold Py.lower in H. rewrite take_map_str in H.
  rewrite <- upper_lower. unfold Py.lower. rewrite H. reflexivity.
Qed.

(** The special case on the shape of the code: a run of code characters,
    "C_", and a suffix that starts with a lower-case "c" and spells
    "cortado_" in any case. *)
Lemma extract_interface_code (p r : string) :
  Py.all_str Sigla.is_code_char p = true ->
  Py.startswith (Py.lower r) "ortado_" = true ->
  Sigla._extract_idade_code (p ++ "C_c" ++ r) = p ++ "C_CORTADO_".
Proof.
  intros Hp Hr.
  assert (Hrun : Sigla.leading_code (p ++ "C_c" ++ r) = p ++ "C_").
  { unfold Sigla.leading_code. clear Hr.
    induction p as [|a p IH]; simpl in *.
    - reflexivity.
    - apply andb_true_iff in Hp as [Ha Hp]. rewrite Ha, (IH Hp). reflexivity. }
  assert (Hlen : forall q t : string, Py.drop (String.length q) (q ++ t) = t).
  { induction q as [|a q IH]; intros t; simpl; [reflexivity | apply IH]. }
  assert (Hassoc : forall q t : string, q ++ "C_c" ++ t = (q ++ "C_") ++ String "c" t).
  { induction q as [|a q IH]; intros t; simpl; [reflexivity | f_equal; apply IH]. }
  assert (Hl : String.length (p ++ "C_") = (String.length p + 2)%nat).
  { clear. induction p as [|a p IH]; simpl; [reflexivity | rewrite IH; reflexivity]. }
  assert (Hend : Py.endswith (p ++ "C_") "C_" = true).
  { unfold Py.endswith. rewrite Hl. apply andb_true_iff.
    split; [apply Nat.leb_le; simpl; lia|].
    replace (String.length p + 2 - String.length "C_")%nat with (String.length p)
      by (simpl; lia).
    rewrite Hlen. reflexivity. }
  unfold Sigla._extract_idade_code. rewrite Hrun, Hend.
  rewrite (Hassoc p r), Hlen.
  replace (Py.startswith (Py.lower (String "c" r)) "cortado_") with true
    by (symmetry; exact Hr).
  cbn [andb]. clear.
  induction p as [|a p IH]; simpl; [reflexivity | rewrite IH; reflexivity].
Qed.

(** C3, as stated, fails: in "D_cortado_1" the leading run "D_" ends in the
    single letter D followed by "_" and the rest starts with "cortado_", yet
    the age code stays "D_" and nothing is absorbed. *)
Lemma extract_other_letter_not_absorbed :
  let s := "D_cortado_1" in
  let base := Sigla.leading_code s in
  let rest := Py.drop (String.length base) s in
  Sigla.ends_in_letter_underscore base = true
  /\ Py.startswith (Py.lower rest) "cortado_" = true
  /\ Sigla._extract_idade_code s = "D_"
  /\ Sigla._extract_idade_code s <> base ++ Py.upper (Py.take 8 rest).
Proof.
  vm_compute. repeat split; discriminate.
Qed.

(** C3, amended. For every unit-code string whose longest leading run of
    upper-case letters, digits and underscores ends in "C_" (the letter C
    followed by an underscore) and whose remaining suffix starts,
    case-insensitively, with "cortado_", the age code is that run extended by
    "CORTADO_": the first eight characters of the suffix, in upper case. *)
Theorem extract_absorbs_cortado (s : string) :
  let base := Sigla.leading_code s in
  let rest := Py.drop (String.length base) s in
  Py.endswith base "C_" = true ->
  Py.startswith (Py.lower rest) "cortado_" = true ->
  Sigla._extract_idade_code s = base ++ Py.upper (Py.take 8 rest)
  /\ Py.upper (Py.take 8 rest) = "CORTADO_"
  /\ Py.endswith (Sigla._extract_idade_code s) "C_CORTADO_" = true.
Proof.
  intros base rest Hend Hstart.
  pose proof (absorbed_marker_upper rest Hstart) as Hup.
  assert (Hx : Sigla._extract_idade_code s = base ++ "CORTADO_").
  { unfold Sigla._extract_idade_code. fold base. fold rest.
    rewrite Hend, Hstart. reflexivity. }
  rewrite Hup. repeat split; try assumption.
  rewrite Hx. clear - Hend.
  (* the run ends in "C_": so does it with the marker appended *)
  unfold Py.endswith in *.
  apply andb_true_iff in Hend as [Hlen Heq].
  apply Nat.leb_le in Hlen. apply String.eqb_eq in Heq.
  change (String.length "C_") with 2%nat in *.
  change (String.length "C_CORTADO_") with 10%nat.
  assert (Happ : forall (b : string) (n : nat),
             (n <= String.length b)%nat ->
             Py.drop n (b ++ "CORTADO_") = Py.drop n b ++ "CORTADO_").
  { induction b as [|c b IH]; intros [|n] Hn; simpl in *; try reflexivity; try lia.
    apply IH. lia. }
  assert (Hl : String.length (base ++ "CORTADO_") = (String.length base + 8)%nat).
  { clear. induction base as [|c b IH]; simpl; [reflexivity | rewrite IH; reflexivity]. }
  rewrite Hl. apply andb_true_iff. split.
  - apply Nat.leb_le. lia.
  - replace (String.length base + 8 - 10)%nat with (String.length base - 2)%nat by lia.
    rewrite Happ by lia. rewrite Heq. reflexivity.
Qed.

Lemma extract_absorbs_cortado_witness :
  Py.endswith (Sigla.leading_code "NP3C_cortado_x") "C_" = true
  /\ Py.startswith (Py.lower "cortado_x") "cortado_" = true
  /\ Sigla._extract_idade_code "NP3C_cortado_x" = "NP3C_CORTADO_".
Proof.
  split; [reflexivity | split; [reflexivity |]].
  destruct (extract_absorbs_cortado "NP3C_cortado_x") as [H [Hup _]];
    [reflexivity | reflexivity |].
  rewrite H, Hup. reflexivity.
Defined.

(** ** AgeDominoResolver *)

Lemma mem_cons_iff (s x : string) (l : list string) :
  Py.mem s (x :: l) = true <-> s = x \/ Py.mem s l = true.
Proof.
  unfold Py.mem. simpl. rewrite orb_true_iff, String.eqb_eq. tauto.
Qed.

Lemma mem_In (s : string) (l : list string) : Py.mem s l = true <-> In s l.
Proof.
  induction l as [|x l IH].
  - simpl. split; [discriminate | tauto].
  - rewrite mem_cons_iff, IH. simpl. split; intros [H|H]; auto.
Qed.

(** The code-derived macro-era is one of the four labels or empty. *)
Lemma simple_macro_range (ic : string) :
  let se := Sigla._macro_from_idade_code_simple ic in
  se = "" \/ In se Domino.MACROS.
Proof.
  unfold Sigla._macro_from_idade_code_simple, Domino.MACROS. simpl.
  repeat match goal with |- context [if ?b then _ else _] => destruct b end;
    tauto.
Qed.

(** The resolved macro-era is one of the four labels or empty. *)
Lemma macro_of_range (ed er ic : string) :
  let me := Domino.macro_of ed er ic in
  me = "" \/ In me Domino.MACROS.
Proof.
  set (P := fun x : string => x = "" \/ In x Domino.MACROS).
  assert (P0 : P "") by (left; reflexivity).
  assert (P1 : P Sigla.PRE_CAMBRIANO) by (right; simpl; auto).
  assert (P2 : P Sigla.PALEOZOICO) by (right; simpl; auto).
  assert (P3 : P Sigla.MESOZOICO) by (right; simpl; auto).
  assert (P4 : P Sigla.CENOZOICO) by (right; simpl; auto 6).
  change (P (Domino.macro_of ed er ic)).
  unfold Domino.macro_of.
  destruct (String.eqb ed Sigla.PRE_CAMBRIANO); [assumption|].
  destruct (String.eqb ed Domino.PRE_PALEO).
  { destruct (Domino.has_np ic); assumption. }
  destruct (String.eqb ed Domino.FANEROZOICO_LABEL); [|assumption].
  destruct (Py.mem er [Sigla.PALEOZOICO; Sigla.MESOZOICO; Sigla.CENOZOICO; ""]) eqn:Hm.
  { apply mem_In in Hm. simpl in Hm.
    destruct Hm as [H|[H|[H|[H|[]]]]]; rewrite <- H; assumption. }
  destruct (String.eqb er Domino.PALEO_MESO).
  { destruct (Domino.has_perm ic); assumption. }
  destruct (String.eqb er Domino.MESO_CENO); [|assumption].
  destruct (Domino.has_k ic); assumption.
Qed.

Lemma macros_not_empty (m : string) : In m Domino.MACROS -> m <> "".
Proof.
  unfold Domino.MACROS. simpl. intros [H|[H|[H|[H|[]]]]]; subst; discriminate.
Qed.

(** What the flag computes, in terms of the two macro-eras. *)
Lemma domino_flag_spec (ic me : string) :
  me = "" \/ In me Domino.MACROS ->
  let se := Sigla._macro_from_idade_code_simple ic in
  (Domino.domino_flag ic me = 1%Z \/ Domino.domino_flag ic me = 0%Z)
  /\ (Domino.domino_flag ic me = 1%Z <-> se = "" \/ me = "" \/ se = me).
Proof.
  intros Hme se. unfold Domino.domino_flag. fold se.
  destruct (simple_macro_range ic) as [Hse|Hse]; fold se in Hse.
  - rewrite Hse. rewrite orb_true_r. split; [left; reflexivity|]. tauto.
  - assert (Hne : se <> "") by (apply macros_not_empty; exact Hse).
    assert (Heqb : String.eqb se "" = false) by (apply String.eqb_neq; exact Hne).
    rewrite Heqb, orb_false_r.
    unfold Domino.allowed_set.
    destruct Hme as [Hme|Hme].
    + subst me.
      replace (Py.mem "" Domino.MACROS) with false by reflexivity.
      apply mem_In in Hse. rewrite Hse. split; [left; reflexivity|]. tauto.
    + pose proof (macros_not_empty me Hme) as Hme0.
      apply mem_In in Hme. rewrite Hme.
      destruct (Py.mem se [me]) eqn:Hm.
      * split; [left; reflexivity|].
        apply mem_cons_iff in Hm as [Hm|Hm]; [|discriminate]. tauto.
      * split; [right; reflexivity|].
        split; [discriminate|].
        intros [H|[H|H]]; try contradiction.
        subst me. unfold Py.mem in Hm. simpl in Hm.
        rewrite String.eqb_refl in Hm. discriminate.
Qed.

(** C1, as stated, fails: for the code "C" with no usable eon or era field the
    resolved macro-era is empty, the code-derived one is "Paleozóico" (neither
    empty nor equal to it), and the flag is 1. *)
Lemma domino_ok_with_unresolved_macro :
  let c := Domino.classify_row (fun s => s) Sigla.default_config "flag"
             {| Domino.sigla := "C"; Domino.eon_min := None; Domino.eon_max := None;
                Domino.era_min := None; Domino.era_max := None |} in
  Domino.domino_ok c = 1%Z
  /\ Domino.sigla_era c = Sigla._macro_from_idade_code_simple (Domino.c_idade_code c)
  /\ Domino.sigla_era c <> ""
  /\ Domino.sigla_era c <> Domino.macro_era c.
Proof.
  vm_compute. repeat split; discriminate.
Qed.

(** C1, amended. For every feature processed by classify, domino_ok is 1 if
    and only if the simple macro-era derived from the age code is empty, or
    the resolved macro-era is empty (no macro-era could be resolved), or the
    two are equal; it is 0 otherwise. *)
Theorem domino_ok_iff (strip_marks : string -> string) (cfg : Sigla.Config)
        (enforce_mode : string) (rows : list Domino.Row) (c : Domino.Classified) :
  In c (Domino.classify strip_marks cfg enforce_mode rows) ->
  let se := Sigla._macro_from_idade_code_simple (Domino.c_idade_code c) in
  (Domino.domino_ok c = 1%Z \/ Domino.domino_ok c = 0%Z)
  /\ (Domino.domino_ok c = 1%Z <->
       se = "" \/ Domino.macro_era c = "" \/ se = Domino.macro_era c).
Proof.
  intros Hin. unfold Domino.classify in Hin.
  apply in_map_iff in Hin as [r [Hc _]]. subst c.
  unfold Domino.classify_row.
  destruct (Domino._choose_minmax strip_marks (Domino.eon_min r) (Domino.eon_max r) Domino.EON)
    as [eon_m eon_M].
  destruct (Domino._choose_minmax strip_marks (Domino.era_min r) (Domino.era_max r) Domino.ERA)
    as [era_m era_M].
  cbn [Domino.domino_ok Domino.macro_era Domino.c_idade_code].
  apply domino_flag_spec. apply macro_of_range.
Qed.

Lemma domino_ok_iff_witness :
  let r := {| Domino.sigla := "K2bt"; Domino.eon_min := Some "Fanerozoico";
              Domino.eon_max := Some "Fanerozoico"; Domino.era_min := Some "Mesozoico";
              Domino.era_max := Some "Mesozoico" |} in
  let c := Domino.classify_row (fun s => s) Sigla.default_config "flag" r in
  In c (Domino.classify (fun s => s) Sigla.default_config "flag" [r])
  /\ Domino.domino_ok c = 1%Z.
Proof.
  intros r c.
  assert (Hin : In c (Domino.classify (fun s => s) Sigla.default_config "flag" [r]))
    by (left; reflexivity).
  split; [exact Hin|].
  destruct (domino_ok_iff (fun s => s) Sigla.default_config "flag" [r] c Hin) as [_ [_ H]].
  apply H. right. right. reflexivity.
Defined.

(** ** Colour helpers *)

Lemma hex_upper_digit (x : ascii) :
  Color.is_hex_upper x = true ->
  exists d : Z, (0 <= d < 16)%Z /\ x = Color.hex_digit d.
Proof.
  intros H.
  exists (match Color.hex_value x with Some d => d | None => 0%Z end).
  destruct x as [[] [] [] [] [] [] [] []];
    try (vm_compute in H; discriminate H);
    (split; [vm_compute; split; [discriminate | reflexivity] | vm_compute; reflexivity]).
Qed.

Lemma digit_cases (d : Z) :
  (0 <= d < 16)%Z ->
  In d [0; 1; 2; 3; 4; 5; 6; 7; 8; 9; 10; 11; 12; 13; 14; 15]%Z.
Proof.
  intros H. simpl.
  assert (d = 0 \/ d = 1 \/ d = 2 \/ d = 3 \/ d = 4 \/ d = 5 \/ d = 6 \/ d = 7
          \/ d = 8 \/ d = 9 \/ d = 10 \/ d = 11 \/ d = 12 \/ d = 13 \/ d = 14
          \/ d = 15)%Z as Hd by lia.
  intuition auto 20.
Qed.

Lemma hex_digit_upper (d : Z) :
  (0 <= d < 16)%Z -> Color.is_hex_upper (Color.hex_digit d) = true.
Proof.
  intros H. apply digit_cases in H. simpl in H.
  repeat (destruct H as [H|H]; [subst d; reflexivity|]). contradiction.
Qed.

Lemma hex_digit_not_hash (d : Z) :
  (0 <= d < 16)%Z -> Ascii.eqb (Color.hex_digit d) "#" = false.
Proof.
  intros H. apply digit_cases in H. simpl in H.
  repeat (destruct H as [H|H]; [subst d; reflexivity|]). contradiction.
Qed.

(** Two hexadecimal digits read as the number they spell. *)
Lemma int16_two_digits (d1 d2 : Z) :
  (0 <= d1 < 16)%Z -> (0 <= d2 < 16)%Z ->
  Color.int16 (String (Color.hex_digit d1) (String (Color.hex_digit d2) ""))
  = Ok (16 * d1 + d2)%Z.
Proof.
  intros H1 H2. apply digit_cases in H1. apply digit_cases in H2.
  simpl in H1, H2.
  repeat (destruct H1 as [H1|H1]; [subst d1|]); try contradiction;
    repeat (destruct H2 as [H2|H2]; [subst d2; vm_compute; reflexivity|]);
    contradiction.
Qed.

Lemma clamp255_range (v : Z) : (0 <= Color.clamp255 v <= 255)%Z.
Proof. unfold Color.clamp255. lia. Qed.

Lemma clamp255_id (v : Z) : (0 <= v <= 255)%Z -> Color.clamp255 v = v.
Proof. unfold Color.clamp255. lia. Qed.

Lemma int16_hex2 (v : Z) : (0 <= v <= 255)%Z -> Color.int16 (Color.hex2 v) = Ok v.
Proof.
  intros H. unfold Color.hex2.
  rewrite int16_two_digits.
  - f_equal. pose proof (Z.div_mod v 16). lia.
  - split; [apply Z.div_pos; lia | apply Z.div_lt_upper_bound; lia].
  - apply Z.mod_pos_bound. lia.
Qed.

Lemma hex2_two_digits (d1 d2 : Z) :
  (0 <= d1 < 16)%Z -> (0 <= d2 < 16)%Z ->
  Color.hex2 (16 * d1 + d2)
  = String (Color.hex_digit d1) (String (Color.hex_digit d2) "").
Proof.
  intros H1 H2. unfold Color.hex2.
  replace ((16 * d1 + d2) / 16)%Z with d1
    by (apply Z.div_unique with (r := d2); lia).
  replace ((16 * d1 + d2) mod 16)%Z with d2
    by (apply Z.mod_unique with (q := d1); lia).
  reflexivity.
Qed.

Lemma lstrip_hash (x : ascii) (t : string) :
  Ascii.eqb x "#" = false ->
  Py.lstrip (Py.is_char "#") (String "#" (String x t)) = String x t.
Proof.
  intros H. unfold Py.lstrip, Py.is_char. simpl. rewrite H. reflexivity.
Qed.

(** What [_rgb_to_hex] writes, digit by digit. *)
Lemma rgb_to_hex_digits (r g b : Z) :
  Color._rgb_to_hex (r, g, b)
  = String "#"
      (String (Color.hex_digit (Color.clamp255 r / 16))
      (String (Color.hex_digit (Color.clamp255 r mod 16))
      (String (Color.hex_digit (Color.clamp255 g / 16))
      (String (Color.hex_digit (Color.clamp255 g mod 16))
      (String (Color.hex_digit (Color.clamp255 b / 16))
      (String (Color.hex_digit (Color.clamp255 b mod 16)) "")))))).
Proof. reflexivity. Qed.

Lemma byte_digits (v : Z) :
  (0 <= v <= 255)%Z -> (0 <= v / 16 < 16)%Z /\ (0 <= v mod 16 < 16)%Z.
Proof.
  intros H. split.
  - split; [apply Z.div_pos; lia | apply Z.div_lt_upper_bound; lia].
  - apply Z.mod_pos_bound. lia.
Qed.

(** Every string [_rgb_to_hex] writes is canonical. *)
Lemma rgb_to_hex_canonical (c : Color.rgb) :
  Color.is_canonical (Color._rgb_to_hex c) = true.
Proof.
  destruct c as [[r g] b]. rewrite rgb_to_hex_digits.
  destruct (byte_digits _ (clamp255_range r)) as [R1 R2].
  destruct (byte_digits _ (clamp255_range g)) as [G1 G2].
  destruct (byte_digits _ (clamp255_range b)) as [B1 B2].
  unfold Color.is_canonical.
  cbn [Py.all_str String.length Nat.eqb].
  rewrite !hex_digit_upper by assumption. reflexivity.
Qed.

(** ... and reads back as the three channels clamped to 0..255. *)
Lemma hex_to_rgb_of_rgb_to_hex (r g b : Z) :
  Color._hex_to_rgb (Color._rgb_to_hex (r, g, b))
  = Ok (Color.clamp255 r, Color.clamp255 g, Color.clamp255 b).
Proof.
  rewrite rgb_to_hex_digits.
  destruct (byte_digits _ (clamp255_range r)) as [R1 R2].
  destruct (byte_digits _ (clamp255_range g)) as [G1 G2].
  destruct (byte_digits _ (clamp255_range b)) as [B1 B2].
  unfold Color._hex_to_rgb.
  rewrite lstrip_hash by (apply hex_digit_not_hash; assumption).
  unfold Py.slice. cbn [Py.drop Py.take Nat.sub].
  pose proof (int16_hex2 _ (clamp255_range r)) as Hr.
  pose proof (int16_hex2 _ (clamp255_range g)) as Hg.
  pose proof (int16_hex2 _ (clamp255_range b)) as Hb.
  unfold Color.hex2 in Hr, Hg, Hb.
  rewrite Hr. cbn [bind]. rewrite Hg. cbn [bind]. rewrite Hb. reflexivity.
Qed.

(** A canonical colour parses, and writing its channels gives it back. *)
Lemma canonical_parse (c : string) :
  Color.is_canonical c = true ->
  exists r g b : Z,
    Color._hex_to_rgb c = Ok (r, g, b)
    /\ (0 <= r <= 255)%Z /\ (0 <= g <= 255)%Z /\ (0 <= b <= 255)%Z
    /\ Color._rgb_to_hex (r, g, b) = c.
Proof.
  intros H.
  destruct c as [|h [|x1 [|x2 [|x3 [|x4 [|x5 [|x6 [|x7 t]]]]]]]];
    try (simpl in H; rewrite ?andb_false_r in H; simpl in H; discriminate H).
  unfold Color.is_canonical in H. cbn [String.length Nat.eqb Py.all_str] in H.
  apply andb_true_iff in H as [Hh Hx].
  apply andb_true_iff in Hh as [Hh _].
  apply Ascii.eqb_eq in Hh. subst h.
  repeat rewrite andb_true_iff in Hx.
  destruct Hx as (A1 & A2 & A3 & A4 & A5 & A6 & _).
  destruct (hex_upper_digit _ A1) as (d1 & D1 & ->).
  destruct (hex_upper_digit _ A2) as (d2 & D2 & ->).
  destruct (hex_upper_digit _ A3) as (d3 & D3 & ->).
  destruct (hex_upper_digit _ A4) as (d4 & D4 & ->).
  destruct (hex_upper_digit _ A5) as (d5 & D5 & ->).
  destruct (hex_upper_digit _ A6) as (d6 & D6 & ->).
  exists (16 * d1 + d2)%Z, (16 * d3 + d4)%Z, (16 * d5 + d6)%Z.
  split.
  - unfold Color._hex_to_rgb.
    rewrite lstrip_hash by (apply hex_digit_not_hash; assumption).
    unfold Py.slice. cbn [Py.drop Py.take Nat.sub].
    rewrite !int16_two_digits by assumption. reflexivity.
  - repeat (split; [lia|]).
    unfold Color._rgb_to_hex.
    rewrite !clamp255_id by lia.
    rewrite !hex2_two_digits by assumption. reflexivity.
Qed.

Lemma trunc_inject_Z (q : Q) (z : Z) : q == inject_Z z -> Color.trunc q = z.
Proof.
  unfold Qeq, Color.trunc. destruct q as [n d]. simpl. intros H.
  rewrite Z.mul_1_r in H. subst n. apply Z.quot_mul. discriminate.
Qed.

Lemma truthy_canonical (c : string) : Color.is_canonical c = true -> Py.truthy c = true.
Proof. destruct c; [discriminate | reflexivity]. Qed.

Lemma truthy_false (c : string) : Py.truthy c = false <-> c = "".
Proof.
  unfold Py.truthy. rewrite negb_false_iff. apply String.eqb_eq.
Qed.

Lemma truthy_true (c : string) : Py.truthy c = true <-> c <> "".
Proof.
  unfold Py.truthy. rewrite negb_true_iff. apply String.eqb_neq.
Qed.

(** The blend of two parsed colours, as [mix_two] computes it. *)
Lemma mix_two_parsed (c1 c2 : string) (a : Q) (r1 g1 b1 r2 g2 b2 : Z) :
  Py.truthy c1 = true -> Py.truthy c2 = true ->
  Color._hex_to_rgb c1 = Ok (r1, g1, b1) ->
  Color._hex_to_rgb c2 = Ok (r2, g2, b2) ->
  Color.mix_two c1 c2 a
  = Ok (Color._rgb_to_hex
          (Color.trunc ((1 - a) * inject_Z r1 + a * inject_Z r2),
           Color.trunc ((1 - a) * inject_Z g1 + a * inject_Z g2),
           Color.trunc ((1 - a) * inject_Z b1 + a * inject_Z b2))).
Proof.
  intros T1 T2 P1 P2. unfold Color.mix_two.
  rewrite T1, T2, P1, P2. reflexivity.
Qed.

(** C6, as stated, fails at weight 0 when the first colour is empty (the
    second colour comes back, not the first), and a colour that is not in
    canonical form is rewritten rather than returned unchanged. *)
Lemma mix_two_weight0_not_first :
  Color.mix_two "" "#FF0000" 0 = Ok "#FF0000"
  /\ Color.mix_two "" "#FF0000" 0 <> Ok ""
  /\ Color.mix_two "#ff0000" "#000000" 0 = Ok "#FF0000"
  /\ Color.mix_two "#ff0000" "#000000" 0 <> Ok "#ff0000".
Proof.
  vm_compute. repeat split; discriminate.
Qed.

(** C6, amended. For two colours in canonical form ("#RRGGBB", upper case),
    the two-colour blend returns the first unchanged at weight 0 and the
    second unchanged at weight 1.  At every weight, when exactly one of the
    two colours is empty it returns the other unchanged, and blending two
    empty colours returns empty. *)
Theorem mix_two_endpoints (c1 c2 : string) (a : Q) :
  (Color.is_canonical c1 = true -> Color.is_canonical c2 = true ->
   Color.mix_two c1 c2 0 = Ok c1 /\ Color.mix_two c1 c2 1 = Ok c2)
  /\ (c1 = "" -> c2 <> "" -> Color.mix_two c1 c2 a = Ok c2)
  /\ (c1 <> "" -> c2 = "" -> Color.mix_two c1 c2 a = Ok c1)
  /\ Color.mix_two "" "" a = Ok "".
Proof.
  split; [|split; [|split]].
  - intros C1 C2.
    destruct (canonical_parse c1 C1) as (r1 & g1 & b1 & P1 & _ & _ & _ & W1).
    destruct (canonical_parse c2 C2) as (r2 & g2 & b2 & P2 & _ & _ & _ & W2).
    pose proof (truthy_canonical c1 C1) as T1.
    pose proof (truthy_canonical c2 C2) as T2.
    split.
    + rewrite (mix_two_parsed c1 c2 0 _ _ _ _ _ _ T1 T2 P1 P2).
      rewrite (trunc_inject_Z _ r1) by ring.
      rewrite (trunc_inject_Z _ g1) by ring.
      rewrite (trunc_inject_Z _ b1) by ring.
      rewrite W1. reflexivity.
    + rewrite (mix_two_parsed c1 c2 1 _ _ _ _ _ _ T1 T2 P1 P2).
      rewrite (trunc_inject_Z _ r2) by ring.
      rewrite (trunc_inject_Z _ g2) by ring.
      rewrite (trunc_inject_Z _ b2) by ring.
      rewrite W2. reflexivity.
  - intros E1 N2. subst c1. apply truthy_true in N2.
    unfold Color.mix_two. rewrite N2. reflexivity.
  - intros N1 E2. subst c2. apply truthy_true in N1.
    unfold Color.mix_two. rewrite N1. reflexivity.
  - reflexivity.
Qed.

Lemma mix_two_endpoints_witness :
  Color.is_canonical "#CD5C5C" = true /\ Color.is_canonical "#FFCC66" = true
  /\ Color.mix_two "#CD5C5C" "#FFCC66" 0 = Ok "#CD5C5C"
  /\ Color.mix_two "#CD5C5C" "#FFCC66" 1 = Ok "#FFCC66"
  /\ Color.mix_two "" "#FFCC66" (1 # 2) = Ok "#FFCC66".
Proof.
  destruct (mix_two_endpoints "#CD5C5C" "#FFCC66" (1 # 2)) as [H _].
  destruct (mix_two_endpoints "" "#FFCC66" (1 # 2)) as [_ [H2 _]].
  split; [reflexivity | split; [reflexivity |]].
  destruct (H eq_refl eq_refl) as [H0 H1].
  split; [exact H0 | split; [exact H1 |]].
  apply H2; [reflexivity | discriminate].
Defined.

(** Case analysis on a helper that returned: split every [bind] and every
    test on the way, and drop the branches that raised. *)
Ltac returned H :=
  repeat match type of H with
         | context [bind ?r _] =>
             let E := fresh "E" in destruct r eqn:E; cbn [bind] in H
         | context [if ?b then _ else _] =>
             let E := fresh "E" in destruct b eqn:E
         | context [match ?x with _ => _ end] =>
             let E := fresh "E" in destruct x eqn:E
         | Err _ = Ok _ => discriminate H
         end.

Lemma ok_inj {A : Type} (x y : A) : Ok x = Ok y -> x = y.
Proof. intros H. congruence. Qed.

Ltac canonical_or_empty H :=
  apply ok_inj in H; rewrite <- H;
  first [ left; reflexivity | right; apply rgb_to_hex_canonical ].

Lemma mix_two_nonempty_canonical (c1 c2 : string) (a : Q) (s : string) :
  Py.truthy c1 = true -> Py.truthy c2 = true ->
  Color.mix_two c1 c2 a = Ok s -> Color.is_canonical s = true.
Proof.
  intros T1 T2 H. unfold Color.mix_two in H. rewrite T1, T2 in H. cbn [negb andb] in H.
  returned H. apply ok_inj in H. rewrite <- H. apply rgb_to_hex_canonical.
Qed.

Lemma mix_many_canonical (cs : list string) (s : string) :
  Color.mix_many cs = Ok s -> s = "" \/ Color.is_canonical s = true.
Proof.
  intros H. unfold Color.mix_many in H.
  returned H; canonical_or_empty H.
Qed.

Lemma mix_weighted_canonical (cs : list string) (ws : list Q) (s : string) :
  Color.mix_weighted cs ws = Ok s -> s = "" \/ Color.is_canonical s = true.
Proof.
  intros H. unfold Color.mix_weighted, Color.mix_pairs in H.
  returned H; canonical_or_empty H.
Qed.

Lemma b64_mix_weighted_canonical (cs : list string) (ws : list float) (s : string) :
  B64.mix_weighted cs ws = Ok s -> s = "" \/ Color.is_canonical s = true.
Proof.
  intros H. unfold B64.mix_weighted, B64.mix_pairs in H.
  returned H; canonical_or_empty H.
Qed.

Lemma jitter_canonical (rgb_to_hls hls_to_rgb : Q * Q * Q -> Q * Q * Q)
      (c : string) (k : nat) (dh dl : Q) (s : string) :
  Color.jitter rgb_to_hls hls_to_rgb c k dh dl = Ok s ->
  s = "" \/ Color.is_canonical s = true.
Proof.
  intros H. unfold Color.jitter in H.
  returned H; canonical_or_empty H.
Qed.

(** C10, as stated, fails for the two-colour blend: with one side empty it
    hands the other argument back as it is, canonical or not. *)
Lemma mix_two_passes_through_noncanonical :
  Color.mix_two "" "#abcdef" (1 # 2) = Ok "#abcdef"
  /\ "#abcdef" <> ""
  /\ Color.is_canonical "#abcdef" = false.
Proof.
  vm_compute. repeat split; discriminate.
Qed.

(** C10, amended. Every colour string returned by the unweighted mean, the
    area-weighted mix (in exact and in binary64 arithmetic) and jitter, and by
    the two-colour blend when both of its colours are non-empty, is either the
    empty string or a canonical seven-character upper-case "#RRGGBB" string
    whose three channels lie in 0..255.  With one colour empty the two-colour
    blend returns the other argument as it is, so its result is canonical
    when that argument is. *)
Theorem blend_output_canonical (rgb_to_hls hls_to_rgb : Q * Q * Q -> Q * Q * Q)
        (s : string) :
  (exists c1 c2 a, c1 <> "" /\ c2 <> "" /\ Color.mix_two c1 c2 a = Ok s)
  \/ (exists c1 c2 a,
        (c1 = "" \/ Color.is_canonical c1 = true)
        /\ (c2 = "" \/ Color.is_canonical c2 = true)
        /\ Color.mix_two c1 c2 a = Ok s)
  \/ (exists cs, Color.mix_many cs = Ok s)
  \/ (exists cs ws, Color.mix_weighted cs ws = Ok s)
  \/ (exists cs ws, B64.mix_weighted cs ws = Ok s)
  \/ (exists c k dh dl, Color.jitter rgb_to_hls hls_to_rgb c k dh dl = Ok s) ->
  s = ""
  \/ (Color.is_canonical s = true
      /\ String.length s = 7%nat
      /\ exists r g b : Z,
           Color._hex_to_rgb s = Ok (r, g, b)
           /\ (0 <= r <= 255)%Z /\ (0 <= g <= 255)%Z /\ (0 <= b <= 255)%Z).
Proof.
  intros H.
  assert (Hc : s = "" \/ Color.is_canonical s = true).
  { destruct H as [H|[H|[H|[H|[H|H]]]]].
    - destruct H as (c1 & c2 & a & N1 & N2 & H). right.
      apply truthy_true in N1, N2.
      exact (mix_two_nonempty_canonical c1 c2 a s N1 N2 H).
    - destruct H as (c1 & c2 & a & K1 & K2 & H).
      destruct (Py.truthy c1) eqn:T1; destruct (Py.truthy c2) eqn:T2.
      + right. exact (mix_two_nonempty_canonical c1 c2 a s T1 T2 H).
      + unfold Color.mix_two in H. rewrite T1, T2 in H. cbn [negb andb] in H.
        apply ok_inj in H. subst s.
        destruct K1 as [K1|K1]; [left; exact K1 | right; exact K1].
      + unfold Color.mix_two in H. rewrite T1, T2 in H. cbn [negb andb] in H.
        apply ok_inj in H. subst s.
        destruct K2 as [K2|K2]; [left; exact K2 | right; exact K2].
      + unfold Color.mix_two in H. rewrite T1, T2 in H. cbn [negb andb] in H.
        apply ok_inj in H. subst s. left. reflexivity.
    - destruct H as (cs & H). exact (mix_many_canonical cs s H).
    - destruct H as (cs & ws & H). exact (mix_weighted_canonical cs ws s H).
    - destruct H as (cs & ws & H). exact (b64_mix_weighted_canonical cs ws s H).
    - destruct H as (c & k & dh & dl & H).
      exact (jitter_canonical rgb_to_hls hls_to_rgb c k dh dl s H). }
  destruct Hc as [Hc|Hc]; [left; exact Hc | right].
  split; [exact Hc|]. split.
  - destruct s as [|h t]; [discriminate|]. simpl in Hc.
    apply andb_true_iff in Hc as [Hc _]. apply andb_true_iff in Hc as [_ Hl].
    apply Nat.eqb_eq in Hl. simpl. rewrite Hl. reflexivity.
  - destruct (canonical_parse s Hc) as (r & g & b & P & R & G & B & _).
    exists r, g, b. auto.
Qed.

Lemma blend_output_canonical_witness :
  Color.mix_many ["#FF0000"; ""; "#000000"] = Ok "#7F0000"
  /\ Color.is_canonical "#7F0000" = true.
Proof.
  split; [reflexivity|].
  destruct (blend_output_canonical (fun x => x) (fun x => x) "#7F0000") as [H|H].
  - right. right. left. exists ["#FF0000"; ""; "#000000"]. reflexivity.
  - discriminate H.
  - exact (proj1 H).
Defined.

(** *** Scaling the weights of [mix_weighted] *)

Lemma Qle_bool_scale (k w : Q) : 0 < k -> Qle_bool (k * w) 0 = Qle_bool w 0.
Proof.
  intros Hk.
  destruct (Qle_bool w 0) eqn:Hw.
  - apply Qle_bool_iff. apply Qle_bool_iff in Hw.
    setoid_replace 0 with (k * 0) by ring.
    apply Qmult_le_l; assumption.
  - destruct (Qle_bool (k * w) 0) eqn:Hkw; [|reflexivity].
    apply Qle_bool_iff in Hkw.
    assert (Hle : w <= 0).
    { apply (Qmult_le_l w 0 k Hk).
      setoid_replace (k * 0) with 0 by ring. exact Hkw. }
    apply Qle_bool_iff in Hle. congruence.
Qed.

Lemma weighted_pairs_scale (k : Q) (cs : list string) (ws : list Q) :
  0 < k ->
  Color.weighted_pairs cs (map (Qmult k) ws)
  = map (fun cw => (fst cw, k * snd cw)) (Color.weighted_pairs cs ws).
Proof.
  intros Hk. unfold Color.weighted_pairs.
  revert ws; induction cs as [|c cs IH]; intros [|w ws]; simpl; try reflexivity.
  rewrite (Qle_bool_scale k w Hk).
  destruct (Py.truthy c && negb (Qle_bool w 0)); simpl; rewrite IH; reflexivity.
Qed.

Lemma fold_Qplus_scale (k : Q) (l l' : list Q) :
  Forall2 (fun t t' => t' == k * t) l l' ->
  forall a a', a' == k * a ->
  fold_left Qplus l' a' == k * fold_left Qplus l a.
Proof.
  induction 1 as [|t t' l l' Ht _ IH]; intros a a' Ha; simpl.
  - exact Ha.
  - apply IH. rewrite Ha, Ht. ring.
Qed.

Lemma sumQ_scale (k : Q) (l l' : list Q) :
  Forall2 (fun t t' => t' == k * t) l l' -> Color.sumQ l' == k * Color.sumQ l.
Proof.
  intros H. unfold Color.sumQ. apply (fold_Qplus_scale k l l' H). ring.
Qed.

Lemma round_half_even_comp (q q' : Q) :
  q == q' -> Color.round_half_even q = Color.round_half_even q'.
Proof.
  intros H. unfold Color.round_half_even.
  rewrite (Qfloor_comp q q' H).
  assert (Hd : q - inject_Z (Qfloor q') == q' - inject_Z (Qfloor q'))
    by (rewrite H; reflexivity).
  rewrite (Qcompare_comp _ _ Hd (1 # 2) (1 # 2) (Qeq_refl _)).
  reflexivity.
Qed.

(** The terms of a channel sum for scaled weights are the scaled terms, and
    a colour that does not parse raises the same exception. *)
Lemma channel_term_eq (f : Color.rgb -> Z) (c : string) (w : Q) :
  Color.channel_term f (c, w)
  = match Color._hex_to_rgb c with
    | Ok x => Ok (inject_Z (f x) * w)
    | Err e => Err e
    end.
Proof. reflexivity. Qed.

Lemma channel_terms_scale (k : Q) (f : Color.rgb -> Z) (pairs : list (string * Q)) :
  match map_result (Color.channel_term f) pairs,
        map_result (Color.channel_term f) (map (fun cw => (fst cw, k * snd cw)) pairs) with
  | Ok ts, Ok ts' => Forall2 (fun t t' => t' == k * t) ts ts'
  | Err e, Err e' => e = e'
  | _, _ => False
  end.
Proof.
  induction pairs as [|[c w] pairs IH]; cbn [map map_result].
  - constructor.
  - cbn [fst snd]. rewrite !channel_term_eq.
    destruct (Color._hex_to_rgb c) as [x|e]; cbn [bind]; [|reflexivity].
    destruct (map_result (Color.channel_term f) pairs) as [ts|e];
      destruct (map_result (Color.channel_term f)
                  (map (fun cw => (fst cw, k * snd cw)) pairs)) as [ts'|e'];
      cbn [bind]; try contradiction; try assumption.
    constructor; [ring | assumption].
Qed.

Lemma channel_mean_scale (k sw sw' : Q) (f : Color.rgb -> Z) (pairs : list (string * Q)) :
  0 < k -> ~ sw == 0 -> sw' == k * sw ->
  Color.channel_mean (map (fun cw => (fst cw, k * snd cw)) pairs) sw' f
  = Color.channel_mean pairs sw f.
Proof.
  intros Hk Hsw Hsw'. unfold Color.channel_mean.
  pose proof (channel_terms_scale k f pairs) as H.
  destruct (map_result (Color.channel_term f) pairs) as [ts|e];
    destruct (map_result (Color.channel_term f)
                (map (fun cw => (fst cw, k * snd cw)) pairs)) as [ts'|e'];
    try contradiction.
  - cbn [bind]. f_equal. apply round_half_even_comp.
    rewrite (sumQ_scale k ts ts' H), Hsw'.
    field. split; [exact Hsw | intros Hk0; rewrite Hk0 in Hk; discriminate Hk].
  - cbn [bind]. congruence.
Qed.

Lemma mix_pairs_scale (k : Q) (pairs : list (string * Q)) :
  0 < k ->
  Color.mix_pairs (map (fun cw => (fst cw, k * snd cw)) pairs) = Color.mix_pairs pairs.
Proof.
  intros Hk. unfold Color.mix_pairs. cbv zeta.
  set (sw := Color.sumQ (map snd pairs)).
  set (sw' := Color.sumQ (map snd (map (fun cw => (fst cw, k * snd cw)) pairs))).
  assert (Hsum : sw' == k * sw).
  { apply sumQ_scale. clear.
    induction pairs as [|[c w] pairs IH]; simpl; constructor;
      [reflexivity | exact IH]. }
  assert (Hb : Qle_bool sw' 0 = Qle_bool sw 0).
  { rewrite <- (Qle_bool_scale k sw Hk).
    apply Qleb_comp; [exact Hsum | reflexivity]. }
  rewrite Hb. destruct (Qle_bool sw 0) eqn:Hsw; [reflexivity|].
  assert (Hne : ~ sw == 0).
  { intros H0. assert (Hle : sw <= 0) by (rewrite H0; apply Qle_refl).
    apply Qle_bool_iff in Hle. congruence. }
  rewrite !(channel_mean_scale k sw sw' _ pairs Hk Hne Hsum).
  reflexivity.
Qed.

(** C7, as stated, fails in the double-precision arithmetic of the code: the
    mix of "#030000" and "#000000" with weights 1 and 5 has a red mean of
    exactly 0.5, which rounds to 0; with both weights multiplied by the
    positive constant 0.1 (the double nearest to it) the mean is
    0.5000000000000001, which rounds to 1. *)
Lemma b64_scaling_changes_mix :
  let k := 0x1.999999999999ap-4%float in
  let cs := ["#030000"; "#000000"] in
  let ws := [1%float; 5%float] in
  PrimFloat.ltb 0%float k = true
  /\ B64.mix_weighted cs ws = Ok "#000000"
  /\ B64.mix_weighted cs (B64.scale_weights k ws) = Ok "#010000"
  /\ B64.mix_weighted cs (B64.scale_weights k ws) <> B64.mix_weighted cs ws.
Proof.
  vm_compute. repeat split; discriminate.
Qed.

(** In exact arithmetic the mix does not depend on a common positive factor
    of the weights.  (The code computes in double precision, where this
    fails, as the example above shows.) *)
Lemma mix_weighted_scale_exact (cs : list string) (ws : list Q) (k : Q) :
  0 < k ->
  Color.mix_weighted cs (map (Qmult k) ws) = Color.mix_weighted cs ws.
Proof.
  intros Hk. unfold Color.mix_weighted. cbv zeta.
  rewrite (weighted_pairs_scale k cs ws Hk).
  destruct (Color.weighted_pairs cs ws) as [|p ps]; [reflexivity|].
  cbn [map].
  change ((fst p, k * snd p) :: map (fun cw : string * Q => (fst cw, k * snd cw)) ps)
    with (map (fun cw : string * Q => (fst cw, k * snd cw)) (p :: ps)).
  apply mix_pairs_scale. exact Hk.
Qed.

(** ** Binary64: scaling by a power of two *)

Lemma digits_log2 (m : positive) : Zpos (digits2_pos m) = (Z.log2 (Zpos m) + 1)%Z.
Proof.
  assert (E : forall p, digits2_pos p = Pos.size p)
    by (induction p as [p IH|p IH|]; simpl; congruence).
  destruct m as [p|p|]; cbn [Z.log2]; rewrite ?E; cbn [Pos.size]; lia.
Qed.

Lemma Zdigits2_log2 (m : Z) : (0 < m)%Z -> Zdigits2 m = (Z.log2 m + 1)%Z.
Proof.
  destruct m as [|p|p]; try lia. intros _. apply digits_log2.
Qed.

Lemma shr_1_m (mrs : shr_record) :
  (0 <= shr_m mrs)%Z -> shr_m (shr_1 mrs) = (shr_m mrs / 2)%Z.
Proof.
  destruct mrs as [m r s]. cbn [shr_m]. intros H.
  destruct m as [|[p|p|]|p]; cbn [shr_1 shr_m].
  - reflexivity.
  - rewrite (Pos2Z.inj_xI p). apply Z.div_unique with 1%Z; lia.
  - rewrite (Pos2Z.inj_xO p). apply Z.div_unique with 0%Z; lia.
  - reflexivity.
  - lia.
Qed.

Lemma iter_shr_m (p : positive) :
  forall mrs : shr_record,
    (0 <= shr_m mrs)%Z ->
    shr_m (iter_pos shr_1 p mrs) = (shr_m mrs / 2 ^ Zpos p)%Z.
Proof.
  induction p as [p IH|p IH|]; intros mrs H; cbn [iter_pos].
  - assert (H1 : (0 <= shr_m (shr_1 mrs))%Z)
      by (rewrite shr_1_m by exact H; apply Z.div_pos; lia).
    assert (H2 : (0 <= shr_m (iter_pos shr_1 p (shr_1 mrs)))%Z)
      by (rewrite IH by exact H1; apply Z.div_pos; lia).
    rewrite IH by exact H2. rewrite IH by exact H1. rewrite shr_1_m by exact H.
    rewrite !Z.div_div by lia. f_equal.
    rewrite Pos2Z.inj_xI, Z.pow_add_r, Z.pow_mul_r by lia.
    change (2 ^ 2)%Z with 4%Z. rewrite Z.pow_1_r.
    replace (4 ^ Z.pos p)%Z with (2 ^ Z.pos p * 2 ^ Z.pos p)%Z; [ring|].
    rewrite <- Z.pow_add_r by lia. replace (Z.pos p + Z.pos p)%Z with (2 * Z.pos p)%Z by lia.
    rewrite Z.pow_mul_r by lia. reflexivity.
  - assert (H2 : (0 <= shr_m (iter_pos shr_1 p mrs))%Z)
      by (rewrite IH by exact H; apply Z.div_pos; lia).
    rewrite IH by exact H2. rewrite IH by exact H.
    rewrite !Z.div_div by lia. f_equal.
    rewrite Pos2Z.inj_xO. rewrite <- Z.pow_add_r by lia. f_equal. lia.
  - rewrite shr_1_m by exact H. reflexivity.
Qed.

(** [shr]: the mantissa left, and the exponent reached; the record does not
    depend on the exponent. *)
Lemma shr_m_shr (mrs : shr_record) (e n : Z) :
  (0 <= shr_m mrs)%Z ->
  shr_m (fst (shr mrs e n)) = (shr_m mrs / 2 ^ Z.max n 0)%Z.
Proof.
  intros H. destruct n as [|p|p]; cbn [shr fst].
  - rewrite Z.div_1_r. reflexivity.
  - rewrite iter_shr_m by exact H. rewrite Z.max_l by lia. reflexivity.
  - rewrite Z.max_r by lia. rewrite Z.div_1_r. reflexivity.
Qed.

Lemma shr_exponent (mrs : shr_record) (e n : Z) :
  shr mrs e n = (fst (shr mrs 0 n), (e + Z.max n 0)%Z).
Proof.
  destruct n as [|p|p]; cbn [shr fst]; f_equal; lia.
Qed.

Lemma shr_record_of_loc_m (m : Z) (l : location) : shr_m (shr_record_of_loc m l) = m.
Proof. destruct l as [|[| |]]; reflexivity. Qed.

(** Where the number is normal, [shr_fexp] drops what exceeds 53 binary
    places. *)
Lemma shr_fexp_regime (m e : Z) (l : location) :
  (-1074 <= Zdigits2 m + e - 53)%Z ->
  shr_fexp prec emax m e l
  = (fst (shr (shr_record_of_loc m l) 0 (Zdigits2 m - 53)),
     (e + Z.max (Zdigits2 m - 53) 0)%Z).
Proof.
  intros H. unfold shr_fexp, fexp, SpecFloat.emin, prec, emax.
  rewrite Z.max_l by lia.
  replace (Zdigits2 m + e - 53 - e)%Z with (Zdigits2 m - 53)%Z by lia.
  apply shr_exponent.
Qed.

Lemma round_nearest_even_cases (m : Z) (l : location) :
  round_nearest_even m l = m \/ round_nearest_even m l = (m + 1)%Z.
Proof.
  destruct l as [|[| |]]; cbn [round_nearest_even]; auto.
  destruct (Z.even m); auto.
Qed.

Lemma Zdigits2_div_pow2 (m k : Z) :
  (0 < m)%Z -> (0 <= k < Zdigits2 m)%Z ->
  (0 < m / 2 ^ k)%Z /\ Zdigits2 (m / 2 ^ k) = (Zdigits2 m - k)%Z.
Proof.
  intros Hm Hk. rewrite (Zdigits2_log2 m Hm) in Hk |- *.
  assert (Hpos : (0 < m / 2 ^ k)%Z).
  { apply Z.div_str_pos. split; [apply Z.pow_pos_nonneg; lia|].
    apply Z.le_trans with (2 ^ Z.log2 m)%Z; [apply Z.pow_le_mono_r; lia|].
    apply Z.log2_spec. exact Hm. }
  split; [exact Hpos|].
  rewrite (Zdigits2_log2 _ Hpos).
  rewrite <- Z.shiftr_div_pow2 by lia.
  rewrite Z.log2_shiftr by exact Hm. lia.
Qed.

Lemma Zdigits2_mono (a b : Z) : (0 < a <= b)%Z -> (Zdigits2 a <= Zdigits2 b)%Z.
Proof.
  intros H. rewrite !Zdigits2_log2 by lia.
  pose proof (Z.log2_le_mono a b). lia.
Qed.

Lemma Zdigits2_succ (a : Z) : (0 < a)%Z -> (Zdigits2 (a + 1) <= Zdigits2 a + 1)%Z.
Proof.
  intros H. rewrite !Zdigits2_log2 by lia.
  pose proof (Z.log2_succ_le a). unfold Z.succ in *. lia.
Qed.

(** After the first step of rounding the mantissa has 53 or 54 binary
    places. *)
Lemma rnd_mid (m : Z) (l : location) :
  (0 < m)%Z -> (53 <= Zdigits2 m)%Z ->
  let mrs' := fst (shr (shr_record_of_loc m l) 0 (Zdigits2 m - 53)) in
  let m2 := round_nearest_even (shr_m mrs') (loc_of_shr_record mrs') in
  (0 < m2)%Z /\ (53 <= Zdigits2 m2 <= 54)%Z.
Proof.
  intros Hm Hd mrs' m2.
  set (d := Zdigits2 m) in *.
  assert (Em1 : shr_m mrs' = (m / 2 ^ (d - 53))%Z).
  { unfold mrs'. rewrite shr_m_shr by (rewrite shr_record_of_loc_m; lia).
    rewrite shr_record_of_loc_m, Z.max_l by lia. reflexivity. }
  destruct (Zdigits2_div_pow2 m (d - 53) Hm) as [Hm1 Hd1]; [fold d; lia|].
  fold d in Hd1. rewrite <- Em1 in Hm1, Hd1.
  assert (Hm2 : (shr_m mrs' <= m2 <= shr_m mrs' + 1)%Z).
  { unfold m2. destruct (round_nearest_even_cases (shr_m mrs') (loc_of_shr_record mrs'))
      as [E|E]; rewrite E; lia. }
  assert (A1 : (Zdigits2 (shr_m mrs') <= Zdigits2 m2)%Z)
    by (apply Zdigits2_mono; lia).
  assert (A2 : (Zdigits2 m2 <= Zdigits2 (shr_m mrs' + 1))%Z)
    by (apply Zdigits2_mono; lia).
  pose proof (Zdigits2_succ (shr_m mrs') Hm1). lia.
Qed.

(** The mantissa that rounding keeps: positive, 53 binary places when the
    mantissa given has at least 53, and the places dropped. *)
Lemma rnd_spec (m : Z) (l : location) :
  (0 < m)%Z -> (53 <= Zdigits2 m)%Z ->
  exists p : positive,
    fst (Pow2.rnd m l) = Zpos p
    /\ Zpos (digits2_pos p) = 53%Z
    /\ (Zdigits2 m - 53 <= snd (Pow2.rnd m l) <= Zdigits2 m - 53 + 1)%Z.
Proof.
  intros Hm Hd. pose proof (rnd_mid m l Hm Hd) as Hmid. revert Hmid.
  unfold Pow2.rnd. cbv zeta. cbn [fst snd].
  set (mrs' := fst (shr (shr_record_of_loc m l) 0 (Zdigits2 m - 53))).
  set (m2 := round_nearest_even (shr_m mrs') (loc_of_shr_record mrs')).
  intros [Hm2 Hd2].
  set (mrs'' := fst (shr (shr_record_of_loc m2 loc_Exact) 0 (Zdigits2 m2 - 53))).
  assert (Em3 : shr_m mrs'' = (m2 / 2 ^ (Zdigits2 m2 - 53))%Z).
  { unfold mrs''. rewrite shr_m_shr by (rewrite shr_record_of_loc_m; lia).
    rewrite shr_record_of_loc_m, Z.max_l by lia. reflexivity. }
  assert (Hk : (0 <= Zdigits2 m2 - 53 < Zdigits2 m2)%Z) by lia.
  destruct (Zdigits2_div_pow2 m2 (Zdigits2 m2 - 53) Hm2 Hk) as [Hm3 Hd3].
  rewrite <- Em3 in Hm3, Hd3.
  destruct (shr_m mrs'') as [|p|p] eqn:E3; try lia.
  exists p. split; [reflexivity|]. split.
  - cbn [Zdigits2] in Hd3. lia.
  - lia.
Qed.

(** Where the number stays normal and finite, [binary_round_aux] keeps the
    mantissa that [rnd] computes and adds the places dropped to the
    exponent. *)
Lemma binary_round_aux_regime (s : bool) (m e : Z) (l : location) (p : positive) :
  (0 < m)%Z -> (53 <= Zdigits2 m)%Z ->
  (-1074 <= Zdigits2 m + e - 53)%Z ->
  (Zdigits2 m + e + 1 <= 1024)%Z ->
  fst (Pow2.rnd m l) = Zpos p ->
  binary_round_aux prec emax s m e l = S754_finite s p (e + snd (Pow2.rnd m l)).
Proof.
  intros Hm Hd Hlo Hhi Hp.
  pose proof (rnd_mid m l Hm Hd) as Hmid.
  revert Hp Hmid. unfold Pow2.rnd. cbv zeta. cbn [fst snd].
  unfold binary_round_aux.
  rewrite (shr_fexp_regime m e l Hlo).
  set (mrs' := fst (shr (shr_record_of_loc m l) 0 (Zdigits2 m - 53))).
  set (m2 := round_nearest_even (shr_m mrs') (loc_of_shr_record mrs')).
  intros Hp [Hm2 Hd2].
  rewrite (shr_fexp_regime m2 _ loc_Exact) by lia.
  set (mrs'' := fst (shr (shr_record_of_loc m2 loc_Exact) 0 (Zdigits2 m2 - 53))) in *.
  rewrite Hp.
  replace (e + Z.max (Zdigits2 m - 53) 0 + Z.max (Zdigits2 m2 - 53) 0)%Z
    with (e + (Z.max (Zdigits2 m - 53) 0 + Z.max (Zdigits2 m2 - 53) 0))%Z by lia.
  unfold prec, emax.
  destruct (Z.leb_spec (e + (Z.max (Zdigits2 m - 53) 0 + Z.max (Zdigits2 m2 - 53) 0))
              (1024 - 53)); [reflexivity | lia].
Qed.

(** *** The three operations on numbers whose exponent is moved *)

Lemma digits_bounds (m : positive) :
  Zpos (digits2_pos m) = 53%Z -> (2 ^ 52 <= Zpos m < 2 ^ 53)%Z.
Proof.
  intros H. rewrite digits_log2 in H.
  pose proof (Z.log2_spec (Zpos m) ltac:(lia)) as B.
  replace (Z.log2 (Zpos m)) with 52%Z in B by lia. exact B.
Qed.

Lemma Zdigits2_bounds (m k : Z) :
  (0 <= k)%Z -> (2 ^ k <= m < 2 ^ (k + 1))%Z -> Zdigits2 m = (k + 1)%Z.
Proof.
  intros Hk H.
  assert (Hm : (0 < m)%Z) by (pose proof (Z.pow_pos_nonneg 2 k); lia).
  rewrite (Zdigits2_log2 m Hm). f_equal.
  apply Z.log2_unique; [exact Hk|]. unfold Z.succ. exact H.
Qed.

(** A product of two 53-place mantissas has 105 or 106 places. *)
Lemma digits_mul (mx my : positive) :
  Zpos (digits2_pos mx) = 53%Z -> Zpos (digits2_pos my) = 53%Z ->
  (105 <= Zdigits2 (Zpos (mx * my)) <= 106)%Z.
Proof.
  intros Hx Hy. apply digits_bounds in Hx. apply digits_bounds in Hy.
  rewrite Pos2Z.inj_mul.
  assert (L : (2 ^ 104 <= Zpos mx * Zpos my)%Z).
  { change (2 ^ 104)%Z with (2 ^ 52 * 2 ^ 52)%Z. apply Z.mul_le_mono_nonneg; lia. }
  assert (U : (Zpos mx * Zpos my < 2 ^ 106)%Z).
  { change (2 ^ 106)%Z with (2 ^ 53 * 2 ^ 53)%Z. apply Z.mul_lt_mono_nonneg; lia. }
  destruct (Z_lt_le_dec (Zpos mx * Zpos my) (2 ^ 105)) as [C|C].
  - rewrite (Zdigits2_bounds _ 104); [lia | lia | split; [exact L | exact C]].
  - rewrite (Zdigits2_bounds _ 105); [lia | lia | split; [exact C | exact U]].
Qed.

(** Multiplying two positive normal numbers: moving the exponent of the
    second by [n] moves the exponent of the product by [n], as long as the
    product stays normal and finite. *)
Lemma SFmul_shift (mx my : positive) (ex ey n : Z) :
  Zpos (digits2_pos mx) = 53%Z -> Zpos (digits2_pos my) = 53%Z ->
  (-1074 <= ex + ey + 52)%Z -> (-1074 <= ex + ey + n + 52)%Z ->
  (ex + ey + 107 <= 1024)%Z -> (ex + ey + n + 107 <= 1024)%Z ->
  exists (m : positive) (e : Z),
    SFmul prec emax (S754_finite false mx ex) (S754_finite false my ey)
    = S754_finite false m e
    /\ SFmul prec emax (S754_finite false mx ex) (S754_finite false my (ey + n))
       = S754_finite false m (e + n)
    /\ Zpos (digits2_pos m) = 53%Z
    /\ (ex + ey + 52 <= e <= ex + ey + 54)%Z.
Proof.
  intros Hx Hy L1 L2 U1 U2.
  pose proof (digits_mul mx my Hx Hy) as Hd.
  set (M := Zpos (mx * my)) in *.
  assert (HM : (0 < M)%Z) by (unfold M; lia).
  assert (Hd53 : (53 <= Zdigits2 M)%Z) by lia.
  destruct (rnd_spec M loc_Exact HM Hd53) as (p & Hp & Hdp & Hs).
  exists p, (ex + ey + snd (Pow2.rnd M loc_Exact))%Z.
  cbn [SFmul xorb]. fold M.
  split; [|split; [|split]].
  - apply binary_round_aux_regime; try assumption; lia.
  - replace (ex + (ey + n))%Z with (ex + ey + n)%Z by lia.
    rewrite (binary_round_aux_regime false M (ex + ey + n) loc_Exact p);
      try assumption; try lia.
    f_equal. lia.
  - exact Hdp.
  - lia.
Qed.

(** Multiplying by [2^n] moves the exponent by [n]. *)
Lemma rnd_pow2 (mw : positive) :
  Zpos (digits2_pos mw) = 53%Z ->
  Pow2.rnd (Zpos (4503599627370496 * mw)) loc_Exact = (Zpos mw, 52%Z).
Proof.
  intros H. unfold Pow2.rnd. cbv zeta.
  assert (Ed : Zdigits2 (Zpos (4503599627370496 * mw)) = 105%Z).
  { apply digits_bounds in H. apply (Zdigits2_bounds _ 104); [lia|].
    rewrite Pos2Z.inj_mul. change (Zpos 4503599627370496) with (2 ^ 52)%Z.
    change (2 ^ 104)%Z with (2 ^ 52 * 2 ^ 52)%Z.
    change (2 ^ (104 + 1))%Z with (2 ^ 52 * 2 ^ 53)%Z. nia. }
  rewrite Ed. change (105 - 53)%Z with 52%Z.
  assert (E1 : fst (shr (shr_record_of_loc (Zpos (4503599627370496 * mw)) loc_Exact) 0 52)
               = Build_shr_record (Zpos mw) false false)
    by (vm_compute; reflexivity).
  rewrite E1. cbn [shr_m loc_of_shr_record round_nearest_even].
  cbn [Zdigits2]. rewrite H. cbn. reflexivity.
Qed.

Lemma SFmul_pow2 (mw : positive) (ew n : Z) :
  Zpos (digits2_pos mw) = 53%Z ->
  (-1074 <= ew + n)%Z -> (ew + n + 54 <= 1024)%Z ->
  SFmul prec emax (S754_finite false 4503599627370496 (n - 52)) (S754_finite false mw ew)
  = S754_finite false mw (ew + n).
Proof.
  intros H L U. cbn [SFmul xorb].
  pose proof (rnd_pow2 mw H) as E.
  assert (Ed : Zdigits2 (Zpos (4503599627370496 * mw)) = 105%Z).
  { apply digits_bounds in H. apply (Zdigits2_bounds _ 104); [lia|].
    rewrite Pos2Z.inj_mul. change (Zpos 4503599627370496) with (2 ^ 52)%Z.
    change (2 ^ 104)%Z with (2 ^ 52 * 2 ^ 52)%Z.
    change (2 ^ (104 + 1))%Z with (2 ^ 52 * 2 ^ 53)%Z. nia. }
  rewrite (binary_round_aux_regime false _ (n - 52 + ew) loc_Exact mw);
    try (rewrite ?Ed; lia).
  - rewrite E. cbn [snd]. f_equal. lia.
  - rewrite E. reflexivity.
Qed.

Lemma pos_iter_xO (m d : positive) : Zpos (Pos.iter xO m d) = (Zpos m * 2 ^ Zpos d)%Z.
Proof.
  rewrite (Pos.iter_swap_gen _ _ Zpos xO (Z.mul 2)) by reflexivity.
  change (Pos.iter (Z.mul 2) (Zpos m) d) with (Z.shiftl (Zpos m) (Zpos d)).
  apply Z.shiftl_mul_pow2. lia.
Qed.

(** [shl_align] to a smaller exponent multiplies the mantissa. *)
Lemma shl_align_down (m : positive) (e ez : Z) :
  (ez <= e)%Z ->
  Zpos (fst (shl_align m e ez)) = (Zpos m * 2 ^ (e - ez))%Z.
Proof.
  intros H. unfold shl_align.
  destruct (ez - e)%Z as [|d|d] eqn:E; cbn [fst].
  - replace (e - ez)%Z with 0%Z by lia. lia.
  - lia.
  - rewrite pos_iter_xO. f_equal. f_equal. lia.
Qed.

Lemma shl_align_same (m : positive) (e ez n : Z) :
  fst (shl_align m (e + n) (ez + n)) = fst (shl_align m e ez).
Proof.
  unfold shl_align. replace (ez + n - (e + n))%Z with (ez - e)%Z by lia.
  destruct (ez - e)%Z; reflexivity.
Qed.

(** Adding two positive normal numbers: moving both exponents by [n] moves
    the exponent of the sum by [n], as long as the sum stays normal and
    finite; the sum is at least as large as its terms. *)
Lemma SFadd_shift (mx my : positive) (ex ey n : Z) :
  Zpos (digits2_pos mx) = 53%Z -> Zpos (digits2_pos my) = 53%Z ->
  (-1074 <= Z.max ex ey)%Z -> (-1074 <= Z.max ex ey + n)%Z ->
  (Z.max ex ey + 55 <= 1024)%Z -> (Z.max ex ey + n + 55 <= 1024)%Z ->
  exists (m : positive) (e : Z),
    SFadd prec emax (S754_finite false mx ex) (S754_finite false my ey)
    = S754_finite false m e
    /\ SFadd prec emax (S754_finite false mx (ex + n)) (S754_finite false my (ey + n))
       = S754_finite false m (e + n)
    /\ Zpos (digits2_pos m) = 53%Z
    /\ (Z.max ex ey <= e <= Z.max ex ey + 2)%Z.
Proof.
  intros Hx Hy L1 L2 U1 U2.
  cbn [SFadd cond_Zopp].
  replace (Z.min (ex + n) (ey + n)) with (Z.min ex ey + n)%Z by lia.
  rewrite !shl_align_same.
  set (ez := Z.min ex ey).
  set (ax := fst (shl_align mx ex ez)). set (ay := fst (shl_align my ey ez)).
  assert (Eax : Zpos ax = (Zpos mx * 2 ^ (ex - ez))%Z) by (apply shl_align_down; unfold ez; lia).
  assert (Eay : Zpos ay = (Zpos my * 2 ^ (ey - ez))%Z) by (apply shl_align_down; unfold ez; lia).
  change (Z.pos ax + Z.pos ay)%Z with (Zpos (ax + ay)).
  cbn [binary_normalize].
  apply digits_bounds in Hx. apply digits_bounds in Hy.
  set (eM := Z.max ex ey) in *.
  (* the exact sum has between 53 + eM - ez and 54 + eM - ez places *)
  assert (Hsum : (2 ^ (52 + (eM - ez)) <= Zpos (ax + ay) < 2 ^ (54 + (eM - ez)))%Z).
  { rewrite Pos2Z.inj_add, Eax, Eay.
    assert (P1 : (0 < 2 ^ (ex - ez))%Z) by (apply Z.pow_pos_nonneg; unfold ez; lia).
    assert (P2 : (0 < 2 ^ (ey - ez))%Z) by (apply Z.pow_pos_nonneg; unfold ez; lia).
    rewrite !Z.pow_add_r by (unfold eM, ez; lia).
    assert (M1 : (2 ^ (ex - ez) <= 2 ^ (eM - ez))%Z)
      by (apply Z.pow_le_mono_r; unfold eM, ez; lia).
    assert (M2 : (2 ^ (ey - ez) <= 2 ^ (eM - ez))%Z)
      by (apply Z.pow_le_mono_r; unfold eM, ez; lia).
    assert (M3 : (2 ^ (eM - ez) = 2 ^ (ex - ez) \/ 2 ^ (eM - ez) = 2 ^ (ey - ez))%Z).
    { unfold eM. destruct (Z.max_spec ex ey) as [[_ ->]|[_ ->]]; auto. }
    change (2 ^ 54)%Z with (2 * 2 ^ 53)%Z. split; [|nia].
    destruct M3 as [->| ->]; nia. }
  set (S := Zpos (ax + ay)) in *.
  assert (HS : (0 < S)%Z) by (unfold S; lia).
  assert (Hd : (53 + (eM - ez) <= Zdigits2 S <= 54 + (eM - ez))%Z).
  { destruct (Z_lt_le_dec S (2 ^ (53 + (eM - ez)))) as [C|C].
    - rewrite (Zdigits2_bounds S (52 + (eM - ez))); [lia | unfold eM, ez; lia|].
      split; [tauto|]. replace (52 + (eM - ez) + 1)%Z with (53 + (eM - ez))%Z by lia.
      exact C.
    - rewrite (Zdigits2_bounds S (53 + (eM - ez))); [lia | unfold eM, ez; lia|].
      split; [exact C|]. replace (53 + (eM - ez) + 1)%Z with (54 + (eM - ez))%Z by lia.
      tauto. }
  assert (Hez : (ez <= eM)%Z) by (unfold eM, ez; lia).
  (* [binary_round] does not move the mantissa to the left *)
  assert (Hbr : forall k : Z,
             (-1074 <= eM + k)%Z ->
             binary_round prec emax false (ax + ay) (ez + k)
             = binary_round_aux prec emax false S (ez + k) loc_Exact).
  { intros k Hk. unfold binary_round, shl_align, fexp, SpecFloat.emin, prec, emax.
    change (Zpos (digits2_pos (ax + ay))) with (Zdigits2 S).
    destruct (Z.max (Zdigits2 S + (ez + k) - 53) (3 - 1024 - 53) - (ez + k))%Z
      as [|q|q] eqn:E; try reflexivity. lia. }
  destruct (rnd_spec S loc_Exact HS ltac:(lia)) as (p & Hp & Hdp & Hs).
  exists p, (ez + snd (Pow2.rnd S loc_Exact))%Z.
  split; [|split; [|split]].
  - replace ez with (ez + 0)%Z at 1 by lia. rewrite Hbr by lia.
    replace (ez + 0)%Z with ez by lia.
    apply binary_round_aux_regime; try assumption; lia.
  - rewrite Hbr by lia.
    rewrite (binary_round_aux_regime false S (ez + n) loc_Exact p); try assumption; try lia.
    f_equal. lia.
  - exact Hdp.
  - lia.
Qed.

(** A quotient does not change when both exponents move by [n]. *)
Lemma SFdiv_shift (x y : spec_float) (n : Z) :
  (exists m e, y = S754_finite false m e) ->
  SFdiv prec emax (Pow2.shift n x) (Pow2.shift n y) = SFdiv prec emax x y.
Proof.
  intros (my & ey & ->). destruct x as [s|s| |s mx ex]; cbn [Pow2.shift SFdiv]; try reflexivity.
  unfold SFdiv_core_binary.
  replace (Zdigits2 (Z.pos mx) + (ex + n) - (Zdigits2 (Z.pos my) + (ey + n)))%Z
    with (Zdigits2 (Z.pos mx) + ex - (Zdigits2 (Z.pos my) + ey))%Z by lia.
  replace (ex + n - (ey + n))%Z with (ex - ey)%Z by lia.
  reflexivity.
Qed.

(** *** From the floats of the code to their mantissas and exponents *)

Lemma prim_zero : Prim2SF PrimFloat.zero = S754_zero false.
Proof. reflexivity. Qed.

Lemma pow2_spec (n : Z) :
  (-1022 <= n <= 1023)%Z ->
  Prim2SF (Pow2.pow2 n) = S754_finite false 4503599627370496 (n - 52).
Proof.
  intros H. unfold Pow2.pow2. apply Prim2SF_SF2Prim.
  unfold SpecFloat.valid_binary, bounded, canonical_mantissa, fexp, SpecFloat.emin, prec, emax.
  change (Z.pos (digits2_pos 4503599627370496)) with 53%Z.
  apply andb_true_iff. split; [apply Z.eqb_eq | apply Z.leb_le]; lia.
Qed.

(** A valid number above the subnormal range has a mantissa of 53 places. *)
Lemma valid_normal (s : bool) (m : positive) (e : Z) :
  SpecFloat.valid_binary prec emax (S754_finite s m e) = true ->
  (-1074 < e)%Z -> Zpos (digits2_pos m) = 53%Z.
Proof.
  unfold SpecFloat.valid_binary, bounded, canonical_mantissa, fexp, SpecFloat.emin, prec, emax.
  intros H He. apply andb_true_iff in H as [H _]. apply Z.eqb_eq in H. lia.
Qed.

Lemma moderate_spec (w : float) :
  Pow2.moderate w = true ->
  exists (m : positive) (e : Z),
    Prim2SF w = S754_finite false m e
    /\ Zpos (digits2_pos m) = 53%Z /\ (-308 <= e <= 204)%Z.
Proof.
  unfold Pow2.moderate. intros H. apply andb_true_iff in H as [H1 H2].
  rewrite leb_spec in H1, H2.
  pose proof (Prim2SF_valid w) as Hv.
  change (Prim2SF 0x1p-256%float) with (S754_finite false 4503599627370496 (-308)) in H1.
  change (Prim2SF 0x1p256%float) with (S754_finite false 4503599627370496 204) in H2.
  destruct (Prim2SF w) as [s|s| |s m e].
  - discriminate H1.
  - destruct s; [discriminate H1 | discriminate H2].
  - discriminate H1.
  - destruct s; [discriminate H1|].
    unfold SFleb, SFcompare in H1, H2.
    assert (L : (-308 <= e)%Z).
    { revert H1. destruct (Z.compare_spec (-308) e) as [C|C|C]; intros H1;
        [lia | lia | discriminate H1]. }
    assert (U : (e <= 204)%Z).
    { revert H2. destruct (Z.compare_spec e 204) as [C|C|C]; intros H2;
        [lia | lia | discriminate H2]. }
    exists m, e. split; [reflexivity|]. split; [|lia].
    apply (valid_normal false m e Hv). lia.
Qed.

Lemma channel_float (v : Z) :
  (0 <= v <= 255)%Z -> Pow2.ranged (-52) (-45) (Prim2SF (B64.of_int v)).
Proof.
  intros H.
  assert (A : forallb Pow2.channel_float_ok (map Z.of_nat (seq 0 256)) = true)
    by (vm_compute; reflexivity).
  rewrite forallb_forall in A.
  assert (Hin : In v (map Z.of_nat (seq 0 256))).
  { apply in_map_iff. exists (Z.to_nat v). split; [lia|]. apply in_seq. lia. }
  specialize (A v Hin). unfold Pow2.channel_float_ok in A. unfold Pow2.ranged.
  destruct (Prim2SF (B64.of_int v)) as [s|s| |s m e]; try discriminate A.
  - destruct s; [discriminate A|]. left. reflexivity.
  - destruct s; [discriminate A|]. right. exists m, e.
    apply andb_true_iff in A as [A A3]. apply andb_true_iff in A as [A1 A2].
    apply Z.eqb_eq in A1. apply Z.leb_le in A2. apply Z.leb_le in A3.
    split; [reflexivity|]. split; [exact A1 | lia].
Qed.

Lemma ranged_weaken (lo hi lo' hi' : Z) (x : spec_float) :
  (lo' <= lo)%Z -> (hi <= hi')%Z -> Pow2.ranged lo hi x -> Pow2.ranged lo' hi' x.
Proof.
  intros L U [H|(m & e & H & D & R)]; [left; exact H|].
  right. exists m, e. split; [exact H|]. split; [exact D | lia].
Qed.

Lemma scaled_weaken (n lo hi lo' hi' : Z) (x x' : float) :
  (lo' <= lo)%Z -> (hi <= hi')%Z ->
  Pow2.scaled n lo hi x x' -> Pow2.scaled n lo' hi' x x'.
Proof.
  intros L U [H R]. split; [exact H | exact (ranged_weaken _ _ _ _ _ L U R)].
Qed.

(** A weight between [2^-256] and [2^256] times [2^n]. *)
Lemma mul_pow2_scaled (n : Z) (w : float) :
  (-256 <= n <= 256)%Z -> Pow2.moderate w = true ->
  Pow2.scaled n (-308) 204 w (PrimFloat.mul (Pow2.pow2 n) w).
Proof.
  intros Hn Hw. destruct (moderate_spec w Hw) as (m & e & E & D & R).
  split.
  - rewrite mul_spec, pow2_spec, E by lia. unfold SF64mul. cbn [Pow2.shift].
    apply SFmul_pow2; [exact D | lia | lia].
  - right. exists m, e. auto.
Qed.

(** A channel times a weight. *)
Lemma mul_scaled (n : Z) (v : Z) (w w' : float) :
  (-256 <= n <= 256)%Z -> (0 <= v <= 255)%Z ->
  Pow2.scaled n (-308) 204 w w' ->
  (exists m e, Prim2SF w = S754_finite false m e) ->
  Pow2.scaled n (-308) 213 (PrimFloat.mul (B64.of_int v) w)
              (PrimFloat.mul (B64.of_int v) w').
Proof.
  intros Hn Hv [Hs Hr] (m0 & e0 & E0).
  destruct Hr as [Hz|(m & e & E & D & R)]; [congruence|].
  rewrite E in Hs. cbn [Pow2.shift] in Hs.
  unfold Pow2.scaled. rewrite !mul_spec, Hs, E. unfold SF64mul.
  destruct (channel_float v Hv) as [Hc|(mc & ec & Ec & Dc & Rc)]; rewrite ?Hc, ?Ec.
  - cbn [SFmul xorb Pow2.shift]. split; [reflexivity | left; reflexivity].
  - destruct (SFmul_shift mc m ec e n Dc D) as (p & q & E1 & E2 & Dp & Rq); try lia.
    rewrite E1, E2. cbn [Pow2.shift]. split; [reflexivity|].
    right. exists p, q. split; [reflexivity|]. split; [exact Dp | lia].
Qed.

(** The sum of two numbers of the two runs. *)
Lemma add_scaled (n lo hi : Z) (x x' y y' : float) :
  (-256 <= n <= 256)%Z -> (-800 <= lo)%Z -> (hi <= 700)%Z ->
  Pow2.scaled n lo hi x x' -> Pow2.scaled n lo hi y y' ->
  Pow2.scaled n lo (hi + 2) (PrimFloat.add x y) (PrimFloat.add x' y').
Proof.
  intros Hn Hlo Hhi [Hx Rx] [Hy Ry].
  unfold Pow2.scaled. rewrite !add_spec, Hx, Hy. unfold SF64add.
  destruct Rx as [Ex|(mx & ex & Ex & Dx & Bx)], Ry as [Ey|(my & ey & Ey & Dy & By)];
    rewrite Ex, Ey; cbn [Pow2.shift].
  - cbn [SFadd]. split; [reflexivity | left; reflexivity].
  - cbn [SFadd]. split; [reflexivity|]. right. exists my, ey.
    split; [reflexivity|]. split; [exact Dy | lia].
  - cbn [SFadd]. split; [reflexivity|]. right. exists mx, ex.
    split; [reflexivity|]. split; [exact Dx | lia].
  - destruct (SFadd_shift mx my ex ey n Dx Dy) as (p & q & E1 & E2 & Dp & Rq); try lia.
    rewrite E1, E2. cbn [Pow2.shift]. split; [reflexivity|].
    right. exists p, q. split; [reflexivity|]. split; [exact Dp | lia].
Qed.

(** [sum] over the two runs. *)
Lemma fold_add_scaled (n lo : Z) (xs xs' : list float) :
  (-256 <= n <= 256)%Z -> (-800 <= lo)%Z ->
  Forall2 (fun x x' => exists hi0, (hi0 <= 213)%Z /\ Pow2.scaled n lo hi0 x x') xs xs' ->
  forall (hi : Z) (acc acc' : float),
    (213 <= hi)%Z -> (hi + 2 * Z.of_nat (List.length xs) <= 700)%Z ->
    Pow2.scaled n lo hi acc acc' ->
    Pow2.scaled n lo (hi + 2 * Z.of_nat (List.length xs))
                (fold_left PrimFloat.add xs acc) (fold_left PrimFloat.add xs' acc').
Proof.
  intros Hn Hlo HF.
  induction HF as [|x x' xs xs' (hi0 & H0 & Hx) _ IH]; intros hi acc acc' Hhi Hlen Hacc;
    cbn [fold_left List.length].
  - replace (hi + 2 * Z.of_nat 0)%Z with hi by lia. exact Hacc.
  - cbn [List.length] in Hlen.
    replace (hi + 2 * Z.of_nat (S (List.length xs)))%Z
      with (hi + 2 + 2 * Z.of_nat (List.length xs))%Z by lia.
    apply IH; [lia | lia |].
    apply add_scaled; [exact Hn | exact Hlo | lia | exact Hacc |].
    apply (scaled_weaken n lo hi0 lo hi); [lia | lia | exact Hx].
Qed.

Lemma zero_scaled (n lo hi : Z) : Pow2.scaled n lo hi PrimFloat.zero PrimFloat.zero.
Proof.
  split; [reflexivity | left; reflexivity].
Qed.

Lemma sum_scaled (n lo : Z) (xs xs' : list float) :
  (-256 <= n <= 256)%Z -> (-800 <= lo)%Z ->
  (List.length xs <= 128)%nat ->
  Forall2 (fun x x' => exists hi0, (hi0 <= 213)%Z /\ Pow2.scaled n lo hi0 x x') xs xs' ->
  Pow2.scaled n lo 469 (B64.sum xs) (B64.sum xs').
Proof.
  intros Hn Hlo Hlen HF. unfold B64.sum.
  apply (scaled_weaken n lo (213 + 2 * Z.of_nat (List.length xs)) lo 469); [lia | lia |].
  apply fold_add_scaled; try assumption; try lia. apply zero_scaled.
Qed.

(** The quotient of two sums is the same float in the two runs. *)
Lemma div_scaled (n lo hi lo' hi' : Z) (x x' y y' : float) :
  Pow2.scaled n lo hi x x' -> Pow2.scaled n lo' hi' y y' ->
  PrimFloat.leb y PrimFloat.zero = false ->
  PrimFloat.div x' y' = PrimFloat.div x y.
Proof.
  intros [Hx Rx] [Hy Ry] Hpos. apply Prim2SF_inj.
  rewrite !div_spec, Hx, Hy. unfold SF64div. apply SFdiv_shift.
  destruct Ry as [E|(m & e & E & _)]; [|exists m, e; exact E].
  rewrite leb_spec, E in Hpos. discriminate Hpos.
Qed.

Lemma leb_zero_scaled (n lo hi : Z) (y y' : float) :
  Pow2.scaled n lo hi y y' ->
  PrimFloat.leb y' PrimFloat.zero = PrimFloat.leb y PrimFloat.zero.
Proof.
  intros [Hy Ry]. rewrite !leb_spec, Hy.
  destruct Ry as [E|(m & e & E & _)]; rewrite E; reflexivity.
Qed.

(** *** The channels of a colour *)

Lemma hex_value_range (c : ascii) (d : Z) :
  Color.hex_value c = Some d -> (0 <= d <= 15)%Z.
Proof.
  destruct c as [[] [] [] [] [] [] [] []]; vm_compute; intros H;
    try discriminate H; injection H as <-; split; discriminate.
Qed.

(** The digits of a literal of [n] characters make a number below
    [16^n]. *)
Lemma digits_value_bound (s : string) :
  forall (acc : Z) (b : bool) (v : Z),
    (0 <= acc)%Z -> Color.digits_value acc b s = Some v ->
    (0 <= v < (acc + 1) * 16 ^ Z.of_nat (String.length s))%Z.
Proof.
  induction s as [|c t IH]; intros acc b v Hacc H; cbn [Color.digits_value] in H.
  - destruct b; [|discriminate H]. injection H as <-. cbn [String.length]. lia.
  - cbn [String.length]. rewrite Nat2Z.inj_succ, Z.pow_succ_r by lia.
    assert (P : (0 < 16 ^ Z.of_nat (String.length t))%Z) by (apply Z.pow_pos_nonneg; lia).
    destruct (Ascii.eqb c "_").
    + destruct b; [|discriminate H]. specialize (IH acc false v Hacc H). nia.
    + destruct (Color.hex_value c) as [d|] eqn:Ed; [|discriminate H].
      apply hex_value_range in Ed.
      specialize (IH (acc * 16 + d)%Z true v ltac:(lia) H). nia.
Qed.

Lemma drop_while_length (p : ascii -> bool) (s : string) :
  (String.length (Py.drop_while p s) <= String.length s)%nat.
Proof.
  induction s as [|c t IH]; cbn [Py.drop_while String.length]; [lia|].
  destruct (p c); cbn [String.length]; lia.
Qed.

Lemma string_of_list_length (l : list ascii) :
  String.length (string_of_list_ascii l) = List.length l.
Proof. induction l; cbn; congruence. Qed.

Lemma list_of_string_length (s : string) :
  List.length (list_ascii_of_string s) = String.length s.
Proof. induction s; cbn; congruence. Qed.

Lemma rev_str_length (s : string) : String.length (Py.rev_str s) = String.length s.
Proof.
  unfold Py.rev_str.
  rewrite string_of_list_length, List.length_rev. apply list_of_string_length.
Qed.

Lemma strip_length (p : ascii -> bool) (s : string) :
  (String.length (Py.strip p s) <= String.length s)%nat.
Proof.
  unfold Py.strip, Py.rstrip, Py.lstrip. rewrite rev_str_length.
  pose proof (drop_while_length p (Py.rev_str (Py.drop_while p s))) as A.
  rewrite rev_str_length in A.
  pose proof (drop_while_length p s). lia.
Qed.

Lemma take_length_le (n : nat) (s : string) : (String.length (Py.take n s) <= n)%nat.
Proof.
  revert s. induction n as [|n IH]; intros s; cbn [Py.take String.length]; [lia|].
  destruct s as [|c t]; cbn [String.length]; [lia|]. specialize (IH t). lia.
Qed.

(** The sign and the prefix of a literal leave no more characters than
    there were. *)
Lemma int16_digits (s : string) (v : Z) :
  Color.int16 s = Ok v ->
  exists (u : string) (w : Z),
    Color.digits_value 0 false u = Some w
    /\ (String.length u <= String.length s)%nat /\ (v = w \/ v = (- w)%Z).
Proof.
  unfold Color.int16.
  pose proof (strip_length Py.is_space s) as Hs.
  set (s' := Py.strip Py.is_space s) in *. clearbody s'.
  assert (Hsign : exists neg body,
             match s' with
             | String "-" t => (true, t)
             | String "+" t => (false, t)
             | _ => (false, s')
             end = (neg, body)
             /\ (String.length body <= String.length s')%nat).
  { destruct s' as [|c t]; [exists false, ""; split; [reflexivity | cbn; lia]|].
    destruct c as [[] [] [] [] [] [] [] []];
      (eexists; eexists; split; [reflexivity | cbn [String.length]; lia]). }
  destruct Hsign as (neg & body & -> & Hb).
  assert (Hdig : exists u,
             match body with
             | String "0" (String "x" t) | String "0" (String "X" t) =>
                 match t with
                 | String "_" t' => Color.digits_value 0 false t'
                 | _ => Color.digits_value 0 false t
                 end
             | _ => Color.digits_value 0 false body
             end = Color.digits_value 0 false u
             /\ (String.length u <= String.length body)%nat).
  { destruct body as [|c b1]; [exists ""; split; [reflexivity | cbn; lia]|].
    destruct c as [[] [] [] [] [] [] [] []];
      try (eexists; split; [reflexivity | cbn [String.length]; lia]).
    destruct b1 as [|c2 t]; [eexists; split; [reflexivity | cbn [String.length]; lia]|].
    destruct c2 as [[] [] [] [] [] [] [] []];
      try (eexists; split; [reflexivity | cbn [String.length]; lia]).
    - destruct t as [|c3 t']; [eexists; split; [reflexivity | cbn [String.length]; lia]|].
      destruct c3 as [[] [] [] [] [] [] [] []];
        (eexists; split; [reflexivity | cbn [String.length]; lia]).
    - destruct t as [|c3 t']; [eexists; split; [reflexivity | cbn [String.length]; lia]|].
      destruct c3 as [[] [] [] [] [] [] [] []];
        (eexists; split; [reflexivity | cbn [String.length]; lia]). }
  destruct Hdig as (u & -> & Hu).
  destruct (Color.digits_value 0 false u) as [w|] eqn:E; [|discriminate].
  intros H. apply ok_inj in H. exists u, w.
  split; [exact E|]. split; [lia|]. destruct neg; auto.
Qed.

(** A channel is read off two characters at most: it lies between -255
    and 255. *)
Lemma int16_slice_bound (a b : nat) (h : string) (v : Z) :
  (b - a <= 2)%nat -> Color.int16 (Py.slice a b h) = Ok v -> (-255 <= v <= 255)%Z.
Proof.
  intros Hab H. destruct (int16_digits _ _ H) as (u & w & Hw & Hu & Hv).
  pose proof (take_length_le (b - a) (Py.drop a h)) as Hl.
  fold (Py.slice a b h) in Hl.
  apply digits_value_bound in Hw; [|lia].
  assert (P : (16 ^ Z.of_nat (String.length u) <= 16 ^ 2)%Z)
    by (apply Z.pow_le_mono_r; lia).
  change (16 ^ 2)%Z with 256%Z in P. lia.
Qed.

Lemma hex_to_rgb_bound (c : string) (r g b : Z) :
  Color._hex_to_rgb c = Ok (r, g, b) ->
  (-255 <= r <= 255)%Z /\ (-255 <= g <= 255)%Z /\ (-255 <= b <= 255)%Z.
Proof.
  unfold Color._hex_to_rgb. intros H.
  destruct (Color.int16 (Py.slice 0 2 _)) as [r'|] eqn:Er; [|discriminate H].
  destruct (Color.int16 (Py.slice 2 4 _)) as [g'|] eqn:Eg; [|discriminate H].
  destruct (Color.int16 (Py.slice 4 6 _)) as [b'|] eqn:Eb; [|discriminate H].
  cbn [bind] in H. apply ok_inj in H. injection H as <- <- <-.
  apply int16_slice_bound in Er; [|cbn; lia].
  apply int16_slice_bound in Eg; [|cbn; lia].
  apply int16_slice_bound in Eb; [|cbn; lia].
  auto.
Qed.

(** The channels of a colour without a negative channel. *)
Lemma channels_in_range (c : string) (r g b : Z) :
  Pow2.no_negative_channel c = true -> Color._hex_to_rgb c = Ok (r, g, b) ->
  (0 <= r <= 255)%Z /\ (0 <= g <= 255)%Z /\ (0 <= b <= 255)%Z.
Proof.
  unfold Pow2.no_negative_channel. intros H P. rewrite P in H.
  apply andb_true_iff in H as [H Hb]. apply andb_true_iff in H as [Hr Hg].
  apply Z.leb_le in Hr, Hg, Hb.
  destruct (hex_to_rgb_bound c r g b P) as (Br & Bg & Bb). lia.
Qed.

(** *** [mix_weighted] on weights multiplied by a power of two *)

Lemma zip_map_weights (f : float -> float) (cs : list string) :
  forall ws : list float,
    Color.zip cs (map f ws)
    = map (fun cw : string * float => (fst cw, f (snd cw))) (Color.zip cs ws).
Proof.
  induction cs as [|c cs IH]; intros [|w ws]; cbn [Color.zip map fst snd];
    try reflexivity.
  rewrite IH. reflexivity.
Qed.

Lemma filter_map_in {A : Type} (h : A -> A) (g : A -> bool) (l : list A) :
  (forall x, In x l -> g (h x) = g x) ->
  filter g (map h l) = map h (filter g l).
Proof.
  induction l as [|a l IH]; intros H; cbn [map filter]; [reflexivity|].
  rewrite (H a (or_introl eq_refl)), IH by (intros x Hx; apply H; right; exact Hx).
  destruct (g a); reflexivity.
Qed.

(** Rounding a negative number gives no positive number. *)
Lemma binary_round_aux_negative (m e : Z) (l : location) :
  SFltb (S754_zero false) (binary_round_aux prec emax true m e l) = false.
Proof.
  unfold binary_round_aux.
  destruct (shr_fexp prec emax m e l) as [mrs' e'].
  destruct (shr_fexp prec emax _ e' loc_Exact) as [mrs'' e''].
  destruct (shr_m mrs'') as [|p|p]; try reflexivity.
  destruct (e'' <=? emax - prec)%Z; reflexivity.
Qed.

(** A weight that is not positive is not positive either when multiplied by
    a positive finite number. *)
Lemma mul_not_positive (k w : float) (mk : positive) (ek : Z) :
  Prim2SF k = S754_finite false mk ek ->
  PrimFloat.ltb PrimFloat.zero w = false ->
  PrimFloat.ltb PrimFloat.zero (PrimFloat.mul k w) = false.
Proof.
  intros Hk H. rewrite ltb_spec in H |- *. rewrite mul_spec, Hk. unfold SF64mul.
  change (Prim2SF PrimFloat.zero) with (S754_zero false) in *.
  destruct (Prim2SF w) as [s|s| |s m e]; cbn [SFmul xorb].
  - reflexivity.
  - destruct s; [reflexivity | discriminate H].
  - reflexivity.
  - destruct s; [apply binary_round_aux_negative | discriminate H].
Qed.

(** The pairs kept are the same, with their weights multiplied. *)
Lemma weighted_pairs_scaled (n : Z) (cs : list string) (ws : list float) :
  (-256 <= n <= 256)%Z ->
  Forall (fun cw => Pow2.moderate (snd cw) = true) (B64.weighted_pairs cs ws) ->
  B64.weighted_pairs cs (B64.scale_weights (Pow2.pow2 n) ws)
  = map (Pow2.scale_pair (Pow2.pow2 n)) (B64.weighted_pairs cs ws).
Proof.
  intros Hn HF. unfold B64.weighted_pairs, B64.scale_weights in *.
  rewrite zip_map_weights.
  change (fun cw : string * float => (fst cw, PrimFloat.mul (Pow2.pow2 n) (snd cw)))
    with (Pow2.scale_pair (Pow2.pow2 n)).
  apply filter_map_in. intros [c w] Hin. cbn [Pow2.scale_pair fst snd].
  destruct (Py.truthy c) eqn:T; [|reflexivity]. cbn [andb].
  destruct (PrimFloat.ltb PrimFloat.zero w) eqn:P.
  - rewrite Forall_forall in HF.
    assert (Hw : Pow2.moderate w = true).
    { apply (HF (c, w)). apply filter_In. split; [exact Hin|].
      cbn [fst snd]. rewrite T, P. reflexivity. }
    destruct (mul_pow2_scaled n w Hn Hw) as [Hs Hr].
    destruct (moderate_spec w Hw) as (m & e & E & _).
    rewrite ltb_spec, Hs, E. reflexivity.
  - apply (mul_not_positive _ _ 4503599627370496 (n - 52)); [|exact P].
    apply pow2_spec. lia.
Qed.

(** The terms of a channel sum in the two runs: the same error, or terms
    that differ by the power of two. *)
Lemma channel_terms_scaled (n : Z) (f : Color.rgb -> Z) (pairs : list (string * float)) :
  (-256 <= n <= 256)%Z ->
  Forall (fun cw => Pow2.moderate (snd cw) = true
                    /\ forall c, Color._hex_to_rgb (fst cw) = Ok c -> (0 <= f c <= 255)%Z)
         pairs ->
  match map_result (B64.channel_term f) pairs,
        map_result (B64.channel_term f) (map (Pow2.scale_pair (Pow2.pow2 n)) pairs) with
  | Ok ts, Ok ts' =>
      List.length ts = List.length pairs
      /\ Forall2 (fun x x' => exists hi0, (hi0 <= 213)%Z /\ Pow2.scaled n (-308) hi0 x x')
                 ts ts'
  | Err e, Err e' => e = e'
  | _, _ => False
  end.
Proof.
  intros Hn HF.
  induction HF as [|[c w] pairs [Hw Hc] _ IH]; cbn [map map_result].
  - split; [reflexivity | constructor].
  - cbn [fst snd] in Hw, Hc.
    assert (E1 : B64.channel_term f (c, w)
                 = match Color._hex_to_rgb c with
                   | Ok c' => Ok (PrimFloat.mul (B64.of_int (f c')) w)
                   | Err e => Err e
                   end) by reflexivity.
    assert (E2 : B64.channel_term f (Pow2.scale_pair (Pow2.pow2 n) (c, w))
                 = match Color._hex_to_rgb c with
                   | Ok c' => Ok (PrimFloat.mul (B64.of_int (f c'))
                                    (PrimFloat.mul (Pow2.pow2 n) w))
                   | Err e => Err e
                   end) by reflexivity.
    rewrite E1, E2. clear E1 E2.
    destruct (Color._hex_to_rgb c) as [rgb|e] eqn:P; cbn [bind]; [|reflexivity].
    destruct (map_result (B64.channel_term f) pairs) as [ts|e1],
             (map_result (B64.channel_term f) (map (Pow2.scale_pair (Pow2.pow2 n)) pairs))
               as [ts'|e2]; cbn [bind]; try exact IH.
    destruct IH as [Hlen IH]. split; [cbn [List.length]; congruence|].
    constructor; [|exact IH].
    exists 213%Z. split; [lia|].
    apply mul_scaled; [exact Hn | exact (Hc rgb eq_refl) | |].
    + apply mul_pow2_scaled; assumption.
    + destruct (moderate_spec w Hw) as (m & e & E & _). exists m, e. exact E.
Qed.

Lemma weights_scaled (n : Z) (pairs : list (string * float)) :
  (-256 <= n <= 256)%Z ->
  Forall (fun cw => Pow2.moderate (snd cw) = true) pairs ->
  Forall2 (fun x x' => exists hi0, (hi0 <= 213)%Z /\ Pow2.scaled n (-308) hi0 x x')
          (map snd pairs) (map snd (map (Pow2.scale_pair (Pow2.pow2 n)) pairs)).
Proof.
  intros Hn HF. induction HF as [|[c w] pairs Hw _ IH]; cbn [map]; constructor;
    [|exact IH].
  exists 204%Z. split; [lia|]. cbn [Pow2.scale_pair snd].
  apply mul_pow2_scaled; assumption.
Qed.

(** One channel of the mix is the same in the two runs. *)
Lemma channel_mean_scaled (n : Z) (f : Color.rgb -> Z) (pairs : list (string * float))
      (sw sw' : float) :
  (-256 <= n <= 256)%Z -> (List.length pairs <= 128)%nat ->
  Forall (fun cw => Pow2.moderate (snd cw) = true
                    /\ forall c, Color._hex_to_rgb (fst cw) = Ok c -> (0 <= f c <= 255)%Z)
         pairs ->
  Pow2.scaled n (-308) 469 sw sw' ->
  PrimFloat.leb sw PrimFloat.zero = false ->
  B64.channel_mean (map (Pow2.scale_pair (Pow2.pow2 n)) pairs) sw' f
  = B64.channel_mean pairs sw f.
Proof.
  intros Hn Hlen HF Hsw Hpos. unfold B64.channel_mean.
  pose proof (channel_terms_scaled n f pairs Hn HF) as HT.
  destruct (map_result (B64.channel_term f) pairs) as [ts|e1],
           (map_result (B64.channel_term f) (map (Pow2.scale_pair (Pow2.pow2 n)) pairs))
             as [ts'|e2]; cbn [bind]; try contradiction.
  - destruct HT as [Hl HT].
    assert (HS : Pow2.scaled n (-308) 469 (B64.sum ts) (B64.sum ts'))
      by (apply sum_scaled; [exact Hn | lia | lia | exact HT]).
    rewrite (div_scaled n _ _ _ _ _ _ _ _ HS Hsw Hpos). reflexivity.
  - congruence.
Qed.

(** Outside the range of the amended claim a power of two changes the mix
    as well: a weight that underflows to zero is dropped, so that nothing is
    left to mix, and weights whose sum overflows make every channel mean
    NaN, which [round] refuses. *)
Example b64_scaling_out_of_range :
  B64.mix_weighted ["#FF0000"] [0x1p-1000%float] = Ok "#FF0000"
  /\ B64.mix_weighted ["#FF0000"]
       (B64.scale_weights (Pow2.pow2 (-100)) [0x1p-1000%float]) = Ok ""
  /\ B64.mix_weighted ["#FF0000"; "#0000FF"] [0x1p1000%float; 0x1p1000%float]
     = Ok "#800080"
  /\ B64.mix_weighted ["#FF0000"; "#0000FF"]
       (B64.scale_weights (Pow2.pow2 24) [0x1p1000%float; 0x1p1000%float])
     = Err ValueError.
Proof. vm_compute. repeat split; reflexivity. Qed.

(** C7, amended. In the double-precision arithmetic of the code, for every
    list of colours with weights and every power of two [2^n] with
    [-256 <= n <= 256], the weighted multi-colour mix computed from the
    weights multiplied uniformly by [2^n] equals the mix computed from the
    original weights (the same colour, or the same exception), provided that
    at most 128 pairs count (non-empty colour, positive weight), that the
    weights that count lie between [2^-256] and [2^256], and that no colour
    that counts has a negative channel.  Within these bounds no product, sum
    or quotient of the computation underflows or overflows, and the
    multiplication by [2^n] only moves exponents.  ([sum] is the plain
    left-to-right sum of module [B64].) *)
Theorem mix_weighted_pow2_invariant (cs : list string) (ws : list float) (n : Z) :
  (-256 <= n <= 256)%Z ->
  (List.length (B64.weighted_pairs cs ws) <= 128)%nat ->
  Forall (fun cw => Pow2.moderate (snd cw) = true
                    /\ Pow2.no_negative_channel (fst cw) = true)
         (B64.weighted_pairs cs ws) ->
  B64.mix_weighted cs (B64.scale_weights (Pow2.pow2 n) ws) = B64.mix_weighted cs ws.
Proof.
  intros Hn Hlen HF.
  assert (Hmod : Forall (fun cw => Pow2.moderate (snd cw) = true)
                        (B64.weighted_pairs cs ws)).
  { apply Forall_forall. intros cw Hin. rewrite Forall_forall in HF.
    exact (proj1 (HF cw Hin)). }
  unfold B64.mix_weighted. cbv zeta.
  rewrite (weighted_pairs_scaled n cs ws Hn Hmod).
  set (pairs := B64.weighted_pairs cs ws) in *. clearbody pairs.
  destruct pairs as [|p ps]; [reflexivity|].
  change (map (Pow2.scale_pair (Pow2.pow2 n)) (p :: ps))
    with (Pow2.scale_pair (Pow2.pow2 n) p :: map (Pow2.scale_pair (Pow2.pow2 n)) ps).
  cbv iota beta.
  change (Pow2.scale_pair (Pow2.pow2 n) p :: map (Pow2.scale_pair (Pow2.pow2 n)) ps)
    with (map (Pow2.scale_pair (Pow2.pow2 n)) (p :: ps)).
  set (pairs := p :: ps) in *. clearbody pairs.
  unfold B64.mix_pairs. cbv zeta.
  set (sw := B64.sum (map snd pairs)).
  set (sw' := B64.sum (map snd (map (Pow2.scale_pair (Pow2.pow2 n)) pairs))).
  assert (Hsw : Pow2.scaled n (-308) 469 sw sw').
  { apply sum_scaled; [exact Hn | lia | rewrite List.length_map; exact Hlen|].
    apply weights_scaled; assumption. }
  rewrite (leb_zero_scaled n _ _ sw sw' Hsw).
  destruct (PrimFloat.leb sw PrimFloat.zero) eqn:Hpos; [reflexivity|].
  assert (Hch : forall f : Color.rgb -> Z,
             (forall r g b, (0 <= r <= 255)%Z /\ (0 <= g <= 255)%Z /\ (0 <= b <= 255)%Z ->
                            (0 <= f (r, g, b) <= 255)%Z) ->
             B64.channel_mean (map (Pow2.scale_pair (Pow2.pow2 n)) pairs) sw' f
             = B64.channel_mean pairs sw f).
  { intros f Hf. apply (channel_mean_scaled n f pairs sw sw' Hn Hlen); [|exact Hsw|exact Hpos].
    apply Forall_forall. intros cw Hin. rewrite Forall_forall in HF.
    destruct (HF cw Hin) as [Hw Hc]. split; [exact Hw|].
    intros [[r g] b] P. apply Hf. exact (channels_in_range _ r g b Hc P). }
  rewrite !Hch; [reflexivity | | |]; intros r g b (Hr & Hg & Hb); cbn [fst snd]; assumption.
Qed.

Lemma mix_weighted_pow2_invariant_witness :
  let cs := ["#030000"; "#000000"] in
  let ws := [1%float; 5%float] in
  (-256 <= -3 <= 256)%Z
  /\ (List.length (B64.weighted_pairs cs ws) <= 128)%nat
  /\ B64.scale_weights (Pow2.pow2 (-3)) ws = [0.125%float; 0.625%float]
  /\ B64.mix_weighted cs (B64.scale_weights (Pow2.pow2 (-3)) ws) = B64.mix_weighted cs ws.
Proof.
  intros cs ws.
  assert (Hn : (-256 <= -3 <= 256)%Z) by lia.
  assert (Hlen : (List.length (B64.weighted_pairs cs ws) <= 128)%nat)
    by (vm_compute; lia).
  split; [exact Hn|]. split; [exact Hlen|]. split; [reflexivity|].
  apply (mix_weighted_pow2_invariant cs ws (-3) Hn Hlen).
  repeat constructor.
Defined.

(** ** ScaleCalculator: nice rounding *)

Lemma pow10_pos (k : Z) : 0 < Scale.pow10 k.
Proof. unfold Scale.pow10. apply Qpower_0_lt. reflexivity. Qed.

Lemma pow10_succ (k : Z) : Scale.pow10 (k + 1) == 10 * Scale.pow10 k.
Proof.
  unfold Scale.pow10. rewrite Qpower_plus by discriminate.
  change (10 ^ 1) with 10. ring.
Qed.

Lemma pow10_le (j k : Z) : (j <= k)%Z -> Scale.pow10 j <= Scale.pow10 k.
Proof.
  intros H. unfold Scale.pow10. apply Qpower_le_compat_l; [exact H | discriminate].
Qed.

Lemma pow10_Z (k : Z) : (0 <= k)%Z -> Scale.pow10 k == inject_Z (10 ^ k).
Proof.
  intros H. unfold Scale.pow10. rewrite (Zpower_Qpower 10 k H). reflexivity.
Qed.

(** [ilog10] finds the decade of a positive integer, given enough fuel. *)
Lemma ilog10_spec (fuel : nat) :
  forall m : Z,
    (1 <= m)%Z -> (m < 2 ^ Z.of_nat fuel)%Z ->
    (0 <= Scale.ilog10 fuel m)%Z
    /\ (10 ^ Scale.ilog10 fuel m <= m < 10 ^ (Scale.ilog10 fuel m + 1))%Z.
Proof.
  induction fuel as [|fuel IH]; intros m H1 H2.
  - simpl in H2. lia.
  - cbn [Scale.ilog10].
    destruct (Z.ltb_spec m 10) as [Hlt|Hge].
    + simpl. lia.
    + rewrite Nat2Z.inj_succ, Z.pow_succ_r in H2 by lia.
      pose proof (Z.div_mod m 10 ltac:(lia)) as Hdm.
      pose proof (Z.mod_pos_bound m 10 ltac:(lia)) as Hmod.
      assert (Hp : (0 < 2 ^ Z.of_nat fuel)%Z) by (apply Z.pow_pos_nonneg; lia).
      destruct (IH (m / 10)%Z ltac:(lia) ltac:(lia)) as [K0 [K1 K2]].
      set (k := Scale.ilog10 fuel (m / 10)) in *.
      split; [lia|].
      replace (1 + k)%Z with (Z.succ k) by lia.
      replace (Z.succ k + 1)%Z with (Z.succ (k + 1)) by lia.
      rewrite !Z.pow_succ_r by lia. lia.
Qed.

Lemma log10_floor_Z_spec (m : Z) :
  (1 <= m)%Z ->
  (0 <= Scale.log10_floor_Z m)%Z
  /\ (10 ^ Scale.log10_floor_Z m <= m < 10 ^ (Scale.log10_floor_Z m + 1))%Z.
Proof.
  intros H. unfold Scale.log10_floor_Z. apply ilog10_spec; [exact H|].
  pose proof (Z.log2_spec m ltac:(lia)) as [_ Hl].
  pose proof (Z.log2_nonneg m).
  rewrite Nat2Z.inj_succ, Z2Nat.id by lia. exact Hl.
Qed.

(** [decade] is the floor of the decimal logarithm. *)
Lemma decade_spec (n : Q) :
  0 < n ->
  Scale.pow10 (Scale.decade n) <= n /\ n < Scale.pow10 (Scale.decade n + 1).
Proof.
  intros Hn. unfold Scale.decade.
  destruct (Qle_bool 1 n) eqn:H1.
  - apply Qle_bool_iff in H1.
    assert (Hm : (1 <= Qfloor n)%Z).
    { change 1%Z with (Qfloor 1). apply Qfloor_resp_le. exact H1. }
    destruct (log10_floor_Z_spec _ Hm) as [K0 [K1 K2]].
    set (k := Scale.log10_floor_Z (Qfloor n)) in *.
    rewrite !pow10_Z by lia. split.
    + apply Qle_trans with (inject_Z (Qfloor n)); [|apply Qfloor_le].
      rewrite <- Zle_Qle. exact K1.
    + apply Qlt_le_trans with (inject_Z (Qfloor n + 1)); [apply Qlt_floor|].
      rewrite <- Zle_Qle. lia.
  - assert (H1' : n < 1).
    { apply Qnot_le_lt. intros H. apply Qle_bool_iff in H. congruence. }
    assert (Hinv : 0 < / n) by (apply Qinv_lt_0_compat; exact Hn).
    assert (Hnn : n * / n == 1) by (apply Qmult_inv_r; intros E; rewrite E in Hn; discriminate Hn).
    assert (Hgt : 1 < / n).
    { apply Qnot_le_lt. intros Hle.
      assert (n * / n <= n * 1) by (apply Qmult_le_l; assumption).
      rewrite Hnn in H. lra. }
    pose proof (Qle_ceiling (/ n)) as Hc1.
    pose proof (Qceiling_lt (/ n)) as Hc2.
    assert (Hm : (1 <= Qceiling (/ n) - 1)%Z).
    { assert (Hz : (1 < Qceiling (/ n))%Z).
      { rewrite Zlt_Qlt. apply Qlt_le_trans with (/ n); assumption. }
      lia. }
    destruct (log10_floor_Z_spec _ Hm) as [K0 [K1 K2]].
    set (j := Scale.log10_floor_Z (Qceiling (/ n) - 1)) in *.
    replace (- (j + 1) + 1)%Z with (- j)%Z by lia.
    unfold Scale.pow10. rewrite !Qpower_opp.
    fold (Scale.pow10 (j + 1)). fold (Scale.pow10 j).
    rewrite !pow10_Z by lia.
    rewrite Zle_Qle in K1. rewrite Zlt_Qlt in K2.
    assert (K2' : inject_Z (Qceiling (/ n)) <= inject_Z (10 ^ (j + 1))).
    { rewrite <- Zle_Qle. rewrite <- Zlt_Qlt in K2. lia. }
    assert (P1 : 0 < inject_Z (10 ^ (j + 1))).
    { rewrite <- pow10_Z by lia. apply pow10_pos. }
    assert (P0 : 0 < inject_Z (10 ^ j)).
    { rewrite <- pow10_Z by lia. apply pow10_pos. }
    split.
    + apply Qle_shift_inv_r; [exact P1|].
      rewrite <- Hnn. apply Qmult_le_l; [exact Hn|].
      apply Qle_trans with (inject_Z (Qceiling (/ n))); assumption.
    + apply Qlt_shift_inv_l; [exact P0|].
      rewrite <- Hnn. apply Qmult_lt_l; [exact Hn|].
      apply Qle_lt_trans with (inject_Z (Qceiling (/ n) - 1)); assumption.
Qed.

Lemma Qle_bool_false (x y : Q) : Qle_bool x y = false -> y < x.
Proof.
  intros H. apply Qnot_le_lt. intros Hle. apply Qle_bool_iff in Hle. congruence.
Qed.

(** The ["ceil"] loop inside a decade: it returns the first of P, 2P, 2.5P,
    5P, 10P that reaches [n], where P is the power of ten of the decade. *)
Lemma first_geq_steps (k : Z) (n : Q) :
  Scale.pow10 k <= n -> n < 10 * Scale.pow10 k ->
  exists v : Q,
    Scale.first_geq k n Scale.steps = Some v
    /\ n <= v /\ v <= 10 * Scale.pow10 k
    /\ (v == 1 * Scale.pow10 k \/ v == 2 * Scale.pow10 k
        \/ v == (5 # 2) * Scale.pow10 k \/ v == 5 * Scale.pow10 k
        \/ v == 10 * Scale.pow10 k)
    /\ (forall s : Q, In s [1; 2; 5 # 2; 5] -> n <= s * Scale.pow10 k ->
                      v <= s * Scale.pow10 k).
Proof.
  intros HP Hn. pose proof (pow10_pos k) as Hpos.
  unfold Scale.steps. cbn [Scale.first_geq].
  set (P := Scale.pow10 k) in *.
  destruct (Qle_bool n (1 * P)) eqn:E1;
    [|destruct (Qle_bool n (2 * P)) eqn:E2;
      [|destruct (Qle_bool n ((5 # 2) * P)) eqn:E3;
        [|destruct (Qle_bool n (5 * P)) eqn:E4;
          [|destruct (Qle_bool n (10 * P)) eqn:E5]]]];
    repeat match goal with
           | H : Qle_bool _ _ = true |- _ => apply Qle_bool_iff in H
           | H : Qle_bool _ _ = false |- _ => apply Qle_bool_false in H
           end;
    try (eexists; split; [reflexivity|];
         split; [assumption|]; split; [lra|];
         split; [auto 6 using Qeq_refl|];
         intros s Hs Hle; simpl in Hs;
         destruct Hs as [Hs|[Hs|[Hs|[Hs|[]]]]]; subst s; lra).
  lra.
Qed.

(** The value the ["ceil"] branch settles on is the least nice number that
    is not below [n]. *)
Lemma nice_ceiling_least (n : Q) :
  0 < n -> Scale.least_nice_geq n (Scale.nice_ceiling n).
Proof.
  intros Hn. destruct (decade_spec n Hn) as [D1 D2].
  set (k := Scale.decade n) in *.
  pose proof (pow10_succ k) as Hs. pose proof (pow10_pos k) as Hpos.
  assert (D2' : n < 10 * Scale.pow10 k) by (rewrite <- Hs; exact D2).
  destruct (first_geq_steps k n D1 D2') as (v & Hv & Hnv & Hv10 & Hform & Hleast).
  unfold Scale.nice_ceiling. fold k. rewrite Hv.
  split; [|split; [exact Hnv|]].
  - unfold Scale.nice.
    destruct Hform as [H|[H|[H|[H|H]]]].
    + exists 1, k. simpl; auto.
    + exists 2, k. simpl; auto.
    + exists (5 # 2), k. simpl; auto.
    + exists 5, k. simpl; auto 6.
    + exists 1, (k + 1)%Z. split; [simpl; auto|]. rewrite H, Hs. ring.
  - intros w (s & j & Hs' & Hw) Hnw.
    pose proof (pow10_pos j) as Hposj.
    destruct (Z.lt_trichotomy j k) as [Hjk|[Hjk|Hjk]].
    + (* a lower decade stays below [n] *)
      exfalso.
      pose proof (pow10_le (j + 1) k ltac:(lia)) as Hle.
      rewrite (pow10_succ j) in Hle.
      simpl in Hs'. destruct Hs' as [E|[E|[E|[E|[]]]]]; subst s; lra.
    + subst j. rewrite Hw. apply Hleast; [exact Hs'|]. rewrite <- Hw. exact Hnw.
    + (* a higher decade starts at ten times the power *)
      pose proof (pow10_le (k + 1) j ltac:(lia)) as Hle.
      rewrite Hs in Hle.
      simpl in Hs'. destruct Hs' as [E|[E|[E|[E|[]]]]]; subst s; lra.
Qed.

Lemma round_nice_ceil_eq (n : Q) :
  0 < n -> Scale._round_nice n Scale.Ceil = Qceiling (Scale.nice_ceiling n).
Proof.
  intros Hn. destruct (decade_spec n Hn) as [D1 D2].
  pose proof (pow10_succ (Scale.decade n)) as Hs.
  assert (D2' : n < 10 * Scale.pow10 (Scale.decade n)) by (rewrite <- Hs; exact D2).
  destruct (first_geq_steps _ n D1 D2') as (v & Hv & _).
  unfold Scale._round_nice, Scale.nice_ceiling.
  assert (H0 : Qle_bool n 0 = false).
  { destruct (Qle_bool n 0) eqn:E; [|reflexivity].
    apply Qle_bool_iff in E. lra. }
  rewrite H0, Hv. reflexivity.
Qed.

(** From ten upwards every candidate of the decade is an integer. *)
Lemma nice_ceiling_integer (n : Q) :
  10 <= n -> exists z : Z, Scale.nice_ceiling n == inject_Z z.
Proof.
  intros H10. assert (Hn : 0 < n) by lra.
  destruct (decade_spec n Hn) as [D1 D2].
  set (k := Scale.decade n) in *.
  pose proof (pow10_succ k) as Hs.
  assert (D2' : n < 10 * Scale.pow10 k) by (rewrite <- Hs; exact D2).
  assert (Hk : (1 <= k)%Z).
  { assert (Hlt : (1 < k + 1)%Z); [|lia].
    apply (Qpower_lt_compat_l_inv 10); [|reflexivity].
    fold (Scale.pow10 (k + 1)). change (10 ^ 1) with 10. lra. }
  destruct (first_geq_steps k n D1 D2') as (v & Hv & _ & _ & Hform & _).
  unfold Scale.nice_ceiling. fold k. rewrite Hv.
  assert (HP : Scale.pow10 k == 10 * inject_Z (10 ^ (k - 1))).
  { replace k with ((k - 1) + 1)%Z at 1 by lia.
    rewrite pow10_succ, pow10_Z by lia. reflexivity. }
  set (T := (10 ^ (k - 1))%Z) in *.
  destruct Hform as [H|[H|[H|[H|H]]]].
  - exists (10 * T)%Z. rewrite H, HP, inject_Z_mult. ring.
  - exists (20 * T)%Z. rewrite H, HP, inject_Z_mult. ring.
  - exists (25 * T)%Z. rewrite H, HP, inject_Z_mult. ring.
  - exists (50 * T)%Z. rewrite H, HP, inject_Z_mult. ring.
  - exists (100 * T)%Z. rewrite H, HP, inject_Z_mult. ring.
Qed.

(** C5, as stated, fails below ten: for the exact denominator 9/4 the least
    nice number that reaches it is 2.5, and the function returns 3. *)
Lemma round_nice_ceil_not_in_sequence :
  Scale.least_nice_geq (9 # 4) (Scale.nice_ceiling (9 # 4))
  /\ Scale.nice_ceiling (9 # 4) == 5 # 2
  /\ Scale._round_nice (9 # 4) Scale.Ceil = 3%Z
  /\ ~ inject_Z (Scale._round_nice (9 # 4) Scale.Ceil) == Scale.nice_ceiling (9 # 4).
Proof.
  split; [apply nice_ceiling_least; reflexivity|].
  split; [vm_compute; reflexivity|].
  split; [vm_compute; reflexivity|].
  vm_compute. discriminate.
Qed.

(** C5, amended. For every positive exact scale denominator, "ceil"-mode
    nice rounding returns the integer ceiling of the smallest value of the
    sequence {1, 2, 2.5, 5} x 10^k that is greater than or equal to the exact
    denominator; from exact denominators of ten upwards that value is an
    integer and is returned as it is.  In particular the returned denominator
    is never smaller than the exact value. *)
Theorem round_nice_ceil_spec (n : Q) :
  0 < n ->
  exists v : Q,
    Scale.least_nice_geq n v
    /\ Scale._round_nice n Scale.Ceil = Qceiling v
    /\ n <= inject_Z (Scale._round_nice n Scale.Ceil)
    /\ (10 <= n -> inject_Z (Scale._round_nice n Scale.Ceil) == v).
Proof.
  intros Hn. exists (Scale.nice_ceiling n).
  pose proof (nice_ceiling_least n Hn) as Hl.
  pose proof (round_nice_ceil_eq n Hn) as He.
  split; [exact Hl|]. split; [exact He|]. split.
  - rewrite He. destruct Hl as (_ & Hle & _).
    apply Qle_trans with (Scale.nice_ceiling n); [exact Hle | apply Qle_ceiling].
  - intros H10. destruct (nice_ceiling_integer n H10) as [z Hz].
    rewrite He, (Qceiling_comp _ _ Hz), Qceiling_Z, Hz. reflexivity.
Qed.

Lemma round_nice_ceil_spec_witness :
  0 < 168750
  /\ Scale._round_nice 168750 Scale.Ceil = 200000%Z
  /\ 168750 <= inject_Z (Scale._round_nice 168750 Scale.Ceil).
Proof.
  split; [reflexivity|]. split; [vm_compute; reflexivity|].
  destruct (round_nice_ceil_spec 168750) as (v & _ & _ & H & _);
    [reflexivity | exact H].
Defined.

(** ** Scale and threshold *)

(** The scale scenario: 180 mm wide, 10 mm margins, 27 km on the ground. *)
Example scale_of_utm_frame :
  exists meta,
    Scale.width_to_scale Scale.scenario_styler (Some Scale.utm_frame)
      180 "mm" (Some 300%Z) 10 "mm" true (Some "nice") Scale.Ceil
    = Ok (200000%Z, meta)
    /\ Scale.scale_exact meta == 168750
    /\ Scale.strategy meta = "projected_native".
Proof.
  eexists. split; [vm_compute; reflexivity|]. split; reflexivity.
Qed.

Lemma area_threshold_eq (N : Z) (a : Q) :
  Scale.area_threshold N a == inject_Z N * inject_Z N * a / 1000000.
Proof.
  unfold Scale.area_threshold. simpl (_ ^ 2). field.
Qed.

(** C8. Whenever consolidation goes on to split the features into small and
    large ones, the threshold it uses is (N x 10^-3)^2 x min_area_mm2, where N
    is the scale denominator [width_to_scale] returned for the styler's
    figure, 10^-3 is metres per millimetre and min_area_mm2 is the minimum
    visible area in square millimetres of paper; this is N^2 x min_area_mm2 /
    10^6 square metres, and the small features are those whose area is below
    it. *)
Theorem cull_threshold (self : Scale.Styler) (gdf : option Scale.GeoFrame)
        (min_area_mm2 thr : Q) (small big : list nat) (frame : string) :
  Scale.cull_small_parts_by_scale self gdf min_area_mm2
  = Ok (Scale.Partition thr small big frame) ->
  exists (g : Scale.GeoFrame) (N : Z) (meta : Scale.ScaleMeta),
    gdf = Some g
    /\ Scale.width_to_scale self gdf (Scale.fig_width self) (Scale.width_unit self)
         (Scale.dpi self) (Scale.margin self) (Scale.margin_unit self) true
         (Scale.scale_round_to self) (Scale.scale_round_mode self) = Ok (N, meta)
    /\ thr = ((inject_Z N * (1 # 1000)) ^ 2 * min_area_mm2)%Q
    /\ thr == inject_Z N * inject_Z N * min_area_mm2 / 1000000
    /\ small = Scale.indices_where (fun a => negb (Qle_bool thr a)) 0
                 (fst (Scale._area_series self g))
    /\ big = Scale.indices_where (fun a => Qle_bool thr a) 0
               (fst (Scale._area_series self g)).
Proof.
  intros H. unfold Scale.cull_small_parts_by_scale in H.
  destruct (Scale.width_to_scale self gdf _ _ _ _ _ true _ _) as [[N meta]|e] eqn:Hw;
    cbn [bind] in H; [|discriminate H].
  destruct gdf as [g|]; [|discriminate H].
  destruct (negb (Scale.has_rows g)); [discriminate H|].
  destruct (negb (Scale.has_geometry g)); [discriminate H|].
  destruct (Scale._area_series self g) as [area_s ameta] eqn:Ha.
  destruct (Py.startswith (Scale.a_strategy ameta) "no_crs"
            || Py.startswith (Scale.a_strategy ameta) "fallback"); [discriminate H|].
  destruct (Scale.indices_where _ 0 area_s) as [|i small'] eqn:Hs; [discriminate H|].
  apply ok_inj in H. injection H as <- <- <- <-.
  exists g, N, meta. split; [reflexivity|]. split; [reflexivity|].
  split; [reflexivity|]. split; [apply area_threshold_eq|].
  rewrite Ha. cbn [fst]. split; [symmetry; exact Hs | reflexivity].
Qed.

Lemma cull_threshold_witness :
  let thr := ((inject_Z 200000 * (1 # 1000)) ^ 2 * 1)%Q in
  Scale.cull_small_parts_by_scale Scale.scenario_styler (Some Scale.utm_frame) 1
  = Ok (Scale.Partition thr [0%nat] [1%nat] "EPSG:31983")
  /\ thr == 40000
  /\ exists N : Z, thr = ((inject_Z N * (1 # 1000)) ^ 2 * 1)%Q.
Proof.
  intros thr.
  assert (H : Scale.cull_small_parts_by_scale Scale.scenario_styler (Some Scale.utm_frame) 1
              = Ok (Scale.Partition thr [0%nat] [1%nat] "EPSG:31983"))
    by (vm_compute; reflexivity).
  split; [exact H|]. split; [reflexivity|].
  destruct (cull_threshold _ _ _ _ _ _ _ H) as (g & N & meta & _ & _ & Hthr & _).
  exists N. exact Hthr.
Defined.

(** *** Without a metric reference frame *)

Lemma startswith_fallback (e : exn) :
  Py.startswith ("fallback:" ++ Scale.exn_name e) "fallback" = true.
Proof. destruct e; reflexivity. Qed.

(** With no metric frame, the metric branch of [width_to_scale] keeps the
    frame as it is and records a fallback. *)
Lemma metric_path_fallback (self : Scale.Styler) (g : Scale.GeoFrame) :
  Scale.no_metric_frame self g = true ->
  exists e : exn,
    Scale.metric_path self true g
    = (Scale.native g, Scale.crs_str (Scale.crs g), "fallback:" ++ Scale.exn_name e).
Proof.
  unfold Scale.no_metric_frame, Scale.metric_path. intros H.
  destruct (Scale.area_crs_set self) as [c|].
  - destruct (Scale.to_crs_user g c) as [m|e]; [discriminate H|].
    exists e. reflexivity.
  - destruct (Scale.crs g) as [c|].
    + apply andb_true_iff in H as [Hp He]. apply negb_true_iff in Hp. rewrite Hp.
      destruct (Scale.to_crs_laea g) as [m|e]; [discriminate He|].
      exists e. reflexivity.
    + destruct (Scale.to_crs_laea g) as [m|e]; [discriminate H|].
      exists e. reflexivity.
Qed.

(** With no metric frame, [_area_series] reports equal weights under a
    "no_crs" or "fallback" strategy. *)
Lemma area_series_no_frame (self : Scale.Styler) (g : Scale.GeoFrame) :
  Scale.no_metric_frame self g = true ->
  let strat := Scale.a_strategy (snd (Scale._area_series self g)) in
  Py.startswith strat "no_crs" || Py.startswith strat "fallback" = true.
Proof.
  unfold Scale.no_metric_frame, Scale._area_series. intros H.
  destruct (Scale.area_crs_set self) as [c|].
  - destruct (Scale.to_crs_user g c) as [m|e]; [discriminate H|]. reflexivity.
  - destruct (Scale.crs g) as [c|]; [|reflexivity].
    apply andb_true_iff in H as [Hp He]. apply negb_true_iff in Hp. rewrite Hp.
    destruct (Scale.to_crs_laea g) as [m|e]; [discriminate He|]. reflexivity.
Qed.

Lemma width_to_scale_has_data (self : Scale.Styler) (g : Scale.GeoFrame)
      (fw : Q) (wu : string) (dpi : option Z) (mg : Q) (mu : string)
      (prefer : bool) (rt : option string) (mode : Scale.round_mode)
      (r : Z * Scale.ScaleMeta) :
  Scale.width_to_scale self (Some g) fw wu dpi mg mu prefer rt mode = Ok r ->
  Scale.has_rows g = true /\ Scale.has_geometry g = true.
Proof.
  unfold Scale.width_to_scale. intros H.
  destruct (Scale.has_rows g); [|discriminate H].
  destruct (Scale.has_geometry g); [|discriminate H].
  split; reflexivity.
Qed.

(** C4, as stated, fails for the scale computation: on a frame without CRS,
    where no metric frame can be established and the approximate
    degree-to-metre route is not asked for, [width_to_scale] raises nothing;
    it measures the quarter of a degree as if it were metres and returns the
    scale 1:2 under the strategy "fallback:ValueError". *)
Lemma scale_without_metric_frame_returns :
  Scale.no_metric_frame Scale.scenario_styler Scale.naive_frame = true
  /\ match Scale.width_to_scale Scale.scenario_styler (Some Scale.naive_frame)
             180 "mm" (Some 300%Z) 10 "mm" true (Some "nice") Scale.Ceil with
     | Ok (N, meta) =>
         N = 2%Z /\ Scale.strategy meta = "fallback:ValueError"
         /\ Scale.scale_exact meta == (1 # 4) / (160 # 1000)
     | Err _ => False
     end.
Proof.
  split; [reflexivity|]. vm_compute. repeat split; reflexivity.
Qed.

(** C4, amended. When no metric reference frame can be established,
    consolidation fails explicitly by raising an error.  The scale computation
    does not: it measures the extent in the frame's own units, records a
    "fallback" strategy, and returns a scale whenever the paper units are
    valid and the measured width is finite and positive (it raises only when
    they are not). *)
Theorem no_metric_frame_outcomes (self : Scale.Styler) (g : Scale.GeoFrame) :
  Scale.no_metric_frame self g = true ->
  (forall min_area_mm2 : Q,
      exists e : exn,
        Scale.cull_small_parts_by_scale self (Some g) min_area_mm2 = Err e)
  /\ (forall fw wu dpi mg mu rt mode N meta,
         Scale.width_to_scale self (Some g) fw wu dpi mg mu true rt mode = Ok (N, meta) ->
         Py.startswith (Scale.strategy meta) "fallback" = true
         /\ exists w : Q, Scale.width (Scale.native g) = Scale.Finite w /\ 0 < w)
  /\ (forall fw wu dpi mg mu rt mode (w paper_mm margin_mm : Q),
         Scale.has_rows g = true -> Scale.has_geometry g = true ->
         Scale._to_mm dpi fw wu = Ok paper_mm ->
         (if Qeq_bool mg 0 then Ok 0 else Scale._to_mm dpi mg mu) = Ok margin_mm ->
         Scale.width (Scale.native g) = Scale.Finite w -> 0 < w ->
         exists N meta,
           Scale.width_to_scale self (Some g) fw wu dpi mg mu true rt mode = Ok (N, meta)).
Proof.
  intros Hno.
  destruct (metric_path_fallback self g Hno) as [e0 Hpath].
  split; [|split].
  - intros a. unfold Scale.cull_small_parts_by_scale.
    destruct (Scale.width_to_scale self (Some g) _ _ _ _ _ true _ _) as [[N meta]|e] eqn:Hw;
      cbn [bind]; [|exists e; reflexivity].
    destruct (width_to_scale_has_data _ _ _ _ _ _ _ _ _ _ _ Hw) as [Hr Hg].
    rewrite Hr, Hg. cbn [negb].
    pose proof (area_series_no_frame self g Hno) as Hs. cbv zeta in Hs.
    destruct (Scale._area_series self g) as [area_s ameta]. cbn [snd] in Hs.
    rewrite Hs. exists ValueError. reflexivity.
  - intros fw wu dpi mg mu rt mode N meta H.
    unfold Scale.width_to_scale in H.
    destruct (negb (Scale.has_rows g)); [discriminate H|].
    destruct (negb (Scale.has_geometry g)); [discriminate H|].
    destruct (Scale._to_mm dpi fw wu) as [pw|]; cbn [bind] in H; [|discriminate H].
    destruct (if Qeq_bool mg 0 then Ok 0 else Scale._to_mm dpi mg mu) as [mm|];
      cbn [bind] in H; [|discriminate H].
    rewrite andb_false_l, Hpath in H.
    destruct (Scale.width (Scale.native g)) as [w|]; [|discriminate H].
    destruct (Qle_bool w 0) eqn:Hw0; [discriminate H|].
    apply ok_inj in H. injection H as _ Hmeta. subst meta. cbn [Scale.strategy].
    split; [apply startswith_fallback|].
    exists w. split; [reflexivity | apply Qle_bool_false; exact Hw0].
  - intros fw wu dpi mg mu rt mode w pw mm Hr Hg Hp Hm Hw Hpos.
    unfold Scale.width_to_scale.
    rewrite Hr, Hg, Hp. cbn [negb bind]. rewrite Hm. cbn [bind].
    rewrite andb_false_l, Hpath, Hw.
    assert (H0 : Qle_bool w 0 = false).
    { destruct (Qle_bool w 0) eqn:E; [|reflexivity].
      apply Qle_bool_iff in E. lra. }
    rewrite H0. eexists. eexists. reflexivity.
Qed.

Lemma no_metric_frame_outcomes_witness :
  Scale.no_metric_frame Scale.scenario_styler Scale.naive_frame = true
  /\ exists e : exn,
       Scale.cull_small_parts_by_scale Scale.scenario_styler (Some Scale.naive_frame) 1
       = Err e.
Proof.
  split; [reflexivity|].
  destruct (no_metric_frame_outcomes Scale.scenario_styler Scale.naive_frame eq_refl)
    as [H _].
  exact (H 1).
Defined.

(** ** ColorResolver: collision sets *)

Lemma inv_get_setdefault (inv : list (string * list string)) (c k c' : string) :
  Resolve.inv_get (Resolve.setdefault_append inv c k) c'
  = if String.eqb c c' then (Resolve.inv_get inv c ++ [k])%list
    else Resolve.inv_get inv c'.
Proof.
  induction inv as [|[c0 l] inv IH]; simpl.
  - destruct (String.eqb c c'); reflexivity.
  - destruct (String.eqb c0 c) eqn:E0; simpl.
    + apply String.eqb_eq in E0. subst c0.
      destruct (String.eqb c c'); reflexivity.
    + destruct (String.eqb c0 c') eqn:E1.
      * apply String.eqb_eq in E1. subst c0. rewrite String.eqb_sym, E0. reflexivity.
      * exact IH.
Qed.

Lemma big_total_cons (c : string) (l : list string) (inv : list (string * list string)) :
  Resolve.big_total ((c, l) :: inv)
  = ((if (1 <? List.length l)%nat then List.length l else 0) + Resolve.big_total inv)%nat.
Proof.
  unfold Resolve.big_total. simpl.
  destruct (1 <? List.length l)%nat; simpl; [|reflexivity].
  rewrite List.length_app. reflexivity.
Qed.

(** What one [setdefault(...).append(...)] adds to the size of the sets kept:
    nothing for a new colour, two when a colour gets its second group, one
    afterwards. *)
Lemma big_total_setdefault (inv : list (string * list string)) (c k : string) :
  Resolve.big_total (Resolve.setdefault_append inv c k)
  = (Resolve.big_total inv
     + match List.length (Resolve.inv_get inv c) with
       | 0 => 0
       | 1 => 2
       | _ => 1
       end)%nat.
Proof.
  induction inv as [|[c0 l] inv IH]; simpl.
  - reflexivity.
  - destruct (String.eqb c0 c) eqn:E0.
    + rewrite !big_total_cons, List.length_app. simpl.
      destruct l as [|a [|b l]]; simpl; lia.
    + rewrite !big_total_cons, IH. lia.
Qed.

Lemma inv_of_snoc (m : Resolve.cmap) (x : string * Resolve.Entry) :
  Resolve.inv_of (m ++ [x])%list
  = Resolve.setdefault_append (Resolve.inv_of m) (Resolve.color_of x) (fst x).
Proof.
  unfold Resolve.inv_of. rewrite fold_left_app. reflexivity.
Qed.

Lemma count_color_snoc (c : string) (m : Resolve.cmap) (x : string * Resolve.Entry) :
  Resolve.count_color c (m ++ [x])%list
  = (Resolve.count_color c m + if String.eqb (Resolve.color_of x) c then 1 else 0)%nat.
Proof.
  unfold Resolve.count_color. rewrite filter_app, List.length_app. simpl.
  destruct (String.eqb (Resolve.color_of x) c); reflexivity.
Qed.

(** Each list of [inv] is as long as the number of groups of its colour. *)
Lemma inv_get_length (m : Resolve.cmap) (c : string) :
  List.length (Resolve.inv_get (Resolve.inv_of m) c) = Resolve.count_color c m.
Proof.
  induction m as [|x m IH] using rev_ind.
  - reflexivity.
  - rewrite inv_of_snoc, inv_get_setdefault, count_color_snoc.
    destruct (String.eqb (Resolve.color_of x) c) eqn:E.
    + apply String.eqb_eq in E. subst c. rewrite List.length_app, IH. reflexivity.
    + rewrite IH. lia.
Qed.

(** Raising the count of one colour by one: the groups of that colour start
    to collide exactly when the count was one. *)
Lemma filter_collides_bump (g : string -> nat) (c : string) (l : Resolve.cmap) :
  List.length
    (filter (fun ke => (1 <? g (Resolve.color_of ke)
                             + if String.eqb c (Resolve.color_of ke) then 1 else 0)%nat) l)
  = (List.length (filter (fun ke => (1 <? g (Resolve.color_of ke))%nat) l)
     + if (g c =? 1)%nat then Resolve.count_color c l else 0)%nat.
Proof.
  unfold Resolve.count_color.
  induction l as [|x l IH]; simpl.
  - destruct (g c =? 1)%nat; reflexivity.
  - destruct (String.eqb c (Resolve.color_of x)) eqn:E.
    + apply String.eqb_eq in E. rewrite <- E. rewrite String.eqb_refl.
      destruct (g c) as [|[|n]] eqn:Eg; simpl in *; rewrite IH; simpl; lia.
    + rewrite String.eqb_sym, E, Nat.add_0_r.
      destruct (1 <? g (Resolve.color_of x))%nat; simpl; rewrite IH; lia.
Qed.

(** The size of the collision sets is the number of colliding groups. *)
Lemma collision_size_count (m : Resolve.cmap) :
  Resolve.collision_size m = List.length (filter (Resolve.collides m) m).
Proof.
  change (Resolve.collision_size m) with (Resolve.big_total (Resolve.inv_of m)).
  induction m as [|x m IH] using rev_ind.
  - reflexivity.
  - rewrite inv_of_snoc, big_total_setdefault, IH, inv_get_length.
    rewrite filter_app, List.length_app.
    set (c := Resolve.color_of x).
    assert (Hext : filter (Resolve.collides (m ++ [x])%list) m
                   = filter (fun ke => (1 <? Resolve.count_color (Resolve.color_of ke) m
                                             + if String.eqb c (Resolve.color_of ke)
                                               then 1 else 0)%nat) m).
    { apply filter_ext. intros ke. unfold Resolve.collides.
      rewrite count_color_snoc. reflexivity. }
    rewrite Hext.
    rewrite (filter_collides_bump (fun c' => Resolve.count_color c' m) c m).
    change (filter (fun ke => (1 <? Resolve.count_color (Resolve.color_of ke) m)%nat) m)
      with (filter (Resolve.collides m) m).
    cbn [filter].
    change (Resolve.collides (m ++ [x])%list x)
      with (1 <? Resolve.count_color c (m ++ [x])%list)%nat.
    rewrite count_color_snoc. fold c. rewrite String.eqb_refl.
    destruct (Resolve.count_color c m) as [|[|n]]; simpl; lia.
Qed.

Lemma setdefault_keys (inv : list (string * list string)) (c k : string) :
  map fst (Resolve.setdefault_append inv c k)
  = if in_dec String.string_dec c (map fst inv) then map fst inv
    else (map fst inv ++ [c])%list.
Proof.
  induction inv as [|[c0 l] inv IH]; simpl.
  - reflexivity.
  - destruct (String.eqb c0 c) eqn:E0.
    + apply String.eqb_eq in E0. subst c0. simpl.
      destruct (String.string_dec c c) as [e|n]; [reflexivity | contradiction].
    + apply String.eqb_neq in E0. simpl. rewrite IH.
      destruct (String.string_dec c0 c) as [e|n]; [contradiction|].
      destruct (in_dec String.string_dec c (map fst inv)); reflexivity.
Qed.

(** The colours that key [inv] are distinct. *)
Lemma inv_of_NoDup (m : Resolve.cmap) : NoDup (map fst (Resolve.inv_of m)).
Proof.
  induction m as [|x m IH] using rev_ind.
  - constructor.
  - rewrite inv_of_snoc, setdefault_keys.
    destruct (in_dec String.string_dec (Resolve.color_of x) (map fst (Resolve.inv_of m)))
      as [Hin|Hnin]; [exact IH|].
    apply NoDup_app; [exact IH | repeat constructor; simpl; tauto |].
    intros a Ha [H|[]]. subst a. contradiction.
Qed.

Lemma inv_get_unique (inv : list (string * list string)) (c : string) (l : list string) :
  NoDup (map fst inv) -> In (c, l) inv -> Resolve.inv_get inv c = l.
Proof.
  induction inv as [|[c0 l0] inv IH]; simpl; intros Hnd Hin; [contradiction|].
  inversion Hnd as [|? ? Hnotin Hnd']; subst.
  destruct Hin as [Heq|Hin].
  - injection Heq as -> ->. rewrite String.eqb_refl. reflexivity.
  - destruct (String.eqb c0 c) eqn:E0.
    + apply String.eqb_eq in E0. subst c0. exfalso. apply Hnotin.
      change c with (fst (c, l)). apply in_map. exact Hin.
    + apply IH; assumption.
Qed.

Lemma inv_get_in (inv : list (string * list string)) (c : string) :
  Resolve.inv_get inv c <> [] -> In (Resolve.inv_get inv c) (map snd inv).
Proof.
  induction inv as [|[c0 l0] inv IH]; simpl; intros H; [contradiction|].
  destruct (String.eqb c0 c); [left; reflexivity | right; apply IH; exact H].
Qed.

(** [inv[c]] lists the groups whose colour is [c]. *)
Lemma inv_get_members (m : Resolve.cmap) (c k : string) :
  In k (Resolve.inv_get (Resolve.inv_of m) c)
  <-> exists e, In (k, e) m /\ Resolve.grp_color e = c.
Proof.
  induction m as [|x m IH] using rev_ind.
  - simpl. split; [contradiction | intros (e & [] & _)].
  - rewrite inv_of_snoc, inv_get_setdefault.
    destruct x as [kx ex]. unfold Resolve.color_of. cbn [fst snd].
    destruct (String.eqb (Resolve.grp_color ex) c) eqn:E.
    + apply String.eqb_eq in E. rewrite in_app_iff, E, IH. simpl. split.
      * intros [(e & Hin & Hc)|[Hk|[]]].
        -- exists e. rewrite in_app_iff. auto.
        -- subst k. exists ex. rewrite in_app_iff. simpl. auto.
      * intros (e & Hin & Hc). apply in_app_iff in Hin as [Hin|[Heq|[]]].
        -- left. exists e. auto.
        -- injection Heq as -> ->. right. left. reflexivity.
    + apply String.eqb_neq in E. rewrite IH. split.
      * intros (e & Hin & Hc). exists e. rewrite in_app_iff. auto.
      * intros (e & Hin & Hc). apply in_app_iff in Hin as [Hin|[Heq|[]]].
        -- exists e. auto.
        -- injection Heq as -> ->. contradiction.
Qed.

Lemma keys_functional (m : Resolve.cmap) (k : string) (e1 e2 : Resolve.Entry) :
  NoDup (Resolve.keys m) -> In (k, e1) m -> In (k, e2) m -> e1 = e2.
Proof.
  unfold Resolve.keys.
  induction m as [|[k0 e0] m IH]; simpl; intros Hnd H1 H2; [contradiction|].
  inversion Hnd as [|? ? Hnotin Hnd']; subst.
  destruct H1 as [H1|H1]; destruct H2 as [H2|H2].
  - congruence.
  - injection H1 as -> ->. exfalso. apply Hnotin.
    change k with (fst (k, e2)). apply in_map. exact H2.
  - injection H2 as -> ->. exfalso. apply Hnotin.
    change k with (fst (k, e1)). apply in_map. exact H1.
  - apply IH; assumption.
Qed.

(** A colliding group is in one of the sets of [dup_sets] ... *)
Lemma colliding_in_dup_sets (m : Resolve.cmap) (k : string) (e : Resolve.Entry) :
  In (k, e) m -> Resolve.collides m (k, e) = true ->
  In k (List.concat (Resolve.dup_sets m)).
Proof.
  intros Hin Hc. unfold Resolve.collides, Resolve.color_of in Hc. cbn [snd] in Hc.
  set (c := Resolve.grp_color e) in *.
  set (l := Resolve.inv_get (Resolve.inv_of m) c).
  assert (Hk : In k l) by (apply inv_get_members; exists e; auto).
  assert (Hlen : List.length l = Resolve.count_color c m) by apply inv_get_length.
  apply in_concat. exists l. split; [|exact Hk].
  unfold Resolve.dup_sets. apply filter_In. split.
  - apply inv_get_in. fold l. intros E. rewrite E in Hk. contradiction.
  - rewrite Hlen. exact Hc.
Qed.

(** ... and, the keys being distinct, only colliding groups are. *)
Lemma dup_sets_colliding (m : Resolve.cmap) (k : string) (e : Resolve.Entry) :
  NoDup (Resolve.keys m) ->
  In k (List.concat (Resolve.dup_sets m)) -> In (k, e) m ->
  Resolve.collides m (k, e) = true.
Proof.
  intros Hnd Hk Hin.
  apply in_concat in Hk as (l & Hl & Hkl).
  unfold Resolve.dup_sets in Hl. apply filter_In in Hl as [Hl Hlen].
  apply in_map_iff in Hl as ([c l'] & Heq & Hcl). simpl in Heq. subst l'.
  pose proof (inv_get_unique _ _ _ (inv_of_NoDup m) Hcl) as Hget.
  rewrite <- Hget in Hkl. apply inv_get_members in Hkl as (e2 & Hin2 & Hc2).
  rewrite (keys_functional m k e e2 Hnd Hin Hin2).
  unfold Resolve.collides, Resolve.color_of. cbn [snd]. rewrite Hc2.
  rewrite <- inv_get_length, Hget. exact Hlen.
Qed.

(** *** What a pass assigns *)

Lemma get_set_color_other (m : Resolve.cmap) (k k' c : string) :
  k' <> k -> Resolve.get (Resolve.set_color m k c) k' = Resolve.get m k'.
Proof.
  intros Hne. unfold Resolve.set_color.
  induction m as [|[k0 e0] m IH]; cbn [map Resolve.get fst snd]; [reflexivity|].
  destruct (String.eqb k0 k) eqn:E; cbn [Resolve.get].
  - apply String.eqb_eq in E. subst k0.
    destruct (String.eqb k k') eqn:E'; [|exact IH].
    apply String.eqb_eq in E'. congruence.
  - destruct (String.eqb k0 k'); [reflexivity | exact IH].
Qed.

Lemma as_planned_refl (P : list (string * string)) (m : Resolve.cmap) :
  Forall2 (Pass.as_planned P) m m.
Proof.
  induction m; constructor; [split; auto | assumption].
Qed.

Lemma with_color_twice (e : Resolve.Entry) (c1 c2 : string) :
  Resolve.with_color (Resolve.with_color e c1) c2 = Resolve.with_color e c2.
Proof. reflexivity. Qed.

(** Two stretches of a pass one after the other. *)
Lemma as_planned_trans (P1 P2 P : list (string * string)) (m m1 m2 : Resolve.cmap) :
  incl P1 P -> incl P2 P ->
  Forall2 (Pass.as_planned P1) m m1 ->
  Forall2 (Pass.as_planned P2) m1 m2 ->
  Forall2 (Pass.as_planned P) m m2.
Proof.
  intros I1 I2 H1. revert m2.
  induction H1 as [|x y m m1 [Hk Hxy] _ IH]; intros m2 H2;
    inversion H2 as [|? z ? m2' [Hk' Hyz] H2']; subst.
  - constructor.
  - constructor; [|apply IH; exact H2'].
    split; [congruence|].
    destruct Hxy as [->|(c1 & Hc1 & E1)], Hyz as [->|(c2 & Hc2 & E2)].
    + left. reflexivity.
    + right. exists c2. split; [apply I2; exact Hc2 | exact E2].
    + right. exists c1. split; [apply I1; exact Hc1 | exact E1].
    + right. exists c2. split; [apply I2; rewrite <- Hk; exact Hc2|].
      rewrite E2, E1. apply with_color_twice.
Qed.

Lemma set_color_as_planned (m : Resolve.cmap) (k c : string) :
  Forall2 (Pass.as_planned [(k, c)]) m (Resolve.set_color m k c).
Proof.
  unfold Resolve.set_color.
  induction m as [|[k0 e0] m IH]; cbn [map]; constructor; try exact IH.
  unfold Pass.as_planned. cbn [fst snd].
  destruct (String.eqb k0 k) eqn:E; cbn [fst snd].
  - split; [reflexivity|]. right. exists c.
    apply String.eqb_eq in E. subst k0. split; [left; reflexivity | reflexivity].
  - split; [reflexivity | left; reflexivity].
Qed.

Lemma as_planned_keys (P : list (string * string)) (m m' : Resolve.cmap) :
  Forall2 (Pass.as_planned P) m m' -> Resolve.keys m' = Resolve.keys m.
Proof.
  unfold Resolve.keys. induction 1 as [|x y m m' [Hk _] _ IH]; simpl.
  - reflexivity.
  - rewrite IH, Hk. reflexivity.
Qed.

(** The groups of [planned_set] are groups of the list. *)
Lemma planned_set_keys (f : Resolve.recolor) (m : Resolve.cmap) (k c : string) :
  forall (l : list string) (i : nat),
    In (k, c) (Pass.planned_set f i l m) -> In k l.
Proof.
  induction l as [|g l IH]; intros i H; cbn [Pass.planned_set] in H; [contradiction|].
  destruct (Resolve.get m g) as [e|]; [|right; exact (IH _ H)].
  destruct (f i e) as [[c0|]|]; try (right; exact (IH _ H)).
  destruct H as [H|H]; [left; congruence | right; exact (IH _ H)].
Qed.

(** One collision set: as long as each group is still as it was in [m0]
    when its turn comes, the walk assigns what [planned_set] computes from
    [m0], and leaves the other groups as they are. *)
Lemma recolor_set_planned (f : Resolve.recolor) (m0 : Resolve.cmap) :
  forall (l : list string) (i : nat) (m m' : Resolve.cmap),
    NoDup l ->
    (forall k, In k l -> Resolve.get m k = Resolve.get m0 k) ->
    Resolve.recolor_set f i l m = Ok m' ->
    Forall2 (Pass.as_planned (Pass.planned_set f i l m0)) m m'
    /\ (forall k, ~ In k l -> Resolve.get m' k = Resolve.get m k).
Proof.
  induction l as [|g l IH]; intros i m m' Hnd Hget H;
    cbn [Resolve.recolor_set Pass.planned_set] in *.
  - apply ok_inj in H. subst m'. split; [apply as_planned_refl | reflexivity].
  - inversion Hnd as [|? ? Hnotin Hnd']; subst.
    rewrite <- (Hget g (or_introl eq_refl)).
    destruct (Resolve.get m g) as [e|]; [|discriminate H].
    destruct (f i e) as [c|]; cbn [bind] in H; [|discriminate H].
    set (m1 := match c with Some c0 => Resolve.set_color m g c0 | None => m end) in *.
    assert (Hget1 : forall k, k <> g -> Resolve.get m1 k = Resolve.get m k).
    { intros k Hk. unfold m1. destruct c as [c0|]; [|reflexivity].
      apply get_set_color_other. exact Hk. }
    destruct (IH (S i) m1 m' Hnd') as [HF Hrest]; [|exact H|].
    { intros k Hk. rewrite Hget1; [apply Hget; right; exact Hk|].
      intros ->. contradiction. }
    split.
    + destruct c as [c0|].
      * apply (as_planned_trans [(g, c0)] (Pass.planned_set f (S i) l m0) _ m m1 m').
        -- intros x [<-|[]]. left. reflexivity.
        -- intros x Hx. right. exact Hx.
        -- apply set_color_as_planned.
        -- exact HF.
      * exact HF.
    + intros k Hk. rewrite Hrest; [apply Hget1|]; intros Hin; apply Hk;
        [left; symmetry; exact Hin | right; exact Hin].
Qed.

(** All the sets of a pass. *)
Lemma recolor_sets_planned (f : Resolve.recolor) (m0 : Resolve.cmap) :
  forall (sets : list (list string)) (m m' : Resolve.cmap),
    NoDup (List.concat sets) ->
    (forall k, In k (List.concat sets) -> Resolve.get m k = Resolve.get m0 k) ->
    Resolve.recolor_sets f sets m = Ok m' ->
    Forall2 (Pass.as_planned
               (List.concat (map (fun l => Pass.planned_set f 0 l m0) sets))) m m'.
Proof.
  induction sets as [|l sets IH]; intros m m' Hnd Hget H;
    cbn [Resolve.recolor_sets List.concat map] in *.
  - apply ok_inj in H. subst m'. apply as_planned_refl.
  - destruct (Resolve.recolor_set f 0 l m) as [m1|] eqn:E; cbn [bind] in H;
      [|discriminate H].
    assert (Hl : NoDup l) by (apply NoDup_app_remove_r in Hnd; exact Hnd).
    assert (Hs : NoDup (List.concat sets)) by (apply NoDup_app_remove_l in Hnd; exact Hnd).
    destruct (recolor_set_planned f m0 l 0 m m1 Hl) as [HF Hrest]; [|exact E|].
    { intros k Hk. apply Hget. apply in_app_iff. left. exact Hk. }
    assert (HF2 := IH m1 m' Hs).
    apply (as_planned_trans (Pass.planned_set f 0 l m0)
             (List.concat (map (fun l0 => Pass.planned_set f 0 l0 m0) sets)) _ m m1 m').
    + intros x Hx. apply in_app_iff. left. exact Hx.
    + intros x Hx. apply in_app_iff. right. exact Hx.
    + exact HF.
    + apply HF2; [|exact H].
      intros k Hk. rewrite Hrest.
      * apply Hget. apply in_app_iff. right. exact Hk.
      * intros Hin. apply NoDup_app_remove_l in Hnd as Hnd2.
        clear - Hnd Hin Hk.
        induction l as [|a l IHl]; [contradiction|].
        cbn [app] in Hnd. inversion Hnd as [|? ? Hnotin Hnd']; subst.
        destruct Hin as [->|Hin].
        -- apply Hnotin. apply in_app_iff. right. exact Hk.
        -- exact (IHl Hnd' Hin).
Qed.

Lemma insert_sorted_in (x y : string) (l : list string) :
  In y (Resolve.insert_sorted x l) -> y = x \/ In y l.
Proof.
  induction l as [|z l IH]; simpl.
  - intros [H|[]]; auto.
  - destruct (String.leb x z); simpl.
    + intros [H|[H|H]]; auto.
    + intros [H|H]; auto. destruct (IH H); auto.
Qed.

Lemma sorted_in (y : string) (l : list string) : In y (Resolve.sorted l) -> In y l.
Proof.
  induction l as [|x l IH]; simpl; [tauto|].
  intros H. apply insert_sorted_in in H as [H|H]; auto.
Qed.

Lemma concat_sorted_incl (sets : list (list string)) :
  incl (List.concat (map Resolve.sorted sets)) (List.concat sets).
Proof.
  induction sets as [|l sets IH]; simpl; intros y Hy; [exact Hy|].
  apply in_app_iff in Hy as [Hy|Hy]; apply in_app_iff.
  - left. apply sorted_in. exact Hy.
  - right. apply IH. exact Hy.
Qed.

(** *** Each group is in one collision set at most *)

Lemma setdefault_perm (inv : list (string * list string)) (c k : string) :
  Permutation (List.concat (map snd (Resolve.setdefault_append inv c k)))
              (k :: List.concat (map snd inv)).
Proof.
  induction inv as [|[c0 l] inv IH]; cbn [Resolve.setdefault_append map snd List.concat].
  - reflexivity.
  - destruct (String.eqb c0 c); cbn [map snd List.concat].
    + rewrite <- app_assoc. cbn [app].
      symmetry. apply Permutation_middle.
    + rewrite IH. symmetry. apply Permutation_middle.
Qed.

(** The lists of [inv] hold every group once. *)
Lemma inv_of_perm (m : Resolve.cmap) :
  Permutation (List.concat (map snd (Resolve.inv_of m))) (Resolve.keys m).
Proof.
  induction m as [|x m IH] using rev_ind.
  - reflexivity.
  - rewrite inv_of_snoc, setdefault_perm, IH. unfold Resolve.keys.
    rewrite map_app. cbn [map]. apply Permutation_cons_append.
Qed.

Lemma NoDup_concat_filter {A : Type} (p : list A -> bool) (L : list (list A)) :
  NoDup (List.concat L) -> NoDup (List.concat (filter p L)).
Proof.
  induction L as [|l L IH]; cbn [List.concat filter]; intros H; [exact H|].
  assert (HL : NoDup (List.concat L)) by (apply NoDup_app_remove_l in H; exact H).
  destruct (p l); [|exact (IH HL)].
  cbn [List.concat]. apply NoDup_app.
  - apply NoDup_app_remove_r in H. exact H.
  - exact (IH HL).
  - intros a Ha Hin.
    assert (Hin' : In a (List.concat L)).
    { apply in_concat in Hin as (l' & Hl' & Ha'). apply in_concat. exists l'.
      split; [|exact Ha']. apply filter_In in Hl'. tauto. }
    clear - H Ha Hin'.
    induction l as [|b l IHl]; [contradiction|].
    cbn [app] in H. inversion H as [|? ? Hnotin Hnd]; subst.
    destruct Ha as [->|Ha].
    + apply Hnotin. apply in_app_iff. right. exact Hin'.
    + exact (IHl Hnd Ha).
Qed.

Lemma dup_sets_NoDup (m : Resolve.cmap) :
  NoDup (Resolve.keys m) -> NoDup (List.concat (Resolve.dup_sets m)).
Proof.
  intros H. unfold Resolve.dup_sets. apply NoDup_concat_filter.
  apply (Permutation_NoDup (Permutation_sym (inv_of_perm m))). exact H.
Qed.

Lemma insert_sorted_perm (x : string) (l : list string) :
  Permutation (Resolve.insert_sorted x l) (x :: l).
Proof.
  induction l as [|y l IH]; cbn [Resolve.insert_sorted]; [reflexivity|].
  destruct (String.leb x y); [reflexivity|].
  rewrite IH. apply perm_swap.
Qed.

Lemma sorted_perm (l : list string) : Permutation (Resolve.sorted l) l.
Proof.
  unfold Resolve.sorted. induction l as [|x l IH]; cbn [fold_right]; [reflexivity|].
  rewrite insert_sorted_perm, IH. reflexivity.
Qed.

Lemma concat_sorted_perm (L : list (list string)) :
  Permutation (List.concat (map Resolve.sorted L)) (List.concat L).
Proof.
  induction L as [|l L IH]; cbn [map List.concat]; [reflexivity|].
  rewrite IH, sorted_perm. reflexivity.
Qed.

(** The sets a pass walks through hold groups of the collision sets, each
    once. *)
Lemma pass_sets_NoDup (p : Pass.kind) (m : Resolve.cmap) :
  NoDup (Resolve.keys m) -> NoDup (List.concat (Pass.sets p m)).
Proof.
  intros H. apply dup_sets_NoDup in H.
  destruct p; cbn [Pass.sets]; try exact H.
  apply (Permutation_NoDup (Permutation_sym (concat_sorted_perm _))). exact H.
Qed.

Lemma pass_sets_incl (p : Pass.kind) (m : Resolve.cmap) :
  incl (List.concat (Pass.sets p m)) (List.concat (Resolve.dup_sets m)).
Proof.
  destruct p; cbn [Pass.sets]; try (intros x Hx; exact Hx).
  apply concat_sorted_incl.
Qed.

Lemma run_recolor_sets (rgb_to_hls hls_to_rgb : Q * Q * Q -> Q * Q * Q)
      (p : Pass.kind) (m : Resolve.cmap) :
  Pass.run rgb_to_hls hls_to_rgb p m
  = Resolve.recolor_sets (Pass.body rgb_to_hls hls_to_rgb p) (Pass.sets p m) m.
Proof. destruct p; reflexivity. Qed.

(** The groups a pass has a colour for are groups of the collision sets. *)
Lemma planned_in_dup_sets (rgb_to_hls hls_to_rgb : Q * Q * Q -> Q * Q * Q)
      (p : Pass.kind) (m : Resolve.cmap) (k c : string) :
  In (k, c) (Pass.planned rgb_to_hls hls_to_rgb p m) ->
  In k (List.concat (Resolve.dup_sets m)).
Proof.
  unfold Pass.planned. intros H. apply in_concat in H as (P & HP & Hkc).
  apply in_map_iff in HP as (l & <- & Hl).
  apply planned_set_keys in Hkc.
  apply pass_sets_incl with (p := p). apply in_concat. exists l. auto.
Qed.

(** A pass assigns what it computes from the map it starts from. *)
Lemma run_as_planned (rgb_to_hls hls_to_rgb : Q * Q * Q -> Q * Q * Q)
      (p : Pass.kind) (m m' : Resolve.cmap) :
  NoDup (Resolve.keys m) ->
  Pass.run rgb_to_hls hls_to_rgb p m = Ok m' ->
  Forall2 (Pass.as_planned (Pass.planned rgb_to_hls hls_to_rgb p m)) m m'.
Proof.
  intros Hnd H. rewrite run_recolor_sets in H.
  apply (recolor_sets_planned _ m (Pass.sets p m) m m'
           (pass_sets_NoDup p m Hnd) (fun k _ => eq_refl) H).
Qed.

(** *** The size of the collision sets after a pass *)

Lemma Forall2_in_r {A B : Type} (R : A -> B -> Prop) (l : list A) (l' : list B) (y : B) :
  Forall2 R l l' -> In y l' -> exists x, In x l /\ R x y.
Proof.
  induction 1 as [|x y' l l' Hxy _ IH]; simpl; intros Hin; [contradiction|].
  destruct Hin as [->|Hin].
  - exists x. auto.
  - destruct (IH Hin) as (x' & Hx' & HR). exists x'. auto.
Qed.

Lemma Forall2_filter_le2 {A B : Type} (R : A -> B -> Prop) (p h : A -> bool)
      (q : B -> bool) (l : list A) (l' : list B) :
  Forall2 R l l' ->
  (forall x y, In x l -> In y l' -> R x y -> q y = true -> p x = true \/ h x = true) ->
  (List.length (filter q l') <= List.length (filter p l) + List.length (filter h l))%nat.
Proof.
  induction 1 as [|x y l l' Hxy _ IH]; intros Himp; simpl.
  - lia.
  - assert (Hrest : (List.length (filter q l')
                     <= List.length (filter p l) + List.length (filter h l))%nat).
    { apply IH. intros a b Ha Hb. apply Himp; right; assumption. }
    destruct (q y) eqn:Eq.
    + destruct (Himp x y (or_introl eq_refl) (or_introl eq_refl) Hxy Eq) as [E|E];
        rewrite E; destruct (p x), (h x); simpl; lia.
    + destruct (p x), (h x); simpl; lia.
Qed.

(** Two different groups of one colour make that colour collide. *)
Lemma two_of_a_color (m : Resolve.cmap) (x y : string * Resolve.Entry) :
  NoDup m -> In x m -> In y m -> x <> y ->
  Resolve.color_of y = Resolve.color_of x ->
  Resolve.collides m x = true.
Proof.
  intros Hnd Hx Hy Hne Hc. unfold Resolve.collides, Resolve.count_color.
  apply Nat.ltb_lt.
  set (fl := filter (fun ke => String.eqb (Resolve.color_of ke) (Resolve.color_of x)) m).
  assert (Hincl : incl [x; y] fl).
  { intros z [Hz|[Hz|[]]]; subst z; apply filter_In; split; try assumption.
    - apply String.eqb_refl.
    - apply String.eqb_eq. exact Hc. }
  assert (Hnd2 : NoDup [x; y]).
  { constructor; [simpl; intros [H|[]]; congruence|]. constructor; [simpl; tauto | constructor]. }
  pose proof (NoDup_incl_length Hnd2 Hincl) as Hlen. simpl in Hlen. lia.
Qed.

Lemma same_key_same_pair (m : Resolve.cmap) (a x : string * Resolve.Entry) :
  NoDup (Resolve.keys m) -> In a m -> In x m -> fst a = fst x -> a = x.
Proof.
  intros Hnd Ha Hx E. destruct a as [ka ea], x as [kx ex]. simpl in E. subst ka.
  f_equal. exact (keys_functional m kx ea ex Hnd Ha Hx).
Qed.

Lemma NoDup_keys_entries (m : Resolve.cmap) : NoDup (Resolve.keys m) -> NoDup m.
Proof. unfold Resolve.keys. apply NoDup_map_inv. Qed.

(** A colliding group has a companion of the same colour. *)
Lemma collides_other (m : Resolve.cmap) (x : string * Resolve.Entry) :
  NoDup (Resolve.keys m) -> In x m -> Resolve.collides m x = true ->
  exists y, In y m /\ fst y <> fst x /\ Resolve.color_of y = Resolve.color_of x.
Proof.
  intros Hnd Hx Hc. unfold Resolve.collides, Resolve.count_color in Hc.
  apply Nat.ltb_lt in Hc.
  set (p := fun ke => String.eqb (Resolve.color_of ke) (Resolve.color_of x)) in *.
  assert (Hndf : NoDup (filter p m))
    by (apply NoDup_filter, NoDup_keys_entries; exact Hnd).
  destruct (filter p m) as [|a [|b fl]] eqn:Ef; simpl in Hc; try lia.
  assert (Ha : In a m /\ p a = true) by (apply filter_In; rewrite Ef; simpl; auto).
  assert (Hb : In b m /\ p b = true) by (apply filter_In; rewrite Ef; simpl; auto).
  destruct Ha as [Ha1 Ha2]. destruct Hb as [Hb1 Hb2].
  inversion Hndf as [|? ? Hnotin _]; subst.
  assert (Hab : a <> b) by (intros E; apply Hnotin; left; auto).
  destruct (String.string_dec (fst a) (fst x)) as [Ea|Ea].
  - exists b. split; [exact Hb1|]. split; [|apply String.eqb_eq; exact Hb2].
    intros Eb. apply Hab.
    rewrite (same_key_same_pair m a x Hnd Ha1 Hx Ea).
    rewrite (same_key_same_pair m b x Hnd Hb1 Hx Eb). reflexivity.
  - exists a. split; [exact Ha1|]. split; [exact Ea|].
    apply String.eqb_eq. exact Ha2.
Qed.

(** A group that collides after the pass collided before it, or was outside
    every collision set and has the colour that the pass gave to a group. *)
Lemma collides_after_pass (rgb_to_hls hls_to_rgb : Q * Q * Q -> Q * Q * Q)
      (p : Pass.kind) (m m' : Resolve.cmap) (x y : string * Resolve.Entry) :
  NoDup (Resolve.keys m) ->
  Forall2 (Pass.as_planned (Pass.planned rgb_to_hls hls_to_rgb p m)) m m' ->
  In x m -> In y m' ->
  Pass.as_planned (Pass.planned rgb_to_hls hls_to_rgb p m) x y ->
  Resolve.collides m' y = true ->
  Resolve.collides m x = true \/ In x (Pass.hit rgb_to_hls hls_to_rgb p m).
Proof.
  intros Hnd HF Hx Hy [Hk Hxy] Hcy.
  set (D := List.concat (Resolve.dup_sets m)).
  set (P := Pass.planned rgb_to_hls hls_to_rgb p m) in *.
  assert (Hnd' : NoDup (Resolve.keys m')) by (rewrite (as_planned_keys P m m' HF); exact Hnd).
  destruct (Resolve.collides m x) eqn:Hcx; [left; reflexivity | right].
  assert (HxD : ~ In (fst x) D).
  { intros Hin. destruct x as [k e].
    rewrite (dup_sets_colliding m k e Hnd Hin Hx) in Hcx. discriminate Hcx. }
  assert (Eyx : y = x).
  { destruct Hxy as [E|(c & Hc & _)]; [exact E|]. exfalso. apply HxD.
    exact (planned_in_dup_sets _ _ p m _ _ Hc). }
  subst y.
  destruct (collides_other m' x Hnd' Hy Hcy) as (y2 & Hy2 & Hkey & Hcol).
  destruct (Forall2_in_r _ _ _ _ HF Hy2) as (x2 & Hx2 & Hk2 & Hsame2).
  destruct Hsame2 as [E|(c & Hc & Ec)].
  - subst y2. exfalso.
    assert (Hne : x <> x2) by (intros E; subst x2; apply Hkey; reflexivity).
    rewrite (two_of_a_color m x x2 (NoDup_keys_entries m Hnd) Hx Hx2 Hne Hcol) in Hcx.
    discriminate Hcx.
  - unfold Pass.hit. apply filter_In. split; [exact Hx|].
    apply andb_true_iff. split.
    + apply negb_true_iff. unfold Resolve.in_keys.
      destruct (Py.mem (fst x) (List.concat (Resolve.dup_sets m))) eqn:E; [|reflexivity].
      apply mem_In in E. contradiction.
    + apply existsb_exists. exists (fst x2, c). split; [exact Hc|].
      cbn [snd]. apply String.eqb_eq. rewrite <- Hcol.
      unfold Resolve.color_of. rewrite Ec. reflexivity.
Qed.

(** C2, as stated, fails already for pass A: two colliding groups with the
    same age colour and lithology mix are both moved to the blend "#E69461",
    which a third group, until then alone with its colour, already has; the
    number of colliding groups goes from 2 to 3. *)
Lemma pass_A_adds_a_collision :
  NoDup (Resolve.keys Resolve.three_groups)
  /\ Resolve.pass_A Resolve.three_groups = Ok Resolve.three_groups_after_A
  /\ Resolve.collision_size Resolve.three_groups = 2%nat
  /\ Resolve.collision_size Resolve.three_groups_after_A = 3%nat.
Proof.
  split.
  - repeat constructor; simpl; intuition discriminate.
  - vm_compute. repeat split; reflexivity.
Qed.

(** C2, amended. A pass (round A, round B, or a turn of the jitter loop)
    that returns keeps the groups and their order, and changes nothing but
    the colour of groups that share their colour with another group when it
    starts; the colour it gives to such a group is the one its body computes
    from the group's entry as it stands at the start.  A group shares its
    colour with another group after the pass only if it did so before, or if
    it was outside every collision set and the pass has given its colour to
    a group.  So the number of groups that share an identical resolved colour
    with at least one other group grows by no more than the number of these
    outside groups, and does not increase when there is none. *)
Theorem collision_size_after_pass (rgb_to_hls hls_to_rgb : Q * Q * Q -> Q * Q * Q)
        (p : Pass.kind) (m m' : Resolve.cmap) :
  NoDup (Resolve.keys m) ->
  Pass.run rgb_to_hls hls_to_rgb p m = Ok m' ->
  let planned := Pass.planned rgb_to_hls hls_to_rgb p m in
  let hit := Pass.hit rgb_to_hls hls_to_rgb p m in
  Forall2 (Pass.as_planned planned) m m'
  /\ (forall k c, In (k, c) planned -> In k (List.concat (Resolve.dup_sets m)))
  /\ (forall x y, In x m -> In y m' -> fst y = fst x ->
                  Resolve.collides m' y = true ->
                  Resolve.collides m x = true \/ In x hit)
  /\ (Resolve.collision_size m' <= Resolve.collision_size m + List.length hit)%nat
  /\ (hit = [] -> (Resolve.collision_size m' <= Resolve.collision_size m)%nat).
Proof.
  intros Hnd Hrun planned hit.
  pose proof (run_as_planned rgb_to_hls hls_to_rgb p m m' Hnd Hrun) as HF.
  fold planned in HF.
  assert (Hsize : (Resolve.collision_size m'
                   <= Resolve.collision_size m + List.length hit)%nat).
  { rewrite !collision_size_count. unfold hit, Pass.hit.
    apply (Forall2_filter_le2 (Pass.as_planned planned) _ _ _ m m' HF).
    intros x y Hx Hy Hxy Hcy.
    destruct (collides_after_pass rgb_to_hls hls_to_rgb p m m' x y Hnd HF Hx Hy Hxy Hcy)
      as [H|H]; [left; exact H | right].
    unfold Pass.hit in H. apply filter_In in H. exact (proj2 H). }
  split; [exact HF|].
  split; [intros k c; apply planned_in_dup_sets|].
  split.
  - intros x y Hx Hy Hk Hcy.
    destruct (Forall2_in_r _ _ _ _ HF Hy) as (x0 & Hx0 & Hxy).
    assert (E : x0 = x).
    { apply (same_key_same_pair m x0 x Hnd Hx0 Hx).
      destruct Hxy as [Hk0 _]. congruence. }
    subst x0.
    exact (collides_after_pass rgb_to_hls hls_to_rgb p m m' x y Hnd HF Hx Hy Hxy Hcy).
  - split; [exact Hsize|].
    intros E. rewrite E in Hsize. simpl in Hsize. lia.
Qed.

Lemma collision_size_after_pass_witness :
  NoDup (Resolve.keys Resolve.three_groups)
  /\ Pass.run (fun x => x) (fun x => x) Pass.A Resolve.three_groups
     = Ok Resolve.three_groups_after_A
  /\ List.length (Pass.hit (fun x => x) (fun x => x) Pass.A Resolve.three_groups) = 1%nat
  /\ (Resolve.collision_size Resolve.three_groups_after_A
      <= Resolve.collision_size Resolve.three_groups + 1)%nat.
Proof.
  assert (Hnd : NoDup (Resolve.keys Resolve.three_groups))
    by (repeat constructor; simpl; intuition discriminate).
  assert (HA : Pass.run (fun x => x) (fun x => x) Pass.A Resolve.three_groups
               = Ok Resolve.three_groups_after_A)
    by reflexivity.
  split; [exact Hnd|]. split; [exact HA|]. split; [reflexivity|].
  exact (proj1 (proj2 (proj2 (proj2
           (collision_size_after_pass (fun x => x) (fun x => x) Pass.A
              Resolve.three_groups Resolve.three_groups_after_A Hnd HA))))).
Defined.

(** Where the lithology mixes of the two colliding groups differ, round A
    separates them: no group outside is given away and no group collides
    afterwards. *)
Example pass_A_separates_two_groups :
  Pass.run (fun x => x) (fun x => x) Pass.A Resolve.two_groups
  = Ok Resolve.two_groups_after_A
  /\ Pass.hit (fun x => x) (fun x => x) Pass.A Resolve.two_groups = []
  /\ Resolve.collision_size Resolve.two_groups = 2%nat
  /\ Resolve.collision_size Resolve.two_groups_after_A = 0%nat.
Proof. vm_compute. repeat split; reflexivity. Qed.

(** * Further properties of the code *)

(** ** Colours: parsing and writing *)

(** X1. Writing a colour and reading it back gives the three channels
    clamped to 0..255: [_hex_to_rgb(_rgb_to_hex(c))] never raises, and
    writing the clamped channels gives the same string again. *)
Theorem rgb_hex_round_trip (r g b : Z) :
  Color._hex_to_rgb (Color._rgb_to_hex (r, g, b))
  = Ok (Color.clamp255 r, Color.clamp255 g, Color.clamp255 b)
  /\ Color._rgb_to_hex (Color.clamp255 r, Color.clamp255 g, Color.clamp255 b)
     = Color._rgb_to_hex (r, g, b).
Proof.
  split; [apply hex_to_rgb_of_rgb_to_hex|].
  unfold Color._rgb_to_hex.
  rewrite !(clamp255_id (Color.clamp255 _)) by apply clamp255_range.
  reflexivity.
Qed.

(** X2. A colour in canonical form ("#" and six upper-case hexadecimal
    digits) parses without error into channels between 0 and 255, and writing
    these channels gives the same string back. *)
Theorem canonical_round_trip (c : string) :
  Color.is_canonical c = true ->
  exists rgb : Color.rgb,
    Color._hex_to_rgb c = Ok rgb /\ Color._rgb_to_hex rgb = c
    /\ (0 <= fst (fst rgb) <= 255)%Z /\ (0 <= snd (fst rgb) <= 255)%Z
    /\ (0 <= snd rgb <= 255)%Z.
Proof.
  intros H. destruct (canonical_parse c H) as (r & g & b & P & R & G & B & W).
  exists (r, g, b). simpl. auto.
Qed.

Lemma canonical_round_trip_witness :
  Color.is_canonical "#33CCCC" = true
  /\ exists rgb : Color.rgb,
       Color._hex_to_rgb "#33CCCC" = Ok rgb /\ Color._rgb_to_hex rgb = "#33CCCC".
Proof.
  split; [reflexivity|].
  destruct (canonical_round_trip "#33CCCC" eq_refl) as (rgb & P & W & _).
  exists rgb. split; assumption.
Defined.

(** The channel of the default blend: the integer part of the mean. *)
Lemma half_mix_value (x y : Z) :
  Color.trunc ((1 - (1 # 2)) * inject_Z x + (1 # 2) * inject_Z y)
  = Z.quot (x + y) 2.
Proof.
  unfold Color.trunc, Qminus, Qplus, Qmult, Qopp, inject_Z.
  cbn.
  assert (E : forall z : Z,
             match z with Z0 => Z0 | Z.pos p => Z.pos p | Z.neg p => Z.neg p end = z)
    by (intros z; destruct z; reflexivity).
  rewrite !E, <- Z.mul_add_distr_r.
  change 4%Z with (2 * 2)%Z. apply Z.quot_mul_cancel_r; discriminate.
Qed.

(** X3. The default blend (weight 0.5, the one the colour resolver uses) of
    two canonical colours never raises; each channel of the result is the
    integer part of the mean of the two channels, and so lies between
    them. *)
Theorem mix_two_half_between (c1 c2 : string) :
  Color.is_canonical c1 = true -> Color.is_canonical c2 = true ->
  exists (s : string) (r1 g1 b1 r2 g2 b2 : Z),
    Color.mix_two c1 c2 (1 # 2) = Ok s
    /\ Color.is_canonical s = true
    /\ Color._hex_to_rgb c1 = Ok (r1, g1, b1)
    /\ Color._hex_to_rgb c2 = Ok (r2, g2, b2)
    /\ Color._hex_to_rgb s = Ok ((r1 + r2) / 2, (g1 + g2) / 2, (b1 + b2) / 2)%Z
    /\ (Z.min r1 r2 <= (r1 + r2) / 2 <= Z.max r1 r2)%Z
    /\ (Z.min g1 g2 <= (g1 + g2) / 2 <= Z.max g1 g2)%Z
    /\ (Z.min b1 b2 <= (b1 + b2) / 2 <= Z.max b1 b2)%Z.
Proof.
  intros C1 C2.
  destruct (canonical_parse c1 C1) as (r1 & g1 & b1 & P1 & R1 & G1 & B1 & _).
  destruct (canonical_parse c2 C2) as (r2 & g2 & b2 & P2 & R2 & G2 & B2 & _).
  pose proof (mix_two_parsed c1 c2 (1 # 2) _ _ _ _ _ _
                (truthy_canonical c1 C1) (truthy_canonical c2 C2) P1 P2) as Hm.
  rewrite !half_mix_value in Hm.
  rewrite !Z.quot_div_nonneg in Hm by lia.
  assert (Hb : forall x y : Z, (Z.min x y <= (x + y) / 2 <= Z.max x y)%Z).
  { intros x y.
    assert (E : (x + y = 2 * ((x + y) / 2) + (x + y) mod 2)%Z)
      by (apply Z.div_mod; discriminate).
    assert (B : (0 <= (x + y) mod 2 < 2)%Z)
      by (apply Z.mod_pos_bound; reflexivity).
    lia. }
  exists (Color._rgb_to_hex ((r1 + r2) / 2, (g1 + g2) / 2, (b1 + b2) / 2)%Z),
    r1, g1, b1, r2, g2, b2.
  pose proof (Hb r1 r2). pose proof (Hb g1 g2). pose proof (Hb b1 b2).
  split; [exact Hm|].
  split; [apply rgb_to_hex_canonical|].
  split; [exact P1|]. split; [exact P2|].
  split.
  - rewrite hex_to_rgb_of_rgb_to_hex.
    rewrite !clamp255_id by lia. reflexivity.
  - repeat split; apply Hb.
Qed.

Lemma mix_two_half_between_witness :
  Color.is_canonical "#CD5C5C" = true /\ Color.is_canonical "#FFCC66" = true
  /\ exists s, Color.mix_two "#CD5C5C" "#FFCC66" (1 # 2) = Ok s
               /\ Color.is_canonical s = true.
Proof.
  split; [reflexivity|]. split; [reflexivity|].
  destruct (mix_two_half_between "#CD5C5C" "#FFCC66" eq_refl eq_refl)
    as (s & r1 & g1 & b1 & r2 & g2 & b2 & H & C & _).
  exists s. split; assumption.
Defined.

(** [_hex_to_rgb] raises nothing but the [ValueError] of [int]. *)
Lemma int16_error (s : string) (e : exn) : Color.int16 s = Err e -> e = ValueError.
Proof.
  unfold Color.int16.
  destruct (match Py.strip Py.is_space s with
            | String "-" t => (true, t)
            | String "+" t => (false, t)
            | _ => (false, Py.strip Py.is_space s)
            end) as [neg body].
  match goal with |- match ?d with _ => _ end = _ -> _ => destruct d end;
    intros H; congruence.
Qed.

Lemma ok_err_inj {A : Type} (e e' : exn) : @Err A e = Err e' -> e = e'.
Proof. intros H. congruence. Qed.

Lemma hex_to_rgb_error (c : string) (e : exn) :
  Color._hex_to_rgb c = Err e -> e = ValueError.
Proof.
  unfold Color._hex_to_rgb, bind. intros H.
  repeat match type of H with
  | match Color.int16 ?s with _ => _ end = _ =>
      let E := fresh "E" in
      destruct (Color.int16 s) eqn:E;
        [| apply ok_err_inj in H; subst; exact (int16_error _ _ E)]
  end.
  discriminate H.
Qed.

Lemma half_mix_comm (x y : Z) :
  Color.trunc ((1 - (1 # 2)) * inject_Z x + (1 # 2) * inject_Z y)
  = Color.trunc ((1 - (1 # 2)) * inject_Z y + (1 # 2) * inject_Z x).
Proof.
  unfold Color.trunc, Qminus, Qplus, Qmult, Qopp, inject_Z.
  cbn. f_equal. lia.
Qed.

(** X4. The default blend (weight 0.5) does not depend on the order of its
    two colours, whatever the two strings are: same colour, or the same
    error. *)
Theorem mix_two_half_symmetric (c1 c2 : string) :
  Color.mix_two c1 c2 (1 # 2) = Color.mix_two c2 c1 (1 # 2).
Proof.
  unfold Color.mix_two.
  destruct (Py.truthy c1) eqn:T1, (Py.truthy c2) eqn:T2; cbn [negb andb];
    try reflexivity.
  unfold bind.
  destruct (Color._hex_to_rgb c1) as [[[r1 g1] b1]|e1] eqn:P1,
           (Color._hex_to_rgb c2) as [[[r2 g2] b2]|e2] eqn:P2;
    try reflexivity.
  - rewrite (half_mix_comm r1 r2), (half_mix_comm g1 g2), (half_mix_comm b1 b2).
    reflexivity.
  - rewrite (hex_to_rgb_error _ _ P1), (hex_to_rgb_error _ _ P2). reflexivity.
Qed.

(** ** Colours: means of one colour *)

Lemma filter_truthy_same (c : string) (cs : list string) :
  Py.truthy c = true ->
  (forall x, In x cs -> x = c \/ x = "") ->
  exists k : nat, filter Py.truthy cs = repeat c k /\ (In c cs -> (0 < k)%nat).
Proof.
  intros Tc. induction cs as [|x cs IH]; intros H.
  - exists 0%nat. split; [reflexivity | intros []].
  - destruct IH as (k & Hk & Hpos); [intros y Hy; apply H; right; exact Hy|].
    destruct (H x (or_introl eq_refl)) as [-> | ->].
    + exists (S k). cbn [filter]. rewrite Tc, Hk. split; [reflexivity | lia].
    + exists k. cbn [filter].
      assert (E : Py.truthy "" = false) by reflexivity. rewrite E.
      split; [exact Hk|]. intros [Hc | Hc]; [|exact (Hpos Hc)].
      subst c. discriminate.
Qed.

Lemma map_result_repeat {A B : Type} (f : A -> result B) (a : A) (b : B) (k : nat) :
  f a = Ok b -> map_result f (repeat a k) = Ok (repeat b k).
Proof.
  intros H. induction k as [|k IH]; [reflexivity|].
  cbn [repeat map_result]. unfold bind. rewrite H, IH. reflexivity.
Qed.

Lemma fold_add_repeat (v : Z) (k : nat) (acc : Z) :
  fold_left Z.add (repeat v k) acc = (acc + Z.of_nat k * v)%Z.
Proof.
  revert acc. induction k as [|k IH]; intros acc.
  - cbn. lia.
  - cbn [repeat fold_left]. rewrite IH. lia.
Qed.

Lemma mean_repeat (f : Color.rgb -> Z) (x : Color.rgb) (k : nat) :
  (0 < k)%nat ->
  Color.trunc (inject_Z (Color.sumZ (map f (repeat x k)))
               / inject_Z (Z.of_nat (List.length (repeat x k)))) = f x.
Proof.
  intros Hk. apply trunc_inject_Z.
  rewrite map_repeat, repeat_length. unfold Color.sumZ.
  rewrite fold_add_repeat, Z.add_0_l, inject_Z_mult.
  field. intros E. assert (E' : inject_Z (Z.of_nat k) == inject_Z 0) by exact E.
  rewrite inject_Z_injective in E'. lia.
Qed.

(** X5. The unweighted mean of a list in which every non-empty colour is
    the same canonical colour is that colour: empty entries are skipped and
    the integer mean of equal channels is exact. *)
Theorem mix_many_same (c : string) (cs : list string) :
  Color.is_canonical c = true ->
  In c cs -> (forall x, In x cs -> x = c \/ x = "") ->
  Color.mix_many cs = Ok c.
Proof.
  intros C Hin Hall.
  destruct (canonical_parse c C) as (r & g & b & P & _ & _ & _ & W).
  destruct (filter_truthy_same c cs (truthy_canonical c C) Hall) as (k & Hk & Hpos).
  specialize (Hpos Hin).
  unfold Color.mix_many. rewrite Hk.
  destruct k as [|k]; [lia|].
  cbn [repeat]. change (c :: repeat c k) with (repeat c (S k)).
  rewrite (map_result_repeat (B := Color.rgb) _ c (r, g, b) (S k) P). unfold bind.
  rewrite !mean_repeat by lia. cbn [fst snd]. rewrite W. reflexivity.
Qed.

Lemma mix_many_same_witness :
  Color.is_canonical "#CD5C5C" = true
  /\ In "#CD5C5C" [""; "#CD5C5C"; "#CD5C5C"; ""; "#CD5C5C"]
  /\ Color.mix_many [""; "#CD5C5C"; "#CD5C5C"; ""; "#CD5C5C"] = Ok "#CD5C5C".
Proof.
  split; [reflexivity|]. split; [right; left; reflexivity|].
  apply mix_many_same; [reflexivity | right; left; reflexivity |].
  intros x Hx. cbn in Hx.
  repeat (destruct Hx as [<- | Hx]; [auto|]). destruct Hx.
Defined.

Lemma round_half_even_Z (z : Z) : Color.round_half_even (inject_Z z) = z.
Proof.
  unfold Color.round_half_even. rewrite Qfloor_Z.
  assert (E : (inject_Z z - inject_Z z ?= 1 # 2)%Q = Lt).
  { rewrite <- Qlt_alt. lra. }
  rewrite E. reflexivity.
Qed.

Lemma sumQ_pos (l : list Q) :
  l <> [] -> Forall (fun w => 0 < w) l -> 0 < Color.sumQ l.
Proof.
  unfold Color.sumQ. intros Hne Hall.
  assert (G : forall (l : list Q) (acc : Q),
             Forall (fun w => 0 < w) l -> acc <= fold_left Qplus l acc).
  { clear. induction l as [|w l IH]; intros acc H; [cbn; lra|].
    inversion H as [|? ? Hw Hl]; subst. cbn [fold_left].
    specialize (IH (acc + w) Hl). lra. }
  destruct l as [|w l]; [congruence|].
  inversion Hall as [|? ? Hw Hl]; subst. cbn [fold_left].
  specialize (G l (0 + w) Hl). lra.
Qed.

Lemma weighted_pairs_in (cs : list string) (ws : list Q) (c : string) (w : Q) :
  In (c, w) (Color.weighted_pairs cs ws) ->
  In c cs /\ Py.truthy c = true /\ 0 < w /\ In (c, w) (Color.zip cs ws).
Proof.
  unfold Color.weighted_pairs. rewrite filter_In. cbn [fst snd].
  intros [Hz Hf]. apply andb_true_iff in Hf. destruct Hf as [T W].
  assert (Hin : forall (cs : list string) (ws : list Q),
             In (c, w) (Color.zip cs ws) -> In c cs).
  { clear. induction cs as [|x cs IH]; intros [|y ws] H; cbn in H; try contradiction.
    destruct H as [H | H]; [left; congruence | right; eapply IH; eauto]. }
  repeat split; [eapply Hin; eauto | exact T | | exact Hz].
  apply negb_true_iff in W. apply Qnot_le_lt. intros Hle.
  apply Qle_bool_iff in Hle. congruence.
Qed.

Lemma channel_terms_same (f : Color.rgb -> Z) (c : string) (x : Color.rgb)
      (pairs : list (string * Q)) :
  Color._hex_to_rgb c = Ok x -> Forall (fun p => fst p = c) pairs ->
  exists terms : list Q,
    map_result (Color.channel_term f) pairs = Ok terms
    /\ Forall2 (fun t t' => t' == inject_Z (f x) * t) (map snd pairs) terms.
Proof.
  intros P. induction pairs as [|[c' w] pairs IH]; intros H.
  - exists []. split; [reflexivity | constructor].
  - inversion H as [|? ? Hc Hrest]; subst. cbn [fst] in *.
    destruct (IH Hrest) as (terms & Ht & Hf).
    exists ((inject_Z (f x) * w)%Q :: terms). split.
    + cbn [map_result]. rewrite channel_term_eq. cbn [fst snd]. rewrite P.
      unfold bind at 1. rewrite Ht. reflexivity.
    + cbn [map snd]. constructor; [reflexivity | exact Hf].
Qed.

Lemma channel_mean_same (f : Color.rgb -> Z) (c : string) (x : Color.rgb)
      (pairs : list (string * Q)) :
  Color._hex_to_rgb c = Ok x -> Forall (fun p => fst p = c) pairs ->
  0 < Color.sumQ (map snd pairs) ->
  Color.channel_mean pairs (Color.sumQ (map snd pairs)) f = Ok (f x).
Proof.
  intros P H Hpos.
  destruct (channel_terms_same f c x pairs P H) as (terms & Ht & Hf).
  unfold Color.channel_mean. rewrite Ht. unfold bind. f_equal.
  rewrite <- (round_half_even_Z (f x)). apply round_half_even_comp.
  rewrite (sumQ_scale _ _ _ Hf). field. lra.
Qed.

(** X6. The area-weighted mix of a list in which every colour that counts
    (non-empty, with a positive weight) is the same canonical colour is that
    colour, whatever the weights are. *)
Theorem mix_weighted_same (c : string) (cs : list string) (ws : list Q) :
  Color.is_canonical c = true ->
  (forall x, In x cs -> x = c \/ x = "") ->
  Color.weighted_pairs cs ws <> [] ->
  Color.mix_weighted cs ws = Ok c.
Proof.
  intros C Hall Hne.
  destruct (canonical_parse c C) as (r & g & b & P & _ & _ & _ & W).
  assert (Hsame : Forall (fun p => fst p = c) (Color.weighted_pairs cs ws)).
  { apply Forall_forall. intros [c' w] Hp.
    destruct (weighted_pairs_in _ _ _ _ Hp) as (Hin & T & _).
    cbn [fst]. destruct (Hall c' Hin) as [-> | ->]; [reflexivity | discriminate]. }
  assert (Hpos : 0 < Color.sumQ (map snd (Color.weighted_pairs cs ws))).
  { apply sumQ_pos.
    - intros E. apply map_eq_nil in E. contradiction.
    - apply Forall_forall. intros w Hw. apply in_map_iff in Hw.
      destruct Hw as ([c' w'] & <- & Hp).
      destruct (weighted_pairs_in _ _ _ _ Hp) as (_ & _ & Hw & _). exact Hw. }
  unfold Color.mix_weighted.
  destruct (Color.weighted_pairs cs ws) as [|p pairs] eqn:E; [congruence|].
  unfold Color.mix_pairs.
  assert (Hb : Qle_bool (Color.sumQ (map snd (p :: pairs))) 0 = false).
  { apply not_true_is_false. intros Hle. apply Qle_bool_iff in Hle. lra. }
  rewrite Hb.
  rewrite !(channel_mean_same _ c (r, g, b) (p :: pairs) P Hsame Hpos).
  unfold bind. cbn [fst snd]. rewrite W. reflexivity.
Qed.

Lemma mix_weighted_same_witness :
  Color.is_canonical "#FFCC66" = true
  /\ Color.weighted_pairs ["#FFCC66"; ""; "#FFCC66"] [3 # 2; 7; 250] <> []
  /\ Color.mix_weighted ["#FFCC66"; ""; "#FFCC66"] [3 # 2; 7; 250] = Ok "#FFCC66".
Proof.
  split; [reflexivity|]. split; [discriminate|].
  apply mix_weighted_same; [reflexivity | | discriminate].
  intros x Hx. cbn in Hx.
  repeat (destruct Hx as [<- | Hx]; [auto|]). destruct Hx.
Defined.

(** ** The three rounds of colour resolution *)

Lemma count_color_NoDup (c : string) (m : Resolve.cmap) :
  NoDup (map Resolve.color_of m) -> (Resolve.count_color c m <= 1)%nat.
Proof.
  unfold Resolve.count_color.
  induction m as [|x m IH]; intros H; [simpl; lia|].
  inversion H as [|? ? Hnotin Hnd]; subst. specialize (IH Hnd).
  cbn [filter]. destruct (String.eqb (Resolve.color_of x) c) eqn:E; [|exact IH].
  apply String.eqb_eq in E.
  destruct (filter (fun ke => String.eqb (Resolve.color_of ke) c) m) as [|y l] eqn:F;
    [simpl; lia|].
  exfalso. apply Hnotin.
  assert (Hy : In y (filter (fun ke => String.eqb (Resolve.color_of ke) c) m))
    by (rewrite F; left; reflexivity).
  apply filter_In in Hy as [Hy1 Hy2]. apply String.eqb_eq in Hy2.
  rewrite E, <- Hy2. apply in_map. exact Hy1.
Qed.

Lemma dup_sets_big (m : Resolve.cmap) (l : list string) :
  In l (Resolve.dup_sets m) -> (2 <= List.length l)%nat.
Proof.
  unfold Resolve.dup_sets. intros H. apply filter_In in H as [_ H].
  apply Nat.ltb_lt in H. lia.
Qed.

Lemma no_collision_no_sets (m : Resolve.cmap) :
  NoDup (map Resolve.color_of m) -> Resolve.dup_sets m = [].
Proof.
  intros H.
  assert (Hz : Resolve.collision_size m = 0%nat).
  { rewrite collision_size_count.
    assert (E : filter (Resolve.collides m) m = []).
    { apply (proj1 (List.length_zero_iff_nil _)).
      assert (G : forall l : Resolve.cmap,
                 List.length (filter (Resolve.collides m) l) = 0%nat).
      { induction l as [|x l IH]; [reflexivity|]. cbn [filter].
        assert (Hx : Resolve.collides m x = false).
        { unfold Resolve.collides. apply Nat.ltb_ge. apply count_color_NoDup. exact H. }
        rewrite Hx. exact IH. }
      apply G. }
    rewrite E. reflexivity. }
  unfold Resolve.collision_size in Hz.
  destruct (Resolve.dup_sets m) as [|l sets] eqn:E; [reflexivity|]. exfalso.
  assert (Hl : In l (Resolve.dup_sets m)) by (rewrite E; left; reflexivity).
  apply dup_sets_big in Hl. cbn [List.concat] in Hz.
  rewrite List.length_app in Hz. lia.
Qed.

(** X7. A map in which no two groups have the same preliminary colour goes
    through the three rounds untouched: the snapshots after round A, after
    round B and the final colours are all the map itself. *)
Theorem resolve_without_collisions
        (rgb_to_hls hls_to_rgb : Q * Q * Q -> Q * Q * Q) (m : Resolve.cmap) :
  NoDup (map Resolve.color_of m) ->
  Resolve.resolve rgb_to_hls hls_to_rgb m = Ok (m, m, m).
Proof.
  intros H. pose proof (no_collision_no_sets m H) as E.
  unfold Resolve.resolve, Resolve.pass_A, Resolve.pass_B.
  rewrite E. cbn [Resolve.recolor_sets bind]. rewrite E.
  cbn [Resolve.recolor_sets bind Resolve.pass_C]. rewrite E. reflexivity.
Qed.

Lemma resolve_without_collisions_witness :
  NoDup (map Resolve.color_of Resolve.two_groups_after_A)
  /\ Resolve.resolve (fun x => x) (fun x => x) Resolve.two_groups_after_A
     = Ok (Resolve.two_groups_after_A, Resolve.two_groups_after_A,
           Resolve.two_groups_after_A).
Proof.
  assert (H : NoDup (map Resolve.color_of Resolve.two_groups_after_A)).
  { cbn. constructor; [simpl; intros [E|[]]; discriminate E|].
    constructor; [simpl; tauto | constructor]. }
  split; [exact H|]. apply resolve_without_collisions. exact H.
Defined.

(** X8. With distinct group names, [dup_sets] returns exactly the colour
    classes of two or more groups: each set holds at least two names and is
    the set of all groups of one colour, and a group is in some set if and
    only if another group has its colour. *)
Theorem dup_sets_spec (m : Resolve.cmap) :
  NoDup (Resolve.keys m) ->
  (forall l, In l (Resolve.dup_sets m) ->
     (2 <= List.length l)%nat
     /\ exists c, forall k,
          In k l <-> exists e, In (k, e) m /\ Resolve.grp_color e = c)
  /\ (forall k e, In (k, e) m ->
        (In k (List.concat (Resolve.dup_sets m))
         <-> exists k' e', k' <> k /\ In (k', e') m
                           /\ Resolve.grp_color e' = Resolve.grp_color e)).
Proof.
  intros Hnd. split.
  - intros l Hl. split; [exact (dup_sets_big m l Hl)|].
    unfold Resolve.dup_sets in Hl. apply filter_In in Hl as [Hl _].
    apply in_map_iff in Hl as ([c l'] & Heq & Hcl). simpl in Heq. subst l'.
    exists c. intros k.
    rewrite <- (inv_get_unique _ _ _ (inv_of_NoDup m) Hcl).
    apply inv_get_members.
  - intros k e Hin. split.
    + intros Hk.
      pose proof (dup_sets_colliding m k e Hnd Hk Hin) as Hc.
      destruct (collides_other m (k, e) Hnd Hin Hc) as ([k' e'] & Hy & Hne & Hcol).
      exists k', e'. cbn [fst] in Hne. unfold Resolve.color_of in Hcol.
      cbn [snd] in Hcol. auto.
    + intros (k' & e' & Hne & Hin' & Hcol).
      apply (colliding_in_dup_sets m k e Hin).
      apply (two_of_a_color m (k, e) (k', e') (NoDup_keys_entries m Hnd) Hin Hin').
      * intros E. injection E as E1 E2. congruence.
      * exact Hcol.
Qed.

Lemma dup_sets_spec_witness :
  NoDup (Resolve.keys Resolve.three_groups)
  /\ (In "NP1|al" (List.concat (Resolve.dup_sets Resolve.three_groups))
      <-> exists k' e', k' <> "NP1|al" /\ In (k', e') Resolve.three_groups
            /\ Resolve.grp_color e'
               = Resolve.grp_color (Resolve.entry "#112233" "#CD5C5C" "#FFCC66")).
Proof.
  assert (H : NoDup (Resolve.keys Resolve.three_groups)).
  { cbn. repeat constructor; simpl; intros G;
      repeat (destruct G as [G|G]; [discriminate G|]); exact G. }
  split; [exact H|].
  apply (proj2 (dup_sets_spec Resolve.three_groups H)). left. reflexivity.
Defined.

Lemma get_of_key (m : Resolve.cmap) (k : string) :
  In k (Resolve.keys m) -> exists e, Resolve.get m k = Some e /\ In (k, e) m.
Proof.
  unfold Resolve.keys. induction m as [|[k0 e0] m IH]; simpl; intros H; [contradiction|].
  destruct (String.eqb k0 k) eqn:E.
  - apply String.eqb_eq in E. subst k0. exists e0. auto.
  - destruct H as [H|H]; [subst k0; rewrite String.eqb_refl in E; discriminate E|].
    destruct (IH H) as (e & He & Hin). exists e. auto.
Qed.

Lemma set_color_sources (m : Resolve.cmap) (k c : string) :
  Forall2 Palette.same_sources m (Resolve.set_color m k c).
Proof.
  unfold Resolve.set_color. induction m as [|x m IH]; cbn [map]; constructor; [|exact IH].
  unfold Palette.same_sources.
  destruct (String.eqb (fst x) k); cbn [fst snd Resolve.with_color
    Resolve.idade_color Resolve.roc_colors Resolve.r1_colors Resolve.qml_colors];
    repeat split; reflexivity.
Qed.

Lemma same_sources_refl (m : Resolve.cmap) : Forall2 Palette.same_sources m m.
Proof.
  induction m; constructor; [|assumption].
  unfold Palette.same_sources. repeat split; reflexivity.
Qed.

Lemma same_sources_trans (m1 m2 m3 : Resolve.cmap) :
  Forall2 Palette.same_sources m1 m2 -> Forall2 Palette.same_sources m2 m3 ->
  Forall2 Palette.same_sources m1 m3.
Proof.
  intros H. revert m3. induction H as [|x y l l' Hxy _ IH]; intros m3 H3.
  - inversion H3. constructor.
  - inversion H3 as [|? z ? l'' Hyz Hrest]; subst. constructor; [|apply IH; exact Hrest].
    unfold Palette.same_sources in *.
    destruct Hxy as (A1 & A2 & A3 & A4 & A5), Hyz as (B1 & B2 & B3 & B4 & B5).
    repeat split; congruence.
Qed.

Lemma same_sources_keys (m m' : Resolve.cmap) :
  Forall2 Palette.same_sources m m' -> Resolve.keys m' = Resolve.keys m.
Proof.
  unfold Resolve.keys. induction 1 as [|x y l l' (Hk & _) _ IH]; simpl;
    [reflexivity | rewrite IH, Hk; reflexivity].
Qed.

Lemma set_color_well_formed (m : Resolve.cmap) (k c : string) :
  Palette.well_formed m -> Palette.canon_or_empty c = true ->
  Palette.well_formed (Resolve.set_color m k c).
Proof.
  unfold Palette.well_formed, Resolve.set_color. intros H Hc.
  induction H as [|x m Hx _ IH]; cbn [map]; constructor; [|exact IH].
  destruct (String.eqb (fst x) k); [|exact Hx].
  cbn [snd]. unfold Palette.well_colored in *.
  cbn [Resolve.with_color Resolve.grp_color Resolve.idade_color Resolve.roc_colors
       Resolve.r1_colors].
  rewrite Hc. repeat rewrite andb_true_iff in Hx.
  destruct Hx as (((_ & A) & B) & C). rewrite A, B, C. reflexivity.
Qed.

(** What a round needs of its body: on a well-coloured entry it returns,
    and the colour it assigns is empty or canonical. *)
Lemma recolor_set_total (f : Resolve.recolor) :
  (forall i e, Palette.well_colored e = true ->
     exists c, f i e = Ok c
               /\ match c with
                  | Some c' => Palette.canon_or_empty c' = true
                  | None => True
                  end) ->
  forall (l : list string) (i : nat) (m : Resolve.cmap),
    (forall k, In k l -> In k (Resolve.keys m)) ->
    Palette.well_formed m ->
    exists m', Resolve.recolor_set f i l m = Ok m'
               /\ Palette.well_formed m' /\ Forall2 Palette.same_sources m m'.
Proof.
  intros Hf. induction l as [|k l IH]; intros i m Hkeys Hwf.
  - exists m. split; [reflexivity|]. split; [exact Hwf | apply same_sources_refl].
  - cbn [Resolve.recolor_set].
    destruct (get_of_key m k (Hkeys k (or_introl eq_refl))) as (e & Hget & Hin).
    rewrite Hget.
    assert (He : Palette.well_colored e = true).
    { unfold Palette.well_formed in Hwf. rewrite Forall_forall in Hwf.
      exact (Hwf (k, e) Hin). }
    destruct (Hf i e He) as (c & Hc & Hcanon). rewrite Hc. cbn [bind].
    set (m1 := match c with Some c0 => Resolve.set_color m k c0 | None => m end).
    assert (H1 : Palette.well_formed m1 /\ Forall2 Palette.same_sources m m1).
    { unfold m1. destruct c as [c0|].
      - split; [apply set_color_well_formed; assumption | apply set_color_sources].
      - split; [exact Hwf | apply same_sources_refl]. }
    destruct H1 as [Hwf1 Hs1].
    destruct (IH (S i) m1) as (m' & Hm' & Hwf' & Hs').
    + intros k' Hk'. rewrite (same_sources_keys m m1 Hs1). apply Hkeys. right. exact Hk'.
    + exact Hwf1.
    + exists m'. split; [exact Hm'|]. split; [exact Hwf'|].
      exact (same_sources_trans m m1 m' Hs1 Hs').
Qed.

Lemma recolor_sets_total (f : Resolve.recolor) :
  (forall i e, Palette.well_colored e = true ->
     exists c, f i e = Ok c
               /\ match c with
                  | Some c' => Palette.canon_or_empty c' = true
                  | None => True
                  end) ->
  forall (sets : list (list string)) (m : Resolve.cmap),
    (forall k, In k (List.concat sets) -> In k (Resolve.keys m)) ->
    Palette.well_formed m ->
    exists m', Resolve.recolor_sets f sets m = Ok m'
               /\ Palette.well_formed m' /\ Forall2 Palette.same_sources m m'.
Proof.
  intros Hf. induction sets as [|l sets IH]; intros m Hkeys Hwf.
  - exists m. split; [reflexivity|]. split; [exact Hwf | apply same_sources_refl].
  - cbn [Resolve.recolor_sets].
    destruct (recolor_set_total f Hf l 0%nat m) as (m1 & Hm1 & Hwf1 & Hs1).
    + intros k Hk. apply Hkeys. cbn [List.concat]. apply in_app_iff. left. exact Hk.
    + exact Hwf.
    + rewrite Hm1. cbn [bind].
      destruct (IH m1) as (m' & Hm' & Hwf' & Hs').
      * intros k Hk. rewrite (same_sources_keys m m1 Hs1). apply Hkeys.
        cbn [List.concat]. apply in_app_iff. right. exact Hk.
      * exact Hwf1.
      * exists m'. split; [exact Hm'|]. split; [exact Hwf'|].
        exact (same_sources_trans m m1 m' Hs1 Hs').
Qed.

(** The names in the collision sets are groups of the map. *)
Lemma dup_sets_keys (m : Resolve.cmap) (k : string) :
  In k (List.concat (Resolve.dup_sets m)) -> In k (Resolve.keys m).
Proof.
  intros Hk. apply in_concat in Hk as (l & Hl & Hkl).
  unfold Resolve.dup_sets in Hl. apply filter_In in Hl as [Hl _].
  apply in_map_iff in Hl as ([c l'] & Heq & Hcl). simpl in Heq. subst l'.
  rewrite <- (inv_get_unique _ _ _ (inv_of_NoDup m) Hcl) in Hkl.
  apply inv_get_members in Hkl as (e & Hin & _).
  unfold Resolve.keys. change k with (fst (k, e)). apply in_map. exact Hin.
Qed.

Lemma canon_or_empty_cases (s : string) :
  Palette.canon_or_empty s = true ->
  (Py.truthy s = false /\ s = "") \/ (Py.truthy s = true /\ Color.is_canonical s = true).
Proof.
  unfold Palette.canon_or_empty. destruct (Py.truthy s) eqn:T; cbn [negb orb]; intros H.
  - right. auto.
  - left. split; [reflexivity | apply truthy_false; exact T].
Qed.

Lemma canonical_canon_or_empty (s : string) :
  Color.is_canonical s = true -> Palette.canon_or_empty s = true.
Proof. unfold Palette.canon_or_empty. intros ->. apply orb_true_r. Qed.

Lemma mix_two_canonical_total (c1 c2 : string) (a : Q) :
  Color.is_canonical c1 = true -> Color.is_canonical c2 = true ->
  exists s, Color.mix_two c1 c2 a = Ok s /\ Color.is_canonical s = true.
Proof.
  intros C1 C2.
  destruct (canonical_parse c1 C1) as (r1 & g1 & b1 & P1 & _).
  destruct (canonical_parse c2 C2) as (r2 & g2 & b2 & P2 & _).
  eexists. split.
  - apply (mix_two_parsed c1 c2 a _ _ _ _ _ _
             (truthy_canonical c1 C1) (truthy_canonical c2 C2) P1 P2).
  - apply rgb_to_hex_canonical.
Qed.

Lemma well_colored_fields (e : Resolve.Entry) :
  Palette.well_colored e = true ->
  Palette.canon_or_empty (Resolve.grp_color e) = true
  /\ Palette.canon_or_empty (Resolve.idade_color e) = true
  /\ Palette.canon_or_empty (Resolve.roc_colors e) = true
  /\ Palette.canon_or_empty (Resolve.r1_colors e) = true.
Proof.
  unfold Palette.well_colored. rewrite !andb_true_iff. tauto.
Qed.

Lemma body_A_total (i : nat) (e : Resolve.Entry) :
  Palette.well_colored e = true ->
  exists c, Resolve.body_A i e = Ok c
            /\ match c with
               | Some c' => Palette.canon_or_empty c' = true
               | None => True
               end.
Proof.
  intros H. destruct (well_colored_fields e H) as (_ & Hi & Hr & _).
  unfold Resolve.body_A.
  destruct (canon_or_empty_cases _ Hr) as [[Tr _] | [Tr Cr]]; rewrite Tr.
  - exists None. auto.
  - assert (Cb : Color.is_canonical
                   (Py.or_else (Resolve.idade_color e) (Resolve.roc_colors e)) = true).
    { unfold Py.or_else.
      destruct (canon_or_empty_cases _ Hi) as [[Ti _] | [Ti Ci]]; rewrite Ti; assumption. }
    destruct (mix_two_canonical_total _ _ (1 # 2) Cb Cr) as (s & Hs & Cs).
    rewrite Hs. cbn [bind]. exists (Some s). split; [reflexivity|].
    apply canonical_canon_or_empty. exact Cs.
Qed.

Lemma body_B_total (i : nat) (e : Resolve.Entry) :
  Palette.well_colored e = true ->
  exists c, Resolve.body_B i e = Ok c
            /\ match c with
               | Some c' => Palette.canon_or_empty c' = true
               | None => True
               end.
Proof.
  intros H. destruct (well_colored_fields e H) as (_ & Hi & Hr & H1).
  unfold Resolve.body_B.
  assert (Hbase : exists base,
             (if Py.truthy (Resolve.roc_colors e)
              then Color.mix_two (Resolve.idade_color e) (Resolve.roc_colors e) (1 # 2)
              else Ok (Py.or_else (Resolve.idade_color e)
                         (Py.or_else (Resolve.r1_colors e) Resolve.DEFAULT_GRAY)))
             = Ok base /\ Color.is_canonical base = true).
  { destruct (canon_or_empty_cases _ Hr) as [[Tr _] | [Tr Cr]]; rewrite Tr.
    - eexists. split; [reflexivity|]. unfold Py.or_else.
      destruct (canon_or_empty_cases _ Hi) as [[Ti _] | [Ti Ci]]; rewrite Ti;
        [|exact Ci].
      destruct (canon_or_empty_cases _ H1) as [[T1 _] | [T1 C1]]; rewrite T1;
        [reflexivity | exact C1].
    - destruct (canon_or_empty_cases _ Hi) as [[Ti Ei] | [Ti Ci]].
      + exists (Resolve.roc_colors e). split; [|exact Cr].
        unfold Color.mix_two. rewrite Ti, Tr. reflexivity.
      + apply mix_two_canonical_total; assumption. }
  destruct Hbase as (base & Hb & Cb). rewrite Hb. cbn [bind].
  destruct (canon_or_empty_cases _ H1) as [[T1 _] | [T1 C1]]; rewrite T1.
  - cbn [bind]. exists (Some base). split; [reflexivity|].
    apply canonical_canon_or_empty. exact Cb.
  - destruct (mix_two_canonical_total base _ (1 # 2) Cb C1) as (s & Hs & Cs).
    rewrite Hs. cbn [bind]. exists (Some s). split; [reflexivity|].
    apply canonical_canon_or_empty. exact Cs.
Qed.

Lemma jitter_total (rgb_to_hls hls_to_rgb : Q * Q * Q -> Q * Q * Q)
      (c : string) (k : nat) (dh dl : Q) :
  Color.is_canonical c = true ->
  exists s, Color.jitter rgb_to_hls hls_to_rgb c k dh dl = Ok s
            /\ Color.is_canonical s = true.
Proof.
  intros C. destruct (canonical_parse c C) as (r & g & b & P & _).
  unfold Color.jitter. rewrite (truthy_canonical c C), P. cbn [negb bind].
  destruct (rgb_to_hls _) as [[h l] s].
  destruct (hls_to_rgb _) as [[r' g'] b'].
  eexists. split; [reflexivity | apply rgb_to_hex_canonical].
Qed.

Lemma body_C_total (rgb_to_hls hls_to_rgb : Q * Q * Q -> Q * Q * Q)
      (tries i : nat) (e : Resolve.Entry) :
  Palette.well_colored e = true ->
  exists c, Resolve.body_C rgb_to_hls hls_to_rgb tries i e = Ok c
            /\ match c with
               | Some c' => Palette.canon_or_empty c' = true
               | None => True
               end.
Proof.
  intros H. destruct (well_colored_fields e H) as (Hg & _).
  unfold Resolve.body_C.
  assert (Cb : Color.is_canonical (Py.or_else (Resolve.grp_color e) Resolve.DEFAULT_GRAY)
               = true).
  { unfold Py.or_else.
    destruct (canon_or_empty_cases _ Hg) as [[T _] | [T C]]; rewrite T;
      [reflexivity | exact C]. }
  destruct (jitter_total rgb_to_hls hls_to_rgb _ i (5 # 100)
              (if (0 <? tries)%nat then 2 # 100 else 15 # 1000) Cb) as (s & Hs & Cs).
  rewrite Hs. cbn [bind]. exists (Some s). split; [reflexivity|].
  apply canonical_canon_or_empty. exact Cs.
Qed.

Lemma pass_C_total (rgb_to_hls hls_to_rgb : Q * Q * Q -> Q * Q * Q) :
  forall (left tries : nat) (m : Resolve.cmap),
    Palette.well_formed m ->
    exists m', Resolve.pass_C rgb_to_hls hls_to_rgb left tries m = Ok m'
               /\ Palette.well_formed m' /\ Forall2 Palette.same_sources m m'.
Proof.
  induction left as [|left IH]; intros tries m Hwf.
  - exists m. split; [reflexivity|]. split; [exact Hwf | apply same_sources_refl].
  - cbn [Resolve.pass_C].
    destruct (Resolve.dup_sets m) as [|l sets] eqn:E.
    + exists m. split; [reflexivity|]. split; [exact Hwf | apply same_sources_refl].
    + unfold Resolve.jitter_round.
      destruct (recolor_sets_total _ (body_C_total rgb_to_hls hls_to_rgb tries)
                  (map Resolve.sorted (Resolve.dup_sets m)) m) as (m1 & Hm1 & Hwf1 & Hs1).
      * intros k Hk. apply dup_sets_keys. apply concat_sorted_incl. exact Hk.
      * exact Hwf.
      * rewrite Hm1. cbn [bind].
        destruct (IH (S tries) m1 Hwf1) as (m' & Hm' & Hwf' & Hs').
        exists m'. split; [exact Hm'|]. split; [exact Hwf'|].
        exact (same_sources_trans m m1 m' Hs1 Hs').
Qed.

(** X9. On a map whose colours are all empty or canonical, colour
    resolution never raises (no [KeyError], no [ValueError]); the three
    snapshots keep the groups, their order and their source colours (age,
    lithology, rock type, style), and every colour in them is again empty or
    canonical. *)
Theorem resolve_total (rgb_to_hls hls_to_rgb : Q * Q * Q -> Q * Q * Q)
        (m : Resolve.cmap) :
  Palette.well_formed m ->
  exists mA mB mC : Resolve.cmap,
    Resolve.resolve rgb_to_hls hls_to_rgb m = Ok (mA, mB, mC)
    /\ Palette.well_formed mA /\ Palette.well_formed mB /\ Palette.well_formed mC
    /\ Forall2 Palette.same_sources m mA /\ Forall2 Palette.same_sources m mB
    /\ Forall2 Palette.same_sources m mC.
Proof.
  intros Hwf. unfold Resolve.resolve, Resolve.pass_A, Resolve.pass_B.
  destruct (recolor_sets_total _ body_A_total (Resolve.dup_sets m) m
              (dup_sets_keys m) Hwf) as (mA & HA & WA & SA).
  destruct (recolor_sets_total _ body_B_total (Resolve.dup_sets mA) mA
              (dup_sets_keys mA) WA) as (mB & HB & WB & SB).
  destruct (pass_C_total rgb_to_hls hls_to_rgb 3 0 mB WB) as (mC & HC & WC & SC).
  exists mA, mB, mC. rewrite HA. cbn [bind]. rewrite HB. cbn [bind].
  rewrite HC. cbn [bind].
  pose proof (same_sources_trans m mA mB SA SB) as SAB.
  pose proof (same_sources_trans m mB mC SAB SC) as SABC.
  repeat split; assumption.
Qed.

Lemma resolve_total_witness :
  Palette.well_formed Resolve.three_groups
  /\ exists mA mB mC : Resolve.cmap,
       Resolve.resolve (fun x => x) (fun x => x) Resolve.three_groups = Ok (mA, mB, mC)
       /\ Palette.well_formed mC.
Proof.
  assert (H : Palette.well_formed Resolve.three_groups)
    by (repeat constructor).
  split; [exact H|].
  destruct (resolve_total (fun x => x) (fun x => x) Resolve.three_groups H)
    as (mA & mB & mC & R & _ & _ & WC & _).
  exists mA, mB, mC. split; assumption.
Defined.

(** ** The unit-code parser *)

Lemma take_while_all (p : ascii -> bool) (s : string) :
  Py.all_str p (Py.take_while p s) = true.
Proof.
  induction s as [|c s IH]; [reflexivity|]. cbn [Py.take_while].
  destruct (p c) eqn:E; [|reflexivity]. cbn [Py.all_str]. rewrite E, IH. reflexivity.
Qed.

Lemma take_while_split (p : ascii -> bool) (s : string) :
  s = Py.take_while p s ++ Py.drop (String.length (Py.take_while p s)) s.
Proof.
  induction s as [|c s IH]; [reflexivity|]. cbn [Py.take_while].
  destruct (p c); [|reflexivity].
  cbn [String.length Py.drop append]. rewrite <- IH. reflexivity.
Qed.

Lemma all_str_app (p : ascii -> bool) (a b : string) :
  Py.all_str p (a ++ b) = Py.all_str p a && Py.all_str p b.
Proof.
  induction a as [|c a IH]; [reflexivity|].
  cbn [append Py.all_str]. rewrite IH, andb_assoc. reflexivity.
Qed.

Lemma map_str_app (f : ascii -> ascii) (a b : string) :
  Py.map_str f (a ++ b) = Py.map_str f a ++ Py.map_str f b.
Proof.
  induction a as [|c a IH]; [reflexivity|].
  cbn [append Py.map_str]. rewrite IH. reflexivity.
Qed.

Lemma code_char_upper (c : ascii) : Sigla.is_code_char c = true -> Py.to_upper c = c.
Proof.
  destruct c as [[] [] [] [] [] [] [] []]; vm_compute; intros H;
    first [reflexivity | discriminate H].
Qed.

Lemma code_char_not_bar (c : ascii) :
  Sigla.is_code_char c = true -> AgeColor.not_bar c = true.
Proof.
  destruct c as [[] [] [] [] [] [] [] []]; vm_compute; intros H;
    first [reflexivity | discriminate H].
Qed.

Lemma code_upper (s : string) :
  Py.all_str Sigla.is_code_char s = true -> Py.upper s = s.
Proof.
  unfold Py.upper. induction s as [|c s IH]; [reflexivity|].
  cbn [Py.all_str Py.map_str]. intros H. apply andb_true_iff in H as [Hc Hs].
  rewrite (code_char_upper c Hc), (IH Hs). reflexivity.
Qed.

Lemma prefix_app_same (a b c : string) :
  String.prefix (a ++ b) (a ++ c) = String.prefix b c.
Proof.
  induction a as [|x a IH]; [reflexivity|]. cbn [append String.prefix].
  destruct (Ascii.ascii_dec x x) as [_|n]; [exact IH | contradiction].
Qed.

Lemma prefix_app (a b : string) : String.prefix a (a ++ b) = true.
Proof.
  induction a as [|x a IH]; [destruct b; reflexivity|]. cbn [append String.prefix].
  destruct (Ascii.ascii_dec x x) as [_|n]; [exact IH | contradiction].
Qed.

Lemma prefix_refl (a : string) : String.prefix a a = true.
Proof.
  induction a as [|x a IH]; [reflexivity|]. cbn [String.prefix].
  destruct (Ascii.ascii_dec x x) as [_|n]; [exact IH | contradiction].
Qed.

Lemma prefix_empty (s : string) : String.prefix "" s = true.
Proof. destruct s; reflexivity. Qed.

Lemma take_is_prefix (n : nat) (s : string) : String.prefix (Py.take n s) s = true.
Proof.
  revert s. induction n as [|n IH]; intros [|c s]; try reflexivity.
  cbn [Py.take String.prefix].
  destruct (Ascii.ascii_dec c c) as [_|ne]; [apply IH | contradiction].
Qed.

Lemma extract_cases (s : string) :
  let base := Sigla.leading_code s in
  let rest := Py.drop (String.length base) s in
  (Sigla._extract_idade_code s = base
   \/ (Sigla._extract_idade_code s = base ++ "CORTADO_"
       /\ Py.startswith (Py.lower rest) "cortado_" = true))
  /\ s = base ++ rest /\ Py.all_str Sigla.is_code_char base = true.
Proof.
  intros base rest. split; [|split].
  - unfold Sigla._extract_idade_code. fold base. fold rest.
    destruct (Py.endswith base "C_"); cbn [andb]; [|left; reflexivity].
    destruct (Py.startswith (Py.lower rest) "cortado_") eqn:E; auto.
  - apply take_while_split.
  - apply take_while_all.
Qed.

Lemma extract_code_chars (s : string) :
  Py.all_str Sigla.is_code_char (Sigla._extract_idade_code s) = true.
Proof.
  destruct (extract_cases s) as ([E | [E _]] & _ & Hb); rewrite E; [exact Hb|].
  rewrite all_str_app, Hb. reflexivity.
Qed.

(** X10. The age code that the parser extracts consists of upper-case
    letters, digits and underscores only, and it is a prefix of the
    upper-cased unit code: the parser never invents characters, it only
    upper-cases an absorbed "cortado_". *)
Theorem extract_code_shape (s : string) :
  Py.all_str Sigla.is_code_char (Sigla._extract_idade_code s) = true
  /\ String.prefix (Sigla._extract_idade_code s) (Py.upper s) = true
  /\ String.prefix (Sigla.leading_code s) (Sigla._extract_idade_code s) = true.
Proof.
  split; [apply extract_code_chars|].
  destruct (extract_cases s) as (Hc & Hs & Hb).
  set (base := Sigla.leading_code s) in *.
  set (rest := Py.drop (String.length base) s) in *.
  assert (Hup : Py.upper s = base ++ Py.upper rest).
  { rewrite Hs at 1. unfold Py.upper. rewrite map_str_app.
    fold (Py.upper base). rewrite (code_upper base Hb). reflexivity. }
  destruct Hc as [E | [E Hr]]; rewrite E.
  - split; [rewrite Hup; apply prefix_app | apply prefix_refl].
  - split; [|apply prefix_app].
    rewrite Hup, prefix_app_same.
    pose proof (absorbed_marker_upper rest Hr) as Hm.
    unfold Py.upper in Hm. rewrite <- take_map_str in Hm.
    rewrite <- Hm. apply take_is_prefix.
Qed.

Lemma take_while_code_app (a u : string) :
  Py.all_str Sigla.is_code_char a = true ->
  Py.take_while AgeColor.not_bar u = "" ->
  Py.take_while AgeColor.not_bar (a ++ u) = a /\ Sigla.leading_code a = a.
Proof.
  unfold Sigla.leading_code. intros H Hu.
  induction a as [|c a IH].
  - split; [exact Hu | reflexivity].
  - cbn [Py.all_str] in H. apply andb_true_iff in H as [Hc Ha].
    destruct (IH Ha) as (I1 & I2).
    change (String c a ++ u) with (String c (a ++ u)).
    cbn [Py.take_while]. rewrite (code_char_not_bar c Hc), Hc, I1, I2.
    split; reflexivity.
Qed.

Lemma group_code_of (a u : string) :
  Py.all_str Sigla.is_code_char a = true ->
  Py.take_while AgeColor.not_bar u = "" ->
  AgeColor._get_idade_code_from_grp (Some (a ++ u)) = a.
Proof.
  intros H Hu. destruct (take_while_code_app a u H Hu) as (I1 & I2).
  unfold AgeColor._get_idade_code_from_grp. rewrite I1, I2.
  assert (E : (if Py.truthy a then a else a) = a) by (destruct (Py.truthy a); reflexivity).
  rewrite E. apply code_upper. exact H.
Qed.

Lemma app_empty_r (a : string) : a ++ "" = a.
Proof.
  induction a as [|c a IH]; [reflexivity | cbn [append]; rewrite IH; reflexivity].
Qed.

(** X11. The colour lookup recovers the age code of a group from the
    group's name: applied to the [coarse_grp] that the parser builds, it gives
    back exactly the [idade_code] that the parser extracted, whatever the unit
    code and the parser's settings are. *)
Theorem group_code_round_trip (cfg : Sigla.Config) (s : string) :
  AgeColor._get_idade_code_from_grp (Some (Sigla.coarse_grp (Sigla._parse_sigla cfg s)))
  = Sigla.idade_code (Sigla._parse_sigla cfg s).
Proof.
  unfold Sigla._parse_sigla.
  destruct (Sigla.scan_tokens cfg _ None None) as [g st].
  cbn [Sigla.coarse_grp Sigla.idade_code].
  pose proof (extract_code_chars s) as Hc.
  destruct (Sigla.opt_truthy g);
    [apply group_code_of; [exact Hc | reflexivity]|].
  destruct (Sigla.opt_truthy st);
    [apply group_code_of; [exact Hc | reflexivity]|].
  rewrite <- (app_empty_r (Sigla._extract_idade_code s)) at 1.
  apply group_code_of; [exact Hc | reflexivity].
Qed.

(** *** Tokens, Greek letters and stems *)

Lemma dict_get_in (k v : string) (d : list (string * string)) :
  Sigla.dict_get k d = Some v -> In v (map snd d).
Proof.
  induction d as [|[k' v'] d IH]; cbn [Sigla.dict_get]; intros H; [discriminate H|].
  destruct (String.eqb k k'); [left; cbn [snd]; congruence | right; exact (IH H)].
Qed.

Lemma all_str_take (p : ascii -> bool) (n : nat) (s : string) :
  Py.all_str p s = true -> Py.all_str p (Py.take n s) = true.
Proof.
  revert s. induction n as [|n IH]; intros [|c s] H; try reflexivity.
  cbn [Py.all_str] in H. apply andb_true_iff in H as [Hc Hs].
  cbn [Py.take Py.all_str]. rewrite Hc, (IH s Hs). reflexivity.
Qed.

Lemma length_take (n : nat) (s : string) : (String.length (Py.take n s) <= n)%nat.
Proof.
  revert s. induction n as [|n IH]; intros [|c s]; cbn [Py.take String.length]; try lia.
  specialize (IH s). lia.
Qed.

Lemma letters_stem_shape (cfg : Sigla.Config) (tok x : string) :
  (0 <= Sigla.stem_len cfg)%Z ->
  Sigla._letters_stem cfg tok = Some x ->
  Py.all_str Py.is_lower x = true
  /\ (Z.of_nat (String.length x) <= Sigla.stem_len cfg)%Z.
Proof.
  intros Hn. unfold Sigla._letters_stem.
  set (run := Py.take_while Py.is_lower _).
  destruct (Py.truthy run); [|discriminate].
  intros H. injection H as <-. unfold Py.slice_to.
  destruct (Z.ltb_spec (Sigla.stem_len cfg) 0) as [Hlt|Hge]; [lia|].
  split.
  - apply all_str_take. apply take_while_all.
  - pose proof (length_take (Z.to_nat (Sigla.stem_len cfg)) run). lia.
Qed.

Lemma scan_tokens_shape (cfg : Sigla.Config) :
  (0 <= Sigla.stem_len cfg)%Z ->
  forall (toks : list string) (g st g' st' : option string),
    (forall v, g = Some v -> In v (map snd Sigla.GREEK)) ->
    (forall x, st = Some x ->
       Py.all_str Py.is_lower x = true
       /\ (Z.of_nat (String.length x) <= Sigla.stem_len cfg)%Z) ->
    Sigla.scan_tokens cfg toks g st = (g', st') ->
    (forall v, g' = Some v -> In v (map snd Sigla.GREEK))
    /\ (forall x, st' = Some x ->
          Py.all_str Py.is_lower x = true
          /\ (Z.of_nat (String.length x) <= Sigla.stem_len cfg)%Z).
Proof.
  intros Hn. induction toks as [|t ts IH]; intros g st g' st' Hg Hst H.
  - cbn [Sigla.scan_tokens] in H. injection H as <- <-. split; assumption.
  - cbn [Sigla.scan_tokens] in H.
    destruct (Sigla.is_allcaps t && Py.mem t (Sigla.ignore_allcaps cfg));
      [exact (IH _ _ _ _ Hg Hst H)|].
    set (gn := match g with None => Sigla._norm_greek t | Some _ => None end) in H.
    assert (Hgn : forall v, gn = Some v -> In v (map snd Sigla.GREEK)).
    { unfold gn. destruct g; [discriminate|]. unfold Sigla._norm_greek.
      intros v Hv. exact (dict_get_in _ _ _ Hv). }
    destruct (Sigla.opt_truthy gn); [exact (IH _ _ _ _ Hgn Hst H)|].
    set (sn := match st with
               | None => if Sigla.opt_truthy (Sigla._letters_stem cfg t)
                         then Sigla._letters_stem cfg t else None
               | Some _ => st
               end) in H.
    assert (Hsn : forall x, sn = Some x ->
               Py.all_str Py.is_lower x = true
               /\ (Z.of_nat (String.length x) <= Sigla.stem_len cfg)%Z).
    { unfold sn. destruct st as [x0|]; [exact Hst|].
      destruct (Sigla.opt_truthy (Sigla._letters_stem cfg t)); [|discriminate].
      intros x Hx. exact (letters_stem_shape cfg t x Hn Hx). }
    destruct (Sigla.opt_truthy g && Sigla.opt_truthy sn).
    + injection H as <- <-. split; assumption.
    + exact (IH _ _ _ _ Hg Hsn H).
Qed.

(** X12. Whatever the unit code is, the fields of a parsed code have their
    shape: the Greek letter is empty or one of the six normalised names, the
    stem is made of lower-case letters and is no longer than [stem_len], and
    the group name is the age code alone or the age code, a "|" and the Greek
    letter or (when there is none) the stem. *)
Theorem parse_fields_shape (cfg : Sigla.Config) (s : string) :
  (0 <= Sigla.stem_len cfg)%Z ->
  let p := Sigla._parse_sigla cfg s in
  (Sigla.greek p = ""
   \/ In (Sigla.greek p) ["alfa"; "beta"; "gamma"; "delta"; "lambda"; "mu"])
  /\ Py.all_str Py.is_lower (Sigla.stem p) = true
  /\ (Z.of_nat (String.length (Sigla.stem p)) <= Sigla.stem_len cfg)%Z
  /\ Sigla.coarse_grp p
     = Sigla.idade_code p
       ++ (if Py.truthy (Sigla.greek p) then "|" ++ Sigla.greek p
           else if Py.truthy (Sigla.stem p) then "|" ++ Sigla.stem p
           else "").
Proof.
  intros Hn p. unfold p, Sigla._parse_sigla.
  destruct (Sigla.scan_tokens cfg _ None None) as [g st] eqn:E.
  destruct (scan_tokens_shape cfg Hn _ None None g st
              ltac:(discriminate) ltac:(discriminate) E) as [Hg Hst].
  cbn [Sigla.greek Sigla.stem Sigla.coarse_grp Sigla.idade_code].
  assert (Happ : forall a : string, a = a ++ "")
    by (intros a; symmetry; apply app_empty_r).
  split; [|split; [|split]].
  - destruct g as [v|]; [|left; reflexivity]. right.
    specialize (Hg v eq_refl). cbn in Hg. cbn.
    intuition.
  - destruct st as [x|]; [exact (proj1 (Hst x eq_refl)) | reflexivity].
  - destruct st as [x|]; [exact (proj2 (Hst x eq_refl)) | exact Hn].
  - destruct g as [v|]; cbn [Sigla.opt_truthy Sigla.opt_str].
    + destruct (Py.truthy v); [reflexivity|].
      destruct st as [x|]; cbn [Sigla.opt_truthy Sigla.opt_str].
      * destruct (Py.truthy x); [reflexivity | apply Happ].
      * apply Happ.
    + change (Py.truthy "") with false. cbv iota.
      destruct st as [x|]; cbn [Sigla.opt_truthy Sigla.opt_str].
      * destruct (Py.truthy x); [reflexivity | apply Happ].
      * apply Happ.
Qed.

Lemma parse_fields_shape_witness :
  (0 <= Sigla.stem_len Sigla.default_config)%Z
  /\ Py.all_str Py.is_lower
       (Sigla.stem (Sigla._parse_sigla Sigla.default_config "NP3_gamma_xisto")) = true.
Proof.
  split; [discriminate|].
  exact (proj1 (proj2 (parse_fields_shape Sigla.default_config "NP3_gamma_xisto"
                         ltac:(discriminate)))).
Defined.

(** ** The domino of eons and eras *)

Lemma norm_in_domain (strip_marks : string -> string) (domain : list string)
      (x : option string) (v : string) :
  Domino.norm strip_marks domain x = Some v -> In v domain.
Proof.
  unfold Domino.norm. destruct x as [x|]; [|discriminate].
  destruct (negb (Py.truthy (Py.strip Py.is_space x))); [discriminate|].
  destruct (Py.mem _ domain) eqn:E; [|discriminate].
  intros H. injection H as <-. apply mem_In. exact E.
Qed.

(** X13. [_choose_minmax] returns either no bound at all or two bounds
    that both belong to the domain: when only one of the two fields
    normalises to a member of the domain, that value serves as both bounds,
    and a field that does not is never passed on. *)
Theorem choose_minmax_closed (strip_marks : string -> string)
        (vmin vmax : option string) (domain : list string) :
  let r := Domino._choose_minmax strip_marks vmin vmax domain in
  let m := Domino.norm strip_marks domain vmin in
  let M := Domino.norm strip_marks domain vmax in
  ((fst r = None /\ snd r = None /\ m = None /\ M = None)
   \/ (exists a b, fst r = Some a /\ snd r = Some b /\ In a domain /\ In b domain
                   /\ (m = Some a \/ (m = None /\ M = Some a))
                   /\ (M = Some b \/ (M = None /\ m = Some b)))).
Proof.
  intros r m M. unfold r, Domino._choose_minmax. fold m. fold M.
  destruct m as [a|] eqn:Em, M as [b|] eqn:EM; cbn [fst snd].
  - right. exists a, b.
    pose proof (norm_in_domain _ _ _ _ Em). pose proof (norm_in_domain _ _ _ _ EM).
    repeat split; auto.
  - right. exists a, a. pose proof (norm_in_domain _ _ _ _ Em).
    repeat split; auto.
  - right. exists b, b. pose proof (norm_in_domain _ _ _ _ EM).
    repeat split; auto.
  - left. repeat split; reflexivity.
Qed.

Lemma eon_dom_range (a b : option string) :
  In (Domino.eon_dom a b)
     [Sigla.PRE_CAMBRIANO; Domino.PRE_PALEO; Domino.FANEROZOICO_LABEL].
Proof.
  unfold Domino.eon_dom.
  destruct a, b;
    repeat match goal with |- context [if ?c then _ else _] => destruct c end;
    simpl; auto.
Qed.

(** X14. Every row that [classify] produces carries labels of the closed
    vocabularies: the eon domino is one of its three labels, the code-derived
    and the resolved macro-era are each empty or one of the four macro-eras,
    and the flag is 0 or 1; the rows keep their unit codes, in their order.
    (None of these columns is written again after the flag is set.) *)
Theorem classify_labels (strip_marks : string -> string) (cfg : Sigla.Config)
        (enforce_mode : string) (rows : list Domino.Row) :
  Forall (fun c =>
            In (Domino.eon_domino c)
               [Sigla.PRE_CAMBRIANO; Domino.PRE_PALEO; Domino.FANEROZOICO_LABEL]
            /\ (Domino.sigla_era c = "" \/ In (Domino.sigla_era c) Domino.MACROS)
            /\ (Domino.macro_era c = "" \/ In (Domino.macro_era c) Domino.MACROS)
            /\ (Domino.domino_ok c = 0%Z \/ Domino.domino_ok c = 1%Z))
         (Domino.classify strip_marks cfg enforce_mode rows)
  /\ map Domino.c_sigla (Domino.classify strip_marks cfg enforce_mode rows)
     = map Domino.sigla rows.
Proof.
  unfold Domino.classify. split.
  - apply Forall_forall. intros c Hc. apply in_map_iff in Hc as (r & <- & _).
    unfold Domino.classify_row.
    destruct (Domino._choose_minmax strip_marks (Domino.eon_min r) (Domino.eon_max r)
                Domino.EON) as [em eM].
    destruct (Domino._choose_minmax strip_marks (Domino.era_min r) (Domino.era_max r)
                Domino.ERA) as [rm rM].
    cbn [Domino.eon_domino Domino.sigla_era Domino.macro_era Domino.domino_ok].
    split; [apply eon_dom_range|].
    split; [apply simple_macro_range|].
    split; [apply macro_of_range|].
    unfold Domino.domino_flag.
    match goal with |- context [if ?c then _ else _] => destruct c end; auto.
  - rewrite map_map. apply map_ext. intros r. unfold Domino.classify_row.
    destruct (Domino._choose_minmax strip_marks (Domino.eon_min r) (Domino.eon_max r)
                Domino.EON) as [em eM].
    destruct (Domino._choose_minmax strip_marks (Domino.era_min r) (Domino.era_max r)
                Domino.ERA) as [rm rM].
    reflexivity.
Qed.

(** ** Nice scale denominators *)

Lemma round_nice_nonpos (n : Q) (mode : Scale.round_mode) :
  n <= 0 -> Scale._round_nice n mode = 1%Z.
Proof.
  intros H. unfold Scale._round_nice.
  apply Qle_bool_iff in H. rewrite H. reflexivity.
Qed.

Lemma round_nice_ceil_ge_1 (n : Q) : (1 <= Scale._round_nice n Scale.Ceil)%Z.
Proof.
  destruct (Qlt_le_dec 0 n) as [Hn|Hn]; [|rewrite round_nice_nonpos by exact Hn; lia].
  rewrite (round_nice_ceil_eq n Hn).
  destruct (nice_ceiling_least n Hn) as (_ & Hle & _).
  assert (Hpos : 0 < Scale.nice_ceiling n) by lra.
  pose proof (Qle_ceiling (Scale.nice_ceiling n)) as Hc.
  assert (Hz : 0 < inject_Z (Qceiling (Scale.nice_ceiling n))) by lra.
  change 0 with (inject_Z 0) in Hz. rewrite <- Zlt_Qlt in Hz. lia.
Qed.

(** X15. Nice rounding upwards is monotone: a larger exact denominator
    never gets a smaller nice denominator (so a wider map or a narrower page
    never yields a larger-scale map). *)
Theorem round_nice_ceil_monotone (n n' : Q) :
  n <= n' ->
  (Scale._round_nice n Scale.Ceil <= Scale._round_nice n' Scale.Ceil)%Z.
Proof.
  intros Hle.
  destruct (Qlt_le_dec 0 n) as [Hn|Hn].
  - assert (Hn' : 0 < n') by lra.
    rewrite (round_nice_ceil_eq n Hn), (round_nice_ceil_eq n' Hn').
    apply Qceiling_resp_le.
    destruct (nice_ceiling_least n Hn) as (_ & _ & Hleast).
    destruct (nice_ceiling_least n' Hn') as (Hnice & Hge & _).
    apply Hleast; [exact Hnice | lra].
  - rewrite (round_nice_nonpos n Scale.Ceil Hn). apply round_nice_ceil_ge_1.
Qed.

Lemma round_nice_ceil_monotone_witness :
  2250 <= 40000
  /\ (Scale._round_nice 2250 Scale.Ceil <= Scale._round_nice 40000 Scale.Ceil)%Z.
Proof.
  split; [discriminate|]. apply round_nice_ceil_monotone. discriminate.
Defined.

Lemma nice_comp (v w : Q) : v == w -> Scale.nice v -> Scale.nice w.
Proof.
  intros E (s & k & Hs & Hv). exists s, k. split; [exact Hs|].
  rewrite <- E. exact Hv.
Qed.

(** X16. From ten upwards a nice denominator is a fixed point: rounding the
    result of nice rounding again changes nothing. *)
Theorem round_nice_ceil_idempotent (n : Q) :
  10 <= n ->
  Scale._round_nice (inject_Z (Scale._round_nice n Scale.Ceil)) Scale.Ceil
  = Scale._round_nice n Scale.Ceil.
Proof.
  intros H10. assert (Hn : 0 < n) by lra.
  destruct (nice_ceiling_integer n H10) as [z Hz].
  destruct (nice_ceiling_least n Hn) as (Hnice & Hge & _).
  rewrite (round_nice_ceil_eq n Hn).
  rewrite (Qceiling_comp _ _ Hz), Qceiling_Z.
  assert (Hzpos : 0 < inject_Z z) by (rewrite <- Hz; lra).
  rewrite (round_nice_ceil_eq _ Hzpos).
  destruct (nice_ceiling_least (inject_Z z) Hzpos) as (_ & Hge2 & Hleast2).
  assert (Hzn : Scale.nice (inject_Z z)) by (apply (nice_comp _ _ Hz); exact Hnice).
  assert (E : Scale.nice_ceiling (inject_Z z) == inject_Z z).
  { apply Qle_antisym; [|exact Hge2]. apply Hleast2; [exact Hzn | apply Qle_refl]. }
  rewrite (Qceiling_comp _ _ E). apply Qceiling_Z.
Qed.

Lemma round_nice_ceil_idempotent_witness :
  10 <= 33333 # 2
  /\ Scale._round_nice (inject_Z (Scale._round_nice (33333 # 2) Scale.Ceil)) Scale.Ceil
     = Scale._round_nice (33333 # 2) Scale.Ceil.
Proof.
  split; [discriminate|]. apply round_nice_ceil_idempotent. discriminate.
Defined.

(** The ["nearest"] loop: it keeps the first candidate of least error. *)
Lemma nearest_of_spec (k : Z) (n : Q) :
  forall (ss : list Q) (best : option (Q * Q)),
    (forall v e, best = Some (v, e) -> e = Qabs (v - n)) ->
    (best = None -> ss <> []) ->
    exists v : Q,
      Scale.nearest_of k n ss best = Some (v, Qabs (v - n))
      /\ (best = Some (v, Qabs (v - n))
          \/ exists s, In s ss /\ v = s * Scale.pow10 k)
      /\ (forall s, In s ss -> Qabs (v - n) <= Qabs (s * Scale.pow10 k - n))
      /\ (forall v0 e0, best = Some (v0, e0) -> Qabs (v - n) <= e0).
Proof.
  induction ss as [|s ss IH]; intros best Hb Hne.
  - destruct best as [[v e]|]; [|exfalso; apply (Hne eq_refl); reflexivity].
    pose proof (Hb v e eq_refl) as He. subst e.
    exists v. cbn [Scale.nearest_of]. split; [reflexivity|].
    split; [left; reflexivity|]. split; [intros s []|].
    intros v0 e0 H0. injection H0 as <- <-. apply Qle_refl.
  - cbn [Scale.nearest_of].
    set (val := s * Scale.pow10 k). set (err := Qabs (val - n)).
    set (better := match best with
                   | None => true
                   | Some (_, best_err) => negb (Qle_bool best_err err)
                   end).
    destruct better eqn:Eb.
    + destruct (IH (Some (val, err))) as (v & Hv & Hor & Hall & Hbest).
      * intros v0 e0 H0. injection H0 as <- <-. reflexivity.
      * discriminate.
      * exists v. split; [exact Hv|].
        pose proof (Hbest val err eq_refl) as Hle.
        split; [|split].
        -- right. destruct Hor as [Hor | (s' & Hs' & Hv')].
           ++ assert (Hvv : v = val) by congruence.
              exists s. split; [left; reflexivity | exact Hvv].
           ++ exists s'. split; [right; exact Hs' | exact Hv'].
        -- intros s' [<- | Hs']; [exact Hle | apply Hall; exact Hs'].
        -- intros v0 e0 H0. subst best. unfold better in Eb.
           apply negb_true_iff in Eb. apply Qle_bool_false in Eb.
           apply Qle_trans with err; [exact Hle | apply Qlt_le_weak; exact Eb].
    + destruct best as [[v0 e0]|]; [|discriminate Eb].
      unfold better in Eb. apply negb_false_iff in Eb. apply Qle_bool_iff in Eb.
      destruct (IH (Some (v0, e0)) Hb ltac:(discriminate))
        as (v & Hv & Hor & Hall & Hbest).
      exists v. split; [exact Hv|].
      pose proof (Hbest v0 e0 eq_refl) as Hle.
      split; [|split].
      * destruct Hor as [Hor | (s' & Hs' & Hv')]; [left; exact Hor|].
        right. exists s'. split; [right; exact Hs' | exact Hv'].
      * intros s' [<- | Hs']; [|apply Hall; exact Hs'].
        apply Qle_trans with e0; assumption.
      * exact Hbest.
Qed.

Lemma Qabs_le_iff (x y : Q) : Qabs x <= y <-> - y <= x /\ x <= y.
Proof. apply Qabs_Qle_condition. Qed.

(** Some candidate of the decade is within a third of [n]. *)
Lemma candidate_within_third (P n : Q) :
  0 < P -> P <= n -> n < 10 * P ->
  exists s, In s [1; 2; 5 # 2; 5; 10] /\ Qabs (s * P - n) <= n / 3.
Proof.
  intros HP H1 H2.
  assert (T : n / 3 == n * (1 # 3)) by (field).
  destruct (Qlt_le_dec n ((3 # 2) * P)) as [A|A].
  { exists 1. split; [simpl; auto|]. apply Qabs_le_iff. rewrite T. split; lra. }
  destruct (Qlt_le_dec n (3 * P)) as [B|B].
  { exists 2. split; [simpl; auto|]. apply Qabs_le_iff. rewrite T. split; lra. }
  destruct (Qlt_le_dec n ((15 # 4) * P)) as [C|C].
  { exists (5 # 2). split; [simpl; auto|]. apply Qabs_le_iff. rewrite T. split; lra. }
  destruct (Qlt_le_dec n ((15 # 2) * P)) as [D|D].
  { exists 5. split; [simpl; auto|]. apply Qabs_le_iff. rewrite T. split; lra. }
  exists 10. split; [simpl; auto 6|]. apply Qabs_le_iff. rewrite T. split; lra.
Qed.

Lemma Qabs_diff_below (w v n : Q) : w <= v -> v <= n -> Qabs (v - n) <= Qabs (w - n).
Proof.
  intros H1 H2. rewrite (Qabs_neg (v - n)) by lra. rewrite (Qabs_neg (w - n)) by lra. lra.
Qed.

Lemma Qabs_diff_above (w v n : Q) : n <= v -> v <= w -> Qabs (v - n) <= Qabs (w - n).
Proof.
  intros H1 H2. rewrite (Qabs_pos (v - n)) by lra. rewrite (Qabs_pos (w - n)) by lra. lra.
Qed.

(** X17. In ["nearest"] mode, for a positive exact denominator, nice
    rounding returns the rounding to an integer of a nice number that is as
    close to the exact value as any nice number (1, 2, 2.5 or 5 times a power
    of ten) is, and this nice number differs from the exact value by at most
    a third of it. *)
Theorem round_nice_nearest_spec (n : Q) :
  0 < n ->
  exists v : Q,
    Scale.nice v
    /\ Scale._round_nice n Scale.Nearest = Color.round_half_even v
    /\ (forall w : Q, Scale.nice w -> Qabs (v - n) <= Qabs (w - n))
    /\ Qabs (v - n) <= n / 3.
Proof.
  intros Hn. destruct (decade_spec n Hn) as [D1 D2].
  set (k := Scale.decade n) in *.
  pose proof (pow10_succ k) as Hs. pose proof (pow10_pos k) as HP.
  assert (D2' : n < 10 * Scale.pow10 k) by (rewrite <- Hs; exact D2).
  destruct (nearest_of_spec k n (Scale.steps ++ [10])%list None
              ltac:(discriminate) ltac:(discriminate))
    as (v & Hv & Hor & Hall & _).
  exists v.
  assert (Hcand : forall s, In s [1; 2; 5 # 2; 5; 10] ->
            Qabs (v - n) <= Qabs (s * Scale.pow10 k - n)).
  { intros s Hs'. apply Hall. unfold Scale.steps. simpl in Hs' |- *. tauto. }
  split; [|split; [|split]].
  - destruct Hor as [Hor | (s & Hs' & Hvs)]; [discriminate Hor|]. subst v.
    unfold Scale.steps in Hs'. simpl in Hs'.
    destruct Hs' as [<-|[<-|[<-|[<-|[<-|[<-|[]]]]]]].
    + exists 1, k. split; [simpl; auto | reflexivity].
    + exists 2, k. split; [simpl; auto | reflexivity].
    + exists (5 # 2), k. split; [simpl; auto | reflexivity].
    + exists 5, k. split; [simpl; auto | reflexivity].
    + exists 1, (k + 1)%Z. split; [simpl; auto | rewrite Hs; ring].
    + exists 1, (k + 1)%Z. split; [simpl; auto | rewrite Hs; ring].
  - unfold Scale._round_nice. fold k.
    assert (H0 : Qle_bool n 0 = false).
    { destruct (Qle_bool n 0) eqn:E; [|reflexivity]. apply Qle_bool_iff in E. lra. }
    rewrite H0, Hv. reflexivity.
  - intros w (s & j & Hs' & Hw).
    assert (Hs01 : 1 <= s /\ s <= 5).
    { simpl in Hs'. destruct Hs' as [<-|[<-|[<-|[<-|[]]]]]; split; lra || discriminate. }
    pose proof (pow10_pos j) as HPj.
    assert (Elim : forall a b c : Q, a == b -> Qabs (c - n) <= Qabs (b - n) ->
                                     Qabs (c - n) <= Qabs (a - n)).
    { intros a b c E H. rewrite E. exact H. }
    destruct (Z.lt_trichotomy j k) as [Hjk | [Hjk | Hjk]].
    + (* a lower decade: below the first candidate *)
      assert (Hj : Scale.pow10 (j + 1) <= Scale.pow10 k) by (apply pow10_le; lia).
      rewrite pow10_succ in Hj.
      assert (Hwle : w <= 1 * Scale.pow10 k).
      { rewrite Hw.
        assert (s * Scale.pow10 j <= 5 * Scale.pow10 j)
          by (apply Qmult_le_compat_r; [tauto | lra]).
        lra. }
      apply Qle_trans with (Qabs (1 * Scale.pow10 k - n)).
      * apply Hcand. simpl. auto.
      * apply Qabs_diff_below; [exact Hwle | lra].
    + subst j. apply (Elim _ _ _ Hw). apply Hcand. simpl in Hs' |- *. tauto.
    + (* a higher decade: above the last candidate *)
      assert (Hj : Scale.pow10 (k + 1) <= Scale.pow10 j) by (apply pow10_le; lia).
      rewrite Hs in Hj.
      assert (Hwge : 10 * Scale.pow10 k <= w).
      { rewrite Hw.
        assert (1 * Scale.pow10 j <= s * Scale.pow10 j)
          by (apply Qmult_le_compat_r; [tauto | lra]).
        lra. }
      apply Qle_trans with (Qabs (10 * Scale.pow10 k - n)).
      * apply Hcand. simpl. auto 6.
      * apply Qabs_diff_above; [lra | exact Hwge].
  - destruct (candidate_within_third (Scale.pow10 k) n HP D1 D2') as (s & Hs' & Hb).
    apply Qle_trans with (Qabs (s * Scale.pow10 k - n)); [|exact Hb].
    apply Hcand. exact Hs'.
Qed.

Lemma round_nice_nearest_spec_witness :
  0 < 2600
  /\ exists v : Q,
       Scale.nice v /\ Scale._round_nice 2600 Scale.Nearest = Color.round_half_even v.
Proof.
  split; [reflexivity|].
  destruct (round_nice_nearest_spec 2600 eq_refl) as (v & Hn & Hr & _).
  exists v. split; assumption.
Defined.

(** ** The scale of a figure *)

Lemma qmax_floor_pos (x : Q) : 0 < Scale.qmax x (1 # 1000000).
Proof.
  unfold Scale.qmax. destruct (Qle_bool x (1 # 1000000)) eqn:E; [reflexivity|].
  apply Qle_bool_false in E. apply Qlt_trans with (1 # 1000000); [reflexivity | exact E].
Qed.

Lemma Qdiv_pos (a b : Q) : 0 < a -> 0 < b -> 0 < a / b.
Proof.
  intros Ha Hb. apply Qlt_shift_div_l; [exact Hb|]. lra.
Qed.

(** What [width_to_scale] returns, in terms of the two widths it divides. *)
Lemma width_to_scale_returns (self : Scale.Styler) (gdf : option Scale.GeoFrame)
      (fw : Q) (wu : string) (dpi : option Z) (mg : Q) (mu : string)
      (prefer : bool) (rt : option string) (mode : Scale.round_mode)
      (N : Z) (meta : Scale.ScaleMeta) :
  Scale.width_to_scale self gdf fw wu dpi mg mu prefer rt mode = Ok (N, meta) ->
  exists (g : Scale.GeoFrame) (w c : Q),
    gdf = Some g
    /\ Width.map_w_m self prefer g = Scale.Finite w
    /\ Width.content_w_m dpi fw wu mg mu = Ok c
    /\ 0 < w /\ 0 < c
    /\ Scale.scale_exact meta = w / c
    /\ Scale.scale_nice meta = N
    /\ (rt = Some "nice" -> N = Scale._round_nice (Scale.scale_exact meta) mode)
    /\ (rt = None -> N = Color.trunc (Scale.scale_exact meta)).
Proof.
  unfold Scale.width_to_scale, Width.content_w_m, Width.map_w_m. intros H.
  destruct gdf as [g|]; [|discriminate H].
  destruct (negb (Scale.has_rows g)); [discriminate H|].
  destruct (negb (Scale.has_geometry g)); [discriminate H|].
  destruct (Scale._to_mm dpi fw wu) as [paper|] eqn:E1; [|discriminate H].
  cbn [bind] in H |- *.
  destruct (if Qeq_bool mg 0 then Ok 0 else Scale._to_mm dpi mg mu) as [mm|] eqn:E2;
    [|discriminate H].
  cbn [bind] in H |- *.
  exists g.
  destruct (negb prefer && _).
  - destruct (Scale.width (Scale.native g)) as [w0|]; [|discriminate H].
    destruct (Qle_bool (w0 / (1 / (3600 * 30))) 0) eqn:Ew; [discriminate H|].
    apply Qle_bool_false in Ew.
    apply ok_inj in H. injection H as HN Hmeta.
    exists (w0 / (1 / (3600 * 30))), (Scale.qmax (paper - 2 * mm) (1 # 1000000) / 1000).
    subst meta. cbn [Scale.scale_exact Scale.scale_nice].
    split; [reflexivity|]. split; [reflexivity|]. split; [reflexivity|].
    split; [exact Ew|].
    split; [apply Qdiv_pos; [apply qmax_floor_pos | reflexivity]|].
    split; [reflexivity|]. split; [exact HN|].
    split; intros ->; symmetry; exact HN.
  - destruct (Scale.metric_path self prefer g) as [[m proj] strat]. cbn [fst].
    destruct (Scale.width m) as [w|]; [|discriminate H].
    destruct (Qle_bool w 0) eqn:Ew; [discriminate H|].
    apply Qle_bool_false in Ew.
    apply ok_inj in H. injection H as HN Hmeta.
    exists w, (Scale.qmax (paper - 2 * mm) (1 # 1000000) / 1000).
    subst meta. cbn [Scale.scale_exact Scale.scale_nice].
    split; [reflexivity|]. split; [reflexivity|]. split; [reflexivity|].
    split; [exact Ew|].
    split; [apply Qdiv_pos; [apply qmax_floor_pos | reflexivity]|].
    split; [reflexivity|]. split; [exact HN|].
    split; intros ->; symmetry; exact HN.
Qed.

(** X18. With nice rounding upwards, [width_to_scale] returns a denominator
    N that is at least the exact one, which is the width of the data (as
    [map_w_m] measures it, in metres) divided by the usable width of the
    figure ([content_w_m], in metres), both positive: at the scale 1:N the
    data, as wide as measured, fits the usable width. *)
Theorem scale_fits_page (self : Scale.Styler) (gdf : option Scale.GeoFrame)
        (fw : Q) (wu : string) (dpi : option Z) (mg : Q) (mu : string)
        (prefer : bool) (N : Z) (meta : Scale.ScaleMeta) :
  Scale.width_to_scale self gdf fw wu dpi mg mu prefer (Some "nice") Scale.Ceil
  = Ok (N, meta) ->
  exists (g : Scale.GeoFrame) (w c : Q),
    gdf = Some g
    /\ Width.map_w_m self prefer g = Scale.Finite w
    /\ Width.content_w_m dpi fw wu mg mu = Ok c
    /\ 0 < w /\ 0 < c
    /\ Scale.scale_exact meta = w / c
    /\ Scale.scale_exact meta <= inject_Z N
    /\ (1 <= N)%Z
    /\ w / inject_Z N <= c.
Proof.
  intros H.
  destruct (width_to_scale_returns _ _ _ _ _ _ _ _ _ _ _ _ H)
    as (g & w & c & Eg & Ew & Ec & Hw & Hc & Hex & _ & HN & _).
  specialize (HN eq_refl).
  assert (Hpos : 0 < Scale.scale_exact meta)
    by (rewrite Hex; apply Qdiv_pos; assumption).
  assert (Hge : Scale.scale_exact meta <= inject_Z N).
  { rewrite HN, (round_nice_ceil_eq _ Hpos).
    destruct (nice_ceiling_least _ Hpos) as (_ & Hle & _).
    apply Qle_trans with (Scale.nice_ceiling (Scale.scale_exact meta));
      [exact Hle | apply Qle_ceiling]. }
  assert (H1 : (1 <= N)%Z) by (rewrite HN; apply round_nice_ceil_ge_1).
  exists g, w, c.
  split; [exact Eg|]. split; [exact Ew|]. split; [exact Ec|].
  split; [exact Hw|]. split; [exact Hc|]. split; [exact Hex|].
  split; [exact Hge|]. split; [exact H1|].
  assert (HNpos : 0 < inject_Z N).
  { change 0 with (inject_Z 0). rewrite <- Zlt_Qlt. lia. }
  apply Qle_shift_div_r; [exact HNpos|].
  rewrite Hex in Hge.
  assert (Hw2 : w <= inject_Z N * c).
  { assert (E : w == w / c * c) by (field; lra).
    rewrite E at 1. apply Qmult_le_compat_r; [exact Hge | lra]. }
  rewrite Qmult_comm. exact Hw2.
Qed.

Lemma scale_fits_page_witness :
  exists meta,
    Scale.width_to_scale Scale.scenario_styler (Some Scale.utm_frame) 180 "mm"
      (Some 300%Z) 10 "mm" true (Some "nice") Scale.Ceil = Ok (200000%Z, meta)
    /\ Width.map_w_m Scale.scenario_styler true Scale.utm_frame = Scale.Finite 27000
    /\ Width.content_w_m (Some 300%Z) 180 "mm" 10 "mm" = Ok (160 / 1000)
    /\ 27000 / inject_Z 200000 <= 160 / 1000.
Proof.
  destruct scale_of_utm_frame as (meta & H & _). exists meta.
  split; [exact H|].
  destruct (scale_fits_page _ _ _ _ _ _ _ _ _ _ H)
    as (g & w & c & Eg & Ew & Ec & _ & _ & _ & _ & _ & Hfit).
  injection Eg as <-.
  assert (Ew' : Width.map_w_m Scale.scenario_styler true Scale.utm_frame
                = Scale.Finite 27000) by reflexivity.
  assert (Ec' : Width.content_w_m (Some 300%Z) 180 "mm" 10 "mm" = Ok (160 / 1000))
    by reflexivity.
  split; [exact Ew'|]. split; [exact Ec'|].
  rewrite Ew' in Ew. injection Ew as <-.
  rewrite Ec' in Ec. apply ok_inj in Ec. subst c. exact Hfit.
Defined.

(** *** Paper units *)

Lemma to_lower_upper (c : ascii) : Py.to_lower (Py.to_upper c) = Py.to_lower c.
Proof.
  destruct c as [[] [] [] [] [] [] [] []]; vm_compute; reflexivity.
Qed.

Lemma lower_upper (s : string) : Py.lower (Py.upper s) = Py.lower s.
Proof.
  unfold Py.lower, Py.upper. induction s as [|c s IH]; [reflexivity|].
  cbn [Py.map_str]. rewrite IH, to_lower_upper. reflexivity.
Qed.

(** X19. A paper length is converted by a factor that depends on the unit
    alone: when the unit is accepted the result is the value times the length
    of one unit, which is positive; otherwise the conversion raises
    [ValueError] whatever the value is.  Unit names are not case
    sensitive. *)
Theorem to_mm_linear (dpi : option Z) (value : Q) (unit : string) :
  match Scale._to_mm dpi 1 unit with
  | Ok f =>
      0 < f /\ exists x, Scale._to_mm dpi value unit = Ok x /\ x == value * f
  | Err e => e = ValueError /\ Scale._to_mm dpi value unit = Err ValueError
  end
  /\ Scale._to_mm dpi value (Py.upper unit) = Scale._to_mm dpi value unit.
Proof.
  split.
  - unfold Scale._to_mm.
    destruct (Py.mem (Py.lower unit) ["mm"; "millimeter"; "millimeters"]).
    { split; [reflexivity|]. eexists. split; [reflexivity | ring]. }
    destruct (Py.mem (Py.lower unit) ["cm"; "centimeter"; "centimeters"]).
    { split; [reflexivity|]. eexists. split; [reflexivity | ring]. }
    destruct (Py.mem (Py.lower unit) ["in"; "inch"; "inches"]).
    { split; [reflexivity|]. eexists. split; [reflexivity | ring]. }
    destruct (Py.mem (Py.lower unit) ["px"; "pixel"; "pixels"]); [|auto].
    destruct dpi as [d|]; [|auto].
    destruct (Z.leb_spec d 0) as [Hd|Hd]; [auto|].
    assert (Hq : 0 < inject_Z d).
    { change 0 with (inject_Z 0). rewrite <- Zlt_Qlt. exact Hd. }
    split.
    + apply Qlt_shift_div_l; [exact Hq|]. reflexivity.
    + eexists. split; [reflexivity|]. field. lra.
  - unfold Scale._to_mm. rewrite lower_upper. reflexivity.
Qed.

(** *** Small and large features *)

Lemma indices_where_spec (p : Q -> bool) (l : list Q) :
  forall (s i : nat),
    In i (Scale.indices_where p s l)
    <-> (s <= i)%nat /\ exists a, nth_error l (i - s) = Some a /\ p a = true.
Proof.
  induction l as [|a l IH]; intros s i.
  - cbn [Scale.indices_where]. split; [intros [] | intros (_ & a & H & _)].
    destruct (i - s)%nat; discriminate H.
  - cbn [Scale.indices_where].
    assert (Hrest : In i (Scale.indices_where p (S s) l)
                    <-> (s < i)%nat /\ exists b, nth_error (a :: l) (i - s) = Some b
                                                 /\ p b = true).
    { rewrite IH. split.
      - intros (Hs & b & Hb & Hp). split; [lia|]. exists b. split; [|exact Hp].
        replace (i - s)%nat with (S (i - S s)) by lia. exact Hb.
      - intros (Hs & b & Hb & Hp). split; [lia|]. exists b. split; [|exact Hp].
        replace (i - s)%nat with (S (i - S s)) in Hb by lia. exact Hb. }
    destruct (p a) eqn:Ea.
    + cbn [In]. rewrite Hrest. split.
      * intros [<- | (Hs & b & Hb & Hp)].
        -- split; [lia|]. exists a. rewrite Nat.sub_diag. auto.
        -- split; [lia|]. exists b. auto.
      * intros (Hs & b & Hb & Hp).
        destruct (Nat.eq_dec s i) as [E|E]; [left; exact E | right].
        split; [lia|]. exists b. auto.
    + rewrite Hrest. split.
      * intros (Hs & b & Hb & Hp). split; [lia|]. exists b. auto.
      * intros (Hs & b & Hb & Hp). split; [|exists b; auto].
        destruct (Nat.eq_dec s i) as [E|E]; [|lia]. subst i.
        rewrite Nat.sub_diag in Hb. cbn in Hb. congruence.
Qed.

(** X20. When consolidation splits the features, every feature of the
    frame is either small or large and never both: a position is in the small
    list exactly when its area is below the threshold and in the large list
    exactly when it is not, and there is at least one small feature. *)
Theorem cull_partition (self : Scale.Styler) (gdf : option Scale.GeoFrame)
        (min_area_mm2 thr : Q) (small big : list nat) (frame : string) :
  Scale.cull_small_parts_by_scale self gdf min_area_mm2
  = Ok (Scale.Partition thr small big frame) ->
  exists g : Scale.GeoFrame,
    gdf = Some g
    /\ small <> []
    /\ (forall i a, nth_error (fst (Scale._area_series self g)) i = Some a ->
          (In i small <-> a < thr) /\ (In i big <-> thr <= a)
          /\ (In i small \/ In i big) /\ ~ (In i small /\ In i big))
    /\ (forall i, In i small \/ In i big ->
          (i < List.length (fst (Scale._area_series self g)))%nat).
Proof.
  intros H. unfold Scale.cull_small_parts_by_scale in H.
  destruct (Scale.width_to_scale _ _ _ _ _ _ _ _ _ _) as [[N meta]|]; [|discriminate H].
  cbn [bind] in H.
  destruct gdf as [g|]; [|discriminate H].
  destruct (negb (Scale.has_rows g)); [discriminate H|].
  destruct (negb (Scale.has_geometry g)); [discriminate H|].
  destruct (Scale._area_series self g) as [area_s ameta] eqn:Ea.
  destruct (Py.startswith _ "no_crs" || Py.startswith _ "fallback"); [discriminate H|].
  destruct (Scale.indices_where _ 0 area_s) as [|i0 rest] eqn:Es; [discriminate H|].
  apply ok_inj in H. injection H as Hthr Hsmall Hbig _.
  exists g. rewrite Ea. split; [reflexivity|]. split; [rewrite <- Hsmall; discriminate|].
  cbn [fst].
  assert (Hs : forall i, In i small
                 <-> exists a, nth_error area_s i = Some a
                               /\ negb (Qle_bool thr a) = true).
  { intros i. rewrite <- Hsmall, <- Es, <- Hthr, indices_where_spec, Nat.sub_0_r.
    split; [intros (_ & H); exact H | intros H; split; [lia | exact H]]. }
  assert (Hb : forall i, In i big
                 <-> exists a, nth_error area_s i = Some a /\ Qle_bool thr a = true).
  { intros i. rewrite <- Hbig, <- Hthr, indices_where_spec, Nat.sub_0_r.
    split; [intros (_ & H); exact H | intros H; split; [lia | exact H]]. }
  split.
  - intros i a Hi.
    assert (S1 : In i small <-> a < thr).
    { rewrite Hs. split.
      - intros (a' & Ha' & Hp). rewrite Hi in Ha'. injection Ha' as <-.
        apply negb_true_iff in Hp. apply Qle_bool_false. exact Hp.
      - intros Hlt. exists a. split; [exact Hi|]. apply negb_true_iff.
        apply not_true_is_false. intros Hle. apply Qle_bool_iff in Hle. lra. }
    assert (S2 : In i big <-> thr <= a).
    { rewrite Hb. split.
      - intros (a' & Ha' & Hp). rewrite Hi in Ha'. injection Ha' as <-.
        apply Qle_bool_iff. exact Hp.
      - intros Hle. exists a. split; [exact Hi|]. apply Qle_bool_iff. exact Hle. }
    split; [exact S1|]. split; [exact S2|]. rewrite S1, S2. split.
    + destruct (Qlt_le_dec a thr); auto.
    + intros [A B]. lra.
  - intros i [Hi | Hi]; [apply Hs in Hi | apply Hb in Hi];
      destruct Hi as (a & Ha & _); apply nth_error_Some; congruence.
Qed.

Lemma cull_partition_witness :
  let thr := ((inject_Z 200000 * (1 # 1000)) ^ 2 * 1)%Q in
  Scale.cull_small_parts_by_scale Scale.scenario_styler (Some Scale.utm_frame) 1
  = Ok (Scale.Partition thr [0%nat] [1%nat] "EPSG:31983")
  /\ [0%nat] <> []
  /\ (In 0%nat [0%nat] <-> 100 < thr).
Proof.
  intros thr.
  assert (H : Scale.cull_small_parts_by_scale Scale.scenario_styler (Some Scale.utm_frame) 1
              = Ok (Scale.Partition thr [0%nat] [1%nat] "EPSG:31983"))
    by (vm_compute; reflexivity).
  split; [exact H|].
  destruct (cull_partition _ _ _ _ _ _ _ H) as (g & Hg & Hne & Hpart & _).
  split; [exact Hne|].
  injection Hg as <-.
  exact (proj1 (Hpart 0%nat 100 eq_refl)).
Defined.

(** ** Age colours *)

Lemma dict_set_keys (d : list (string * string)) (k v : string) :
  map fst (AgeColor.dict_set d k v)
  = if in_dec String.string_dec k (map fst d) then map fst d
    else (map fst d ++ [k])%list.
Proof.
  induction d as [|[k0 v0] d IH]; cbn [AgeColor.dict_set map fst].
  - reflexivity.
  - destruct (String.eqb k0 k) eqn:E.
    + apply String.eqb_eq in E. subst k0. cbn [map fst].
      destruct (in_dec String.string_dec k (k :: map fst d)) as [_|n];
        [reflexivity | exfalso; apply n; left; reflexivity].
    + apply String.eqb_neq in E. cbn [map fst]. rewrite IH.
      destruct (in_dec String.string_dec k (map fst d)) as [i|n];
        destruct (in_dec String.string_dec k (k0 :: map fst d)) as [i'|n'];
        try reflexivity.
      * exfalso. apply n'. right. exact i.
      * exfalso. destruct i' as [H|H]; [congruence | contradiction].
Qed.

Lemma dict_set_in (d : list (string * string)) (k v k1 v1 : string) :
  In (k1, v1) (AgeColor.dict_set d k v) ->
  (k1 = k /\ v1 = v) \/ In (k1, v1) d.
Proof.
  induction d as [|[k0 v0] d IH]; cbn [AgeColor.dict_set].
  - intros [H|[]]. left. split; congruence.
  - destruct (String.eqb k0 k) eqn:E.
    + apply String.eqb_eq in E. subst k0. intros [H|H].
      * left. split; congruence.
      * right. right. exact H.
    + intros [H|H]; [right; left; exact H|].
      destruct (IH H) as [H'|H']; [left; exact H' | right; right; exact H'].
Qed.

(** The invariant of the two loops of [_flatten_idade_code_map]. *)
Lemma flatten_cfg_inv (P : string -> string -> Prop) (flat : list (string * string))
      (cfg : AgeColor.Cfg) :
  NoDup (map fst flat) ->
  (forall k v, In (k, v) flat -> k <> "" /\ Py.upper k = k /\ P k v) ->
  (Py.upper (AgeColor.cfg_code cfg) <> "" ->
   P (Py.upper (AgeColor.cfg_code cfg)) (AgeColor.cfg_color cfg)) ->
  NoDup (map fst (AgeColor.flatten_cfg flat cfg))
  /\ (forall k v, In (k, v) (AgeColor.flatten_cfg flat cfg) ->
        k <> "" /\ Py.upper k = k /\ P k v).
Proof.
  intros Hnd Hall Hcfg. unfold AgeColor.flatten_cfg.
  destruct (Py.truthy (Py.upper (AgeColor.cfg_code cfg))) eqn:T; cbn [negb];
    [|split; assumption].
  apply truthy_true in T.
  set (code := Py.upper (AgeColor.cfg_code cfg)) in *.
  assert (Hup : Py.upper code = code).
  { unfold code, Py.upper. clear.
    induction (AgeColor.cfg_code cfg) as [|c s IH]; [reflexivity|].
    cbn [Py.map_str]. rewrite IH. f_equal.
    destruct c as [[] [] [] [] [] [] [] []]; vm_compute; reflexivity. }
  assert (Hsame : (if String.eqb (Py.lower code) "c_cortado" || String.eqb code "C_CORTADO"
                   then "C_CORTADO" else code) = code).
  { destruct (String.eqb code "C_CORTADO") eqn:E2.
    - apply String.eqb_eq in E2. rewrite orb_true_r. symmetry. exact E2.
    - rewrite orb_false_r.
      destruct (String.eqb (Py.lower code) "c_cortado") eqn:E1; [|reflexivity].
      apply String.eqb_eq in E1.
      rewrite <- Hup, <- upper_lower, E1. reflexivity. }
  rewrite Hsame. split.
  - rewrite dict_set_keys.
    destruct (in_dec String.string_dec code (map fst flat)) as [i|n]; [exact Hnd|].
    apply NoDup_app; [exact Hnd | repeat constructor; simpl; tauto |].
    intros a Ha [H|[]]. subst a. contradiction.
  - intros k v Hin. destruct (dict_set_in _ _ _ _ _ Hin) as [[-> ->] | H].
    + split; [exact T|]. split; [exact Hup | apply Hcfg; exact T].
    + apply Hall. exact H.
Qed.

(** X21. The flat age table has distinct, non-empty, upper-case codes, and
    each of its colours is the colour of an entry of the rich table whose
    upper-cased code is the key: entries without a code are skipped and
    nothing else is added. *)
Theorem flatten_idade_code_map_spec (rich : list (string * list (string * AgeColor.Cfg))) :
  let flat := AgeColor._flatten_idade_code_map rich in
  NoDup (map fst flat)
  /\ forall k v, In (k, v) flat ->
       k <> "" /\ Py.upper k = k
       /\ exists era name cfg sub,
            In (era, sub) rich /\ In (name, cfg) sub
            /\ Py.upper (AgeColor.cfg_code cfg) = k /\ AgeColor.cfg_color cfg = v.
Proof.
  intros flat. unfold flat, AgeColor._flatten_idade_code_map.
  set (P := fun (r : list (string * list (string * AgeColor.Cfg))) (k v : string) =>
              exists era name cfg sub,
                In (era, sub) r /\ In (name, cfg) sub
                /\ Py.upper (AgeColor.cfg_code cfg) = k /\ AgeColor.cfg_color cfg = v).
  assert (G : forall (todo done : list (string * list (string * AgeColor.Cfg)))
                     (acc : list (string * string)),
             NoDup (map fst acc) ->
             (forall k v, In (k, v) acc -> k <> "" /\ Py.upper k = k /\ P done k v) ->
             let out := fold_left
                          (fun flat sub =>
                             fold_left (fun flat nc => AgeColor.flatten_cfg flat (snd nc))
                                       (snd sub) flat) todo acc in
             NoDup (map fst out)
             /\ (forall k v, In (k, v) out ->
                   k <> "" /\ Py.upper k = k /\ P (done ++ todo)%list k v)).
  { induction todo as [|[era sub] todo IH]; intros done acc Hnd Hall.
    - cbn [fold_left]. rewrite app_nil_r. split; assumption.
    - cbn [fold_left snd].
      assert (Inner : forall (l seen : list (string * AgeColor.Cfg)) (a : list (string * string)),
                 NoDup (map fst a) ->
                 (forall k v, In (k, v) a ->
                    k <> "" /\ Py.upper k = k /\ P (done ++ [(era, seen)])%list k v) ->
                 let o := fold_left (fun flat nc => AgeColor.flatten_cfg flat (snd nc)) l a in
                 NoDup (map fst o)
                 /\ (forall k v, In (k, v) o ->
                       k <> "" /\ Py.upper k = k
                       /\ P (done ++ [(era, (seen ++ l)%list)])%list k v)).
      { induction l as [|[name cfg] l IHl]; intros seen a Hnda Halla.
        - cbn [fold_left]. rewrite app_nil_r. split; assumption.
        - cbn [fold_left snd].
          assert (Hmono : forall k v,
                     P (done ++ [(era, seen)])%list k v ->
                     P (done ++ [(era, (seen ++ [(name, cfg)])%list)])%list k v).
          { intros k v (e & n & c & s & H1 & H2 & H3 & H4).
            apply in_app_iff in H1 as [H1|[H1|[]]].
            - exists e, n, c, s. split; [apply in_app_iff; left; exact H1|]. auto.
            - injection H1 as <- <-.
              exists era, n, c, (seen ++ [(name, cfg)])%list.
              split; [apply in_app_iff; right; left; reflexivity|].
              split; [apply in_app_iff; left; exact H2|]. auto. }
          destruct (flatten_cfg_inv
                      (P (done ++ [(era, (seen ++ [(name, cfg)])%list)])%list) a cfg Hnda)
            as [N1 A1].
          + intros k v Hin. destruct (Halla k v Hin) as (X & Y & Z).
            split; [exact X|]. split; [exact Y|]. apply Hmono. exact Z.
          + intros _. exists era, name, cfg, (seen ++ [(name, cfg)])%list.
            split; [apply in_app_iff; right; left; reflexivity|].
            split; [apply in_app_iff; right; left; reflexivity|]. auto.
          + specialize (IHl (seen ++ [(name, cfg)])%list _ N1 A1).
            rewrite <- app_assoc in IHl. exact IHl. }
      destruct (Inner sub [] acc Hnd) as [N1 A1].
      + intros k v Hin. destruct (Hall k v Hin) as (X & Y & (e & n & c & s & H1 & H2 & H3)).
        split; [exact X|]. split; [exact Y|].
        exists e, n, c, s. split; [apply in_app_iff; left; exact H1|]. auto.
      + cbn [app] in A1.
        specialize (IH (done ++ [(era, sub)])%list _ N1 A1).
        rewrite <- app_assoc in IH. exact IH. }
  destruct (G rich [] [] ltac:(constructor) ltac:(intros k v [])) as [N A].
  split; [exact N|]. intros k v Hin. destruct (A k v Hin) as (X & Y & Z).
  split; [exact X|]. split; [exact Y|]. exact Z.
Qed.

Lemma flatten_idade_code_map_spec_witness :
  In ("C_CORTADO", "#33CCCC")
     (AgeColor._flatten_idade_code_map AgeColor.default_idade_code_map)
  /\ Py.upper "C_CORTADO" = "C_CORTADO"
  /\ NoDup (map fst (AgeColor._flatten_idade_code_map AgeColor.default_idade_code_map)).
Proof.
  assert (Hin : In ("C_CORTADO", "#33CCCC")
                   (AgeColor._flatten_idade_code_map AgeColor.default_idade_code_map)).
  { vm_compute. do 9 right. left. reflexivity. }
  destruct (flatten_idade_code_map_spec AgeColor.default_idade_code_map) as [Hnd Hall].
  destruct (Hall "C_CORTADO" "#33CCCC" Hin) as (_ & Hup & _).
  split; [exact Hin|]. split; [exact Hup | exact Hnd].
Defined.

Lemma insert_by_len_in (x y : string) (l : list string) :
  In y (AgeColor.insert_by_len x l) <-> y = x \/ In y l.
Proof.
  induction l as [|z l IH]; cbn [AgeColor.insert_by_len].
  - simpl. intuition.
  - destruct (String.length z <=? String.length x)%nat.
    + simpl. intuition.
    + cbn [In]. rewrite IH. intuition.
Qed.

Lemma sorted_by_len_in (y : string) (l : list string) :
  In y (AgeColor.sorted_by_len l) <-> In y l.
Proof.
  unfold AgeColor.sorted_by_len. induction l as [|x l IH]; cbn [fold_right]; [tauto|].
  rewrite insert_by_len_in, IH. simpl. intuition.
Qed.

(** Longest first: every token is at least as long as those after it. *)
Lemma sorted_by_len_desc (l : list string) :
  StronglySorted (fun a b => (String.length b <= String.length a)%nat)
                 (AgeColor.sorted_by_len l).
Proof.
  unfold AgeColor.sorted_by_len. induction l as [|x l IH]; cbn [fold_right];
    [constructor|].
  set (s := fold_right AgeColor.insert_by_len [] l) in *. clearbody s.
  induction IH as [|z s Hs IHs Hz]; cbn [AgeColor.insert_by_len].
  - repeat constructor.
  - destruct (Nat.leb_spec (String.length z) (String.length x)) as [Hle|Hgt].
    + constructor; [constructor; assumption|].
      constructor; [exact Hle|].
      rewrite Forall_forall in Hz |- *. intros y Hy. specialize (Hz y Hy). lia.
    + constructor; [exact IHs|].
      rewrite Forall_forall in Hz |- *. intros y Hy.
      apply insert_by_len_in in Hy as [-> | Hy]; [lia | exact (Hz y Hy)].
Qed.

Lemma dict_get_key (t : string) (d : list (string * string)) :
  In t (map fst d) -> exists c, Sigla.dict_get t d = Some c /\ In (t, c) d.
Proof.
  induction d as [|[k v] d IH]; cbn [map fst In Sigla.dict_get]; [intros []|].
  intros H. destruct (String.eqb t k) eqn:E.
  - apply String.eqb_eq in E. subst k. exists v. auto.
  - destruct H as [H|H]; [subst k; rewrite String.eqb_refl in E; discriminate E|].
    destruct (IH H) as (c & Hc & Hin). exists c. auto.
Qed.

Lemma dict_get_some_key (t c : string) (d : list (string * string)) :
  Sigla.dict_get t d = Some c -> In t (map fst d).
Proof.
  induction d as [|[k v] d IH]; cbn [map fst In Sigla.dict_get]; [discriminate|].
  destruct (String.eqb t k) eqn:E.
  - apply String.eqb_eq in E. auto.
  - intros H. right. exact (IH H).
Qed.

(** The first loop over tokens sorted longest first. *)
Lemma first_match_spec (code : string) (flat : list (string * string)) :
  forall tokens : list string,
    StronglySorted (fun a b => (String.length b <= String.length a)%nat) tokens ->
    (forall t, In t tokens -> In t (map fst flat)) ->
    match AgeColor.first_match code tokens flat with
    | None => forall t, In t tokens -> AgeColor.token_matches code t = false
    | Some r =>
        exists t c,
          r = Ok c /\ In t tokens /\ Sigla.dict_get t flat = Some c
          /\ AgeColor.token_matches code t = true
          /\ forall t', In t' tokens -> AgeColor.token_matches code t' = true ->
                        (String.length t' <= String.length t)%nat
    end.
Proof.
  induction tokens as [|t ts IH]; intros Hs Hk; cbn [AgeColor.first_match].
  - intros t [].
  - inversion Hs as [|? ? Hs' Ht]; subst.
    destruct (AgeColor.token_matches code t) eqn:M.
    + destruct (dict_get_key t flat (Hk t (or_introl eq_refl))) as (c & Hc & _).
      exists t, c. unfold AgeColor.dict_item. rewrite Hc.
      split; [reflexivity|]. split; [left; reflexivity|]. split; [reflexivity|].
      split; [exact M|].
      intros t' [<- | Ht'] _; [lia|].
      rewrite Forall_forall in Ht. exact (Ht t' Ht').
    + specialize (IH Hs' (fun t' H => Hk t' (or_intror H))).
      destruct (AgeColor.first_match code ts flat) as [r|].
      * destruct IH as (t0 & c & Hr & Hin & Hc & Hm & Hlen).
        exists t0, c. split; [exact Hr|]. split; [right; exact Hin|].
        split; [exact Hc|]. split; [exact Hm|].
        intros t' [<- | Ht'] Hm'; [congruence | exact (Hlen t' Ht' Hm')].
      * intros t' [<- | Ht']; [exact M | exact (IH t' Ht')].
Qed.

(** The second loop finds nothing that the first loop has not found. *)
Lemma fallback_dead (code : string) (flat : list (string * string)) :
  (forall t, In t (map fst flat) -> AgeColor.token_matches code t = false) ->
  AgeColor.fallback_match code AgeColor.FALLBACK flat = None.
Proof.
  intros H.
  assert (G : forall ts, Forall (fun t => t <> "P" /\ t <> "C_CORTADO") ts ->
                         AgeColor.fallback_match code ts flat = None).
  { induction ts as [|t ts IH]; intros Hts; [reflexivity|].
    inversion Hts as [|? ? [H1 H2] Hrest]; subst.
    cbn [AgeColor.fallback_match].
    destruct (Sigla.dict_get t flat) as [c|] eqn:E; [|exact (IH Hrest)].
    specialize (H t (dict_get_some_key t c flat E)).
    unfold AgeColor.token_matches in H.
    apply String.eqb_neq in H1. apply String.eqb_neq in H2.
    rewrite H1, H2 in H. rewrite H. exact (IH Hrest). }
  apply G. unfold AgeColor.FALLBACK.
  repeat constructor; discriminate.
Qed.

(** X22. [_find_idade_color] never raises.  It returns the colour of a
    token of the flat table that matches the upper-cased code and is as long
    as any token that matches, or the empty string when no token matches; the
    second loop over the fixed list of codes is reached only when it finds
    nothing. *)
Theorem find_idade_color_spec (idade_code : string) (flat : list (string * string)) :
  let code := Py.upper idade_code in
  exists c : string,
    AgeColor._find_idade_color idade_code flat = Ok c
    /\ (AgeColor.first_match code (AgeColor.sorted_by_len (map fst flat)) flat = None
        -> AgeColor.fallback_match code AgeColor.FALLBACK flat = None)
    /\ ((c = "" /\ forall t, In t (map fst flat) -> AgeColor.token_matches code t = false)
        \/ exists t,
             Sigla.dict_get t flat = Some c
             /\ AgeColor.token_matches code t = true
             /\ forall t', In t' (map fst flat) -> AgeColor.token_matches code t' = true ->
                           (String.length t' <= String.length t)%nat).
Proof.
  intros code. unfold AgeColor._find_idade_color. fold code.
  pose proof (first_match_spec code flat (AgeColor.sorted_by_len (map fst flat))
                (sorted_by_len_desc _)
                (fun t H => proj1 (sorted_by_len_in t _) H)) as H.
  destruct (AgeColor.first_match code _ flat) as [r|].
  - destruct H as (t & c & Hr & Hin & Hc & Hm & Hlen). subst r.
    exists c. split; [reflexivity|]. split; [discriminate|]. right. exists t.
    split; [exact Hc|]. split; [exact Hm|].
    intros t' Ht'. apply Hlen. apply sorted_by_len_in. exact Ht'.
  - assert (Hnone : forall t, In t (map fst flat) ->
                              AgeColor.token_matches code t = false).
    { intros t Ht. apply H. apply sorted_by_len_in. exact Ht. }
    rewrite (fallback_dead code flat Hnone).
    exists "". split; [reflexivity|]. split; [reflexivity|].
    left. split; [reflexivity | exact Hnone].
Qed.

Lemma find_idade_color_spec_witness :
  exists c : string,
    AgeColor._find_idade_color "NP3b"
      (AgeColor._flatten_idade_code_map AgeColor.default_idade_code_map) = Ok c
    /\ (AgeColor.first_match (Py.upper "NP3b")
          (AgeColor.sorted_by_len
             (map fst (AgeColor._flatten_idade_code_map AgeColor.default_idade_code_map)))
          (AgeColor._flatten_idade_code_map AgeColor.default_idade_code_map) = None
        -> AgeColor.fallback_match (Py.upper "NP3b") AgeColor.FALLBACK
             (AgeColor._flatten_idade_code_map AgeColor.default_idade_code_map) = None).
Proof.
  destruct (find_idade_color_spec "NP3b"
              (AgeColor._flatten_idade_code_map AgeColor.default_idade_code_map))
    as (c & Hc & Hdead & _).
  exists c. split; assumption.
Defined.

(** The colours of the default table for some codes of the parser. *)
Example default_age_colors :
  let flat := AgeColor._flatten_idade_code_map AgeColor.default_idade_code_map in
  AgeColor._find_idade_color "NP3" flat = Ok "#CD5C5C"
  /\ AgeColor._find_idade_color "NP3C_CORTADO_" flat = Ok "#33CCCC"
  /\ AgeColor._find_idade_color "PG" flat = Ok "#FFFF66"
  /\ AgeColor._find_idade_color "P12" flat = Ok "#E6E6E6"
  /\ AgeColor._find_idade_color "X9" flat = Ok "".
Proof. vm_compute. repeat split; reflexivity. Qed.

(** ** QML colours *)

Lemma findall_digits_run (d : string) :
  forall (cur : string) (sep : ascii) (t : string),
    Py.all_str Py.is_digit d = true -> Py.is_digit sep = false ->
    Py.truthy (cur ++ d) = true ->
    Qml.findall_digits cur (d ++ String sep t) = (cur ++ d) :: Qml.findall_digits "" t.
Proof.
  induction d as [|c d IH]; intros cur sep t Hd Hsep Hne.
  - cbn [append Qml.findall_digits]. rewrite Hsep.
    rewrite app_empty_r in Hne |- *. rewrite Hne. reflexivity.
  - cbn [Py.all_str] in Hd. apply andb_true_iff in Hd as [Hc Hd].
    change (String c d ++ String sep t) with (String c (d ++ String sep t)).
    cbn [Qml.findall_digits]. rewrite Hc.
    assert (E : cur ++ String c d = (cur ++ String c "") ++ d).
    { clear. induction cur as [|x cur IH]; [reflexivity|].
      cbn [append]. rewrite IH. reflexivity. }
    rewrite E. apply IH; [exact Hd | exact Hsep |]. rewrite <- E. exact Hne.
Qed.

Lemma channels_print : forallb Qml.channel_prints (map Z.of_nat (seq 0 256)) = true.
Proof. vm_compute. reflexivity. Qed.

Lemma channel_prints_ok (v : Z) :
  (0 <= v <= 255)%Z ->
  Py.truthy (Qml.str_of_Z v) = true
  /\ Py.all_str Py.is_digit (Qml.str_of_Z v) = true
  /\ Qml.int10 (Qml.str_of_Z v) = v.
Proof.
  intros Hv. pose proof channels_print as H. rewrite forallb_forall in H.
  assert (Hin : In v (map Z.of_nat (seq 0 256))).
  { apply in_map_iff. exists (Z.to_nat v). split; [lia|]. apply in_seq. lia. }
  specialize (H v Hin). unfold Qml.channel_prints in H.
  apply andb_true_iff in H as [H H3]. apply andb_true_iff in H as [H1 H2].
  apply Z.eqb_eq in H3. auto.
Qed.

(** X23. The colour that [_hex_to_rgba] writes into a style file is read
    back by [_rgba_to_hex] as the colour it came from: for a canonical colour
    and any alpha value the conversion does not raise, and reading its result
    gives the colour again. *)
Theorem rgba_round_trip (c : string) (a : Z) :
  Color.is_canonical c = true ->
  exists s : string, Qml._hex_to_rgba c a = Ok s /\ Qml._rgba_to_hex s = c.
Proof.
  intros C. destruct (canonical_parse c C) as (r & g & b & P & R & G & B & W).
  unfold Color._hex_to_rgb in P. unfold Qml._hex_to_rgba.
  destruct (Color.int16 (Py.slice 0 2 _)) as [r'|] eqn:E1; [|discriminate P].
  cbn [bind] in P |- *.
  destruct (Color.int16 (Py.slice 2 4 _)) as [g'|] eqn:E2; [|discriminate P].
  cbn [bind] in P |- *.
  destruct (Color.int16 (Py.slice 4 6 _)) as [b'|] eqn:E3; [|discriminate P].
  cbn [bind] in P |- *.
  apply ok_inj in P. injection P as -> -> ->.
  eexists. split; [reflexivity|].
  destruct (channel_prints_ok r R) as (R1 & R2 & R3).
  destruct (channel_prints_ok g G) as (G1 & G2 & G3).
  destruct (channel_prints_ok b B) as (B1 & B2 & B3).
  unfold Qml._rgba_to_hex.
  change ("," ++ ?x) with (String "," x).
  rewrite (findall_digits_run (Qml.str_of_Z r) "" "," _ R2 eq_refl R1).
  change ("," ++ ?x) with (String "," x).
  rewrite (findall_digits_run (Qml.str_of_Z g) "" "," _ G2 eq_refl G1).
  change ("," ++ ?x) with (String "," x).
  rewrite (findall_digits_run (Qml.str_of_Z b) "" "," _ B2 eq_refl B1).
  cbn [append]. rewrite R3, G3, B3. exact W.
Qed.

Lemma rgba_round_trip_witness :
  Color.is_canonical "#33CCCC" = true
  /\ Qml._hex_to_rgba "#33CCCC" 255 = Ok "51,204,204,255"
  /\ exists s : string, Qml._hex_to_rgba "#33CCCC" 255 = Ok s
                        /\ Qml._rgba_to_hex s = "#33CCCC".
Proof.
  split; [reflexivity|]. split; [reflexivity|].
  apply rgba_round_trip. reflexivity.
Defined.

(** ** Grid steps of the plots *)

Lemma Qle_bool_div (c raw P : Q) :
  0 < P -> Qle_bool c (raw / P) = Qle_bool (c * P) raw.
Proof.
  intros HP.
  destruct (Qle_bool (c * P) raw) eqn:E.
  - apply Qle_bool_iff in E. apply Qle_bool_iff.
    apply Qle_shift_div_l; assumption.
  - apply Qle_bool_false in E. apply not_true_is_false. intros H.
    apply Qle_bool_iff in H.
    assert (H' : c * P <= raw).
    { assert (Er : raw == raw / P * P) by (field; lra).
      rewrite Er. apply Qmult_le_compat_r; [exact H | lra]. }
    lra.
Qed.

(** X24. For a positive span, the grid step is 1, 2, 5 or 10 times a power
    of ten, and it lies between two thirds and five thirds of the raw step
    span / max(target, 1): the span is covered by more than 0.6 and at most
    1.5 times the requested number of intervals. *)
Theorem nice_step_spec (span target : Q) :
  0 < span ->
  let step := Plot._nice_step (Scale.Finite span) target in
  let raw := span / Scale.qmax target 1 in
  (exists (m : Q) (k : Z), In m [1; 2; 5; 10] /\ step = m * Scale.pow10 k)
  /\ (2 # 3) * raw < step /\ step <= (5 # 3) * raw.
Proof.
  intros Hspan step raw.
  assert (Ht : 0 < Scale.qmax target 1).
  { unfold Scale.qmax. destruct (Qle_bool target 1) eqn:E; [reflexivity|].
    apply Qle_bool_false in E. lra. }
  assert (Hraw : 0 < raw) by (apply Qdiv_pos; assumption).
  unfold step, Plot._nice_step.
  assert (H0 : Qle_bool span 0 = false).
  { apply not_true_is_false. intros H. apply Qle_bool_iff in H. lra. }
  rewrite H0. fold raw.
  destruct (decade_spec raw Hraw) as [D1 D2].
  set (k := Scale.decade raw) in *.
  pose proof (pow10_pos k) as HP. rewrite pow10_succ in D2.
  rewrite !(Qle_bool_div _ raw _ HP).
  set (P := Scale.pow10 k) in *.
  destruct (Qle_bool ((3 # 2) * P) raw) eqn:E1; cbn [negb].
  2:{ apply Qle_bool_false in E1.
      split; [exists 1, k; split; [simpl; auto | reflexivity]|]. split; lra. }
  apply Qle_bool_iff in E1.
  destruct (Qle_bool (3 * P) raw) eqn:E2; cbn [negb].
  2:{ apply Qle_bool_false in E2.
      split; [exists 2, k; split; [simpl; auto | reflexivity]|]. split; lra. }
  apply Qle_bool_iff in E2.
  destruct (Qle_bool (7 * P) raw) eqn:E3; cbn [negb].
  2:{ apply Qle_bool_false in E3.
      split; [exists 5, k; split; [simpl; auto | reflexivity]|]. split; lra. }
  apply Qle_bool_iff in E3.
  split; [exists 10, k; split; [simpl; auto | reflexivity]|]. split; lra.
Qed.

Lemma nice_step_spec_witness :
  0 < 130000
  /\ Plot._nice_step (Scale.Finite 130000) 5 == 20000
  /\ (2 # 3) * (130000 / Scale.qmax 5 1) < Plot._nice_step (Scale.Finite 130000) 5.
Proof.
  split; [reflexivity|]. split; [vm_compute; reflexivity|].
  exact (proj1 (proj2 (nice_step_spec 130000 5 eq_refl))).
Defined.

(** ** The legend's blocks and the macro-era of the code *)

Lemma to_upper_idem (c : ascii) : Py.to_upper (Py.to_upper c) = Py.to_upper c.
Proof.
  destruct c as [[] [] [] [] [] [] [] []]; vm_compute; reflexivity.
Qed.

Lemma upper_idem (s : string) : Py.upper (Py.upper s) = Py.upper s.
Proof.
  unfold Py.upper. induction s as [|c s IH]; [reflexivity|].
  cbn [Py.map_str]. rewrite IH, to_upper_idem. reflexivity.
Qed.

Lemma prefix_cons (a b : ascii) (p s : string) :
  String.prefix (String a p) (String b s) = Ascii.eqb b a && String.prefix p s.
Proof.
  cbn [String.prefix]. destruct (Ascii.ascii_dec a b) as [e|n].
  - subst b. rewrite Ascii.eqb_refl. reflexivity.
  - assert (E : Ascii.eqb b a = false) by (apply Ascii.eqb_neq; congruence).
    rewrite E. reflexivity.
Qed.

Lemma prefix_nil (a : ascii) (p : string) : String.prefix (String a p) "" = false.
Proof. reflexivity. Qed.

(** Case analysis on the first letters of a code: every test on a letter
    is decided, and the letter replaced where the test holds. *)
Ltac first_letters :=
  repeat (cbn [andb orb negb existsb];
          match goal with
          | |- context [Ascii.eqb ?a ?b] =>
              first
                [ is_var a;
                  let E := fresh "E" in
                  destruct (Ascii.eqb a b) eqn:E;
                  [apply Ascii.eqb_eq in E; subst a|]
                | let v := eval vm_compute in (Ascii.eqb a b) in
                  change (Ascii.eqb a b) with v ]
          end).

(** X25. The block in which the simplified legend files a group and the
    macro-era that [classify] derives from the same age code: they agree
    except in two cases.  A code that contains "C_CORTADO" is Paleozoic for
    [classify] wherever the marker stands, and a code that starts with PG, PL
    or PE (without the marker) is Cenozoic for [classify] but is filed under
    the Paleozoic by the legend, whose test for a single P comes first. *)
Theorem legend_block_vs_macro (idade_code : string) :
  let u := Py.upper idade_code in
  if Py.contains "C_CORTADO" u
  then Sigla._macro_from_idade_code_simple idade_code = Sigla.PALEOZOICO
  else if Sigla.starts_any u ["PG"; "PL"; "PE"]
  then Sigla._macro_from_idade_code_simple idade_code = Sigla.CENOZOICO
       /\ Legend._submacro_from_idade_code idade_code
          = Some (Legend.FANERO, "Paleozoico")
  else Legend.macro_of_block (Legend._submacro_from_idade_code idade_code)
       = Sigla._macro_from_idade_code_simple idade_code.
Proof.
  intros u.
  unfold Legend._submacro_from_idade_code, Sigla._macro_from_idade_code_simple.
  rewrite upper_idem. fold u. generalize u. clear u idade_code. intros u.
  destruct (Py.contains "C_CORTADO" u); [reflexivity|].
  unfold Sigla.starts_any, Py.startswith, Sigla.starts_not_doubled.
  destruct u as [|c1 [|c2 t]]; [reflexivity | |];
    cbn [existsb];
    repeat (rewrite prefix_cons || rewrite prefix_empty || rewrite prefix_nil);
    first_letters;
    first [ reflexivity | split; reflexivity | discriminate ].
Qed.

(** A Neoproterozoic-Cambrian interface code, and a Paleogene code. *)
Example legend_blocks_apart :
  Sigla._macro_from_idade_code_simple "NP3C_CORTADO_" = Sigla.PALEOZOICO
  /\ Legend._submacro_from_idade_code "NP3C_CORTADO_" = Some (Legend.PRE, "Proterozoico")
  /\ Sigla._macro_from_idade_code_simple "PG" = Sigla.CENOZOICO
  /\ Legend._submacro_from_idade_code "PG" = Some (Legend.FANERO, "Paleozoico").
Proof. repeat split; reflexivity. Qed.

(** ** Consolidation: choosing the target of a small feature *)

Section SelectFacts.

Variable intersects : nat -> result bool.
Variable distance : nat -> result Q.
Variable big_area : nat -> Q.
Variable s_idx : nat.


Lemma touch_step_inv (seen : list nat) (st : option nat * Q * bool) (t : nat) :
  - (1) < big_area t ->
  (Consolidate.touch_inv intersects big_area s_idx) seen st ->
  (Consolidate.touch_inv intersects big_area s_idx) (seen ++ [t]) (Consolidate.touch_step intersects big_area s_idx st t).
Proof.
  intros Hpos. destruct st as [[bt ba] found]. unfold Consolidate.touch_inv, Consolidate.touch_step.
  assert (Hkeep : forall P : nat -> Prop,
             (forall t', In t' seen -> P t') -> P t ->
             forall t', In t' (seen ++ [t]) -> P t').
  { intros P H1 H2 t' Hin. apply in_app_iff in Hin as [Hin|[<-|[]]]; auto. }
  destruct (Nat.eqb_spec s_idx t) as [Heq|Hne].
  { (* the feature itself: skipped *)
    destruct found.
    - intros (t0 & Hb & Hin & Ht & Ha & Hmax). exists t0.
      split; [exact Hb|]. split; [apply in_app_iff; left; exact Hin|].
      split; [exact Ht|]. split; [exact Ha|].
      intros t' Hin' Ht'. apply in_app_iff in Hin' as [Hin'|[<-|[]]]; [auto|].
      destruct Ht' as [Hn _]. congruence.
    - intros (Hb & Ha & Hnone). split; [exact Hb|]. split; [exact Ha|].
      apply Hkeep; [exact Hnone|]. intros [Hn _]. congruence. }
  destruct (intersects t) as [[|]|e] eqn:Ei.
  - (* it intersects *)
    assert (Ht : (Consolidate.touching intersects s_idx) t) by (split; [congruence | exact Ei]).
    destruct (Qle_bool (big_area t) ba) eqn:Ec; cbn [negb].
    + apply Qle_bool_iff in Ec. destruct found.
      * intros (t0 & Hb & Hin & Ht0 & Ha & Hmax). exists t0.
        split; [exact Hb|]. split; [apply in_app_iff; left; exact Hin|].
        split; [exact Ht0|]. split; [exact Ha|].
        intros t' Hin' Ht'. apply in_app_iff in Hin' as [Hin'|[<-|[]]]; auto.
      * intros (_ & Ha & _). subst ba. exfalso. lra.
    + apply Qle_bool_false in Ec. exists t.
      split; [reflexivity|]. split; [apply in_app_iff; right; left; reflexivity|].
      split; [exact Ht|]. split; [reflexivity|].
      intros t' Hin' Ht'. apply in_app_iff in Hin' as [Hin'|[<-|[]]]; [|apply Qle_refl].
      destruct found.
      * destruct H as (t0 & _ & _ & _ & _ & Hmax). specialize (Hmax t' Hin' Ht'). lra.
      * destruct H as (_ & _ & Hnone). exfalso. exact (Hnone t' Hin' Ht').
  - (* it does not *)
    destruct found.
    + intros (t0 & Hb & Hin & Ht0 & Ha & Hmax). exists t0.
      split; [exact Hb|]. split; [apply in_app_iff; left; exact Hin|].
      split; [exact Ht0|]. split; [exact Ha|].
      intros t' Hin' Ht'. apply in_app_iff in Hin' as [Hin'|[<-|[]]]; [auto|].
      destruct Ht' as [_ Hi]. congruence.
    + intros (Hb & Ha & Hnone). split; [exact Hb|]. split; [exact Ha|].
      apply Hkeep; [exact Hnone|]. intros [_ Hi]. congruence.
  - (* the test raises: skipped *)
    destruct found.
    + intros (t0 & Hb & Hin & Ht0 & Ha & Hmax). exists t0.
      split; [exact Hb|]. split; [apply in_app_iff; left; exact Hin|].
      split; [exact Ht0|]. split; [exact Ha|].
      intros t' Hin' Ht'. apply in_app_iff in Hin' as [Hin'|[<-|[]]]; [auto|].
      destruct Ht' as [_ Hi]. congruence.
    + intros (Hb & Ha & Hnone). split; [exact Hb|]. split; [exact Ha|].
      apply Hkeep; [exact Hnone|]. intros [_ Hi]. congruence.
Qed.

Lemma touch_loop_inv (cands : list nat) :
  (forall t, In t cands -> - (1) < big_area t) ->
  (Consolidate.touch_inv intersects big_area s_idx) cands
    (fold_left (Consolidate.touch_step intersects big_area s_idx) cands
               (None, - (1), false)).
Proof.
  intros Hpos.
  assert (G : forall (l seen : list nat) (st : option nat * Q * bool),
             (forall t, In t l -> - (1) < big_area t) ->
             (Consolidate.touch_inv intersects big_area s_idx) seen st ->
             (Consolidate.touch_inv intersects big_area s_idx) (seen ++ l)
               (fold_left (Consolidate.touch_step intersects big_area s_idx) l st)).
  { induction l as [|t l IH]; intros seen st Hl Hst.
    - rewrite app_nil_r. exact Hst.
    - cbn [fold_left].
      replace (seen ++ t :: l)%list with ((seen ++ [t]) ++ l)%list
        by (rewrite <- app_assoc; reflexivity).
      apply IH; [intros t' Ht'; apply Hl; right; exact Ht'|].
      apply touch_step_inv; [apply Hl; left; reflexivity | exact Hst]. }
  apply (G cands [] (None, - (1), false) Hpos).
  unfold Consolidate.touch_inv. split; [reflexivity|]. split; [reflexivity|]. intros t' [].
Qed.

Lemma isclose_same (a b : Q) : a == b -> Consolidate.isclose a b = true.
Proof.
  intros E. unfold Consolidate.isclose. apply Qle_bool_iff.
  assert (Z0 : Qabs (a - b) == 0).
  { rewrite E. setoid_replace (b - b) with 0 by ring. reflexivity. }
  rewrite Z0. pose proof (Qabs_nonneg b). 
  assert (0 <= (1 # 100000) * Qabs b) by (apply Qmult_le_0_compat; [discriminate | assumption]).
  lra.
Qed.

Lemma near_step_inv (seen : list nat) (st : option nat * Q * option Q) (t : nat) :
  (forall t' d d', In t' seen -> (Consolidate.measured distance s_idx) t' d' -> (Consolidate.measured distance s_idx) t d ->
                   Consolidate.isclose d d' = true -> d == d') ->
  (Consolidate.near_inv distance big_area s_idx) seen st ->
  (Consolidate.near_inv distance big_area s_idx) (seen ++ [t]) (Consolidate.near_step distance big_area s_idx st t).
Proof.
  intros Hties. destruct st as [[bt ba] bd]. unfold Consolidate.near_inv, Consolidate.near_step.
  destruct (Nat.eqb_spec s_idx t) as [Heq|Hne].
  { destruct bd as [d|].
    - intros (t0 & Hb & Hin & Ht0 & Ha & Hmin). exists t0.
      split; [exact Hb|]. split; [apply in_app_iff; left; exact Hin|].
      split; [exact Ht0|]. split; [exact Ha|].
      intros t' d' Hin' Ht'. apply in_app_iff in Hin' as [Hin'|[<-|[]]]; [eauto|].
      destruct Ht' as [Hn _]. congruence.
    - intros (Hb & Hnone). split; [exact Hb|].
      intros t' d' Hin' Ht'. apply in_app_iff in Hin' as [Hin'|[<-|[]]];
        [exact (Hnone t' d' Hin' Ht')|].
      destruct Ht' as [Hn _]. congruence. }
  destruct (distance t) as [d2|e] eqn:Ed.
  2:{ destruct bd as [d|].
      - intros (t0 & Hb & Hin & Ht0 & Ha & Hmin). exists t0.
        split; [exact Hb|]. split; [apply in_app_iff; left; exact Hin|].
        split; [exact Ht0|]. split; [exact Ha|].
        intros t' d' Hin' Ht'. apply in_app_iff in Hin' as [Hin'|[<-|[]]]; [eauto|].
        destruct Ht' as [_ Hd]. congruence.
      - intros (Hb & Hnone). split; [exact Hb|].
        intros t' d' Hin' Ht'. apply in_app_iff in Hin' as [Hin'|[<-|[]]];
          [exact (Hnone t' d' Hin' Ht')|].
        destruct Ht' as [_ Hd]. congruence. }
  assert (Ht : (Consolidate.measured distance s_idx) t d2) by (split; [congruence | exact Ed]).
  destruct bd as [d|].
  - intros (t0 & Hb & Hin & Ht0 & Ha & Hmin).
    destruct (Qle_bool d d2) eqn:Ec; cbn [negb orb].
    + apply Qle_bool_iff in Ec.
      destruct (Consolidate.isclose d2 d && negb (Qle_bool (big_area t) ba)) eqn:Et.
      * (* a tie on the distance, and a larger area *)
        apply andb_true_iff in Et as [Hc Hgt].
        apply negb_true_iff, Qle_bool_false in Hgt.
        pose proof (Hties t0 d2 d Hin Ht0 Ht Hc) as Heq.
        exists t. split; [reflexivity|].
        split; [apply in_app_iff; right; left; reflexivity|].
        split; [exact Ht|]. split; [reflexivity|].
        intros t' d' Hin' Ht'. apply in_app_iff in Hin' as [Hin'|[<-|[]]].
        -- destruct (Hmin t' d' Hin' Ht') as [H1 H2]. split; [lra|].
           intros E. assert (E' : d' == d) by lra. specialize (H2 E'). lra.
        -- destruct Ht' as [_ Hd]. rewrite Ed in Hd. apply ok_inj in Hd. subst d'.
           split; [apply Qle_refl | intros _; apply Qle_refl].
      * (* neither closer nor a better tie *)
        exists t0. split; [exact Hb|]. split; [apply in_app_iff; left; exact Hin|].
        split; [exact Ht0|]. split; [exact Ha|].
        intros t' d' Hin' Ht'. apply in_app_iff in Hin' as [Hin'|[<-|[]]]; [eauto|].
        destruct Ht' as [_ Hd]. rewrite Ed in Hd. apply ok_inj in Hd. subst d'.
        split; [exact Ec|]. intros E.
        rewrite (isclose_same d2 d E) in Et. cbn [andb] in Et.
        apply negb_false_iff, Qle_bool_iff in Et. exact Et.
    + (* strictly closer *)
      apply Qle_bool_false in Ec. exists t. split; [reflexivity|].
      split; [apply in_app_iff; right; left; reflexivity|].
      split; [exact Ht|]. split; [reflexivity|].
      intros t' d' Hin' Ht'. apply in_app_iff in Hin' as [Hin'|[<-|[]]].
      * destruct (Hmin t' d' Hin' Ht') as [H1 _]. split; [lra | intros E; lra].
      * destruct Ht' as [_ Hd]. rewrite Ed in Hd. apply ok_inj in Hd. subst d'.
        split; [apply Qle_refl | intros _; apply Qle_refl].
  - intros (Hb & Hnone). cbn [orb]. exists t. split; [reflexivity|].
    split; [apply in_app_iff; right; left; reflexivity|].
    split; [exact Ht|]. split; [reflexivity|].
    intros t' d' Hin' Ht'. apply in_app_iff in Hin' as [Hin'|[<-|[]]].
    + exfalso. exact (Hnone t' d' Hin' Ht').
    + destruct Ht' as [_ Hd]. rewrite Ed in Hd. apply ok_inj in Hd. subst d'.
      split; [apply Qle_refl | intros _; apply Qle_refl].
Qed.

Lemma near_loop_inv (cands : list nat) :
  (forall t t' d d', In t cands -> In t' cands -> (Consolidate.measured distance s_idx) t d -> (Consolidate.measured distance s_idx) t' d' ->
                     Consolidate.isclose d d' = true -> d == d') ->
  (Consolidate.near_inv distance big_area s_idx) cands
    (fold_left (Consolidate.near_step distance big_area s_idx) cands
               (None, - (1), None)).
Proof.
  intros Hties.
  assert (G : forall (l seen : list nat) (st : option nat * Q * option Q),
             (forall t, In t (seen ++ l) -> In t cands) ->
             (Consolidate.near_inv distance big_area s_idx) seen st ->
             (Consolidate.near_inv distance big_area s_idx) (seen ++ l)
               (fold_left (Consolidate.near_step distance big_area s_idx) l st)).
  { induction l as [|t l IH]; intros seen st Hsub Hst.
    - rewrite app_nil_r. exact Hst.
    - cbn [fold_left].
      assert (E : (seen ++ t :: l)%list = ((seen ++ [t]) ++ l)%list)
        by (rewrite <- app_assoc; reflexivity).
      rewrite E. apply IH; [rewrite <- E; exact Hsub|].
      apply near_step_inv; [|exact Hst].
      intros t' d d' Hin' Hm' Hm Hc.
      apply (Hties t t' d d'); try assumption.
      + apply Hsub. apply in_app_iff. right. left. reflexivity.
      + apply Hsub. apply in_app_iff. left. exact Hin'. }
  apply (G cands [] (None, - (1), None)); [intros t Ht; exact Ht|].
  unfold Consolidate.near_inv. split; [reflexivity|]. intros t' d' [].
Qed.

(** X26. When the small feature intersects some candidate, the target is
    a candidate it intersects, other than the feature itself, and no candidate
    it intersects has a larger area: the distances are not looked at. *)
Theorem pick_target_touching (cands : list nat) :
  (forall t, In t cands -> 0 <= big_area t) ->
  (exists t, In t cands /\ t <> s_idx /\ intersects t = Ok true) ->
  exists t,
    Consolidate.pick_target intersects distance big_area s_idx cands = Some t
    /\ In t cands /\ t <> s_idx /\ intersects t = Ok true
    /\ forall t', In t' cands -> t' <> s_idx -> intersects t' = Ok true ->
                  big_area t' <= big_area t.
Proof.
  intros Hpos (t1 & Hin1 & Hne1 & Hi1).
  assert (Hpos' : forall t, In t cands -> - (1) < big_area t).
  { intros t Ht. specialize (Hpos t Ht). lra. }
  pose proof (touch_loop_inv cands Hpos') as Hinv.
  unfold Consolidate.pick_target.
  destruct (fold_left _ cands (None, - (1), false)) as [[bt ba] found].
  unfold Consolidate.touch_inv in Hinv. destruct found.
  - destruct Hinv as (t & Hb & Hin & [Hne Hi] & Ha & Hmax). subst bt ba.
    exists t. repeat split; try assumption.
    intros t' Hin' Hne' Hi'. apply Hmax; [exact Hin' | split; assumption].
  - destruct Hinv as (_ & _ & Hnone). exfalso.
    apply (Hnone t1 Hin1). split; assumption.
Qed.

(** X27. When the small feature intersects no candidate, the target is a
    candidate at the least distance, the largest in area among the candidates
    at that distance; this holds when two distances that [np.isclose] takes
    for equal are equal. *)
Theorem pick_target_nearest (cands : list nat) :
  (forall t, In t cands -> t <> s_idx -> intersects t <> Ok true) ->
  (forall t t' d d', In t cands -> In t' cands ->
                     distance t = Ok d -> distance t' = Ok d' ->
                     Consolidate.isclose d d' = true -> d == d') ->
  (exists t d, In t cands /\ t <> s_idx /\ distance t = Ok d) ->
  exists t d,
    Consolidate.pick_target intersects distance big_area s_idx cands = Some t
    /\ In t cands /\ t <> s_idx /\ distance t = Ok d
    /\ forall t' d', In t' cands -> t' <> s_idx -> distance t' = Ok d' ->
                     d <= d' /\ (d' == d -> big_area t' <= big_area t).
Proof.
  intros Hnone Hties (t1 & d1 & Hin1 & Hne1 & Hd1).
  unfold Consolidate.pick_target.
  assert (Hfirst : forall (l : list nat) (st : option nat * Q * bool),
             (forall t, In t l -> t <> s_idx -> intersects t <> Ok true) ->
             snd st = false ->
             snd (fold_left (Consolidate.touch_step intersects big_area s_idx) l st)
             = false).
  { induction l as [|t l IH]; intros st Hl Hst; [exact Hst|].
    cbn [fold_left]. apply IH; [intros t' Ht'; apply Hl; right; exact Ht'|].
    destruct st as [[bt ba] found]. cbn [snd] in Hst. subst found.
    unfold Consolidate.touch_step.
    destruct (Nat.eqb_spec s_idx t) as [Heq|Hne]; [reflexivity|].
    destruct (intersects t) as [[|]|e] eqn:Ei; try reflexivity.
    exfalso. apply (Hl t (or_introl eq_refl)); [congruence | exact Ei]. }
  specialize (Hfirst cands (None, - (1), false) Hnone eq_refl).
  destruct (fold_left _ cands (None, - (1), false)) as [[bt ba] found].
  cbn [snd] in Hfirst. subst found.
  assert (Hties' : forall t t' d d', In t cands -> In t' cands ->
                     (Consolidate.measured distance s_idx) t d -> (Consolidate.measured distance s_idx) t' d' ->
                     Consolidate.isclose d d' = true -> d == d').
  { intros t t' d d' Hin Hin' [_ Hd] [_ Hd']. apply (Hties t t'); assumption. }
  pose proof (near_loop_inv cands Hties') as Hinv.
  destruct (fold_left _ cands (None, - (1), None)) as [[nt na] nd].
  unfold Consolidate.near_inv in Hinv. destruct nd as [d|].
  - destruct Hinv as (t & Hb & Hin & [Hne Hd] & Ha & Hmin). subst nt na.
    exists t, d. repeat split; try assumption.
    + apply (Hmin t' d' H). split; assumption.
    + apply (Hmin t' d' H). split; assumption.
  - destruct Hinv as (_ & Hno). exfalso.
    apply (Hno t1 d1 Hin1). split; assumption.
Qed.

End SelectFacts.

Lemma pick_target_touching_witness :
  let intersects := fun t : nat =>
    match t with
    | 1%nat => Ok true | 2%nat => Err ValueError | 3%nat => Ok true | _ => Ok false
    end in
  let big_area := fun t : nat => inject_Z (Z.of_nat t) * 10 in
  (forall t, In t [1; 2; 3; 4]%nat -> 0 <= big_area t)
  /\ (exists t, In t [1; 2; 3; 4]%nat /\ t <> 0%nat /\ intersects t = Ok true)
  /\ exists t,
       Consolidate.pick_target intersects (fun _ => Ok 1) big_area 0 [1; 2; 3; 4]%nat
       = Some t
       /\ intersects t = Ok true.
Proof.
  intros intersects big_area.
  assert (H1 : forall t, In t [1; 2; 3; 4]%nat -> 0 <= big_area t).
  { intros t Ht. unfold big_area. cbn in Ht.
    repeat (destruct Ht as [<- | Ht]; [discriminate|]). destruct Ht. }
  assert (H2 : exists t, In t [1; 2; 3; 4]%nat /\ t <> 0%nat /\ intersects t = Ok true).
  { exists 1%nat. split; [left; reflexivity|]. split; [discriminate | reflexivity]. }
  split; [exact H1|]. split; [exact H2|].
  destruct (pick_target_touching intersects (fun _ => Ok 1) big_area 0%nat
              [1; 2; 3; 4]%nat H1 H2) as (t & Hp & _ & _ & Hi & _).
  exists t. split; assumption.
Defined.

Lemma pick_target_nearest_witness :
  let distance := fun t : nat =>
    match t with
    | 1%nat => Ok 5 | 2%nat => Ok 3 | 3%nat => Err ValueError | _ => Ok 7
    end in
  (forall t, In t [1; 2; 3]%nat -> t <> 0%nat -> (fun _ : nat => Ok false) t <> Ok true)
  /\ (exists t d, In t [1; 2; 3]%nat /\ t <> 0%nat /\ distance t = Ok d)
  /\ exists t d,
       Consolidate.pick_target (fun _ => Ok false) distance (fun _ => 1) 0 [1; 2; 3]%nat
       = Some t
       /\ distance t = Ok d.
Proof.
  intros distance.
  assert (H1 : forall t, In t [1; 2; 3]%nat -> t <> 0%nat ->
                         (fun _ : nat => Ok false) t <> Ok true)
    by (intros t _ _; discriminate).
  assert (H2 : forall t t' d d', In t [1; 2; 3]%nat -> In t' [1; 2; 3]%nat ->
                 distance t = Ok d -> distance t' = Ok d' ->
                 Consolidate.isclose d d' = true -> d == d').
  { intros t t' d d' Ht Ht' Hd Hd' Hc. cbn in Ht, Ht'.
    repeat (destruct Ht as [<- | Ht]; [|]); try destruct Ht;
      repeat (destruct Ht' as [<- | Ht']; [|]); try destruct Ht';
      cbn in Hd, Hd'; try discriminate Hd; try discriminate Hd';
      apply ok_inj in Hd; apply ok_inj in Hd'; subst d d';
      first [reflexivity | discriminate Hc]. }
  assert (H3 : exists t d, In t [1; 2; 3]%nat /\ t <> 0%nat /\ distance t = Ok d).
  { exists 1%nat, 5. split; [left; reflexivity|]. split; [discriminate | reflexivity]. }
  split; [exact H1|]. split; [exact H3|].
  destruct (pick_target_nearest (fun _ => Ok false) distance (fun _ => 1) 0%nat
              [1; 2; 3]%nat H1 H2 H3) as (t & d & Hp & _ & _ & Hd & _).
  exists t, d. split; assumption.
Defined.

(** *** When every feature is small *)

Lemma idxmax_from_spec (l : list Q) :
  forall (i : nat) (best : nat * Q) (seen : list Q),
    List.length seen = i ->
    nth_error seen (fst best) = Some (snd best) ->
    (forall j a, nth_error seen j = Some a -> a <= snd best) ->
    (forall j a, (j < fst best)%nat -> nth_error seen j = Some a -> a < snd best) ->
    let k := Consolidate.idxmax_from i best l in
    exists m,
      nth_error (seen ++ l) k = Some m
      /\ (forall j a, nth_error (seen ++ l) j = Some a -> a <= m)
      /\ (forall j a, (j < k)%nat -> nth_error (seen ++ l) j = Some a -> a < m).
Proof.
  induction l as [|x l IH]; intros i best seen Hlen Hbest Hmax Hfirst.
  - cbn [Consolidate.idxmax_from]. rewrite app_nil_r. exists (snd best). auto.
  - cbn [Consolidate.idxmax_from].
    assert (E : (seen ++ x :: l)%list = ((seen ++ [x]) ++ l)%list)
      by (rewrite <- app_assoc; reflexivity).
    rewrite E.
    assert (Hnth : forall j a, nth_error (seen ++ [x]) j = Some a ->
                     ((j < i)%nat /\ nth_error seen j = Some a) \/ (j = i /\ a = x)).
    { intros j a Hj. destruct (Nat.lt_ge_cases j i) as [Hlt|Hge].
      - left. split; [exact Hlt|]. rewrite nth_error_app1 in Hj by lia. exact Hj.
      - right. rewrite nth_error_app2 in Hj by lia.
        destruct (j - List.length seen)%nat as [|n] eqn:En.
        + cbn in Hj. split; [lia | congruence].
        + cbn in Hj. destruct n; discriminate Hj. }
    assert (Hbi : (fst best < i)%nat).
    { rewrite <- Hlen. apply nth_error_Some. congruence. }
    destruct (Qle_bool x (snd best)) eqn:Ec.
    + apply Qle_bool_iff in Ec.
      apply IH.
      * rewrite List.length_app. cbn. lia.
      * rewrite nth_error_app1 by lia. exact Hbest.
      * intros j a Hj. destruct (Hnth j a Hj) as [[_ H]|[_ ->]]; [eauto | exact Ec].
      * intros j a Hlt Hj. destruct (Hnth j a Hj) as [[_ H]|[-> _]]; [eauto | lia].
    + apply Qle_bool_false in Ec. cbn [fst snd] in *.
      apply IH.
      * rewrite List.length_app. cbn. lia.
      * cbn [fst snd]. rewrite nth_error_app2 by lia.
        rewrite Hlen, Nat.sub_diag. reflexivity.
      * cbn [snd]. intros j a Hj.
        destruct (Hnth j a Hj) as [[_ H]|[_ ->]]; [|apply Qle_refl].
        specialize (Hmax j a H). lra.
      * cbn [fst snd]. intros j a Hlt Hj.
        destruct (Hnth j a Hj) as [[_ H]|[-> _]]; [|lia].
        specialize (Hmax j a H). lra.
Qed.

(** X28. When every feature is below the threshold, consolidation keeps
    one feature, the largest one (the first of them if several are as large),
    and merges every other small feature into it: the features dropped are
    exactly the small ones other than the target. *)
Theorem all_small_plan_spec (area_s : list Q) (small_idx : list nat) :
  area_s <> [] ->
  exists (tgt : nat) (m : Q) (dropped : list nat),
    Consolidate.all_small_plan area_s small_idx = Ok (tgt, dropped)
    /\ nth_error area_s tgt = Some m
    /\ (forall j a, nth_error area_s j = Some a -> a <= m)
    /\ (forall j a, (j < tgt)%nat -> nth_error area_s j = Some a -> a < m)
    /\ (forall s, In s dropped <-> In s small_idx /\ s <> tgt).
Proof.
  intros Hne. destruct area_s as [|a l]; [congruence|].
  unfold Consolidate.all_small_plan, Consolidate.idxmax. cbn [bind].
  destruct (idxmax_from_spec l 1 (0%nat, a) [a] eq_refl eq_refl) as (m & H1 & H2 & H3).
  - intros j x Hj. destruct j as [|[|j]]; cbn in Hj; try discriminate Hj.
    injection Hj as <-. apply Qle_refl.
  - intros j x Hlt. cbn in Hlt. lia.
  - cbn [app] in H1, H2, H3.
    exists (Consolidate.idxmax_from 1 (0%nat, a) l), m. eexists.
    split; [reflexivity|]. split; [exact H1|]. split; [exact H2|]. split; [exact H3|].
    intros s. rewrite filter_In, negb_true_iff, Nat.eqb_neq. tauto.
Qed.

Lemma all_small_plan_spec_witness :
  [3; 7; 7; 2] <> []
  /\ Consolidate.all_small_plan [3; 7; 7; 2] [0; 1; 2; 3]%nat
     = Ok (1%nat, [0; 2; 3]%nat)
  /\ exists (tgt : nat) (m : Q) (dropped : list nat),
       Consolidate.all_small_plan [3; 7; 7; 2] [0; 1; 2; 3]%nat = Ok (tgt, dropped)
       /\ nth_error [3; 7; 7; 2] tgt = Some m.
Proof.
  split; [discriminate|]. split; [reflexivity|].
  destruct (all_small_plan_spec [3; 7; 7; 2] [0; 1; 2; 3]%nat ltac:(discriminate))
    as (tgt & m & dropped & H & Hn & _).
  exists tgt, m, dropped. split; assumption.
Defined.

(** ** Style colours by unit code *)

Lemma dict_set_key_in (d : list (string * string)) (k v k' : string) :
  In k' (map fst (AgeColor.dict_set d k v)) <-> k' = k \/ In k' (map fst d).
Proof.
  rewrite dict_set_keys.
  destruct (in_dec String.string_dec k (map fst d)) as [i|n].
  - split; [auto|]. intros [-> | H]; assumption.
  - rewrite in_app_iff. simpl. split; [intros [H|[H|[]]]; auto | intros [H|H]; auto].
Qed.

Lemma dict_set_fold_keys (mp m : list (string * string)) (k' : string) :
  In k' (map fst (fold_left (fun m kv => AgeColor.dict_set m (fst kv) (snd kv)) mp m))
  <-> In k' (map fst mp) \/ In k' (map fst m).
Proof.
  revert m. induction mp as [|[k v] mp IH]; intros m; cbn [fold_left map fst snd].
  - simpl. tauto.
  - rewrite IH, dict_set_key_in. simpl. split; intros H; intuition.
Qed.

Lemma normalize_palette_keys (mp : Qml.palette) (k v : string) :
  In (k, v) mp -> In (Py.upper k) (map fst (Qml.normalize_palette mp)).
Proof.
  unfold Qml.normalize_palette.
  assert (G : forall (l acc : Qml.palette),
             In (Py.upper k) (map fst acc) \/ In (k, v) l ->
             In (Py.upper k)
                (map fst (fold_left
                            (fun norm_mp kv =>
                               let '(k0, v0) := kv in
                               AgeColor.dict_set
                                 (AgeColor.dict_set (AgeColor.dict_set norm_mp k0 v0)
                                                    (Py.upper k0) v0)
                                 (Py.lower k0) v0) l acc))).
  { induction l as [|[k0 v0] l IH]; intros acc H; cbn [fold_left].
    - destruct H as [H|[]]. exact H.
    - apply IH. destruct H as [H|[H|H]].
      + left. rewrite !dict_set_key_in. auto.
      + injection H as -> ->. left. rewrite !dict_set_key_in. auto.
      + right. exact H. }
  intros H. apply G. right. exact H.
Qed.

(** X29. After a palette has been loaded with case normalisation, every
    case variant of one of its keys gets a colour: the lookup of a unit code
    whose upper-case form is that of a key of the palette returns the colour
    that the map holds under a key with this upper-case form, never the empty
    default of a missing key. *)
Theorem lookup_case_variant (sigla_color_map mp : Qml.palette) (sigla k v : string) :
  In (k, v) mp -> Py.upper sigla = Py.upper k ->
  let m := Qml.load_palette true sigla_color_map mp in
  exists k',
    Sigla.dict_get k' m = Some (Qml._lookup_sigla_color m sigla)
    /\ Py.upper k' = Py.upper sigla.
Proof.
  intros Hin Hup m.
  assert (Hkey : In (Py.upper sigla) (map fst m)).
  { unfold m, Qml.load_palette. destruct mp as [|p mp']; [destruct Hin|].
    apply dict_set_fold_keys. left. rewrite Hup.
    exact (normalize_palette_keys _ k v Hin). }
  destruct (dict_get_key _ _ Hkey) as (c & Hc & _).
  unfold Qml._lookup_sigla_color.
  destruct m as [|p m']; [destruct Hkey|].
  destruct (Sigla.dict_get sigla (p :: m')) as [c0|] eqn:E0.
  - exists sigla. split; [exact E0 | reflexivity].
  - rewrite Hc. exists (Py.upper sigla). split; [exact Hc | apply upper_idem].
Qed.

Lemma lookup_case_variant_witness :
  In ("NP3_gamma", "#AA5500") [("NP3_gamma", "#AA5500")]
  /\ Py.upper "np3_GAMMA" = Py.upper "NP3_gamma"
  /\ Qml._lookup_sigla_color
       (Qml.load_palette true [] [("NP3_gamma", "#AA5500")]) "np3_GAMMA" = "#AA5500"
  /\ exists k',
       Sigla.dict_get k' (Qml.load_palette true [] [("NP3_gamma", "#AA5500")])
       = Some (Qml._lookup_sigla_color
                 (Qml.load_palette true [] [("NP3_gamma", "#AA5500")]) "np3_GAMMA").
Proof.
  split; [left; reflexivity|]. split; [reflexivity|]. split; [reflexivity|].
  destruct (lookup_case_variant [] [("NP3_gamma", "#AA5500")] "np3_GAMMA"
              "NP3_gamma" "#AA5500" (or_introl eq_refl) eq_refl) as (k' & H & _).
  exists k'. exact H.
Defined.

(** ** The weighted mix stays within its colours *)

Lemma round_half_even_between (q : Q) (lo hi : Z) :
  inject_Z lo <= q -> q <= inject_Z hi ->
  (lo <= Color.round_half_even q <= hi)%Z.
Proof.
  intros Hlo Hhi.
  assert (F1 : (lo <= Qfloor q)%Z).
  { rewrite <- (Qfloor_Z lo). apply Qfloor_resp_le. exact Hlo. }
  assert (F2 : (Qfloor q <= hi)%Z).
  { rewrite <- (Qfloor_Z hi). apply Qfloor_resp_le. exact Hhi. }
  assert (Up : 0 < q - inject_Z (Qfloor q) -> (Qfloor q + 1 <= hi)%Z).
  { intros Hd. assert (Hlt : inject_Z (Qfloor q) < inject_Z hi) by lra.
    rewrite <- Zlt_Qlt in Hlt. lia. }
  unfold Color.round_half_even.
  destruct (q - inject_Z (Qfloor q) ?= 1 # 2)%Q eqn:E.
  - apply Qeq_alt in E. destruct (Z.even (Qfloor q)); [lia|].
    assert (Hd : 0 < q - inject_Z (Qfloor q)) by (rewrite E; reflexivity).
    specialize (Up Hd). lia.
  - lia.
  - apply Qgt_alt in E.
    assert (Hd : 0 < q - inject_Z (Qfloor q))
      by (apply Qlt_trans with (1 # 2); [reflexivity | exact E]).
    specialize (Up Hd). lia.
Qed.

Lemma fold_Qplus_acc (l : list Q) (acc : Q) :
  fold_left Qplus l acc == acc + fold_left Qplus l 0.
Proof.
  revert acc. induction l as [|x l IH]; intros acc; cbn [fold_left]; [ring|].
  rewrite (IH (acc + x)), (IH (0 + x)). ring.
Qed.

Lemma sumQ_cons (x : Q) (l : list Q) : Color.sumQ (x :: l) == x + Color.sumQ l.
Proof.
  unfold Color.sumQ. cbn [fold_left]. rewrite fold_Qplus_acc. ring.
Qed.

(** The terms of a channel sum, when each colour's channel lies between
    two bounds and each weight is positive. *)
Lemma channel_terms_between (f : Color.rgb -> Z) (lo hi : Z) (pairs : list (string * Q)) :
  Forall (fun p => 0 < snd p
                   /\ exists x, Color._hex_to_rgb (fst p) = Ok x /\ (lo <= f x <= hi)%Z)
         pairs ->
  exists terms : list Q,
    map_result (Color.channel_term f) pairs = Ok terms
    /\ inject_Z lo * Color.sumQ (map snd pairs) <= Color.sumQ terms
    /\ Color.sumQ terms <= inject_Z hi * Color.sumQ (map snd pairs).
Proof.
  induction 1 as [|[c w] pairs (Hw & x & Hx & Hb) _ IH].
  - exists []. split; [reflexivity|]. unfold Color.sumQ. cbn. split; lra.
  - destruct IH as (terms & Ht & L & U). cbn [fst snd] in *.
    exists ((inject_Z (f x) * w)%Q :: terms). split.
    + cbn [map_result]. rewrite channel_term_eq. cbn [fst snd]. rewrite Hx.
      unfold bind at 1. rewrite Ht. reflexivity.
    + cbn [map snd]. rewrite !sumQ_cons.
      assert (B1 : inject_Z lo * w <= inject_Z (f x) * w).
      { apply Qmult_le_compat_r; [rewrite <- Zle_Qle; lia | lra]. }
      assert (B2 : inject_Z (f x) * w <= inject_Z hi * w).
      { apply Qmult_le_compat_r; [rewrite <- Zle_Qle; lia | lra]. }
      split; lra.
Qed.

Lemma channel_mean_between (f : Color.rgb -> Z) (lo hi : Z) (pairs : list (string * Q)) :
  Forall (fun p => 0 < snd p
                   /\ exists x, Color._hex_to_rgb (fst p) = Ok x /\ (lo <= f x <= hi)%Z)
         pairs ->
  0 < Color.sumQ (map snd pairs) ->
  exists v : Z,
    Color.channel_mean pairs (Color.sumQ (map snd pairs)) f = Ok v
    /\ (lo <= v <= hi)%Z.
Proof.
  intros H Hpos. destruct (channel_terms_between f lo hi pairs H) as (terms & Ht & L & U).
  unfold Color.channel_mean. rewrite Ht. cbn [bind].
  eexists. split; [reflexivity|].
  apply round_half_even_between.
  - apply Qle_shift_div_l; [exact Hpos | exact L].
  - apply Qle_shift_div_r; [exact Hpos | exact U].
Qed.

(** X30. Each channel of the weighted mix lies between the least and the
    greatest value of that channel among the colours that count (non-empty,
    with a positive weight), when these colours are canonical: the mix never
    raises and never leaves the range of its colours. *)
Theorem mix_weighted_between (cs : list string) (ws : list Q)
        (R0 R1 G0 G1 B0 B1 : Z) :
  Color.weighted_pairs cs ws <> [] ->
  (forall c w, In (c, w) (Color.weighted_pairs cs ws) -> Color.is_canonical c = true) ->
  (forall c w r g b, In (c, w) (Color.weighted_pairs cs ws) ->
     Color._hex_to_rgb c = Ok (r, g, b) ->
     (R0 <= r <= R1)%Z /\ (G0 <= g <= G1)%Z /\ (B0 <= b <= B1)%Z) ->
  exists (s : string) (r g b : Z),
    Color.mix_weighted cs ws = Ok s
    /\ Color._hex_to_rgb s = Ok (r, g, b)
    /\ (R0 <= r <= R1)%Z /\ (G0 <= g <= G1)%Z /\ (B0 <= b <= B1)%Z.
Proof.
  intros Hne Hcanon Hbound.
  set (pairs := Color.weighted_pairs cs ws) in *.
  assert (Hpos : 0 < Color.sumQ (map snd pairs)).
  { apply sumQ_pos.
    - intros E. apply map_eq_nil in E. contradiction.
    - apply Forall_forall. intros w Hw. apply in_map_iff in Hw.
      destruct Hw as ([c' w'] & <- & Hp).
      destruct (weighted_pairs_in _ _ _ _ Hp) as (_ & _ & Hw & _). exact Hw. }
  assert (Hall : forall (f : Color.rgb -> Z) (lo hi : Z),
             (forall r g b, (0 <= r <= 255 -> 0 <= g <= 255 -> 0 <= b <= 255 ->
                             0 <= f (r, g, b) <= 255)%Z) ->
             (forall c w r g b, In (c, w) pairs -> Color._hex_to_rgb c = Ok (r, g, b) ->
                                (lo <= f (r, g, b) <= hi)%Z) ->
             exists v : Z,
               Color.channel_mean pairs (Color.sumQ (map snd pairs)) f = Ok v
               /\ (lo <= v <= hi)%Z /\ (0 <= v <= 255)%Z).
  { intros f lo hi Hrange Hf.
    destruct (channel_mean_between f (Z.max lo 0) (Z.min hi 255) pairs) as (v & Hv & Hb).
    - apply Forall_forall. intros [c w] Hp. cbn [fst snd].
      destruct (weighted_pairs_in _ _ _ _ Hp) as (_ & _ & Hw & _).
      split; [exact Hw|].
      destruct (canonical_parse c (Hcanon c w Hp)) as (r & g & b & P & Rr & Rg & Rb & _).
      exists (r, g, b). split; [exact P|].
      specialize (Hf c w r g b Hp P). specialize (Hrange r g b Rr Rg Rb). lia.
    - exact Hpos.
    - exists v. split; [exact Hv|]. lia. }
  destruct (Hall (fun c => fst (fst c)) R0 R1) as (vr & Er & Br & Cr).
  { intros; cbn [fst]; assumption. }
  { intros c w r g b Hp P. cbn [fst]. apply (Hbound c w r g b Hp P). }
  destruct (Hall (fun c => snd (fst c)) G0 G1) as (vg & Eg & Bg & Cg).
  { intros; cbn [fst snd]; assumption. }
  { intros c w r g b Hp P. cbn [fst snd]. apply (Hbound c w r g b Hp P). }
  destruct (Hall (fun c => snd c) B0 B1) as (vb & Eb & Bb & Cb).
  { intros; cbn [snd]; assumption. }
  { intros c w r g b Hp P. cbn [snd]. apply (Hbound c w r g b Hp P). }
  exists (Color._rgb_to_hex (vr, vg, vb)), vr, vg, vb.
  split.
  - unfold Color.mix_weighted. fold pairs.
    destruct pairs as [|p rest] eqn:Ep; [congruence|].
    unfold Color.mix_pairs.
    assert (Hb : Qle_bool (Color.sumQ (map snd (p :: rest))) 0 = false).
    { apply not_true_is_false. intros Hle. apply Qle_bool_iff in Hle. lra. }
    rewrite Hb, Er, Eg, Eb. reflexivity.
  - split; [|auto].
    rewrite hex_to_rgb_of_rgb_to_hex, !clamp255_id by assumption. reflexivity.
Qed.

Lemma mix_weighted_between_witness :
  Color.weighted_pairs ["#CD5C5C"; ""; "#FFCC66"] [1; 5; 3] <> []
  /\ exists (s : string) (r g b : Z),
       Color.mix_weighted ["#CD5C5C"; ""; "#FFCC66"] [1; 5; 3] = Ok s
       /\ Color._hex_to_rgb s = Ok (r, g, b)
       /\ (205 <= r <= 255)%Z /\ (92 <= g <= 204)%Z /\ (92 <= b <= 102)%Z.
Proof.
  split; [discriminate|].
  apply mix_weighted_between; [discriminate | |].
  - intros c w H. cbn in H.
    destruct H as [H|[H|[]]]; injection H as <- _; reflexivity.
  - intros c w r g b H P. cbn in H.
    destruct H as [H|[H|[]]]; injection H as <- _;
      vm_compute in P; apply ok_inj in P; injection P as <- <- <-; lia.
Defined.
